(** * Code knowledge graph and hybrid retrieval (daneel.data.graph_rag)

    A shallow embedding of the graph store ([graph.py]), the search index
    adapter ([hybrid_search.py], [postgres/models.py]), the indexer
    ([code_indexing.py]), the retrieval engine ([graph_rag/__init__.py]),
    the ingest endpoint ([serving.py]), the block patterns
    ([utils/glob_match.py]) and the scopes of the syntax tree
    ([analysis/location.py], [analysis/scopes.py]), followed by the
    properties established for them.

    Conventions.  Python [int] is [Z]; [Optional[T]] is [option T]; a [str]
    is a [string] with one [ascii] per character, the character's code
    point (so the texts covered are those with code points below 256; the
    line boundary U+0085 and the no-break space U+00A0 are among them); a
    [float] that is only compared, added or divided is an exact rational
    [Q]; a [dict] whose iteration order matters is an association list in
    insertion order; a Python exception is a constructor of [exn] carried
    by [result]; [Hangs] is not an exception but marks a coroutine that is
    never resumed. *)

From Stdlib Require Import List String Ascii Bool Arith ZArith QArith Lia Lqa.
From Stdlib Require Import DecimalString DecimalZ DecimalPos Sorting.Sorted.
Import ListNotations.

Local Close Scope Q_scope.
Local Open Scope string_scope.
Local Open Scope list_scope.

(** ** Exceptions and fallible computations *)

Inductive exn : Type :=
| KeyError
| ValueError
| IndexError
| TypeError
| OverflowError
| RetriesExceeded
| StopAsyncIteration
| FileNotFoundError
| BackendError
| DatabaseError
| Hangs.

Inductive result (A : Type) : Type :=
| Ok (a : A)
| Raise (e : exn).
Arguments Ok {A} a.
Arguments Raise {A} e.

Definition bind {A B} (r : result A) (k : A -> result B) : result B :=
  match r with
  | Ok a => k a
  | Raise e => Raise e
  end.

Declare Scope result_scope.
Delimit Scope result_scope with result.
Notation "x <- r ;; k" := (bind r (fun x => k))
  (at level 61, r at next level, right associativity) : result_scope.
Local Open Scope result_scope.

Fixpoint mapM {A B} (f : A -> result B) (l : list A) : result (list B) :=
  match l with
  | [] => Ok []
  | a :: l' => b <- f a ;; bs <- mapM f l' ;; Ok (b :: bs)
  end.

(** ** Python built-ins used by the sources *)

Module Py.

(** [str(n)] and [int(s)] for integers.  [int_of_str] accepts an optional
    minus sign followed by decimal digits, which covers every string that
    [str] produces.  [int] accepts more (surrounding whitespace, a plus
    sign, underscores between digits): on those strings [int_of_str]
    raises [ValueError], so what is proved of the strings it accepts is
    proved of fewer strings than [int] accepts. *)
Definition str_of_int (n : Z) : string :=
  NilZero.string_of_int (Z.to_int n).

Definition int_of_str (s : string) : result Z :=
  match NilZero.int_of_string s with
  | Some d => Ok (Z.of_int d)
  | None => Raise ValueError
  end.

(** [str(x)] for an [Optional[int]]: [str(None)] is ["None"]. *)
Definition str_of_opt_int (o : option Z) : string :=
  match o with
  | Some n => str_of_int n
  | None => "None"
  end.

(** [len(s)] *)
Definition len (s : string) : Z := Z.of_nat (String.length s).

(** Truthiness of a string: only the empty string is falsy. *)
Definition truthy (s : string) : bool :=
  match s with
  | EmptyString => false
  | String _ _ => true
  end.

(** [sep.join(parts)] *)
Fixpoint join (sep : string) (parts : list string) : string :=
  match parts with
  | [] => ""
  | [p] => p
  | p :: ps => p ++ sep ++ join sep ps
  end.

(** [l[start:stop]] with Python's treatment of negative and
    out-of-range bounds. *)
Definition clamp_index (n : Z) (i : Z) : Z :=
  if (i <? 0)%Z then Z.max (i + n) 0 else Z.min i n.

Definition slice {A} (l : list A) (start stop : Z) : list A :=
  let n := Z.of_nat (List.length l) in
  let a := clamp_index n start in
  let b := clamp_index n stop in
  firstn (Z.to_nat (b - a)) (skipn (Z.to_nat a) l).

(** [s.split(sep)[0]] for a one-character separator: the text before the
    first occurrence of [sep], or all of [s]. *)
Fixpoint split_head (sep : ascii) (s : string) : string :=
  match s with
  | EmptyString => EmptyString
  | String c s' =>
      if Ascii.eqb c sep then EmptyString else String c (split_head sep s')
  end.

(** [needle in haystack] for strings. *)
Fixpoint contains (needle haystack : string) : bool :=
  String.prefix needle haystack ||
  match haystack with
  | EmptyString => false
  | String _ h' => contains needle h'
  end.

(** A [dict[str, str]] as produced and consumed by the JSON callbacks. *)
Definition sdict := list (string * string).

Fixpoint get (d : sdict) (k : string) : option string :=
  match d with
  | [] => None
  | (k', v) :: d' => if String.eqb k' k then Some v else get d' k
  end.

(** [d[k]] *)
Definition item (d : sdict) (k : string) : result string :=
  match get d k with
  | Some v => Ok v
  | None => Raise KeyError
  end.

(** [d.get(k, default)] *)
Definition get_default (d : sdict) (k : string) (default : string) : string :=
  match get d k with
  | Some v => v
  | None => default
  end.

End Py.

(** ** graph.py *)

Module Graph.

Inductive KGNodeType : Type := FILE | CLASS | FUNCTION.

(** [KGNodeType.<x>.name] and [KGNodeType[name]] *)
Definition type_name (t : KGNodeType) : string :=
  match t with
  | FILE => "FILE"
  | CLASS => "CLASS"
  | FUNCTION => "FUNCTION"
  end.

Definition type_of_name (s : string) : result KGNodeType :=
  if String.eqb s "FILE" then Ok FILE
  else if String.eqb s "CLASS" then Ok CLASS
  else if String.eqb s "FUNCTION" then Ok FUNCTION
  else Raise KeyError.

Record KGNode : Type := mkKGNode {
  type : KGNodeType;
  symbol : string;
  file_name : string;
  line : Z;
  end_line : option Z;
  db_id : option Z;
  id : option Z
}.

(** [KGNode.str_dict] *)
Definition str_dict (n : KGNode) : Py.sdict :=
  [ ("type", type_name (type n));
    ("symbol", symbol n);
    ("file_name", file_name n);
    ("line", Py.str_of_int (line n));
    ("end_line", Py.str_of_opt_int (end_line n));
    ("db_id", Py.str_of_opt_int (db_id n));
    ("id", Py.str_of_opt_int (id n)) ].

(** [int(s) if s != "None" else None] *)
Definition opt_int_of_str (s : string) : result (option Z) :=
  if String.eqb s "None" then Ok None
  else n <- Py.int_of_str s ;; Ok (Some n).

(** [KGNode.from_str_dict] *)
Definition from_str_dict (d : Py.sdict) : result KGNode :=
  ty_s <- Py.item d "type" ;;
  ty <- type_of_name ty_s ;;
  sym <- Py.item d "symbol" ;;
  fname <- Py.item d "file_name" ;;
  ln <- Py.int_of_str (Py.get_default d "line" "0") ;;
  eln <- opt_int_of_str (Py.get_default d "end_line" "None") ;;
  dbs <- Py.item d "db_id" ;;
  dbi <- opt_int_of_str dbs ;;
  ids <- Py.item d "id" ;;
  i <- opt_int_of_str ids ;;
  Ok (mkKGNode ty sym fname ln eln dbi i).

(** Edge payloads are dictionaries.  Every edge built in this code base
    carries ["type"]; ["reverse"], ["src_file"], ["target_file"] and
    ["idx"] are present on some edges only. *)
Record EdgeAttrs : Type := mkEdgeAttrs {
  e_type : string;
  e_reverse : option bool;
  e_src_file : option string;
  e_target_file : option string;
  e_idx : option nat
}.

(** [rx.PyDiGraph(multigraph=True)]: a stable-index directed multigraph.
    Nodes are listed by increasing index and edges in edge-index order;
    a removed node index no longer occurs and waits in [free_nodes] to be
    handed out again by the next [add_node]. *)
Record Edge : Type := mkEdge {
  source : nat;
  target : nat;
  attrs : EdgeAttrs
}.

Record PyDiGraph : Type := mkGraph {
  node_list : list (nat * KGNode);
  free_nodes : list nat;
  edge_list : list Edge
}.

(** [init_graph()] *)
Definition init_graph : PyDiGraph := mkGraph [] [] [].

(** [digraph.nodes()] *)
Definition nodes (g : PyDiGraph) : list KGNode := map snd (node_list g).

(** [digraph.node_indices()] *)
Definition node_indices (g : PyDiGraph) : list nat := map fst (node_list g).

Fixpoint lookup_node (l : list (nat * KGNode)) (i : nat) : option KGNode :=
  match l with
  | [] => None
  | (j, n) :: l' => if Nat.eqb j i then Some n else lookup_node l' i
  end.

(** [digraph.get_node_data(i)] *)
Definition get_node_data (g : PyDiGraph) (i : nat) : result KGNode :=
  match lookup_node (node_list g) i with
  | Some n => Ok n
  | None => Raise IndexError
  end.

(** [digraph.remove_node(i)]: drops the node and its incident edges and
    frees the index; an absent index is ignored. *)
Definition remove_node (g : PyDiGraph) (i : nat) : PyDiGraph :=
  match lookup_node (node_list g) i with
  | None => g
  | Some _ =>
      mkGraph
        (filter (fun p => negb (Nat.eqb (fst p) i)) (node_list g))
        (i :: free_nodes g)
        (filter (fun e => negb (Nat.eqb (source e) i) && negb (Nat.eqb (target e) i))
                (edge_list g))
  end.

Fixpoint insert_node (i : nat) (n : KGNode) (l : list (nat * KGNode))
  : list (nat * KGNode) :=
  match l with
  | [] => [(i, n)]
  | (j, m) :: l' =>
      if Nat.ltb i j then (i, n) :: (j, m) :: l'
      else (j, m) :: insert_node i n l'
  end.

(** [digraph.add_node(payload)]: the most recently freed index if there
    is one, otherwise the next unused one. *)
Definition rx_add_node (g : PyDiGraph) (n : KGNode) : PyDiGraph * nat :=
  match free_nodes g with
  | i :: fr => (mkGraph (insert_node i n (node_list g)) fr (edge_list g), i)
  | [] =>
      let i := List.length (node_list g) in
      (mkGraph (insert_node i n (node_list g)) [] (edge_list g), i)
  end.

(** [digraph[i] = payload] *)
Definition set_node (g : PyDiGraph) (i : nat) (n : KGNode) : result PyDiGraph :=
  match lookup_node (node_list g) i with
  | None => Raise IndexError
  | Some _ =>
      Ok (mkGraph
            (map (fun p => if Nat.eqb (fst p) i then (i, n) else p) (node_list g))
            (free_nodes g) (edge_list g))
  end.

(** [digraph.add_edges_from(additions)] *)
Definition add_edges (g : PyDiGraph) (additions : list Edge) : PyDiGraph :=
  mkGraph (node_list g) (free_nodes g) (edge_list g ++ additions).

(** [CodeKnowledgeGraph.add_node]; [node_id] is the optional argument
    that no caller in this code base passes. *)
Definition add_node (g : PyDiGraph) (ty : KGNodeType) (sym fname : string)
    (ln : Z) (eln dbi node_id : option Z) : result (PyDiGraph * KGNode) :=
  let node := mkKGNode ty sym fname ln eln dbi None in
  match node_id with
  | Some z =>
      if (z =? 0)%Z then
        let '(g1, i) := rx_add_node g node in
        let node' := mkKGNode ty sym fname ln eln dbi (Some (Z.of_nat i)) in
        g2 <- set_node g1 i node' ;; Ok (g2, node')
      else
        let node' := mkKGNode ty sym fname ln eln dbi (Some z) in
        if (z <? 0)%Z then Raise OverflowError
        else g2 <- set_node g (Z.to_nat z) node' ;; Ok (g2, node')
  | None =>
      let '(g1, i) := rx_add_node g node in
      let node' := mkKGNode ty sym fname ln eln dbi (Some (Z.of_nat i)) in
      g2 <- set_node g1 i node' ;; Ok (g2, node')
  end.

(** The node-link document written by [rx.node_link_json], restricted to
    the fields that the loader reads. *)
Record JsonNode : Type := mkJsonNode {
  jn_id : nat;
  jn_data : Py.sdict
}.

Record JsonLink : Type := mkJsonLink {
  jl_source : nat;
  jl_target : nat;
  jl_data : Py.sdict
}.

Record NodeLink : Type := mkNodeLink {
  nl_nodes : list JsonNode;
  nl_links : list JsonLink
}.

(** [e.get("reverse", False)] *)
Definition get_reverse (e : EdgeAttrs) : bool :=
  match e_reverse e with
  | Some b => b
  | None => false
  end.

(** The [edge_attrs] callback of [CodeKnowledgeGraph.save]. *)
Definition save_edge_attrs (e : EdgeAttrs) : Py.sdict :=
  [ ("type", e_type e);
    ("reverse", if get_reverse e then "1" else "0") ].

(** [rx.node_link_json(digraph, node_attrs=str_dict, edge_attrs=...)] *)
Definition node_link_json (g : PyDiGraph) : NodeLink :=
  mkNodeLink
    (map (fun p => mkJsonNode (fst p) (str_dict (snd p))) (node_list g))
    (map (fun e => mkJsonLink (source e) (target e) (save_edge_attrs (attrs e)))
         (edge_list g)).

(** The file system seen by [save] and [load]: path to document. *)
Definition files := string -> option NodeLink.

(** [CodeKnowledgeGraph.save] *)
Definition save (g : PyDiGraph) (path : string) (fs : files) : files :=
  fun p => if String.eqb p path then Some (node_link_json g) else fs p.

(** The [edge_attrs] callback of [CodeKnowledgeGraph.load]. *)
Definition load_edge_attrs (d : Py.sdict) : result EdgeAttrs :=
  ty <- Py.item d "type" ;;
  rv <- Py.item d "reverse" ;;
  Ok (mkEdgeAttrs ty (Some (String.eqb rv "1")) None None None).

(** [rx.from_node_link_json_file] as rustworkx 0.15 to 0.17 have it: nodes
    are added to a fresh graph in document order, so they receive the
    indices 0, 1, 2, ...; the document ids are mapped to the new indices
    and the links are added through that mapping, in document order.
    (rustworkx 0.18 uses the document ids as indices; the two agree on a
    document whose ids are 0, 1, 2, ..., which [save] writes for a graph
    from which no node was removed.) *)
Fixpoint parse_nodes (next : nat) (ns : list JsonNode)
  : result (list (nat * KGNode) * list (nat * nat)) :=
  match ns with
  | [] => Ok ([], [])
  | n :: ns' =>
      payload <- from_str_dict (jn_data n) ;;
      rest <- parse_nodes (S next) ns' ;;
      Ok ((next, payload) :: fst rest, (jn_id n, next) :: snd rest)
  end.

Fixpoint id_lookup (m : list (nat * nat)) (i : nat) : result nat :=
  match m with
  | [] => Raise KeyError
  | (k, v) :: m' => if Nat.eqb k i then Ok v else id_lookup m' i
  end.

Definition parse_link (m : list (nat * nat)) (l : JsonLink) : result Edge :=
  a <- load_edge_attrs (jl_data l) ;;
  s <- id_lookup m (jl_source l) ;;
  t <- id_lookup m (jl_target l) ;;
  Ok (mkEdge s t a).

Definition from_node_link_json (doc : NodeLink) : result PyDiGraph :=
  ns <- parse_nodes 0 (nl_nodes doc) ;;
  es <- mapM (parse_link (snd ns)) (nl_links doc) ;;
  Ok (mkGraph (fst ns) [] es).

(** The loop of [load] that sets ["idx"], ["src_file"] and
    ["target_file"] on every edge from its index and its endpoints. *)
Definition restore_edge (g : PyDiGraph) (idx : nat) (e : Edge) : result Edge :=
  s <- get_node_data g (source e) ;;
  t <- get_node_data g (target e) ;;
  Ok (mkEdge (source e) (target e)
        (mkEdgeAttrs (e_type (attrs e)) (e_reverse (attrs e))
           (Some (file_name s)) (Some (file_name t)) (Some idx))).

Fixpoint restore_edges (g : PyDiGraph) (idx : nat) (es : list Edge)
  : result (list Edge) :=
  match es with
  | [] => Ok []
  | e :: es' =>
      e' <- restore_edge g idx e ;;
      rest <- restore_edges g (S idx) es' ;;
      Ok (e' :: rest)
  end.

(** [CodeKnowledgeGraph.load] *)
Definition load (path : string) (fs : files) : result PyDiGraph :=
  match fs path with
  | None => Raise FileNotFoundError
  | Some doc =>
      g <- from_node_link_json doc ;;
      es <- restore_edges g 0 (edge_list g) ;;
      Ok (mkGraph (node_list g) (free_nodes g) es)
  end.

(** [CodeKnowledgeGraph.get_nodes]; ids reach it as dictionary keys. *)
Definition get_node_by_key (g : PyDiGraph) (k : option Z) : result KGNode :=
  match k with
  | None => Raise TypeError
  | Some z => if (z <? 0)%Z then Raise OverflowError
              else get_node_data g (Z.to_nat z)
  end.

Definition get_nodes (g : PyDiGraph) (ids : list (option Z)) : result (list KGNode) :=
  mapM (get_node_by_key g) ids.

(** Representation invariants of a graph built through [add_node] and
    [add_edges]: indices are listed in increasing order, every node
    records its own index in [id], and edges join existing nodes. *)
Definition indexed (g : PyDiGraph) : Prop :=
  forall i n, In (i, n) (node_list g) -> id n = Some (Z.of_nat i).

Definition ascending (g : PyDiGraph) : Prop :=
  StronglySorted lt (node_indices g).

Definition closed (g : PyDiGraph) : Prop :=
  forall e, In e (edge_list g) ->
    In (source e) (node_indices g) /\ In (target e) (node_indices g).

End Graph.

(** ** Python's stable descending sort and insertion-ordered dictionaries *)

Module Dict.

(** Keys are Python ints or [None]. *)
Definition key := option Z.

Definition key_eqb (a b : key) : bool :=
  match a, b with
  | Some x, Some y => Z.eqb x y
  | None, None => true
  | _, _ => false
  end.

(** A [dict[int, float]] in insertion order. *)
Definition t := list (key * Q).

(** [d[k] = v]: an existing key keeps its position. *)
Fixpoint set (d : t) (k : key) (v : Q) : t :=
  match d with
  | [] => [(k, v)]
  | (k', v') :: d' =>
      if key_eqb k' k then (k', v) :: d' else (k', v') :: set d' k v
  end.

(** [d[k] += w] on a [defaultdict(float)]. *)
Fixpoint add (d : t) (k : key) (w : Q) : t :=
  match d with
  | [] => [(k, (0 + w)%Q)]
  | (k', v') :: d' =>
      if key_eqb k' k then (k', (v' + w)%Q) :: d' else (k', v') :: add d' k w
  end.

(** [{k: v for k, v in pairs}] and [d.update(pairs)] *)
Definition update (d : t) (pairs : list (key * Q)) : t :=
  fold_left (fun acc p => set acc (fst p) (snd p)) pairs d.

Definition of_pairs (pairs : list (key * Q)) : t := update [] pairs.

(** [max(d.values())] *)
Fixpoint max_list (x : Q) (l : list Q) : Q :=
  match l with
  | [] => x
  | y :: l' => max_list (if Qlt_le_dec x y then y else x) l'
  end.

Definition max_values (d : t) : result Q :=
  match map snd d with
  | [] => Raise ValueError
  | x :: l => Ok (max_list x l)
  end.

(** [sorted(items, key=lambda x: x[1], reverse=True)]: descending by
    score, elements of equal score in their original order. *)
Fixpoint insert_desc {A} (score : A -> Q) (x : A) (l : list A) : list A :=
  match l with
  | [] => [x]
  | y :: l' =>
      if Qlt_le_dec (score x) (score y) then y :: insert_desc score x l'
      else x :: y :: l'
  end.

Definition sorted_desc {A} (score : A -> Q) (l : list A) : list A :=
  fold_right (insert_desc score) [] l.

End Dict.

(** ** postgres/models.py and hybrid_search.py *)

Module HybridSearch.

(** [list[float]] *)
Definition embedding := list Q.

Inductive SearchIndexActionType : Type := CREATE | DELETE.

Record SearchIndexAction : Type := mkAction {
  a_type : SearchIndexActionType;
  a_file : option string;
  a_content : option string;
  a_embedding : option embedding;
  a_id : option Z;
  a_node_id : option Z
}.

(** [SearchIndexAction(type=CREATE, file=f, content=c, node_id=n)] *)
Definition create_action (f : string) (c : string) (n : option Z) : SearchIndexAction :=
  mkAction CREATE (Some f) (Some c) None None n.

(** [SearchIndexAction(type=DELETE, node_id=n)] *)
Definition delete_action (n : option Z) : SearchIndexAction :=
  mkAction DELETE None None None None n.

(** A [Code] object. *)
Record Code : Type := mkCode {
  c_graph_id : option string;
  c_file : option string;
  c_text : option string;
  c_id : option Z;
  c_node_id : option Z;
  c_embedding : option embedding
}.

(** A row of table [code]: [id SERIAL PRIMARY KEY], the other columns
    nullable. *)
Record Row : Type := mkRow {
  r_id : Z;
  r_file : option string;
  r_text : option string;
  r_nodeid : option Z;
  r_graphid : option string;
  r_embedding : option embedding
}.

Record Table : Type := mkTable {
  rows : list Row;
  next_serial : Z
}.

(** [DBModel.from_db_row] for [Code] *)
Definition from_db_row (r : Row) : Code :=
  mkCode (r_graphid r) (r_file r) (r_text r) (Some (r_id r)) (r_nodeid r)
         (r_embedding r).

(** [DBModel.insert_many]: one INSERT without the [id] column, which the
    sequence fills in. *)
Fixpoint insert_rows (serial : Z) (items : list Code) : list Row * Z :=
  match items with
  | [] => ([], serial)
  | c :: items' =>
      let '(rs, serial') := insert_rows (serial + 1) items' in
      (mkRow serial (c_file c) (c_text c) (c_node_id c)
             (c_graph_id c) (c_embedding c) :: rs, serial')
  end.

Definition insert_many (t : Table) (items : list Code) : Table :=
  match items with
  | [] => t
  | _ :: _ =>
      let '(rs, serial) := insert_rows (next_serial t) items in
      mkTable (rows t ++ rs) serial
  end.

(** SQL [id IN (v1, ..., vn)]: true only when [id] equals a non-NULL
    element. *)
Definition sql_in (x : Z) (vs : list (option Z)) : bool :=
  existsb (fun v => match v with Some y => Z.eqb x y | None => false end) vs.

(** [DBModel.delete_many]: [DELETE FROM code WHERE id IN (...)]. *)
Definition delete_many (t : Table) (ids : list (option Z)) : Table :=
  match ids with
  | [] => t
  | _ :: _ =>
      mkTable (filter (fun r => negb (sql_in (r_id r) ids)) (rows t))
              (next_serial t)
  end.

(** *** The embedding service and the event loop *)

Inductive reply : Type :=
| Embeddings (vs : list embedding)
| ResourceExhausted
| InternalServerError
| OtherFailure.

(** What the code cannot decide by itself: whether credentials exist,
    what the embedding service answers to the request of task [k] at
    attempt [retry], in which groups the tasks of one
    [ordered_as_completed] call finish (one group per resumption of the
    consumer), and what the index scores for a query. *)
Record Env : Type := mkEnv {
  ENABLE_EMBEDDING : bool;
  get_embeddings : nat -> nat -> string -> list string -> reply;
  completions : list (list nat);
  scores : string -> option embedding -> Q -> Q -> list (Z * Q)
}.

(** A run of an async generator: the values yielded, and how it ended. *)
Inductive ending : Type :=
| Finished
| Raised (e : exn)
| Blocked.

Definition run (A : Type) : Type := (list A * ending)%type.

Definition prepend {A} (out : list A) (r : run A) : run A :=
  (out ++ fst r, snd r).

(** [async_chunk]: the chunks yielded while consuming [items], and the
    buffer left over. *)
Fixpoint chunk_loop {A} (chunk_size : nat) (buffer items : list A)
  : list (list A) * list A :=
  match items with
  | [] => ([], buffer)
  | x :: items' =>
      let buffer' := buffer ++ [x] in
      if Nat.eqb (List.length buffer') chunk_size then
        let '(cs, b) := chunk_loop chunk_size [] items' in (buffer' :: cs, b)
      else chunk_loop chunk_size buffer' items'
  end.

Definition async_chunk {A} (iterator : run A) (chunk_size : nat) : run (list A) :=
  let '(cs, buffer) := chunk_loop chunk_size [] (fst iterator) in
  match snd iterator with
  | Finished =>
      (match buffer with [] => cs | _ :: _ => cs ++ [buffer] end, Finished)
  | e => (cs, e)
  end.

(** *** ordered_as_completed *)

Definition mem (i : nat) (l : list nat) : bool := existsb (Nat.eqb i) l.

(** One suspension of the consumer: the next group of tasks finishes. *)
Definition tick (completed : list nat) (sched : list (list nat))
  : list nat * list (list nat) :=
  match sched with
  | [] => (completed, [])
  | ev :: sched' => (ev ++ completed, sched')
  end.

(** [await asyncio.wait(pending, return_when=FIRST_COMPLETED)]: suspends,
    and resumes once some pending task is done; [None] when that never
    happens. *)
Fixpoint wait (pending completed : list nat) (sched : list (list nat))
  : option (list nat * list nat * list nat * list (list nat)) :=
  match sched with
  | [] =>
      match filter (fun i => mem i completed) pending with
      | [] => None
      | done =>
          Some (done, filter (fun i => negb (mem i completed)) pending,
                completed, [])
      end
  | ev :: sched' =>
      let completed' := ev ++ completed in
      match filter (fun i => mem i completed') pending with
      | [] => wait pending completed' sched'
      | done =>
          Some (done, filter (fun i => negb (mem i completed')) pending,
                completed', sched')
      end
  end.

Section OrderedAsCompleted.
Context {T : Type}.
Variable results : list (result T).

(** [await futures.pop(0)] on a finished task *)
Definition await (f : nat) : result T := nth f results (Raise IndexError).

Inductive drained : Type :=
| Drained (out : list T) (futures completed : list nat) (sched : list (list nat))
| DrainRaised (out : list T) (e : exn).

(** [while futures and futures[0].done(): yield await futures.pop(0)] *)
Fixpoint drain (futures completed : list nat) (sched : list (list nat)) : drained :=
  match futures with
  | [] => Drained [] [] completed sched
  | f :: rest =>
      if mem f completed then
        match await f with
        | Raise e => DrainRaised [] e
        | Ok v =>
            let '(completed', sched') := tick completed sched in
            match drain rest completed' sched' with
            | Drained out fs c s => Drained (v :: out) fs c s
            | DrainRaised out e => DrainRaised (v :: out) e
            end
        end
      else Drained [] futures completed sched
  end.

(** [while futures: ...] *)
Fixpoint oac_loop (fuel : nat) (futures pending completed : list nat)
    (sched : list (list nat)) : run T :=
  match futures with
  | [] => ([], Finished)
  | f0 :: rest =>
      match fuel with
      | O => ([], Blocked)
      | S fuel' =>
          match pending with
          | [] => ([], Raised ValueError)
          | _ :: _ =>
              match wait pending completed sched with
              | None => ([], Blocked)
              | Some (done, pending', completed', sched') =>
                  if mem f0 done then
                    match await f0 with
                    | Raise e => ([], Raised e)
                    | Ok v =>
                        let '(c2, s2) := tick completed' sched' in
                        match drain rest c2 s2 with
                        | DrainRaised out e => (v :: out, Raised e)
                        | Drained out fs c3 s3 =>
                            prepend (v :: out) (oac_loop fuel' fs pending' c3 s3)
                        end
                    end
                  else oac_loop fuel' futures pending' completed' sched'
              end
          end
      end
  end.

(** Every pass through the loop takes at least one task out of
    [pending], so one more pass than there are tasks is enough. *)
Definition ordered_as_completed (sched : list (list nat)) : run T :=
  let futures := seq 0 (List.length results) in
  oac_loop (S (List.length results)) futures futures [] sched.

End OrderedAsCompleted.

(** *** Code._embed and Code.embed *)

Definition nonempty_idxs (batch : list string) : list nat :=
  filter (fun i => Py.truthy (nth i batch "")) (seq 0 (List.length batch)).

(** The texts sent to the service for one batch. *)
Definition request (batch : list string) : list string :=
  map (fun i => nth i batch "") (nonempty_idxs batch).

(** The loop that splices [None] back in at the empty positions. *)
Fixpoint splice (idxs nonempty : list nat) (embeddings : list embedding)
  : result (list (option embedding)) :=
  match idxs with
  | [] => Ok []
  | i :: idxs' =>
      if mem i nonempty then
        match embeddings with
        | [] => Raise IndexError
        | e :: embeddings' =>
            out <- splice idxs' nonempty embeddings' ;; Ok (Some e :: out)
        end
      else out <- splice idxs' nonempty embeddings ;; Ok (None :: out)
  end.

(** [for retry in range(1, 4): ...; raise Exception("retries exceeded")] *)
Fixpoint attempts (env : Env) (task : nat) (input_type : string)
    (batch : list string) (retries : list nat)
  : result (list (option embedding)) :=
  match retries with
  | [] => Raise RetriesExceeded
  | retry :: retries' =>
      match get_embeddings env task retry input_type (request batch) with
      | Embeddings vs =>
          splice (seq 0 (List.length batch)) (nonempty_idxs batch) vs
      | ResourceExhausted | InternalServerError =>
          attempts env task input_type batch retries'
      | OtherFailure => Raise BackendError
      end
  end.

Definition _embed (env : Env) (task : nat) (batch : list string)
    (input_type : string) : result (list (option embedding)) :=
  match nonempty_idxs batch with
  | [] => Ok (repeat None (List.length batch))
  | _ :: _ => attempts env task input_type batch [1; 2; 3]%nat
  end.

(** [sum(len(x) for x in batch)] *)
Definition total_len (batch : list string) : Z :=
  fold_right (fun x acc => (Py.len x + acc)%Z) 0%Z batch.

(** The packing loop of [embed]; [closed] is [batches[:-1]] and [cur] is
    [batches[-1]]. *)
Fixpoint pack (texts : list string) (closed : list (list string))
    (cur : list string) : list (list string) :=
  match texts with
  | [] => closed ++ [cur]
  | t :: texts' =>
      let cur' := cur ++ [t] in
      if (20000 <? total_len cur')%Z
      then pack texts' (closed ++ [cur']) []
      else pack texts' closed cur'
  end.

Definition batches (texts : list string) : list (list string) :=
  pack texts [] [].

Fixpoint tasks (env : Env) (k : nat) (bs : list (list string))
    (input_type : string) : list (result (list (option embedding))) :=
  match bs with
  | [] => []
  | b :: bs' => _embed env k b input_type :: tasks env (S k) bs' input_type
  end.

(** [Code.embed].  The semaphore of six only bounds how many requests are
    in flight at once: it bears on when the tasks finish, which is what
    [completions] stands for, not on what they return. *)
Definition embed (env : Env) (texts : list string) (input_type : string)
  : run (option embedding) :=
  let bs := batches texts in
  if ENABLE_EMBEDDING env then
    let '(outs, e) :=
      ordered_as_completed (tasks env 0 bs input_type) (completions env) in
    (List.concat outs, e)
  else (map (fun _ => None) texts, Finished).

(** *** Code.bulk_action *)

Definition is_type (ty : SearchIndexActionType) (a : SearchIndexAction) : bool :=
  match ty, a_type a with
  | CREATE, CREATE => true
  | DELETE, DELETE => true
  | _, _ => false
  end.

(** [group_actions(all_actions)[ty]] *)
Definition group_actions (actions : list SearchIndexAction)
    (ty : SearchIndexActionType) : list SearchIndexAction :=
  filter (is_type ty) actions.

(** [x.content] for the texts handed to [embed]; [len(None)] is a
    [TypeError]. *)
Definition content_of (a : SearchIndexAction) : result string :=
  match a_content a with
  | Some c => Ok c
  | None => Raise TypeError
  end.

(** The body of the [async for embed_batch in ...] loop, run over the
    chunks in order.  The state is the counter [i], the table and the
    values passed to [progress_cb] so far. *)
Fixpoint insert_batches (graph_id : string) (creates : list SearchIndexAction)
    (chunks : list (list (option embedding))) (i : Z) (t : Table)
    (progress : list Q) : Table * list Q :=
  match chunks with
  | [] => (t, progress)
  | embed_batch :: chunks' =>
      let n := Z.of_nat (List.length embed_batch) in
      let items_batch := Py.slice creates i (i + n) in
      let i' := (i + n)%Z in
      let codes :=
        map (fun p => mkCode (Some graph_id) (a_file (fst p)) (a_content (fst p))
                              None (a_node_id (fst p)) (snd p))
            (combine items_batch embed_batch) in
      let t' := insert_many t codes in
      insert_batches graph_id creates chunks' i' t'
        (progress ++ [(inject_Z i' / inject_Z (Z.of_nat (List.length creates)))%Q])
  end.

(** The block under [if actions[SearchIndexActionType.CREATE]:]. *)
Definition insert_creates (env : Env) (graph_id : string)
    (creates : list SearchIndexAction) (t : Table) : Table * list Q * ending :=
  match creates with
  | [] => (t, [], Finished)
  | _ :: _ =>
      match mapM content_of creates with
      | Raise x => (t, [], Raised x)
      | Ok texts =>
          let '(chunks, e) :=
            async_chunk (embed env texts "RETRIEVAL_DOCUMENT") 100%nat in
          let '(t1, progress) := insert_batches graph_id creates chunks 0 t [] in
          (t1, progress, e)
      end
  end.

(** [Code.bulk_action]: the table afterwards, the values passed to
    [progress_cb], and how the call ended. *)
Definition bulk_action (env : Env) (graph_id : string)
    (all_actions : list SearchIndexAction) (t : Table)
  : Table * list Q * ending :=
  let creates := group_actions all_actions CREATE in
  let deletes := group_actions all_actions DELETE in
  let '(t1, progress, e) := insert_creates env graph_id creates t in
  match e with
  | Finished => (delete_many t1 (map a_id deletes), progress, Finished)
  | _ => (t1, progress, e)
  end.

(** *** Code.search *)

(** [await anext(stream)] *)
Definition anext {A} (stream : run A) : result A :=
  match stream with
  | (x :: _, _) => Ok x
  | ([], Finished) => Raise StopAsyncIteration
  | ([], Raised e) => Raise e
  | ([], Blocked) => Raise Hangs
  end.

(** [FROM code JOIN scores ON code.id = scores.id] *)
Definition join_scores (rs : list Row) (sc : list (Z * Q)) : list (Row * Q) :=
  flat_map (fun r =>
              map (fun p => (r, snd p))
                  (filter (fun p => Z.eqb (fst p) (r_id r)) sc))
           rs.

(** [WHERE code.graphid = '<graph_id>'] *)
Definition in_graph (graph_id : string) (r : Row) : bool :=
  match r_graphid r with
  | Some g => String.eqb g graph_id
  | None => false
  end.

(** [ORDER BY score DESC LIMIT <top>]; a negative limit is rejected by the
    database.  Rows of equal score, whose order SQL leaves open, are kept
    in the order of the join. *)
Definition order_limit (top : Z) (l : list (Row * Q)) : result (list (Row * Q)) :=
  if (top <? 0)%Z then Raise DatabaseError
  else Ok (firstn (Z.to_nat top) (Dict.sorted_desc snd l)).

(** The default of the keyword argument [top]. *)
Definition search_default_top : Z := 20%Z.

(** [Code.search(graph_id, query, top=..., bm25_weight=..., vector_weight=...)];
    [top = None] stands for a call that leaves [top] out. *)
Definition search (env : Env) (t : Table) (graph_id query : string)
    (top : option Z) (bm25_weight vector_weight : Q)
  : result (list (Code * Q)) :=
  let top := match top with Some n => n | None => search_default_top end in
  embed <- anext (embed env [query] "RETRIEVAL_QUERY") ;;
  let sc := scores env query embed bm25_weight vector_weight in
  hits <- order_limit top
            (filter (fun p => in_graph graph_id (fst p)) (join_scores (rows t) sc)) ;;
  Ok (map (fun p => (from_db_row (fst p), snd p)) hits).

End HybridSearch.

(** ** code_indexing.py *)

Module CodeIndexing.
Import Graph.

(** [ScopeType]; the scope dictionaries carry the member's name. *)
Inductive ScopeType : Type :=
| UNKNOWN | FILE_SCOPE | NAMESPACE | CLASS_SCOPE | FUNCTION_SCOPE
| BLOCK_STATEMENT | SPAN.

(** A scope dictionary as returned by [nested_scopes]: its type, its name
    (which may be [None]), [range.start.line], [range.end.line] and
    [range.end.col] (lines are 1-based in the dictionary), and its
    children. *)
#[warnings="-register-all"]
Inductive scope : Type :=
| Scope (ty : ScopeType) (name : option string)
        (start_line end_line end_col : Z) (children : list scope).

Definition scope_type (s : scope) : ScopeType :=
  match s with Scope ty _ _ _ _ _ => ty end.
Definition scope_start (s : scope) : Z :=
  match s with Scope _ _ sl _ _ _ => sl end.
Definition scope_children (s : scope) : list scope :=
  match s with Scope _ _ _ _ _ cs => cs end.

(** What the parser makes of one file: [SourceFile(...)] may fail, and
    [nested_scopes] yields the children of the file scope (none when the
    parse fails). *)
Inductive parsed : Type :=
| Unreadable
| Parsed (children : list scope).

(** The accumulators of [ast_parse]. *)
Record state : Type := mkState {
  nodes : list KGNode;
  contents : list string;
  edges : list (string * string * string);
  unknown_ctr : Z
}.

(** [scope["name"] or get_unknown_ctr()] *)
Definition name_or_unknown (name : option string) (st : state) : string * state :=
  match name with
  | Some (String c s) => (String c s, st)
  | _ =>
      let ctr := (unknown_ctr st + 1)%Z in
      (("unknown_" ++ Py.str_of_int ctr)%string,
       mkState (nodes st) (contents st) (edges st) ctr)
  end.

(** [end_line = scope.range.end.line; if scope.range.end.col == 0: end_line -= 1] *)
Definition scope_end (end_line end_col : Z) : Z :=
  if (end_col =? 0)%Z then (end_line - 1)%Z else end_line.

(** [for child_scope in children: end_line = min(end_line, child.start.line - 1)] *)
Definition clip_end (end_line : Z) (children : list scope) : Z :=
  fold_left (fun e c => Z.min e (scope_start c - 1)) children end_line.

Definition nl : string := String (ascii_of_nat 10) EmptyString.

(** The part of the loop body that appends the node, its deferred edge
    and its content. *)
Definition emit (file_name : string) (file_lines : list string)
    (ty : KGNodeType) (edge_type : string) (name : option string)
    (start_line end_line : Z) (parent_symbol : string) (st : state)
  : string * state :=
  let '(own, st1) := name_or_unknown name st in
  let sym := (parent_symbol ++ "." ++ own)%string in
  let node := mkKGNode ty sym file_name start_line (Some end_line) None None in
  let content :=
    (("# " ++ file_name ++ nl) ++ ("# " ++ sym ++ nl)
     ++ Py.join nl (Py.slice file_lines start_line end_line))%string in
  (sym,
   mkState (nodes st1 ++ [node]) (contents st1 ++ [content])
           (edges st1 ++ [(sym, parent_symbol, edge_type)]) (unknown_ctr st1)).

(** One iteration of [for scope in scopes] in [recurse_scope]. *)
Fixpoint recurse_one (file_name : string) (file_lines : list string)
    (s : scope) (parent_symbol : string) (st : state) {struct s} : state :=
  match s with
  | Scope ty name sl el ec children =>
      let recurse_children :=
        (fix go (l : list scope) (p : string) (st : state) : state :=
           match l with
           | [] => st
           | c :: l' => go l' p (recurse_one file_name file_lines c p st)
           end) in
      match ty with
      | CLASS_SCOPE =>
          let start_line := (sl - 1)%Z in
          let end_line := clip_end (scope_end el ec) children in
          let '(sym, st1) :=
            emit file_name file_lines CLASS "class_def" name
                 start_line end_line parent_symbol st in
          recurse_children children sym st1
      | FUNCTION_SCOPE =>
          let start_line := (sl - 1)%Z in
          let end_line := scope_end el ec in
          let '(sym, st1) :=
            emit file_name file_lines FUNCTION "function_def" name
                 start_line end_line parent_symbol st in
          recurse_children children sym st1
      | _ => recurse_children children parent_symbol st
      end
  end.

(** [recurse_scope(scopes, parent_node)] *)
Fixpoint recurse_scope (file_name : string) (file_lines : list string)
    (scopes : list scope) (parent_symbol : string) (st : state) : state :=
  match scopes with
  | [] => st
  | s :: scopes' =>
      recurse_scope file_name file_lines scopes' parent_symbol
        (recurse_one file_name file_lines s parent_symbol st)
  end.

(** [file_name.rsplit(".", 1)[0].replace("/", ".")] *)
Fixpoint has_dot (s : string) : bool :=
  match s with
  | EmptyString => false
  | String c s' => Ascii.eqb c "." || has_dot s'
  end.

Fixpoint rsplit_head (s : string) : string :=
  match s with
  | EmptyString => EmptyString
  | String c s' =>
      if Ascii.eqb c "." && negb (has_dot s') then EmptyString
      else String c (rsplit_head s')
  end.

Fixpoint replace_slash (s : string) : string :=
  match s with
  | EmptyString => EmptyString
  | String c s' =>
      String (if Ascii.eqb c "/" then "."%char else c) (replace_slash s')
  end.

Definition file_symbol (file_name : string) : string :=
  replace_slash (rsplit_head file_name).

(** [str.splitlines()] on the line boundaries LF, CR, CRLF, VT, FF, FS,
    GS, RS and NEL (U+0085). *)
Definition is_boundary (c : ascii) : bool :=
  let n := nat_of_ascii c in
  Nat.eqb n 10 || Nat.eqb n 13 || Nat.eqb n 11 || Nat.eqb n 12
  || Nat.eqb n 28 || Nat.eqb n 29 || Nat.eqb n 30 || Nat.eqb n 133.

Fixpoint splitlines_aux (cur : string) (s : string) : list string :=
  match s with
  | EmptyString =>
      match cur with
      | EmptyString => []
      | _ => [cur]
      end
  | String c s' =>
      if is_boundary c then
        match s' with
        | String c' s'' =>
            if Nat.eqb (nat_of_ascii c) 13 && Nat.eqb (nat_of_ascii c') 10
            then cur :: splitlines_aux EmptyString s''
            else cur :: splitlines_aux EmptyString s'
        | EmptyString => [cur]
        end
      else splitlines_aux (cur ++ String c EmptyString)%string s'
  end.

Definition splitlines (s : string) : list string := splitlines_aux EmptyString s.

(** [str.strip()]: the characters for which [str.isspace] holds, which
    are the blank, TAB to CR, FS to US, NEL (U+0085) and the no-break
    space (U+00A0). *)
Definition is_space (c : ascii) : bool :=
  let n := nat_of_ascii c in
  Nat.eqb n 32 || (Nat.leb 9 n && Nat.leb n 13) || (Nat.leb 28 n && Nat.leb n 31)
  || Nat.eqb n 133 || Nat.eqb n 160.

Fixpoint lstrip (s : string) : string :=
  match s with
  | EmptyString => EmptyString
  | String c s' => if is_space c then lstrip s' else s
  end.

Fixpoint rstrip (s : string) : string :=
  match s with
  | EmptyString => EmptyString
  | String c s' =>
      match rstrip s' with
      | EmptyString => if is_space c then EmptyString else String c EmptyString
      | r => String c r
      end
  end.

Definition strip (s : string) : string := rstrip (lstrip s).

(** The fallback for a file without scopes: one FILE node per 50 lines,
    [for i in range(0, len(file_lines), 50)]. *)
Fixpoint chunk_file (fuel : nat) (file_name : string) (file_lines : list string)
    (i : Z) (st : state) : state :=
  match fuel with
  | O => st
  | S fuel' =>
      let n := Z.of_nat (List.length file_lines) in
      if (i <? n)%Z then
        let node :=
          mkKGNode FILE (file_symbol file_name) file_name i
                   (Some (Z.min (i + 50) n)) None None in
        let content :=
          (("# " ++ file_name ++ nl)
           ++ strip (Py.join nl (Py.slice file_lines i (i + 50))))%string in
        chunk_file fuel' file_name file_lines (i + 50)%Z
          (mkState (nodes st ++ [node]) (contents st ++ [content])
                   (edges st) (unknown_ctr st))
      else st
  end.

(** One iteration of [for file_name, file_content in files.items()]. *)
Definition parse_file (parse : string -> string -> parsed)
    (file_name file_content : string) (st : state) : state :=
  match parse file_name file_content with
  | Unreadable => st
  | Parsed children =>
      let file_lines := splitlines file_content in
      match children with
      | [] => chunk_file (List.length file_lines) file_name file_lines 0 st
      | _ :: _ =>
          let file_node :=
            mkKGNode FILE (file_symbol file_name) file_name 0 None None None in
          recurse_scope file_name file_lines children (symbol file_node)
            (mkState (nodes st ++ [file_node]) (contents st ++ [""])
                     (edges st) (unknown_ctr st))
      end
  end.

(** [ast_parse(files)] *)
Definition ast_parse (parse : string -> string -> parsed)
    (files : list (string * string)) : state :=
  fold_left (fun st f => parse_file parse (fst f) (snd f) st) files
            (mkState [] [] [] 0).

End CodeIndexing.

(** ** graph_rag/__init__.py *)

Module GraphRag.
Import Graph.

(** The collaborators of the retrieval engine: the search index
    environment, the tree-sitter front end and [rx.pagerank].  The latter
    receives the graph, the weight of every edge (in edge order) and the
    personalization, and answers [None] for [FailedToConverge]. *)
Record Engine : Type := mkEngine {
  env : HybridSearch.Env;
  parse : string -> string -> CodeIndexing.parsed;
  pagerank : PyDiGraph -> list Q -> Dict.t -> option (list (nat * Q))
}.

Record t : Type := mkGraphRag {
  feature_id : Z;
  graph_top : Z;
  search_top : Z;
  rerank_top : Z;
  bm25_weight : Q;
  vector_weight : Q;
  _graph : PyDiGraph
}.

(** [GraphRag(feature_id=...)] with the field defaults of the class, on
    the graph found by [initialize_graph]. *)
Definition make (feature_id : Z) (g : PyDiGraph) : t :=
  mkGraphRag feature_id 50%Z 150%Z 100%Z (1 # 2)%Q (1 # 2)%Q g.

Definition with_graph (self : t) (g : PyDiGraph) : t :=
  mkGraphRag (feature_id self) (graph_top self) (search_top self)
             (rerank_top self) (bm25_weight self) (vector_weight self) g.

(** [CodeKnowledgeGraph.graphid] *)
Definition graphid (self : t) : string := Py.str_of_int (feature_id self).

(** The first loop of [bulk_insert]: every node is re-created through
    [add_node], which assigns its id. *)
Fixpoint add_nodes (g : PyDiGraph) (ns : list KGNode)
  : result (PyDiGraph * list KGNode) :=
  match ns with
  | [] => Ok (g, [])
  | n :: ns' =>
      r <- add_node g (type n) (symbol n) (file_name n) (line n) (end_line n)
                    None None ;;
      rest <- add_nodes (fst r) ns' ;;
      Ok (fst rest, snd r :: snd rest)
  end.

(** [GraphRag.bulk_insert]: the new engine state, the inserted nodes, the
    table, the values reported to [progress_cb], and how the call ended. *)
Definition bulk_insert (eng : Engine) (self : t) (ns : list KGNode)
    (cs : list string) (tbl : HybridSearch.Table)
  : t * list KGNode * HybridSearch.Table * list Q * HybridSearch.ending :=
  match add_nodes (_graph self) ns with
  | Raise e => (self, ns, tbl, [], HybridSearch.Raised e)
  | Ok (g, ns') =>
      let actions :=
        map (fun p => HybridSearch.create_action (file_name (fst p)) (snd p)
                                                 (id (fst p)))
            (combine ns' cs) in
      let '(tbl', progress, e) :=
        HybridSearch.bulk_action (env eng) (graphid self) actions tbl in
      (with_graph self g, ns', tbl', progress, e)
  end.

(** [digraph.remove_node(node_id)] for an id read from a node. *)
Definition remove_node_id (g : PyDiGraph) (node_id : option Z) : result PyDiGraph :=
  match node_id with
  | None => Raise TypeError
  | Some z => if (z <? 0)%Z then Raise OverflowError
              else Ok (remove_node g (Z.to_nat z))
  end.

Fixpoint remove_node_ids (g : PyDiGraph) (ids : list (option Z)) : result PyDiGraph :=
  match ids with
  | [] => Ok g
  | i :: ids' => g' <- remove_node_id g i ;; remove_node_ids g' ids'
  end.

(** [ids_by_file[file_name]], computed from the nodes present when
    [invalidate] starts. *)
Definition ids_by_file (ns : list KGNode) (f : string) : list (option Z) :=
  map id (filter (fun n => String.eqb (file_name n) f) ns).

Definition ending_result {A} (a : A) (e : HybridSearch.ending) : result A :=
  match e with
  | HybridSearch.Finished => Ok a
  | HybridSearch.Raised x => Raise x
  | HybridSearch.Blocked => Raise Hangs
  end.

(** The loop of [invalidate] over [file_names]. *)
Fixpoint invalidate_loop (eng : Engine) (gid : string) (snapshot : list KGNode)
    (file_names : list string) (g : PyDiGraph) (tbl : HybridSearch.Table)
  : result (PyDiGraph * HybridSearch.Table) :=
  match file_names with
  | [] => Ok (g, tbl)
  | f :: fs =>
      let node_ids := ids_by_file snapshot f in
      g' <- remove_node_ids g node_ids ;;
      let '(tbl', _, e) :=
        HybridSearch.bulk_action (env eng) gid
          (map HybridSearch.delete_action node_ids) tbl in
      tbl'' <- ending_result tbl' e ;;
      invalidate_loop eng gid snapshot fs g' tbl''
  end.

(** [GraphRag.invalidate] *)
Definition invalidate (eng : Engine) (self : t) (file_names : list string)
    (tbl : HybridSearch.Table) : result (t * HybridSearch.Table) :=
  r <- invalidate_loop eng (graphid self) (nodes (_graph self)) file_names
                       (_graph self) tbl ;;
  Ok (with_graph self (fst r), snd r).

(** *** GraphRag.search *)

(** [weight_fn_wrapper(only_tests, reverse)]: the test that opens
    [weight_fn], and [weight_fn] itself. *)
Definition test_target (target_file : string) : bool :=
  Py.contains "test" (Py.split_head "_" target_file).

Definition propagating (ty : string) : bool :=
  String.eqb ty "call" || String.eqb ty "class_ref" || String.eqb ty "test_coverage".

Definition weight_fn (only_tests reverse : bool) (e : EdgeAttrs) : result Q :=
  match e_target_file e with
  | None => Raise KeyError
  | Some target_file =>
      if test_target target_file then
        if only_tests then Ok 1%Q else Ok (1 # 10)%Q
      else if only_tests then Ok (1 # 100)%Q
      else
        match e_reverse e with
        | None => Raise KeyError
        | Some r =>
            if xorb reverse r && propagating (e_type e) then Ok 1%Q
            else Ok (1 # 100)%Q
        end
  end.

(** [for node, weight in pr.items(): merged[node] += weight] *)
Definition accumulate (merged : Dict.t) (pr : list (nat * Q)) : Dict.t :=
  fold_left (fun m p => Dict.add m (Some (Z.of_nat (fst p))) (snd p)) pr merged.

(** The [try: ... except rx.FailedToConverge: merged = personalization]
    block. *)
Definition rank (eng : Engine) (g : PyDiGraph) (only_tests : bool)
    (personalization : Dict.t) : result Dict.t :=
  let es := map attrs (edge_list g) in
  w1 <- mapM (weight_fn only_tests false) es ;;
  match pagerank eng g w1 personalization with
  | None => Ok personalization
  | Some pr1 =>
      let merged := accumulate [] pr1 in
      w2 <- mapM (weight_fn only_tests true) es ;;
      match pagerank eng g w2 personalization with
      | None => Ok personalization
      | Some pr2 => Ok (accumulate merged pr2)
      end
  end.

(** [overlay_files] is a [dict[str, Optional[str]]]. *)
Definition overlay := list (string * option string).

Fixpoint overlay_get (o : overlay) (f : string) : option (option string) :=
  match o with
  | [] => None
  | (k, v) :: o' => if String.eqb k f then Some v else overlay_get o' f
  end.

(** [n.file_name in overlay_files and overlay_files[n.file_name] is None] *)
Definition deleted_in_overlay (o : overlay) (n : KGNode) : bool :=
  match overlay_get o (file_name n) with
  | Some None => true
  | _ => false
  end.

(** The personalization that [search] builds from [search_hits] and
    [seed_nodes] and passes to both [rx.pagerank] calls. *)
Definition personalization (search_hits : list (HybridSearch.Code * Q))
    (seed_nodes : option (list KGNode)) : result Dict.t :=
  let personalization :=
    Dict.of_pairs (map (fun h => (HybridSearch.c_node_id (fst h), snd h))
                       search_hits) in
  match seed_nodes with
  | None | Some [] => Ok personalization
  | Some seeds =>
      pairs <- mapM (fun n => m <- Dict.max_values personalization ;;
                              Ok (id n, m)) seeds ;;
      Ok (Dict.update personalization pairs)
  end.

(** Everything [search] does once it has left the cursor block with
    [search_hits]. *)
Definition select (eng : Engine) (self : t)
    (search_hits : list (HybridSearch.Code * Q))
    (seed_nodes : option (list KGNode)) (overlay_files : overlay)
    (only_tests : bool) : result (list (KGNode * Q)) :=
  let personalization :=
    Dict.of_pairs (map (fun h => (HybridSearch.c_node_id (fst h), snd h))
                       search_hits) in
  personalization <-
    match seed_nodes with
    | None | Some [] => Ok personalization
    | Some seeds =>
        pairs <- mapM (fun n => m <- Dict.max_values personalization ;;
                                Ok (id n, m)) seeds ;;
        Ok (Dict.update personalization pairs)
    end ;;
  merged <- rank eng (_graph self) only_tests personalization ;;
  let out_ids := Py.slice (Dict.sorted_desc snd merged) 0%Z (graph_top self) in
  ns <- get_nodes (_graph self) (map fst out_ids) ;;
  Ok (filter (fun p => negb (deleted_in_overlay overlay_files (fst p)))
             (combine ns (map snd out_ids))).

(** [overlay_node_by_sym[sym]]: the last node inserted under a symbol. *)
Fixpoint node_by_sym (ns : list KGNode) (sym : string) : result KGNode :=
  match ns with
  | [] => Raise KeyError
  | n :: ns' =>
      match node_by_sym ns' sym with
      | Ok m => Ok m
      | Raise _ => if String.eqb (symbol n) sym then Ok n else Raise KeyError
      end
  end.

Definition overlay_edge (ns : list KGNode) (d : string * string * string)
  : result (option Z * option Z * EdgeAttrs) :=
  let '(child, parent_sym, ty) := d in
  a <- node_by_sym ns child ;;
  b <- node_by_sym ns parent_sym ;;
  Ok (id a, id b,
      mkEdgeAttrs ty (Some false) (Some (file_name a)) (Some (file_name b)) None).

Definition reverse_edge (e : option Z * option Z * EdgeAttrs)
  : option Z * option Z * EdgeAttrs :=
  let '(a, b, d) := e in
  (b, a, mkEdgeAttrs (e_type d) (Some true) (e_target_file d) (e_src_file d) None).

(** [add_edges] wants node indices. *)
Definition to_edge (e : option Z * option Z * EdgeAttrs) : result Edge :=
  let '(a, b, d) := e in
  match a, b with
  | Some x, Some y =>
      if (x <? 0)%Z || (y <? 0)%Z then Raise OverflowError
      else Ok (mkEdge (Z.to_nat x) (Z.to_nat y) d)
  | _, _ => Raise TypeError
  end.

(** The part of [search] inside the cursor block: overlay ingestion and
    the hybrid search, both on the uncommitted table. *)
Definition retrieve (eng : Engine) (self : t) (query : string)
    (overlay_files : overlay) (tbl : HybridSearch.Table)
  : result (t * list (HybridSearch.Code * Q)) :=
  let files :=
    flat_map (fun f => match snd f with
                       | Some c => [(fst f, c)]
                       | None => []
                       end) overlay_files in
  let parsed := CodeIndexing.ast_parse (parse eng) files in
  r <- match CodeIndexing.nodes parsed with
       | [] => Ok (self, tbl)
       | _ :: _ =>
           let '(self1, ns, tbl1, _, e) :=
             bulk_insert eng self (CodeIndexing.nodes parsed)
                         (CodeIndexing.contents parsed) tbl in
           _ <- ending_result tt e ;;
           overlay_edges <- mapM (overlay_edge ns) (CodeIndexing.edges parsed) ;;
           fwd <- mapM to_edge overlay_edges ;;
           bwd <- mapM to_edge (map reverse_edge overlay_edges) ;;
           Ok (with_graph self1 (add_edges (add_edges (_graph self1) fwd) bwd),
               tbl1)
       end ;;
  hits <- HybridSearch.search (env eng) (snd r) (graphid (fst r)) query
            (Some (search_top (fst r))) (bm25_weight (fst r))
            (vector_weight (fst r)) ;;
  Ok (fst r, hits).

(** [GraphRag.search] *)
Definition search (eng : Engine) (self : t) (query : string)
    (seed_nodes : option (list KGNode)) (overlay_files : overlay)
    (only_tests : bool) (tbl : HybridSearch.Table)
  : result (list (KGNode * Q)) :=
  r <- retrieve eng self query overlay_files tbl ;;
  select eng (fst r) (snd r) seed_nodes overlay_files only_tests.

(** *** GraphRag.initialize_graph, GraphRag.save and GraphRag.delete

    [default_path] is the field of that name, which no method changes. *)

(** [f"{self.default_path}/{self.feature_id}/graph.json"] *)
Definition graph_path (default_path : string) (feature_id : Z) : string :=
  (default_path ++ "/" ++ Py.str_of_int feature_id ++ "/graph.json")%string.

(** [initialize_graph]: the graph that a new [GraphRag] starts from. *)
Definition initialize_graph (default_path : string) (feature_id : Z) (fs : files)
  : result PyDiGraph :=
  match fs (graph_path default_path feature_id) with
  | Some _ => load (graph_path default_path feature_id) fs
  | None => Ok init_graph
  end.

(** [GraphRag.save] *)
Definition save_graph (self : t) (default_path : string) (fs : files) : files :=
  save (_graph self) (graph_path default_path (feature_id self)) fs.

(** [os.remove(path)] *)
Definition remove_file (path : string) (fs : files) : files :=
  fun p => if String.eqb p path then None else fs p.

(** [GraphRag.delete]: the index and the files afterwards, and how the
    call ended. *)
Definition delete (eng : Engine) (self : t) (default_path : string)
    (tbl : HybridSearch.Table) (fs : files)
  : HybridSearch.Table * files * HybridSearch.ending :=
  let node_ids := map id (nodes (_graph self)) in
  let '(tbl', _, e) :=
    HybridSearch.bulk_action (env eng) (graphid self)
      (map HybridSearch.delete_action node_ids) tbl in
  match e with
  | HybridSearch.Finished =>
      let path := graph_path default_path (feature_id self) in
      (tbl', match fs path with
             | Some _ => remove_file path fs
             | None => fs
             end, HybridSearch.Finished)
  | _ => (tbl', fs, e)
  end.

End GraphRag.

(** ** serving.py: the ingest endpoint *)

Module Serving.

Inductive IngestProgressStatus : Type := IN_PROGRESS | COMPLETED | ERROR.

Inductive IngestStep : Type := ANALYZE_CODE | BUILD_GRAPH.

Record IngestProgressEvent : Type := mkEvent {
  step : IngestStep;
  status : IngestProgressStatus;
  progress : option Q
}.

(** The events streamed by [_api_codegraph] for the files of a repository:
    the files kept by the block-list and the size cap are parsed, the
    nodes are inserted, every value that reaches [progress_cb] is
    forwarded through the queue, and the COMPLETED event follows unless
    the insertion failed. *)
Definition _api_codegraph (eng : GraphRag.Engine) (graph : GraphRag.t)
    (repo_files : list (string * string)) (path_matches : string -> bool)
    (tbl : HybridSearch.Table) : list IngestProgressEvent :=
  let kept :=
    filter (fun f => negb (path_matches (fst f))
                     && (Py.len (snd f) <? 1000000)%Z) repo_files in
  let parsed := CodeIndexing.ast_parse (GraphRag.parse eng) kept in
  let '(_, _, _, reported, e) :=
    GraphRag.bulk_insert eng graph (CodeIndexing.nodes parsed)
                         (CodeIndexing.contents parsed) tbl in
  map (fun p => mkEvent BUILD_GRAPH IN_PROGRESS (Some p)) reported
  ++ match e with
     | HybridSearch.Finished => [mkEvent BUILD_GRAPH COMPLETED (Some 100%Q)]
     | _ => []
     end.

End Serving.

(** ** utils/glob_match.py *)

Module GlobMatch.

(** [s.replace("\\", "/")] *)
Definition backslash : ascii := ascii_of_nat 92.

Fixpoint normalize (s : string) : string :=
  match s with
  | EmptyString => EmptyString
  | String c s' =>
      String (if Ascii.eqb c backslash then "/"%char else c) (normalize s')
  end.

(** [[p for p in s.split("/") if p]]; [cur] is the segment read so far. *)
Fixpoint split_slash (cur : string) (s : string) : list string :=
  match s with
  | EmptyString =>
      match cur with
      | EmptyString => []
      | _ => [cur]
      end
  | String c s' =>
      if Ascii.eqb c "/" then
        match cur with
        | EmptyString => split_slash EmptyString s'
        | _ => cur :: split_slash EmptyString s'
        end
      else split_slash (cur ++ String c EmptyString)%string s'
  end.

(** The segments of a path or of a pattern. *)
Definition parts (s : string) : list string := split_slash EmptyString (normalize s).

(** [for next_idx in range(path_idx, len(path_parts) + 1): if
    match_segments(next_idx, ...): return True], over the segments that
    are left. *)
Fixpoint any_suffix (f : list string -> bool) (l : list string) : bool :=
  f l || match l with
         | [] => false
         | _ :: l' => any_suffix f l'
         end.

Section Match.

(** [fnmatch(name, pattern)] of the standard library. *)
Variable fnmatch : string -> string -> bool.

(** [match_segments(path_idx, pattern_idx)], on the segments from these
    indices on. *)
Fixpoint match_segments (pattern_parts path_parts : list string)
    {struct pattern_parts} : bool :=
  match pattern_parts with
  | [] =>
      match path_parts with
      | [] => true
      | _ :: _ => false
      end
  | pattern_segment :: pattern_rest =>
      match path_parts with
      | [] => forallb (fun p => String.eqb p "**") pattern_parts
      | path_segment :: path_rest =>
          if String.eqb pattern_segment "**"
          then any_suffix (match_segments pattern_rest) path_parts
          else if fnmatch path_segment pattern_segment
               then match_segments pattern_rest path_rest
               else false
      end
  end.

Definition match_pattern (path_parts : list string) (pattern : string) : bool :=
  match_segments (parts pattern) path_parts.

(** [path_matches(path_str, patterns)] *)
Definition path_matches (path_str : string) (patterns : list string) : bool :=
  existsb (match_pattern (parts path_str)) patterns.

End Match.

End GlobMatch.

(** ** services/code_analysis/analysis/location.py *)

Module Loc.

(** Both [line] and [col] are 0-indexed. *)
Record Location : Type := mkLocation {
  line : Z;
  col : Z
}.

(** [(self.line, self.col) < (other.line, other.col)] and [==] *)
Definition lt (a b : Location) : bool :=
  (line a <? line b)%Z || ((line a =? line b)%Z && (col a <? col b)%Z).

Definition eq (a b : Location) : bool :=
  (line a =? line b)%Z && (col a =? col b)%Z.

(** What [functools.total_ordering] derives from [__lt__]: [a <= b] is
    [a < b or a == b], and [a >= b] is [not a < b]. *)
Definition le (a b : Location) : bool := lt a b || eq a b.

Definition ge (a b : Location) : bool := negb (lt a b).

(** The dictionary with the keys ["line"] and ["col"]. *)
Record LocationDict : Type := mkLocationDict {
  d_line : Z;
  d_col : Z
}.

(** [Location.to_dict]: the line becomes 1-indexed. *)
Definition to_dict (l : Location) : LocationDict :=
  mkLocationDict (line l + 1) (col l).

(** [Location.from_dict] *)
Definition from_dict (d : LocationDict) : Location :=
  mkLocation (d_line d) (d_col d).

(** [Location.line_align] *)
Definition line_align (l : Location) : Location :=
  if (col l =? 0)%Z then l else mkLocation (line l + 1) 0.

Record Range : Type := mkRange {
  start : Location;
  stop : Location
}.

(** [Range.is_subset] *)
Definition is_subset (self other : Range) : bool :=
  le (start other) (start self) && ge (stop other) (stop self).

(** [Range.line_align] *)
Definition range_line_align (r : Range) : Range :=
  if (col (stop r) =? 0)%Z
  then mkRange (mkLocation (line (start r)) 0) (mkLocation (line (stop r)) 0)
  else mkRange (mkLocation (line (start r)) 0) (mkLocation (line (stop r) + 1) 0).

End Loc.

(** ** services/code_analysis/analysis/scopes.py *)

Module Scopes.
Import CodeIndexing.

(** A node of the syntax tree, as far as the scope functions look at it:
    its grammar type, its range and its children. *)
#[warnings="-register-all"]
Inductive ts_node : Type :=
| TsNode (kind : string) (rng : Loc.Range) (children : list ts_node).

Definition node_range (node : ts_node) : Loc.Range :=
  match node with TsNode _ rng _ => rng end.

Section Lang.

(** [sf.lang.scope_type(node)] and [sf.lang.scope_name(scope)], which
    depend on the grammar of the language. *)
Variable scope_type : ts_node -> option ScopeType.
Variable scope_name : ts_node -> option string.

(** [Scope.to_dict] with ["name"] and ["children"] set, in the fields
    that the indexer reads. *)
Definition to_dict (ty : ScopeType) (node : ts_node) (children : list scope) : scope :=
  Scope ty (scope_name node)
        (Loc.d_line (Loc.to_dict (Loc.start (node_range node))))
        (Loc.d_line (Loc.to_dict (Loc.stop (node_range node))))
        (Loc.d_col (Loc.to_dict (Loc.stop (node_range node))))
        children.

(** [_nested_scopes(sf, node)] *)
Fixpoint _nested_scopes (node : ts_node) : list scope :=
  match node with
  | TsNode _ _ children =>
      let below := flat_map _nested_scopes children in
      match scope_type node with
      | Some ty => [to_dict ty node below]
      | None => below
      end
  end.

End Lang.

(** [filter_children_types(children, cb)]: a child is handed to [cb]
    after its own children were filtered. *)
Fixpoint filter_scope (cb : scope -> bool) (child : scope) : list scope :=
  match child with
  | Scope ty name sl el ec children =>
      let filtered := flat_map (filter_scope cb) children in
      if cb (Scope ty name sl el ec filtered)
      then [Scope ty name sl el ec filtered]
      else filtered
  end.

Definition filter_children_types (children : list scope) (cb : scope -> bool)
  : list scope :=
  flat_map (filter_scope cb) children.

(** [nested_scopes(sf, filter_cb)["children"]] for the tree [root]. *)
Definition nested_scopes (scope_type : ts_node -> option ScopeType)
    (scope_name : ts_node -> option string) (root : ts_node)
    (filter_cb : scope -> bool) : list scope :=
  match root with
  | TsNode _ _ children =>
      filter_children_types
        (flat_map (_nested_scopes scope_type scope_name) children) filter_cb
  end.

End Scopes.

(** ** hybrid_search.py: the query terms of Code.search *)

Module QueryTerms.

(** The character class of the pattern: space, newline, backquote, dot,
    parentheses, brackets, braces, both quotes, slash and hyphen. *)
Definition is_separator (c : ascii) : bool :=
  let n := nat_of_ascii c in
  Nat.eqb n 32 || Nat.eqb n 10 || Nat.eqb n 96 || Nat.eqb n 46
  || Nat.eqb n 40 || Nat.eqb n 41 || Nat.eqb n 91 || Nat.eqb n 93
  || Nat.eqb n 123 || Nat.eqb n 125 || Nat.eqb n 39 || Nat.eqb n 34
  || Nat.eqb n 47 || Nat.eqb n 45.

(** [re.split(pattern, s)] for the pattern that matches one or more
    separators: the pieces between the runs of separators, with an empty
    piece in front of a run that opens [s] and behind one that closes
    it.  [cur] is the piece read so far, and [in_run] tells whether the
    character before was a separator. *)
Fixpoint re_split (cur : string) (in_run : bool) (s : string) : list string :=
  match s with
  | EmptyString => [cur]
  | String c s' =>
      if is_separator c then
        if in_run then re_split EmptyString true s'
        else cur :: re_split EmptyString true s'
      else re_split (cur ++ String c EmptyString)%string false s'
  end.

(** [term.replace("\\", "\\\\")] *)
Fixpoint escape (s : string) : string :=
  match s with
  | EmptyString => EmptyString
  | String c s' =>
      if Ascii.eqb c GlobMatch.backslash
      then String GlobMatch.backslash (String GlobMatch.backslash (escape s'))
      else String c (escape s')
  end.

(** [[term.strip().replace("\\", "\\\\") for term in query_terms if term.strip()]] *)
Definition query_terms (query : string) : list string :=
  map (fun term => escape (CodeIndexing.strip term))
      (filter (fun term => Py.truthy (CodeIndexing.strip term))
              (re_split EmptyString false query)).

End QueryTerms.

(** * Statements and sample inputs

    The predicates in which the properties below are stated, and the
    concrete inputs at which they are evaluated. *)

(** ** Saving and loading *)

Module GraphDefs.
Import Graph.

(** The nodes and the id mapping that the loader builds from a saved node
    list. *)
Definition reloaded (next : nat) (l : list (nat * KGNode)) : list (nat * KGNode) :=
  combine (seq next (List.length l)) (map snd l).

Definition id_mapping (next : nat) (l : list (nat * KGNode)) : list (nat * nat) :=
  combine (map fst l) (seq next (List.length l)).

(** What save followed by load keeps of one edge. *)
Definition edge_kept (g g' : PyDiGraph) (e e' : Edge) : Prop :=
  e_type (attrs e') = e_type (attrs e)
  /\ e_reverse (attrs e') = Some (get_reverse (attrs e))
  /\ exists s t,
       get_node_data g (source e) = Ok s /\ get_node_data g' (source e') = Ok s
       /\ get_node_data g (target e) = Ok t /\ get_node_data g' (target e') = Ok t
       /\ e_src_file (attrs e') = Some (file_name s)
       /\ e_target_file (attrs e') = Some (file_name t).

(** A graph of two nodes around the freed index 1, with a definition
    edge that has no reverse flag and its mirror. *)
Definition sample_graph : PyDiGraph :=
  mkGraph
    [ (0%nat, mkKGNode FILE "a" "a.py" 0 None None (Some 0%Z));
      (2%nat, mkKGNode FUNCTION "a.foo" "a.py" 0 (Some 2%Z) None (Some 2%Z)) ]
    [1%nat]
    [ mkEdge 2 0 (mkEdgeAttrs "function_def" None None None None);
      mkEdge 0 2 (mkEdgeAttrs "function_def" (Some true) None None None) ].

End GraphDefs.

(** ** Invalidation *)

Module InvalidateDefs.
Import Graph.

(** A graph with the single file node of [a.py] and the index row that
    was inserted for it. *)
Definition one_file_graph : PyDiGraph :=
  mkGraph [(0%nat, mkKGNode FILE "a" "a.py" 0 None None (Some 0%Z))] [] [].

Definition one_file_table : HybridSearch.Table :=
  HybridSearch.mkTable
    [HybridSearch.mkRow 1 (Some "a.py") (Some "") (Some 0%Z) (Some "7") None] 2.

End InvalidateDefs.

(** ** Edge weights *)

Module WeightDefs.
Import Graph.

(** A call edge from [src/foo.py] to [tests/test_foo.py]. *)
Definition test_edge : EdgeAttrs :=
  mkEdgeAttrs "call" (Some false) (Some "src/foo.py") (Some "tests/test_foo.py") None.

End WeightDefs.

(** ** Batching *)

Module BatchDefs.
Import HybridSearch.

(** The budget that the packing loop does keep: a batch without its last
    text is within 20,000 characters. *)
Definition within_budget (b : list string) : Prop :=
  (total_len (removelast b) <= 20000)%Z.

(** A text of [n] characters. *)
Fixpoint text_of_length (n : nat) : string :=
  match n with
  | O => EmptyString
  | S n' => String "a" (text_of_length n')
  end.

Definition over_budget_text : string := text_of_length (Z.to_nat 20001).

End BatchDefs.

(** ** Sorting *)

Module SortDefs.

(** Descending by score. *)
Definition descending {A} (score : A -> Q) (a b : A) : Prop :=
  (score b <= score a)%Q.

End SortDefs.

(** ** Retrieval *)

Module SearchDefs.
Import Graph.

(** An engine without credentials whose index scores nothing and whose
    PageRank does not converge; an empty index. *)
Definition silent_env : HybridSearch.Env :=
  HybridSearch.mkEnv false (fun _ _ _ _ => HybridSearch.ResourceExhausted) []
                     (fun _ _ _ _ => []).

Definition silent_engine : GraphRag.Engine :=
  GraphRag.mkEngine silent_env (fun _ _ => CodeIndexing.Unreadable)
                    (fun _ _ _ => None).

Definition empty_table : HybridSearch.Table := HybridSearch.mkTable [] 1.

(** A seed node. *)
Definition seed : KGNode := mkKGNode FILE "a" "a.py" 0 None None (Some 0%Z).

(** A node index as a dictionary key. *)
Definition inj (i : nat) : Dict.key := Some (Z.of_nat i).

(** The order of integer keys; [None] is comparable with nothing. *)
Definition key_lt (a b : Dict.key) : Prop :=
  match a, b with
  | Some x, Some y => (x < y)%Z
  | _, _ => False
  end.

(** [n1.id < n2.id] *)
Definition id_lt (n1 n2 : KGNode) : Prop := key_lt (id n1) (id n2).

(** The two [rx.pagerank] calls that [search] makes on [g] with the
    personalization [p], one per direction of the weight function, both
    converge, and they report the same nodes by increasing index, as
    [rx.pagerank] lists them. *)
Definition both_converge (eng : GraphRag.Engine) (g : PyDiGraph)
    (only_tests : bool) (p : Dict.t) : Prop :=
  exists w1 pr1 w2 pr2,
    mapM (GraphRag.weight_fn only_tests false) (map attrs (edge_list g)) = Ok w1
    /\ GraphRag.pagerank eng g w1 p = Some pr1
    /\ mapM (GraphRag.weight_fn only_tests true) (map attrs (edge_list g)) = Ok w2
    /\ GraphRag.pagerank eng g w2 p = Some pr2
    /\ StronglySorted lt (map fst pr1)
    /\ map fst pr2 = map fst pr1.

(** Higher score first; equal scores by increasing key. *)
Definition tie_order (a b : Dict.key * Q) : Prop :=
  (snd b < snd a)%Q \/ ((snd a == snd b)%Q /\ key_lt (fst a) (fst b)).

Definition node_order (a b : KGNode * Q) : Prop :=
  (snd b < snd a)%Q \/ ((snd a == snd b)%Q /\ id_lt (fst a) (fst b)).

(** Higher score first; of two results of equal score, the first is
    stored in [g] at a lower index than the second. *)
Definition stored_order (g : PyDiGraph) (a b : KGNode * Q) : Prop :=
  (snd b < snd a)%Q
  \/ ((snd a == snd b)%Q
      /\ exists i j, (i < j)%nat /\ get_node_data g i = Ok (fst a)
                     /\ get_node_data g j = Ok (fst b)).

(** [k in m] *)
Definition has_key (m : Dict.t) (k : Dict.key) : bool :=
  existsb (fun k' => Dict.key_eqb k' k) (map fst m).

(** A file with one function, indexed: two nodes, the definition edge and
    its mirror, and two index rows that the index scores equally. *)
Definition file_node : KGNode := mkKGNode FILE "a" "a.py" 0 None None (Some 0%Z).
Definition foo_node : KGNode :=
  mkKGNode FUNCTION "a.foo" "a.py" 0 (Some 2%Z) None (Some 1%Z).

Definition two_node_graph : PyDiGraph :=
  mkGraph
    [(0%nat, file_node); (1%nat, foo_node)] []
    [ mkEdge 1 0 (mkEdgeAttrs "function_def" (Some false) (Some "a.py") (Some "a.py")
                              (Some 0%nat));
      mkEdge 0 1 (mkEdgeAttrs "function_def" (Some true) (Some "a.py") (Some "a.py")
                              (Some 1%nat)) ].

Definition two_row_table : HybridSearch.Table :=
  HybridSearch.mkTable
    [ HybridSearch.mkRow 1 (Some "a.py") (Some "def foo") (Some 1%Z) (Some "7") None;
      HybridSearch.mkRow 2 (Some "a.py") (Some "") (Some 0%Z) (Some "7") None ] 3.

Definition tie_env : HybridSearch.Env :=
  HybridSearch.mkEnv false (fun _ _ _ _ => HybridSearch.ResourceExhausted) []
                     (fun _ _ _ _ => [(1%Z, 1%Q); (2%Z, 1%Q)]).

Definition uniform_pagerank (g : PyDiGraph) (w : list Q) (p : Dict.t)
  : option (list (nat * Q)) :=
  Some (map (fun i => (i, (1 # 2)%Q)) (node_indices g)).

Definition converging_engine : GraphRag.Engine :=
  GraphRag.mkEngine tie_env (fun _ _ => CodeIndexing.Unreadable) uniform_pagerank.

(** [rx.pagerank] divides the personalization by the sum of its values:
    when that sum is 0 the iteration runs on undefined numbers and ends
    in [FailedToConverge].  The sample below does so; on every other
    personalization it answers like [uniform_pagerank]. *)
Definition sum_values (p : Dict.t) : Q := fold_right Qplus 0%Q (map snd p).

Definition zero_sum_pagerank (g : PyDiGraph) (w : list Q) (p : Dict.t)
  : option (list (nat * Q)) :=
  if Qeq_bool (sum_values p) 0 then None else uniform_pagerank g w p.

(** An index that finds the row of [foo_node] only, with score 0. *)
Definition zero_env : HybridSearch.Env :=
  HybridSearch.mkEnv false (fun _ _ _ _ => HybridSearch.ResourceExhausted) []
                     (fun _ _ _ _ => [(1%Z, 0%Q)]).

Definition zero_sum_engine : GraphRag.Engine :=
  GraphRag.mkEngine zero_env (fun _ _ => CodeIndexing.Unreadable) zero_sum_pagerank.

(** What the converging engine returns for the two tied hits. *)
Definition tied_results : list (KGNode * Q) :=
  [(file_node, (4 # 4)%Q); (foo_node, (4 # 4)%Q)].

End SearchDefs.

(** ** The hybrid search query *)

Module CodeSearchDefs.
Import HybridSearch.

(** An index of 21 rows of graph 7, all scored. *)
Definition row_ids : list Z := map Z.of_nat (seq 1 21).

Definition wide_table : Table :=
  mkTable (map (fun i => mkRow i (Some "a.py") (Some "foo") (Some i) (Some "7") None)
               row_ids) 22.

Definition wide_env : Env :=
  mkEnv false (fun _ _ _ _ => ResourceExhausted) []
        (fun _ _ _ _ => map (fun i => (i, 1%Q)) row_ids).

End CodeSearchDefs.

(** ** The indexer *)

Module IndexingDefs.
Import Graph CodeIndexing.

(** The CLASS and FUNCTION scopes of a scope tree, parents before
    children, in source order. *)
Fixpoint defs_of (s : scope) : list scope :=
  match s with
  | Scope ty _ _ _ _ children =>
      match ty with
      | CLASS_SCOPE | FUNCTION_SCOPE => s :: flat_map defs_of children
      | _ => flat_map defs_of children
      end
  end.

Definition def_scopes (scopes : list scope) : list scope := flat_map defs_of scopes.

(** The content that goes with an emitted node: the two header lines and
    the source lines from the node's line to its end line. *)
Definition content_of (file_name : string) (file_lines : list string)
    (n : KGNode) (c : string) : Prop :=
  exists e,
    end_line n = Some e
    /\ c = (("# " ++ file_name ++ nl) ++ ("# " ++ symbol n ++ nl)
            ++ Py.join nl (Py.slice file_lines (line n) e))%string.

(** What a run of the scope walk adds to the accumulators for the
    definitions [ds]. *)
Definition emitted (file_name : string) (file_lines : list string)
    (st st' : state) (ds : list scope) : Prop :=
  exists ns cs,
    nodes st' = nodes st ++ ns
    /\ contents st' = contents st ++ cs
    /\ map line ns = map (fun s => (scope_start s - 1)%Z) ds
    /\ Forall2 (content_of file_name file_lines) ns cs.

(** The start line that the specification asks for, in its words: the
    scope's line moved upward across the contiguous lines that start with
    [@] immediately above it. *)
Definition is_decorator (l : string) : bool := String.prefix "@" (lstrip l).

Fixpoint spec_decorator_start (fuel : nat) (file_lines : list string) (start : Z) : Z :=
  match fuel with
  | O => start
  | S fuel' =>
      if (0 <? start)%Z
         && is_decorator (nth (Z.to_nat (start - 1)) file_lines "")
      then spec_decorator_start fuel' file_lines (start - 1)
      else start
  end.

(** A decorated function, and what the Python grammar reports for it: the
    decorated definition is a block-statement scope that starts on the
    decorator (line 1 of 3), the function definition inside it starts on
    the [def] line (line 2) and ends on line 3, column 8. *)
Definition decorated_source : string :=
  ("@dec" ++ nl ++ "def foo():" ++ nl ++ "    pass" ++ nl)%string.

Definition decorated_scopes : list scope :=
  [ Scope BLOCK_STATEMENT None 1 3 8
      [ Scope FUNCTION_SCOPE (Some "foo") 2 3 8 [] ] ].

Definition python_parse (file_name file_content : string) : parsed :=
  Parsed decorated_scopes.

End IndexingDefs.

(** ** Ordered delivery *)

Module OrderDefs.
Import HybridSearch.

(** Finished tasks stay finished, and a task that was going to finish
    either has finished or is still going to. *)
Definition advances (c : list nat) (s : list (list nat))
    (c' : list nat) (s' : list (list nat)) : Prop :=
  (forall i, In i c -> In i c')
  /\ (forall i, In i c \/ In i (List.concat s) -> In i c' \/ In i (List.concat s')).

Definition results {T} (vals : list T) : list (result T) := map Ok vals.

(** [v] is the value of task [f]. *)
Definition value_of {T} (vals : list T) (f : nat) (v : T) : Prop :=
  nth_error vals f = Some v.

(** Awaiting task [f] gives [v]. *)
Definition yields {T} (tasks : list (result T)) (f : nat) (v : T) : Prop :=
  await tasks f = Ok v.

End OrderDefs.

(** ** The embedding adapter *)

Module EmbedDefs.
Import HybridSearch.

(** The value that belongs to a text: nothing for the empty string, the
    service's embedding otherwise. *)
Definition expected (model : string -> string -> embedding) (input_type : string)
    (texts : list string) : list (option embedding) :=
  map (fun t => if Py.truthy t then Some (model input_type t) else None) texts.

(** The service embeds every text of a request by [model], and answers
    every request at the first, second or third attempt, failing before
    that only with the two errors that are retried. *)
Definition transient (r : reply) : Prop :=
  r = ResourceExhausted \/ r = InternalServerError.

Definition answers (env : Env) (model : string -> string -> embedding) : Prop :=
  forall task ty req,
    get_embeddings env task 1 ty req = Embeddings (map (model ty) req)
    \/ (transient (get_embeddings env task 1 ty req)
        /\ (get_embeddings env task 2 ty req = Embeddings (map (model ty) req)
            \/ (transient (get_embeddings env task 2 ty req)
                /\ get_embeddings env task 3 ty req
                   = Embeddings (map (model ty) req)))).

(** Every task of the call finishes at some point. *)
Definition completes (env : Env) (n : nat) : Prop :=
  forall i, (i < n)%nat -> In i (List.concat (completions env)).

(** A service that is exhausted at every first attempt and then embeds a
    text as its length; three texts that fall into two batches, of which
    the second finishes first. *)
Definition toy_model (ty t : string) : embedding := [inject_Z (Py.len t)].

Definition busy_env : Env :=
  mkEnv true
        (fun task retry ty req =>
           if Nat.eqb retry 1 then ResourceExhausted
           else Embeddings (map (toy_model ty) req))
        [[1%nat]; [0%nat]]
        (fun _ _ _ _ => []).

Definition three_texts : list string := [BatchDefs.over_budget_text; ""; "c"].

End EmbedDefs.

(** ** Progress of an ingest *)

Module ProgressDefs.
Import Serving.

(** The fractions reported while the chunks are inserted, starting from
    the counter [i]. *)
Fixpoint steps (total : Z) (i : Z) (chunks : list (list (option HybridSearch.embedding)))
  : list Q :=
  match chunks with
  | [] => []
  | c :: chunks' =>
      let i' := (i + Z.of_nat (List.length c))%Z in
      (inject_Z i' / inject_Z total)%Q :: steps total i' chunks'
  end.

(** A progress value is a positive fraction of the whole. *)
Definition fraction (p : Q) : Prop := (0 < p)%Q /\ (p <= 1)%Q.

(** An ingest of the one-function file without embedding credentials. *)
Definition ingest_engine : GraphRag.Engine :=
  GraphRag.mkEngine SearchDefs.silent_env IndexingDefs.python_parse
                    (fun _ _ _ => None).

Definition ingest_events : list IngestProgressEvent :=
  _api_codegraph ingest_engine (GraphRag.make 7 Graph.init_graph)
                 [("a.py", IndexingDefs.decorated_source)] (fun _ => false)
                 SearchDefs.empty_table.

End ProgressDefs.

(** ** The search index *)

Module IndexDefs.
Import HybridSearch.

(** The primary key of table [code]: the ids are distinct and below the
    next value of the sequence. *)
Definition keyed (t : Table) : Prop :=
  NoDup (map r_id (rows t))
  /\ Forall (fun r => (r_id r < next_serial t)%Z) (rows t).

(** Row [r] is the one stored for the CREATE action [a] of graph
    [graph_id]. *)
Definition stores (graph_id : string) (a : SearchIndexAction) (r : Row) : Prop :=
  r_file r = a_file a /\ r_text r = a_content a /\ r_nodeid r = a_node_id a
  /\ r_graphid r = Some graph_id.

(** An index of two rows, and one action to add a third. *)
Definition small_table : Table :=
  mkTable [ mkRow 1 (Some "a.py") (Some "x") (Some 0%Z) (Some "7") None;
            mkRow 4 (Some "b.py") (Some "y") (Some 1%Z) (Some "8") None ] 5.

Definition one_create : list SearchIndexAction :=
  [create_action "c.py" "z" (Some 2%Z)].

End IndexDefs.

(** ** The graph store *)

Module StoreDefs.
Import Graph.

(** The bookkeeping of the stable-index graph: node indices ascend, the
    free list holds each freed index once and none that is in use, and
    every index in use or free lies below their total number. *)
Definition well_formed (g : PyDiGraph) : Prop :=
  ascending g
  /\ NoDup (free_nodes g)
  /\ (forall i, In i (node_indices g) -> ~ In i (free_nodes g))
  /\ (forall i, In i (node_indices g) \/ In i (free_nodes g) ->
                (i < List.length (node_list g) + List.length (free_nodes g))%nat).

(** [n'] is node [n] as [bulk_insert] stores it: the same type, symbol,
    file and lines, no database id, and the id that the graph assigned. *)
Definition stored_as (n n' : KGNode) : Prop :=
  type n' = type n /\ symbol n' = symbol n /\ file_name n' = file_name n
  /\ line n' = line n /\ end_line n' = end_line n /\ db_id n' = None.

End StoreDefs.

(** ** What the indexer hands over *)

Module LinkDefs.
Import Graph CodeIndexing.

(** A class or function node. *)
Definition is_def (n : KGNode) : bool :=
  match type n with
  | FILE => false
  | _ => true
  end.

(** Some node of [ns] has the symbol [sym]. *)
Definition has_symbol (ns : list KGNode) (sym : string) : Prop :=
  exists n, In n ns /\ symbol n = sym.

(** The three lists belong together: one content per node, one deferred
    edge per class or function node, and every deferred edge goes from
    the symbol of a class or function node to the symbol of a node, as a
    class or a function definition. *)
Definition linked (st : state) : Prop :=
  List.length (contents st) = List.length (nodes st)
  /\ List.length (edges st) = List.length (filter is_def (nodes st))
  /\ forall c p ty, In (c, p, ty) (edges st) ->
       (exists n, In n (nodes st) /\ symbol n = c /\ is_def n = true)
       /\ has_symbol (nodes st) p
       /\ (ty = "class_def" \/ ty = "function_def").

(** A file of 120 lines in a language without grammar. *)
Definition plain_parse (file_name file_content : string) : parsed := Parsed [].

Definition long_text : string :=
  Py.join nl (repeat "x" 120).

(** Two lines separated by U+0085. *)
Definition nel_text : string :=
  ("x = 1" ++ String (ascii_of_nat 133) "y = 2")%string.

End LinkDefs.

(** ** Glob patterns *)

Module GlobDefs.

(** No character of [s] is a path separator. *)
Fixpoint plain (s : string) : bool :=
  match s with
  | EmptyString => true
  | String c s' =>
      negb (Ascii.eqb c "/") && negb (Ascii.eqb c GlobMatch.backslash) && plain s'
  end.

(** A matcher that knows the wildcard [*] alone and otherwise compares
    for equality, enough to evaluate the examples. *)
Definition toy_fnmatch (name pattern : string) : bool :=
  String.eqb pattern "*" || String.eqb name pattern.

End GlobDefs.

(** ** Scopes *)

Module ScopeDefs.
Import CodeIndexing.

(** A scope without its children, and the scopes of a tree in source
    order, parents before children. *)
Definition header (s : scope) : ScopeType * option string * Z * Z * Z :=
  match s with
  | Scope ty name sl el ec _ => (ty, name, sl, el, ec)
  end.

Fixpoint preorder (s : scope) : list (ScopeType * option string * Z * Z * Z) :=
  match s with
  | Scope _ _ _ _ _ children => header s :: flat_map preorder children
  end.

(** A callback that keeps classes and functions only. *)
Definition defs_only (s : scope) : bool :=
  match scope_type s with
  | CLASS_SCOPE | FUNCTION_SCOPE => true
  | _ => false
  end.

Definition is_def_header (h : ScopeType * option string * Z * Z * Z) : bool :=
  match fst (fst (fst (fst h))) with
  | CLASS_SCOPE | FUNCTION_SCOPE => true
  | _ => false
  end.

(** The function of [decorated_source] as a syntax tree: the decorated
    definition from 0:0 to 2:8 around the function definition from 1:0
    to 2:8; and a grammar that knows these two node types. *)
Definition decorated_tree : Scopes.ts_node :=
  Scopes.TsNode "module"
    (Loc.mkRange (Loc.mkLocation 0 0) (Loc.mkLocation 3 0))
    [ Scopes.TsNode "decorated_definition"
        (Loc.mkRange (Loc.mkLocation 0 0) (Loc.mkLocation 2 8))
        [ Scopes.TsNode "function_definition"
            (Loc.mkRange (Loc.mkLocation 1 0) (Loc.mkLocation 2 8)) [] ] ].

Definition toy_scope_type (node : Scopes.ts_node) : option ScopeType :=
  match node with
  | Scopes.TsNode kind _ _ =>
      if String.eqb kind "function_definition" then Some FUNCTION_SCOPE
      else if String.eqb kind "decorated_definition" then Some BLOCK_STATEMENT
      else None
  end.

Definition toy_scope_name (node : Scopes.ts_node) : option string :=
  match node with
  | Scopes.TsNode kind _ _ =>
      if String.eqb kind "function_definition" then Some "foo" else None
  end.

End ScopeDefs.

(** ** Query terms *)

Module TermDefs.

(** No character of [s] is a separator of the query pattern. *)
Fixpoint no_separator (s : string) : bool :=
  match s with
  | EmptyString => true
  | String c s' => negb (QueryTerms.is_separator c) && no_separator s'
  end.

(** No character of [s] is a single or a double quote. *)
Fixpoint no_quote (s : string) : bool :=
  match s with
  | EmptyString => true
  | String c s' =>
      negb (Nat.eqb (nat_of_ascii c) 39) && negb (Nat.eqb (nat_of_ascii c) 34)
      && no_quote s'
  end.

End TermDefs.

(** ** Node dictionaries *)

Module NodeDictDefs.

(** A node dictionary as an older graph file has it: without ["line"]
    and ["end_line"]. *)
Definition old_node_dict : Py.sdict :=
  [ ("type", "FILE"); ("symbol", "a"); ("file_name", "a.py");
    ("db_id", "None"); ("id", "3") ].

End NodeDictDefs.

(** * Properties *)

(** ** The definitions at work *)

Module Scenarios.
Import Graph CodeIndexing.

Example str_of_negative : Py.str_of_int (-42) = "-42".
Proof. reflexivity. Qed.

Example int_of_None : Py.int_of_str "None" = Raise ValueError.
Proof. reflexivity. Qed.

Example slice_to_negative : Py.slice [1; 2; 3; 4; 5]%Z 1 (-1) = [2; 3; 4]%Z.
Proof. reflexivity. Qed.

Example slice_past_the_end : Py.slice [1; 2; 3]%Z 2 50 = [3]%Z.
Proof. reflexivity. Qed.

Example splitlines_crlf :
  splitlines ("a" ++ String (ascii_of_nat 13) nl ++ "b" ++ nl)%string = ["a"; "b"].
Proof. reflexivity. Qed.

(** U+0085 ends a line, and is stripped like U+00A0. *)
Example splitlines_nel :
  splitlines ("x = 1" ++ String (ascii_of_nat 133) "y = 2")%string
  = ["x = 1"; "y = 2"].
Proof. reflexivity. Qed.

Example strip_nel_nbsp :
  strip (String (ascii_of_nat 160) ("a b" ++ String (ascii_of_nat 133) ""))%string
  = "a b".
Proof. reflexivity. Qed.

Example file_symbol_nested : file_symbol "pkg/mod.test.py" = "pkg.mod.test".
Proof. reflexivity. Qed.

(** The second task finishes first; its value is still delivered second. *)
Example delivery_out_of_order :
  HybridSearch.ordered_as_completed [Ok 10; Ok 11; Ok 12]%nat
                                    [[2]; [1]; []; [0]]%nat
  = ([10; 11; 12]%nat, HybridSearch.Finished).
Proof. reflexivity. Qed.

(** The first task never finishes: nothing is delivered. *)
Example delivery_blocked :
  HybridSearch.ordered_as_completed [Ok 10; Ok 11]%nat [[1]]%nat
  = ([], HybridSearch.Blocked).
Proof. reflexivity. Qed.

(** A task that failed ends the stream where its value was due. *)
Example delivery_raises :
  HybridSearch.ordered_as_completed [Ok 10; Raise RetriesExceeded; Ok 12]%nat
                                    [[2; 1; 0]]%nat
  = ([10]%nat, HybridSearch.Raised RetriesExceeded).
Proof. reflexivity. Qed.

Example chunks_of_two :
  HybridSearch.async_chunk ([1; 2; 3; 4; 5]%nat, HybridSearch.Finished) 2
  = ([[1; 2]; [3; 4]; [5]]%nat, HybridSearch.Finished).
Proof. reflexivity. Qed.

(** A file with one top-level function gives the file node, the function
    node and one deferred [function_def] edge; the function's content is
    its two header lines and its source lines. *)
Example single_function_ingest :
  let st :=
    ast_parse (fun _ _ => Parsed [Scope FUNCTION_SCOPE (Some "foo") 1 2 16 []])
              [("a.py", ("def foo(x):" ++ nl ++ "    return x+1" ++ nl)%string)] in
  nodes st = [ mkKGNode FILE "a" "a.py" 0 None None None;
               mkKGNode FUNCTION "a.foo" "a.py" 0 (Some 2%Z) None None ]
  /\ contents st
     = [ ""; ("# a.py" ++ nl ++ "# a.foo" ++ nl ++ "def foo(x):" ++ nl
              ++ "    return x+1")%string ]
  /\ edges st = [("a.foo", "a", "function_def")].
Proof. repeat split; reflexivity. Qed.

(** A class with one method: the class node ends where the method
    begins. *)
Example class_with_method :
  let st :=
    ast_parse (fun _ _ =>
                 Parsed [Scope CLASS_SCOPE (Some "C") 1 3 12
                           [Scope FUNCTION_SCOPE (Some "m") 2 3 12 []]])
              [("a.py", ("class C:" ++ nl ++ "    def m(self):" ++ nl
                         ++ "        pass" ++ nl)%string)] in
  nodes st = [ mkKGNode FILE "a" "a.py" 0 None None None;
               mkKGNode CLASS "a.C" "a.py" 0 (Some 1%Z) None None;
               mkKGNode FUNCTION "a.C.m" "a.py" 1 (Some 3%Z) None None ]
  /\ edges st = [("a.C", "a", "class_def"); ("a.C.m", "a.C", "function_def")].
Proof. repeat split; reflexivity. Qed.

(** A file without scopes is cut into chunks of 50 lines. *)
Example chunked_file :
  map (fun n => (line n, end_line n))
      (nodes (ast_parse (fun _ _ => Parsed [])
                        [("notes.txt", Py.join nl (repeat "x" 120))]))
  = [(0, Some 50); (50, Some 100); (100, Some 120)]%Z.
Proof. reflexivity. Qed.

(** The literal test of the weight function: "test" anywhere in the text
    before the first underscore. *)
Example contest_counts_as_test :
  GraphRag.test_target "src/contest_utils.py" = true.
Proof. reflexivity. Qed.

Example test_after_underscore_does_not :
  GraphRag.test_target "src/my_test.py" = false.
Proof. reflexivity. Qed.

End Scenarios.

(** ** Generic facts *)

Lemma mapM_Ok {A B} (f : A -> result B) (g : A -> B) (l : list A) :
  (forall a, In a l -> f a = Ok (g a)) -> mapM f l = Ok (map g l).
Proof.
  induction l as [|a l IH]; intros H; simpl; [reflexivity|].
  rewrite (H a (or_introl eq_refl)); simpl.
  rewrite IH; [reflexivity|]. intros b Hb. apply H. now right.
Qed.

Lemma mapM_length {A B} (f : A -> result B) (l : list A) (out : list B) :
  mapM f l = Ok out -> List.length out = List.length l.
Proof.
  revert out; induction l as [|a l IH]; simpl; intros out H.
  - now inversion H.
  - destruct (f a) as [b|]; simpl in H; [|discriminate].
    destruct (mapM f l) as [bs|]; simpl in H; [|discriminate].
    inversion H; subst; simpl. now rewrite (IH bs eq_refl).
Qed.

Lemma mapM_Forall2 {A B} (f : A -> result B) (l : list A) (out : list B) :
  mapM f l = Ok out -> Forall2 (fun a b => f a = Ok b) l out.
Proof.
  revert out; induction l as [|a l IH]; simpl; intros out H.
  - inversion H. constructor.
  - destruct (f a) as [b|] eqn:Hf; simpl in H; [|discriminate].
    destruct (mapM f l) as [bs|]; simpl in H; [|discriminate].
    inversion H; subst. constructor; auto.
Qed.

Lemma mapM_ex {A B} (f : A -> result B) (R : A -> B -> Prop) (l : list A) :
  (forall a, In a l -> exists b, f a = Ok b /\ R a b) ->
  exists out, mapM f l = Ok out /\ Forall2 R l out.
Proof.
  induction l as [|a l IH]; intros H; simpl.
  - exists []. split; [reflexivity|constructor].
  - destruct (H a (or_introl eq_refl)) as [b [Hb HR]].
    destruct (IH (fun x Hx => H x (or_intror Hx))) as [out [Ho HF]].
    exists (b :: out). rewrite Hb, Ho. split; [reflexivity|now constructor].
Qed.

Lemma Forall2_compose {A B C} (R : A -> B -> Prop) (S : B -> C -> Prop)
    (T : A -> C -> Prop) (la : list A) (lb : list B) (lc : list C) :
  (forall a b c, R a b -> S b c -> T a c) ->
  Forall2 R la lb -> Forall2 S lb lc -> Forall2 T la lc.
Proof.
  intros H HR; revert lc; induction HR; intros lc HS; inversion HS; subst;
    constructor; eauto.
Qed.

(** ** Integers survive [str] and [int] *)

Module PyFacts.

Lemma to_int_not_nil (n : Z) :
  Z.to_int n <> Decimal.Pos Decimal.Nil /\ Z.to_int n <> Decimal.Neg Decimal.Nil.
Proof.
  destruct n as [|p|p]; simpl; split; try discriminate;
    intros H; injection H as H; revert H; apply Unsigned.to_uint_nonnil.
Qed.

Lemma int_of_str_of_int (n : Z) : Py.int_of_str (Py.str_of_int n) = Ok n.
Proof.
  unfold Py.int_of_str, Py.str_of_int.
  destruct (to_int_not_nil n) as [Hp Hn].
  rewrite (NilZero.isi _ Hp Hn). now rewrite DecimalZ.of_to.
Qed.

Lemma str_of_int_not_None (n : Z) : String.eqb (Py.str_of_int n) "None" = false.
Proof.
  destruct (String.eqb (Py.str_of_int n) "None") eqn:E; [|reflexivity].
  apply String.eqb_eq in E.
  pose proof (int_of_str_of_int n) as H. rewrite E in H. discriminate H.
Qed.

End PyFacts.

(** ** Saving and loading a graph *)

Module GraphFacts.
Import GraphDefs.
Import Graph.

Lemma opt_int_roundtrip (o : option Z) :
  opt_int_of_str (Py.str_of_opt_int o) = Ok o.
Proof.
  destruct o as [n|]; simpl; [|reflexivity].
  unfold opt_int_of_str. rewrite PyFacts.str_of_int_not_None.
  now rewrite PyFacts.int_of_str_of_int.
Qed.

Lemma type_roundtrip (ty : KGNodeType) : type_of_name (type_name ty) = Ok ty.
Proof. now destruct ty. Qed.

(** A node is rebuilt exactly from its string dictionary, whatever its
    fields hold. *)
Lemma from_str_dict_str_dict (n : KGNode) : from_str_dict (str_dict n) = Ok n.
Proof.
  destruct n as [ty sym f ln eln dbi i].
  unfold from_str_dict, str_dict, Py.item, Py.get_default. cbn [Py.get String.eqb Ascii.eqb Bool.eqb].
  cbn [type symbol file_name line end_line db_id id bind].
  rewrite type_roundtrip; cbn [bind].
  rewrite PyFacts.int_of_str_of_int; cbn [bind].
  rewrite !opt_int_roundtrip; cbn [bind]. reflexivity.
Qed.

Lemma parse_nodes_saved (next : nat) (l : list (nat * KGNode)) :
  parse_nodes next (map (fun p => mkJsonNode (fst p) (str_dict (snd p))) l)
  = Ok (reloaded next l, id_mapping next l).
Proof.
  revert next; induction l as [|[i n] l IH]; intros next; simpl; [reflexivity|].
  rewrite from_str_dict_str_dict; cbn [bind].
  rewrite IH; cbn [bind]. reflexivity.
Qed.

Lemma reloaded_nodes (next : nat) (l : list (nat * KGNode)) :
  map snd (reloaded next l) = map snd l.
Proof.
  unfold reloaded. revert next; induction l as [|[i n] l IH]; intros next; simpl;
    [reflexivity|]. now rewrite IH.
Qed.

Lemma lookup_reloaded_below (next j : nat) (l : list (nat * KGNode)) :
  j < next -> lookup_node (reloaded next l) j = None.
Proof.
  unfold reloaded. revert next; induction l as [|[i n] l IH]; intros next Hj; simpl;
    [reflexivity|].
  destruct (Nat.eqb_spec next j); [lia|]. apply IH. lia.
Qed.

(** An index of the saved graph is mapped to an index of the loaded graph
    that holds the same node. *)
Lemma lookup_through_mapping (next i : nat) (l : list (nat * KGNode)) (n : KGNode) :
  lookup_node l i = Some n ->
  exists j, id_lookup (id_mapping next l) i = Ok j
            /\ lookup_node (reloaded next l) j = Some n.
Proof.
  unfold reloaded, id_mapping.
  revert next; induction l as [|[k m] l IH]; intros next H; simpl in *; [discriminate|].
  destruct (Nat.eqb_spec k i) as [->|Hk].
  - inversion H; subst. exists next. now rewrite Nat.eqb_refl.
  - destruct (IH (S next) H) as [j [Hj Hn]]. exists j. split; [exact Hj|].
    destruct (Nat.eqb_spec next j) as [->|]; [|exact Hn].
    pose proof (lookup_reloaded_below (S j) j l (Nat.lt_succ_diag_r j)) as Hb.
    unfold reloaded in Hb. rewrite Hb in Hn. discriminate.
Qed.

Lemma lookup_node_In (l : list (nat * KGNode)) (i : nat) :
  In i (map fst l) -> exists n, lookup_node l i = Some n.
Proof.
  induction l as [|[k m] l IH]; simpl; [tauto|].
  intros [->|H]; [rewrite Nat.eqb_refl; eauto|].
  destruct (Nat.eqb k i); eauto.
Qed.

Lemma load_edge_attrs_saved (a : EdgeAttrs) :
  load_edge_attrs (save_edge_attrs a)
  = Ok (mkEdgeAttrs (e_type a) (Some (get_reverse a)) None None None).
Proof.
  unfold load_edge_attrs, save_edge_attrs, Py.item. cbn.
  now destruct (get_reverse a).
Qed.

Lemma restore_edges_Forall2 (g : PyDiGraph) (es : list Edge) :
  forall idx out, restore_edges g idx es = Ok out ->
  Forall2 (fun e e' => exists k, restore_edge g k e = Ok e') es out.
Proof.
  induction es as [|e es IH]; intros idx out H; simpl in H.
  - inversion H. constructor.
  - destruct (restore_edge g idx e) as [e'|] eqn:He; cbn [bind] in H; [|discriminate].
    destruct (restore_edges g (S idx) es) as [rest|] eqn:Hr; cbn [bind] in H;
      [|discriminate].
    inversion H; subst. constructor; eauto.
Qed.

Lemma restore_edges_total (g : PyDiGraph) (es : list Edge) :
  (forall e, In e es -> exists s t, get_node_data g (source e) = Ok s
                                    /\ get_node_data g (target e) = Ok t) ->
  forall idx, exists out, restore_edges g idx es = Ok out.
Proof.
  induction es as [|e es IH]; intros H idx; simpl; [eauto|].
  destruct (H e (or_introl eq_refl)) as [s [t [Hs Ht]]].
  unfold restore_edge. rewrite Hs, Ht; cbn [bind].
  destruct (IH (fun e' He' => H e' (or_intror He')) (S idx)) as [out Hout].
  rewrite Hout; cbn [bind]. eauto.
Qed.

Lemma parse_link_saved (l : list (nat * KGNode)) (e : Edge) :
  In (source e) (map fst l) -> In (target e) (map fst l) ->
  exists e1,
    parse_link (id_mapping 0 l)
      (mkJsonLink (source e) (target e) (save_edge_attrs (attrs e))) = Ok e1
    /\ attrs e1 = mkEdgeAttrs (e_type (attrs e)) (Some (get_reverse (attrs e)))
                              None None None
    /\ exists s t,
         lookup_node l (source e) = Some s
         /\ lookup_node (reloaded 0 l) (source e1) = Some s
         /\ lookup_node l (target e) = Some t
         /\ lookup_node (reloaded 0 l) (target e1) = Some t.
Proof.
  intros Hs Ht.
  destruct (lookup_node_In l _ Hs) as [s Hls].
  destruct (lookup_node_In l _ Ht) as [t Hlt].
  destruct (lookup_through_mapping 0 _ l s Hls) as [js [Hjs Hns]].
  destruct (lookup_through_mapping 0 _ l t Hlt) as [jt [Hjt Hnt]].
  unfold parse_link. cbn [jl_data jl_source jl_target].
  rewrite load_edge_attrs_saved; cbn [bind]. rewrite Hjs, Hjt; cbn [bind].
  eexists; split; [reflexivity|]. split; [reflexivity|].
  exists s, t. cbn [source target]. auto.
Qed.

(** C2.  Saving a graph to a path and loading it back returns a graph
    whose node payloads are the saved ones, in the same order: every
    node keeps its id, symbol, file name, line, end line (an absent end
    line stays absent) and db id.  The edges come back one for one, each
    with its type and reverse flag, between nodes carrying the payloads
    of the original endpoints, and each carries [src_file] and
    [target_file] equal to the file names of its endpoints. *)
Theorem save_load_roundtrip (g : PyDiGraph) (path : string) (fs : files) :
  closed g ->
  exists g',
    load path (save g path fs) = Ok g'
    /\ nodes g' = nodes g
    /\ Forall2 (edge_kept g g') (edge_list g) (edge_list g').
Proof.
  intros Hclosed.
  unfold load, save. rewrite String.eqb_refl.
  unfold from_node_link_json, node_link_json. cbn [nl_nodes nl_links].
  rewrite parse_nodes_saved; cbn [bind fst snd].
  set (l := node_list g).
  destruct (mapM_ex
              (fun e => parse_link (id_mapping 0 l)
                          (mkJsonLink (source e) (target e) (save_edge_attrs (attrs e))))
              (fun e e1 =>
                 attrs e1 = mkEdgeAttrs (e_type (attrs e))
                              (Some (get_reverse (attrs e))) None None None
                 /\ exists s t,
                      lookup_node l (source e) = Some s
                      /\ lookup_node (reloaded 0 l) (source e1) = Some s
                      /\ lookup_node l (target e) = Some t
                      /\ lookup_node (reloaded 0 l) (target e1) = Some t)
              (edge_list g)) as [es1 [Hes1 HF1]].
  { intros e He. destruct (Hclosed e He) as [Hs Ht].
    destruct (parse_link_saved l e Hs Ht) as [e1 [H1 [H2 H3]]]. eauto. }
  assert (Hmap : mapM (parse_link (id_mapping 0 l))
                   (map (fun e => mkJsonLink (source e) (target e)
                                   (save_edge_attrs (attrs e))) (edge_list g))
                 = Ok es1).
  { clear HF1. revert es1 Hes1. induction (edge_list g) as [|e es IH];
      intros es1 H; simpl in *; [exact H|].
    destruct (parse_link _ _) as [e1|]; cbn [bind] in *; [|discriminate].
    destruct (mapM _ es) as [r|] eqn:Hr; cbn [bind] in *; [|discriminate].
    rewrite (IH r eq_refl). exact H. }
  rewrite Hmap; cbn [bind edge_list node_list free_nodes].
  set (g1 := mkGraph (reloaded 0 l) [] es1).
  destruct (restore_edges_total g1 es1) with (idx := 0) as [es2 Hes2].
  { intros e1 He1.
    assert (Hin : exists e, In e (edge_list g)
                   /\ exists s t, lookup_node (reloaded 0 l) (source e1) = Some s
                                  /\ lookup_node (reloaded 0 l) (target e1) = Some t).
    { clear Hmap Hes1. induction HF1 as [|e e1' es es' [_ [s [t H]]] _ IH];
        [contradiction|].
      destruct He1 as [->|He1].
      - exists e. split; [now left|]. exists s, t. tauto.
      - destruct (IH He1) as [e0 [Hin H0]]. exists e0. split; [now right|exact H0]. }
    destruct Hin as [_ [_ [s [t [Hs Ht]]]]].
    exists s, t. unfold get_node_data; cbn [node_list g1]. now rewrite Hs, Ht. }
  rewrite Hes2; cbn [bind].
  eexists; split; [reflexivity|]. split.
  - unfold nodes; cbn [node_list]. apply reloaded_nodes.
  - cbn [edge_list].
    refine (Forall2_compose _ _ _ _ _ _ _ HF1
                            (restore_edges_Forall2 g1 es1 0 es2 Hes2)).
    intros e e1 e2 [Ha [s [t [Hs [Hs1 [Ht Ht1]]]]]] [k Hk].
    unfold restore_edge, get_node_data in Hk. cbn [node_list g1] in Hk.
    rewrite Hs1, Ht1 in Hk; cbn [bind] in Hk. inversion Hk; subst e2; clear Hk.
    unfold edge_kept; cbn [attrs source target e_type e_reverse e_src_file e_target_file].
    rewrite Ha; cbn [e_type e_reverse].
    split; [reflexivity|]. split; [reflexivity|].
    exists s, t. unfold get_node_data; cbn [node_list]. fold l.
    rewrite Hs, Hs1, Ht, Ht1. repeat split; reflexivity.
Qed.

Lemma save_load_roundtrip_witness :
  closed sample_graph
  /\ exists g',
       load "graph.json" (save sample_graph "graph.json" (fun _ => None)) = Ok g'
       /\ nodes g' = nodes sample_graph
       /\ Forall2 (edge_kept sample_graph g') (edge_list sample_graph) (edge_list g').
Proof.
  assert (H : closed sample_graph).
  { intros e He. simpl in He.
    destruct He as [<-|[<-|[]]]; simpl; auto. }
  split; [exact H|].
  exact (save_load_roundtrip sample_graph "graph.json" (fun _ => None) H).
Defined.

End GraphFacts.

(** ** Invalidation *)

Module InvalidateFacts.
Import InvalidateDefs.
Import Graph.

(** [id IN (NULL, ..., NULL)] holds for no row. *)
Lemma sql_in_nulls (x : Z) (ids : list (option Z)) :
  HybridSearch.sql_in x (map (fun _ => None) ids) = false.
Proof.
  unfold HybridSearch.sql_in. induction ids as [|i ids IH]; [reflexivity|exact IH].
Qed.

Lemma delete_many_nulls (tbl : HybridSearch.Table) (ids : list (option Z)) :
  HybridSearch.delete_many tbl (map (fun _ => None) ids) = tbl.
Proof.
  destruct tbl as [rs serial]. destruct ids as [|i ids]; [reflexivity|].
  unfold HybridSearch.delete_many.
  change (map (fun _ : option Z => @None Z) (i :: ids))
    with (@None Z :: map (fun _ : option Z => @None Z) ids).
  cbv iota. cbn [HybridSearch.rows HybridSearch.next_serial]. f_equal.
  induction rs as [|r rs IH]; [reflexivity|].
  cbn [filter].
  change (@None Z :: map (fun _ : option Z => @None Z) ids)
    with (map (fun _ : option Z => @None Z) (i :: ids)) in *.
  rewrite sql_in_nulls. cbn [negb]. now rewrite IH.
Qed.

(** Deleting by the [id] field of delete actions, which is never set,
    removes nothing: the table comes back as it was. *)
Lemma bulk_action_deletes_nothing (e : HybridSearch.Env) (gid : string)
    (node_ids : list (option Z)) (tbl : HybridSearch.Table) :
  HybridSearch.bulk_action e gid (map HybridSearch.delete_action node_ids) tbl
  = (tbl, [], HybridSearch.Finished).
Proof.
  unfold HybridSearch.bulk_action, HybridSearch.group_actions.
  assert (Hc : filter (HybridSearch.is_type HybridSearch.CREATE)
                 (map HybridSearch.delete_action node_ids) = []).
  { induction node_ids as [|a l IH]; [reflexivity|].
    cbn [map filter].
    change (HybridSearch.is_type HybridSearch.CREATE (HybridSearch.delete_action a))
      with false.
    cbv iota. exact IH. }
  assert (Hd : filter (HybridSearch.is_type HybridSearch.DELETE)
                 (map HybridSearch.delete_action node_ids)
               = map HybridSearch.delete_action node_ids).
  { induction node_ids as [|a l IH]; [reflexivity|].
    cbn [map filter].
    change (HybridSearch.is_type HybridSearch.DELETE (HybridSearch.delete_action a))
      with true.
    cbv iota. now rewrite IH. }
  rewrite Hc, Hd, map_map. cbn [HybridSearch.delete_action HybridSearch.a_id].
  cbn [HybridSearch.insert_creates]. now rewrite delete_many_nulls.
Qed.

(** Whatever the graph and the files, [invalidate] returns the search
    index unchanged. *)
Lemma invalidate_keeps_table (eng : GraphRag.Engine) (gid : string)
    (snapshot : list KGNode) (fs : list string) (g g' : PyDiGraph)
    (tbl tbl' : HybridSearch.Table) :
  GraphRag.invalidate_loop eng gid snapshot fs g tbl = Ok (g', tbl') -> tbl' = tbl.
Proof.
  revert g; induction fs as [|f fs IH]; intros g H; simpl in H.
  - now inversion H.
  - destruct (GraphRag.remove_node_ids g _) as [g1|]; cbn [bind] in H; [|discriminate].
    rewrite bulk_action_deletes_nothing in H. cbn [GraphRag.ending_result bind] in H.
    eauto.
Qed.

Lemma remove_node_list (g : PyDiGraph) (i : nat) :
  node_list (remove_node g i)
  = filter (fun p => negb (Nat.eqb (fst p) i)) (node_list g).
Proof.
  unfold remove_node.
  destruct (lookup_node (node_list g) i) eqn:E; [reflexivity|].
  induction (node_list g) as [|[j m] l IH]; [reflexivity|].
  cbn [lookup_node] in E. cbn [filter fst].
  destruct (Nat.eqb j i); [discriminate|]. cbn [negb]. now rewrite <- IH.
Qed.

Lemma remove_node_ids_list (ids : list (option Z)) :
  forall g g', GraphRag.remove_node_ids g ids = Ok g' ->
  forall p, In p (node_list g')
            <-> In p (node_list g) /\ ~ In (Some (Z.of_nat (fst p))) ids.
Proof.
  induction ids as [|k ids IH]; intros g g' H p; cbn [GraphRag.remove_node_ids] in H.
  - inversion H; subst. cbn. tauto.
  - destruct k as [z|]; cbn [GraphRag.remove_node_id bind] in H; [|discriminate].
    destruct (Z.ltb_spec z 0) as [|Hz]; cbn [bind] in H; [discriminate|].
    rewrite (IH _ _ H p), remove_node_list, filter_In, negb_true_iff, Nat.eqb_neq.
    cbn [In]. split.
    + intros [[Hin Hne] Hni]. split; [exact Hin|]. intros [He|Hi]; [|tauto].
      injection He as He. lia.
    + intros [Hin Hni]. split; [split; [exact Hin|]|tauto].
      intros He. apply Hni. left. f_equal. lia.
Qed.

(** The graph half of invalidation: in a graph whose nodes record their
    index as id, no node of an invalidated file is left. *)
Lemma invalidate_loop_nodes (eng : GraphRag.Engine) (gid : string) (g0 : PyDiGraph)
    (fs : list string) :
  indexed g0 ->
  forall g tbl g' tbl',
    (forall p, In p (node_list g) -> In p (node_list g0)) ->
    GraphRag.invalidate_loop eng gid (nodes g0) fs g tbl = Ok (g', tbl') ->
    (forall p, In p (node_list g') -> In p (node_list g))
    /\ forall p f, In p (node_list g') -> In f fs -> file_name (snd p) <> f.
Proof.
  intros Hidx. induction fs as [|f fs IH]; intros g tbl g' tbl' Hsub H;
    cbn [GraphRag.invalidate_loop] in H.
  - inversion H; subst. split; [auto|]. intros p f _ [].
  - destruct (GraphRag.remove_node_ids g _) as [g1|] eqn:Hrm; cbn [bind] in H;
      [|discriminate].
    rewrite bulk_action_deletes_nothing in H. cbn [GraphRag.ending_result bind] in H.
    pose proof (remove_node_ids_list _ _ _ Hrm) as Hg1.
    destruct (IH g1 tbl g' tbl') as [Hsub' Hnone]; [|exact H|].
    { intros p Hp. apply Hsub. now apply Hg1. }
    split.
    + intros p Hp. apply Hg1. auto.
    + intros [i n] f' Hp [<-|Hf']; [|now apply (Hnone (i, n) f')].
      cbn [snd]. intros Hfile.
      apply Hsub', Hg1 in Hp. destruct Hp as [Hp Hni]. apply Hni. cbn [fst].
      apply Hsub in Hp. rewrite <- (Hidx _ _ Hp).
      unfold GraphRag.ids_by_file. apply in_map. apply filter_In. split.
      * unfold nodes. now apply (in_map snd) in Hp.
      * now apply String.eqb_eq.
Qed.

(** C1.  At the graph holding the file node of [a.py] (node id 0) and the
    index holding its row, [invalidate({"a.py"})] removes the node from
    the graph but returns the index with the row of node 0 still in it:
    the delete actions carry [node_id], while [bulk_action] deletes by
    the [id] field of the actions, which is unset. *)
Theorem invalidate_leaves_row (eng : GraphRag.Engine) :
  exists self' tbl',
    GraphRag.invalidate eng (GraphRag.make 7 one_file_graph) ["a.py"] one_file_table
    = Ok (self', tbl')
    /\ nodes (GraphRag._graph self') = []
    /\ exists r, In r (HybridSearch.rows tbl')
                 /\ HybridSearch.r_file r = Some "a.py"
                 /\ HybridSearch.r_nodeid r = Some 0%Z.
Proof.
  eexists; eexists. split; [reflexivity|].
  split; [reflexivity|].
  eexists; split; [left; reflexivity|]. split; reflexivity.
Qed.

End InvalidateFacts.

(** ** The PageRank weight function *)

Module WeightFacts.
Import WeightDefs.
Import Graph.

(** C6.  For an edge whose [target_file] is [f]: when "test" occurs in
    [f.split("_")[0]] the weight is 1.0 under [only_tests] and 0.1
    otherwise; when it does not, that branch is not taken and the weight
    is the one of the remaining rules: 0.01 under [only_tests], otherwise
    1.0 for a call, class_ref or test_coverage edge whose direction
    agrees with the pass and 0.01 for any other edge. *)
Theorem weight_fn_test_branch (only_tests reverse : bool) (e : EdgeAttrs) (f : string) :
  e_target_file e = Some f ->
  (GraphRag.test_target f = true ->
     GraphRag.weight_fn only_tests reverse e
     = Ok (if only_tests then 1%Q else (1 # 10)%Q))
  /\ (GraphRag.test_target f = false ->
        GraphRag.weight_fn only_tests reverse e
        = if only_tests then Ok (1 # 100)%Q
          else match e_reverse e with
               | None => Raise KeyError
               | Some r =>
                   if xorb reverse r && GraphRag.propagating (e_type e)
                   then Ok 1%Q else Ok (1 # 100)%Q
               end)
  /\ GraphRag.test_target f = Py.contains "test" (Py.split_head "_" f).
Proof.
  intros Hf. unfold GraphRag.weight_fn. rewrite Hf.
  repeat split.
  - intros ->. now destruct only_tests.
  - intros ->. reflexivity.
Qed.

Lemma weight_fn_test_branch_witness :
  e_target_file test_edge = Some "tests/test_foo.py"
  /\ GraphRag.weight_fn true false test_edge = Ok 1%Q
  /\ GraphRag.weight_fn false false test_edge = Ok (1 # 10)%Q.
Proof.
  split; [reflexivity|].
  split.
  - exact (proj1 (weight_fn_test_branch true false test_edge "tests/test_foo.py"
                    eq_refl) eq_refl).
  - exact (proj1 (weight_fn_test_branch false false test_edge "tests/test_foo.py"
                    eq_refl) eq_refl).
Defined.

End WeightFacts.

(** ** Batching of the texts to embed *)

Module BatchFacts.
Import BatchDefs.
Import HybridSearch.

Lemma total_len_app (a b : list string) :
  total_len (a ++ b) = (total_len a + total_len b)%Z.
Proof.
  unfold total_len. induction a as [|x a IH]; cbn [app fold_right]; [reflexivity|].
  rewrite IH. lia.
Qed.

Lemma total_len_nonneg (a : list string) : (0 <= total_len a)%Z.
Proof.
  unfold total_len. induction a as [|x a IH]; cbn [fold_right]; [lia|].
  unfold Py.len in *. lia.
Qed.

Lemma total_len_removelast (a : list string) :
  (total_len (removelast a) <= total_len a)%Z.
Proof.
  destruct (list_eq_dec string_dec a []) as [->|Hne]; [simpl; lia|].
  rewrite (app_removelast_last "" Hne) at 2. rewrite total_len_app.
  pose proof (total_len_nonneg [last a ""]). lia.
Qed.

Lemma pack_within_budget (texts : list string) :
  forall closed cur,
    Forall within_budget closed -> (total_len cur <= 20000)%Z ->
    Forall within_budget (pack texts closed cur).
Proof.
  induction texts as [|t texts IH]; intros closed cur Hc Hcur; simpl.
  - apply Forall_app. split; [exact Hc|]. constructor; [|constructor].
    unfold within_budget. pose proof (total_len_removelast cur). lia.
  - destruct (Z.ltb_spec 20000 (total_len (cur ++ [t]))) as [Hover|Hfit].
    + apply IH; [|simpl; lia].
      apply Forall_app. split; [exact Hc|]. constructor; [|constructor].
      unfold within_budget. now rewrite removelast_last.
    + apply IH; assumption.
Qed.

(** A batch is closed only once it has gone over the budget. *)
Lemma pack_closed_over (texts : list string) :
  forall closed cur,
    Forall (fun b => (20000 < total_len b)%Z) closed ->
    Forall (fun b => (20000 < total_len b)%Z) (removelast (pack texts closed cur)).
Proof.
  induction texts as [|t texts IH]; intros closed cur Hc; simpl.
  - now rewrite removelast_last.
  - destruct (Z.ltb_spec 20000 (total_len (cur ++ [t]))) as [Hover|Hfit].
    + apply IH. apply Forall_app. split; [exact Hc|]. now constructor.
    + now apply IH.
Qed.

(** C4, as the code has it.  Every batch without its last text stays
    within 20,000 characters, and every batch but the final one exceeds
    20,000 characters: a batch is closed by the text that takes it over
    the budget. *)
Theorem batches_budget (texts : list string) :
  Forall within_budget (batches texts)
  /\ Forall (fun b => (20000 < total_len b)%Z) (removelast (batches texts)).
Proof.
  split.
  - apply pack_within_budget; [constructor|simpl; lia].
  - apply pack_closed_over. constructor.
Qed.

Lemma text_of_length_len (n : nat) : Py.len (text_of_length n) = Z.of_nat n.
Proof.
  unfold Py.len. f_equal. induction n as [|n IH]; simpl; [reflexivity|now rewrite IH].
Qed.

(** C4, as stated, fails for a single text of 20,001 characters: it forms
    a batch by itself, whose aggregate length is 20,001. *)
Lemma batches_exceed_budget :
  In [over_budget_text] (batches [over_budget_text])
  /\ ~ (total_len [over_budget_text] <= 20000)%Z.
Proof.
  pose proof (text_of_length_len (Z.to_nat 20001)) as Hlen.
  rewrite Z2Nat.id in Hlen by lia. fold over_budget_text in Hlen.
  remember over_budget_text as big eqn:Hbig. clear Hbig.
  assert (Htot : total_len [big] = 20001%Z).
  { unfold total_len; cbn [fold_right]. lia. }
  split; [|lia].
  unfold batches. cbn [pack app]. rewrite Htot. cbn. now left.
Qed.

End BatchFacts.

(** ** Sorting by score *)

Module SortFacts.
Import SortDefs.

Section Sorting.
Context {A : Type}.
Variable score : A -> Q.

Local Abbreviation descending := (SortDefs.descending score).

Lemma insert_desc_In (x y : A) (l : list A) :
  In y (Dict.insert_desc score x l) <-> y = x \/ In y l.
Proof.
  induction l as [|z l IH]; simpl; [intuition|].
  destruct (Qlt_le_dec (score x) (score z)); simpl; rewrite ?IH; intuition.
Qed.

Lemma sorted_desc_In (y : A) (l : list A) :
  In y (Dict.sorted_desc score l) <-> In y l.
Proof.
  unfold Dict.sorted_desc.
  induction l as [|x l IH]; simpl; [tauto|].
  rewrite insert_desc_In, IH. intuition.
Qed.

Lemma sorted_desc_length (l : list A) :
  List.length (Dict.sorted_desc score l) = List.length l.
Proof.
  unfold Dict.sorted_desc.
  induction l as [|x l IH]; simpl; [reflexivity|]. rewrite <- IH. clear IH.
  induction (fold_right (Dict.insert_desc score) [] l) as [|z s IH]; simpl;
    [reflexivity|].
  destruct (Qlt_le_dec (score x) (score z)); simpl; [now rewrite IH|reflexivity].
Qed.

(** Inserting into a sorted list keeps it sorted for any order [R] that
    contains "strictly higher score" and relates the new element to the
    elements it is put in front of. *)
Lemma insert_desc_sorted (R : A -> A -> Prop) (x : A) (s : list A) :
  (forall a b, (score b < score a)%Q -> R a b) ->
  (forall z, In z s -> (score z <= score x)%Q -> R x z) ->
  StronglySorted R s ->
  StronglySorted descending s ->
  StronglySorted R (Dict.insert_desc score x s).
Proof.
  intros Hlt Hx HS HD. induction s as [|y s IH]; simpl.
  - repeat constructor.
  - apply StronglySorted_inv in HS. destruct HS as [HS Hy].
    apply StronglySorted_inv in HD. destruct HD as [HD Hyd].
    destruct (Qlt_le_dec (score x) (score y)) as [Hxy|Hyx].
    + constructor.
      * apply IH; auto. intros z Hz. apply Hx. now right.
      * apply Forall_forall. intros z Hz. apply insert_desc_In in Hz.
        destruct Hz as [->|Hz]; [now apply Hlt|].
        rewrite Forall_forall in Hy. now apply Hy.
    + constructor; [constructor; assumption|].
      apply Forall_forall. intros z [<-|Hz].
      * apply Hx; [now left|assumption].
      * apply Hx; [now right|].
        rewrite Forall_forall in Hyd. specialize (Hyd z Hz).
        unfold descending in Hyd. lra.
Qed.

(** The result of the sort is in descending order of score. *)
Lemma sorted_desc_descending (l : list A) :
  StronglySorted descending (Dict.sorted_desc score l).
Proof.
  unfold Dict.sorted_desc.
  induction l as [|x l IH]; simpl; [constructor|].
  apply insert_desc_sorted; [| |exact IH|exact IH].
  - intros a b H. unfold descending. lra.
  - intros z _ H. exact H.
Qed.

End Sorting.

Lemma firstn_incl {A} (n : nat) (l : list A) (y : A) :
  In y (firstn n l) -> In y l.
Proof.
  intros H. rewrite <- (firstn_skipn n l). apply in_or_app. now left.
Qed.

Lemma StronglySorted_firstn {A} (R : A -> A -> Prop) (n : nat) (l : list A) :
  StronglySorted R l -> StronglySorted R (firstn n l).
Proof.
  revert n; induction l as [|x l IH]; intros n H.
  - rewrite firstn_nil. constructor.
  - destruct n as [|n]; [constructor|]. cbn [firstn].
    apply StronglySorted_inv in H. destruct H as [HS Hx].
    constructor; [now apply IH|].
    rewrite Forall_forall in *. intros y Hy. apply Hx. eapply firstn_incl; eauto.
Qed.

Lemma StronglySorted_filter {A} (R : A -> A -> Prop) (f : A -> bool) (l : list A) :
  StronglySorted R l -> StronglySorted R (filter f l).
Proof.
  induction l as [|x l IH]; intros H; simpl; [constructor|].
  apply StronglySorted_inv in H. destruct H as [HS Hx].
  destruct (f x); [|now apply IH].
  constructor; [now apply IH|].
  rewrite Forall_forall in *. intros y Hy. apply filter_In in Hy. now apply Hx.
Qed.

Lemma StronglySorted_nth {A} (R : A -> A -> Prop) (l : list A) :
  StronglySorted R l ->
  forall i j a b, (i < j)%nat -> nth_error l i = Some a -> nth_error l j = Some b ->
                  R a b.
Proof.
  induction 1 as [|x l HS IH Hx]; intros i j a b Hij Ha Hb.
  - destruct i; discriminate.
  - destruct j as [|j]; [lia|]. simpl in Hb.
    destruct i as [|i]; simpl in Ha.
    + inversion Ha; subst. rewrite Forall_forall in Hx. apply Hx.
      eapply nth_error_In; eauto.
    + apply (IH i j); auto. lia.
Qed.

Lemma Forall2_In_r {A B} (T : A -> B -> Prop) (la : list A) (lb : list B) (b : B) :
  Forall2 T la lb -> In b lb -> exists a, In a la /\ T a b.
Proof.
  induction 1 as [|a b0 la lb Hab HF IH]; intros Hb; [contradiction|].
  destruct Hb as [->|Hb]; [exists a; split; [now left|assumption]|].
  destruct (IH Hb) as [a' [Ha' HT]]. exists a'. split; [now right|assumption].
Qed.

(** Sortedness carries over to a list related element by element. *)
Lemma StronglySorted_Forall2 {A B} (R : A -> A -> Prop) (S : B -> B -> Prop)
    (T : A -> B -> Prop) (la : list A) (lb : list B) :
  (forall a a' b b', T a b -> T a' b' -> R a a' -> S b b') ->
  Forall2 T la lb -> StronglySorted R la -> StronglySorted S lb.
Proof.
  intros H HF. induction HF as [|a b la lb Hab HF IH]; intros HS; [constructor|].
  apply StronglySorted_inv in HS. destruct HS as [HS Ha].
  constructor; [now apply IH|].
  rewrite Forall_forall in *. intros b' Hb'.
  destruct (Forall2_In_r _ _ _ _ HF Hb') as [a' [Ha' Hab']].
  eapply H; eauto.
Qed.

(** [l[:stop]] is a prefix of [l]. *)
Lemma slice_prefix {A} (l : list A) (stop : Z) :
  exists n, Py.slice l 0 stop = firstn n l.
Proof.
  unfold Py.slice, Py.clamp_index.
  change (0 <? 0)%Z with false. cbv iota.
  assert (H : Z.min 0 (Z.of_nat (List.length l)) = 0%Z) by lia.
  rewrite H. change (Z.to_nat 0) with 0%nat. cbn [skipn]. eexists. reflexivity.
Qed.

End SortFacts.

(** ** Retrieval *)

Module SearchFacts.
Import SearchDefs.
Import Graph.

Lemma set_not_nil (d : Dict.t) (k : Dict.key) (v : Q) : Dict.set d k v <> [].
Proof.
  destruct d as [|[k' v'] d]; simpl; [discriminate|].
  destruct (Dict.key_eqb k' k); discriminate.
Qed.

Lemma update_not_nil (pairs : list (Dict.key * Q)) :
  forall d, d <> [] \/ pairs <> [] -> Dict.update d pairs <> [].
Proof.
  unfold Dict.update.
  induction pairs as [|p pairs IH]; intros d H; simpl.
  - destruct H as [H|H]; [exact H|congruence].
  - apply IH. left. apply set_not_nil.
Qed.

(** C10.  When the hybrid search returns no hit and seed nodes are given,
    [search] raises the [ValueError] of [max()] over the empty
    personalization instead of returning; with at least one hit the
    maximum exists. *)
Theorem search_without_hits_raises (eng : GraphRag.Engine) (self self' : GraphRag.t)
    (query : string) (seeds : list KGNode) (overlay_files : GraphRag.overlay)
    (only_tests : bool) (tbl : HybridSearch.Table) :
  GraphRag.retrieve eng self query overlay_files tbl = Ok (self', []) ->
  seeds <> [] ->
  GraphRag.search eng self query (Some seeds) overlay_files only_tests tbl
  = Raise ValueError
  /\ forall hits : list (HybridSearch.Code * Q),
       hits <> [] ->
       exists m,
         Dict.max_values
           (Dict.of_pairs (map (fun h => (HybridSearch.c_node_id (fst h), snd h)) hits))
         = Ok m.
Proof.
  intros Hr Hs. split.
  - unfold GraphRag.search. rewrite Hr. cbn [bind fst snd].
    unfold GraphRag.select. cbn [map Dict.of_pairs Dict.update fold_left].
    destruct seeds as [|s seeds]; [congruence|]. reflexivity.
  - intros hits Hh. unfold Dict.max_values.
    destruct (map snd (Dict.of_pairs _)) as [|x l] eqn:E; [|eauto].
    exfalso. apply map_eq_nil in E. revert E. apply update_not_nil. right.
    destruct hits; [congruence|discriminate].
Qed.

Lemma search_without_hits_raises_witness :
  GraphRag.search silent_engine (GraphRag.make 7 init_graph) "foo" (Some [seed])
                  [] false empty_table
  = Raise ValueError.
Proof.
  refine (proj1 (search_without_hits_raises silent_engine (GraphRag.make 7 init_graph)
                   (GraphRag.make 7 init_graph) "foo" [seed] [] false empty_table
                   _ _)).
  - reflexivity.
  - discriminate.
Defined.

(** *** Order of the results *)

Lemma key_eqb_eq (a b : Dict.key) : Dict.key_eqb a b = true <-> a = b.
Proof.
  destruct a as [x|], b as [y|]; simpl; try (split; congruence).
  rewrite Z.eqb_eq. split; congruence.
Qed.

Lemma add_keys (m : Dict.t) (k : Dict.key) (w : Q) :
  map fst (Dict.add m k w)
  = if has_key m k then map fst m else map fst m ++ [k].
Proof.
  unfold has_key. induction m as [|[k' v'] m IH]; simpl; [reflexivity|].
  destruct (Dict.key_eqb k' k); simpl; [reflexivity|].
  rewrite IH. now destruct (existsb _ (map fst m)).
Qed.

Lemma has_key_In (m : Dict.t) (k : Dict.key) :
  has_key m k = true <-> In k (map fst m).
Proof.
  unfold has_key. rewrite existsb_exists. split.
  - intros [k' [Hin He]]. apply key_eqb_eq in He. now subst.
  - intros H. exists k. split; [exact H|]. now apply key_eqb_eq.
Qed.

Lemma inj_injective (i j : nat) : inj i = inj j -> i = j.
Proof. unfold inj. intros H. injection H as H. lia. Qed.

(** The first pass creates the keys in the order of the ranking. *)
Lemma accumulate_fresh (pr : list (nat * Q)) :
  forall m, NoDup (map fst pr) ->
            (forall i, In i (map fst pr) -> ~ In (inj i) (map fst m)) ->
            map fst (GraphRag.accumulate m pr) = map fst m ++ map inj (map fst pr).
Proof.
  unfold GraphRag.accumulate.
  induction pr as [|[i w] pr IH]; intros m Hnd Hfresh; simpl.
  - now rewrite app_nil_r.
  - inversion Hnd as [|? ? Hi Hnd']; subst.
    rewrite IH; [| exact Hnd' |].
    + rewrite add_keys.
      destruct (has_key m (Some (Z.of_nat i))) eqn:E.
      * apply has_key_In in E. exfalso. apply (Hfresh i); [now left|exact E].
      * now rewrite <- app_assoc.
    + intros j Hj Hin. rewrite add_keys in Hin.
      destruct (has_key m (Some (Z.of_nat i))).
      * apply (Hfresh j); [now right|exact Hin].
      * apply in_app_or in Hin. destruct Hin as [Hin|[Hin|[]]].
        -- apply (Hfresh j); [now right|exact Hin].
        -- apply inj_injective in Hin. subst. contradiction.
Qed.

(** The second pass finds every key in place. *)
Lemma accumulate_present (pr : list (nat * Q)) :
  forall m, (forall i, In i (map fst pr) -> In (inj i) (map fst m)) ->
            map fst (GraphRag.accumulate m pr) = map fst m.
Proof.
  unfold GraphRag.accumulate.
  induction pr as [|[i w] pr IH]; intros m Hin; simpl; [reflexivity|].
  assert (Hk : map fst (Dict.add m (Some (Z.of_nat i)) w) = map fst m).
  { rewrite add_keys.
    destruct (has_key m (Some (Z.of_nat i))) eqn:E; [reflexivity|].
    assert (In (inj i) (map fst m)) as H by (apply Hin; now left).
    apply has_key_In in H. unfold inj in H. congruence. }
  rewrite IH; [exact Hk|]. intros j Hj. rewrite Hk. apply Hin. now right.
Qed.

Lemma StronglySorted_lt_NoDup (l : list nat) : StronglySorted lt l -> NoDup l.
Proof.
  induction 1 as [|x l HS IH Hx]; constructor; [|exact IH].
  intros Hin. rewrite Forall_forall in Hx. specialize (Hx x Hin). lia.
Qed.

(** Stable sorting of a dictionary whose keys increase breaks ties by
    increasing key. *)
Lemma sorted_desc_ties (l : Dict.t) :
  StronglySorted (fun a b => key_lt (fst a) (fst b)) l ->
  StronglySorted tie_order (Dict.sorted_desc snd l).
Proof.
  induction 1 as [|x l HS IH Hx]; [constructor|].
  change (Dict.sorted_desc snd (x :: l))
    with (Dict.insert_desc snd x (Dict.sorted_desc snd l)).
  apply SortFacts.insert_desc_sorted;
    [| |exact IH|apply SortFacts.sorted_desc_descending].
  - intros a b H. now left.
  - intros z Hz Hle. apply SortFacts.sorted_desc_In in Hz.
    rewrite Forall_forall in Hx. specialize (Hx z Hz).
    destruct (Qlt_le_dec (snd z) (snd x)) as [Hlt|Hge]; [now left|].
    right. split; [lra|exact Hx].
Qed.

Lemma lookup_node_Some_In (l : list (nat * KGNode)) (i : nat) (n : KGNode) :
  lookup_node l i = Some n -> In (i, n) l.
Proof.
  induction l as [|[j m] l IH]; simpl; [discriminate|].
  destruct (Nat.eqb_spec j i) as [->|]; intros H.
  - inversion H; subst. now left.
  - right. now apply IH.
Qed.

(** In an indexed graph a node is found under its own id. *)
Lemma get_node_by_key_id (g : PyDiGraph) (k : Dict.key) (n : KGNode) :
  indexed g -> get_node_by_key g k = Ok n -> id n = k.
Proof.
  intros Hidx H. destruct k as [z|]; simpl in H; [|discriminate].
  destruct (Z.ltb_spec z 0) as [|Hz]; [discriminate|].
  unfold get_node_data in H.
  destruct (lookup_node (node_list g) (Z.to_nat z)) as [m|] eqn:E; [|discriminate].
  inversion H; subst m. apply lookup_node_Some_In in E.
  rewrite (Hidx _ _ E). f_equal. lia.
Qed.

Lemma combine_scores {K} (T : K -> KGNode -> Prop) (ids : list (K * Q)) (ns : list KGNode) :
  Forall2 T (map fst ids) ns ->
  Forall2 (fun p q => T (fst p) (fst q) /\ snd q = snd p) ids
          (combine ns (map snd ids)).
Proof.
  revert ns; induction ids as [|[k s] ids IH]; intros ns H; inversion H; subst;
    simpl; constructor; auto.
Qed.

Lemma wrap_sorted (idxs : list nat) (m : Dict.t) :
  map fst m = map inj idxs -> StronglySorted lt idxs ->
  StronglySorted (fun a b => key_lt (fst a) (fst b)) m.
Proof.
  revert m; induction idxs as [|i idxs IH]; intros m Hm HS;
    destruct m as [|[k v] m]; try discriminate; [constructor|].
  simpl in Hm. injection Hm as Hk Hm. apply StronglySorted_inv in HS.
  destruct HS as [HS Hi]. constructor; [now apply IH|].
  rewrite Forall_forall in *. intros [k' v'] Hin. cbn [fst].
  assert (Hk' : In k' (map inj idxs)).
  { rewrite <- Hm. now apply (in_map fst) in Hin. }
  apply in_map_iff in Hk'. destruct Hk' as [j [<- Hj]].
  subst k. specialize (Hi j Hj). unfold inj, key_lt. lia.
Qed.

(** When both passes converge the merged scores are keyed by increasing
    node index. *)
Lemma rank_converged (eng : GraphRag.Engine) (g : PyDiGraph) (only_tests : bool)
    (p merged : Dict.t) :
  both_converge eng g only_tests p ->
  GraphRag.rank eng g only_tests p = Ok merged ->
  StronglySorted (fun a b => key_lt (fst a) (fst b)) merged.
Proof.
  intros [w1 [pr1 [w2 [pr2 [Hw1 [H1 [Hw2 [H2 [Hs K2]]]]]]]]] H.
  unfold GraphRag.rank in H. rewrite Hw1 in H. cbn [bind] in H.
  rewrite H1, Hw2 in H. cbn [bind] in H. rewrite H2 in H.
  inversion H; subst merged; clear H.
  assert (Hk1 : map fst (GraphRag.accumulate [] pr1) = map inj (map fst pr1)).
  { rewrite accumulate_fresh; [reflexivity| |intros i _ []].
    now apply StronglySorted_lt_NoDup. }
  apply (wrap_sorted (map fst pr1)); [|exact Hs].
  rewrite accumulate_present; [exact Hk1|].
  intros i Hi. rewrite Hk1, <- K2. now apply in_map.
Qed.

(** [select] is the personalization, the ranking, and the selection of
    the best [graph_top] nodes. *)
Lemma select_inv (eng : GraphRag.Engine) (self : GraphRag.t)
    (hits : list (HybridSearch.Code * Q)) (seeds : option (list KGNode))
    (ov : GraphRag.overlay) (only_tests : bool) (out : list (KGNode * Q)) :
  GraphRag.select eng self hits seeds ov only_tests = Ok out ->
  exists p merged n ns,
    GraphRag.personalization hits seeds = Ok p
    /\ GraphRag.rank eng (GraphRag._graph self) only_tests p = Ok merged
    /\ get_nodes (GraphRag._graph self)
                 (map fst (firstn n (Dict.sorted_desc snd merged))) = Ok ns
    /\ out = filter (fun q => negb (GraphRag.deleted_in_overlay ov (fst q)))
                    (combine ns (map snd (firstn n (Dict.sorted_desc snd merged)))).
Proof.
  unfold GraphRag.select. fold (GraphRag.personalization hits seeds). intros H.
  destruct (GraphRag.personalization hits seeds) as [p|]; cbn [bind] in H;
    [|discriminate].
  destruct (GraphRag.rank _ _ _ p) as [merged|] eqn:Hr; cbn [bind] in H;
    [|discriminate].
  destruct (SortFacts.slice_prefix (Dict.sorted_desc snd merged)
              (GraphRag.graph_top self)) as [n Hn].
  rewrite Hn in H.
  destruct (get_nodes _ _) as [ns|] eqn:Hg; cbn [bind] in H; [|discriminate].
  inversion H. exists p, merged, n, ns. auto.
Qed.

(** A node fetched under a key is stored at the index that the key
    denotes. *)
Lemma get_node_by_key_index (g : PyDiGraph) (k : Dict.key) (n : KGNode) :
  get_node_by_key g k = Ok n ->
  exists z, k = Some z /\ (0 <= z)%Z /\ get_node_data g (Z.to_nat z) = Ok n.
Proof.
  intros H. destruct k as [z|]; cbn [get_node_by_key] in H; [|discriminate].
  destruct (Z.ltb_spec z 0) as [|Hz]; [discriminate|]. eauto.
Qed.

(** C5, as the code has it.  Whenever [search] returns, the result is in
    descending order of score.  When the two PageRank passes on the
    personalization of the hits and the seeds both converge, reporting
    the nodes by increasing index, results of equal score are in
    increasing order of graph index: the earlier one is stored at a lower
    index than the later one.  In a graph whose nodes carry their own
    index as id this is the order of the ids: of two results of equal
    score, [n1] comes before [n2] exactly when [n1.id < n2.id]. *)
Theorem search_order (eng : GraphRag.Engine) (self self' : GraphRag.t)
    (query : string) (seeds : option (list KGNode)) (ov : GraphRag.overlay)
    (only_tests : bool) (tbl : HybridSearch.Table)
    (hits : list (HybridSearch.Code * Q)) (out : list (KGNode * Q)) :
  GraphRag.retrieve eng self query ov tbl = Ok (self', hits) ->
  GraphRag.search eng self query seeds ov only_tests tbl = Ok out ->
  StronglySorted (fun a b => (snd b <= snd a)%Q) out
  /\ exists p,
       GraphRag.personalization hits seeds = Ok p
       /\ (both_converge eng (GraphRag._graph self') only_tests p ->
           StronglySorted (stored_order (GraphRag._graph self')) out
           /\ (indexed (GraphRag._graph self') ->
               forall i j n1 s1 n2 s2,
                 nth_error out i = Some (n1, s1) ->
                 nth_error out j = Some (n2, s2) ->
                 (s1 == s2)%Q ->
                 ((i < j)%nat <-> id_lt n1 n2))).
Proof.
  intros Hr Hs. unfold GraphRag.search in Hs. rewrite Hr in Hs.
  cbn [bind fst snd] in Hs.
  destruct (select_inv _ _ _ _ _ _ _ Hs)
    as [p [merged [n [ns [Hp [Hrank [Hg ->]]]]]]].
  set (g := GraphRag._graph self') in *.
  set (ids := firstn n (Dict.sorted_desc snd merged)) in *.
  split.
  - apply SortFacts.StronglySorted_filter.
    assert (HF : Forall2 (fun (_ : Dict.key) (_ : KGNode) => True) (map fst ids) ns).
    { apply mapM_Forall2 in Hg. clear -Hg.
      induction Hg; constructor; auto. }
    apply combine_scores in HF.
    refine (SortFacts.StronglySorted_Forall2 _ _ _ _ _ _ HF
              (SortFacts.StronglySorted_firstn _ n _
                 (SortFacts.sorted_desc_descending snd merged))).
    intros a a' b b' [_ Hb] [_ Hb'] H. unfold SortDefs.descending in H.
    rewrite Hb, Hb'. exact H.
  - exists p. split; [exact Hp|]. intros Hc.
    pose proof (SortFacts.StronglySorted_firstn _ n _
                  (sorted_desc_ties merged
                     (rank_converged eng g only_tests p merged Hc Hrank)))
      as Hids.
    fold ids in Hids. split.
    + apply SortFacts.StronglySorted_filter.
      assert (HF : Forall2 (fun (k : Dict.key) (m : KGNode) =>
                              get_node_by_key g k = Ok m) (map fst ids) ns).
      { exact (mapM_Forall2 _ _ _ Hg). }
      apply combine_scores in HF.
      refine (SortFacts.StronglySorted_Forall2 _ _ _ _ _ _ HF Hids).
      intros a a' b b' [Ha Hb] [Ha' Hb'] H.
      unfold stored_order, tie_order in *. rewrite Hb, Hb'.
      destruct H as [H|[He Hlt]]; [now left|]. right. split; [exact He|].
      destruct (get_node_by_key_index _ _ _ Ha) as [x [Hx [Hx0 Hgx]]].
      destruct (get_node_by_key_index _ _ _ Ha') as [y [Hy [Hy0 Hgy]]].
      rewrite Hx, Hy in Hlt. cbn [key_lt] in Hlt.
      exists (Z.to_nat x), (Z.to_nat y). repeat split; [lia|exact Hgx|exact Hgy].
    + intros Hi.
      assert (Hsorted :
                StronglySorted node_order
                  (filter (fun q => negb (GraphRag.deleted_in_overlay ov (fst q)))
                          (combine ns (map snd ids)))).
      { apply SortFacts.StronglySorted_filter.
        assert (HF : Forall2 (fun (k : Dict.key) (m : KGNode) => id m = k)
                             (map fst ids) ns).
        { apply mapM_Forall2 in Hg.
          refine (Forall2_impl _ _ Hg).
          intros k m Hk. now apply (get_node_by_key_id g). }
        apply combine_scores in HF.
        refine (SortFacts.StronglySorted_Forall2 _ _ _ _ _ _ HF Hids).
        intros a a' b b' [Hida Hb] [Hida' Hb'] H.
        unfold node_order, id_lt, tie_order in *. rewrite Hb, Hb', Hida, Hida'.
        exact H. }
      intros i j n1 s1 n2 s2 H1 H2 Heq.
      assert (Hirr : forall m, ~ id_lt m m).
      { intros m. unfold id_lt, key_lt. destruct (id m); [lia|tauto]. }
      assert (Hasym : forall a b, id_lt a b -> id_lt b a -> False).
      { intros a b. unfold id_lt, key_lt. destruct (id a), (id b); try tauto. lia. }
      split.
      * intros Hij.
        destruct (SortFacts.StronglySorted_nth _ _ Hsorted i j _ _ Hij H1 H2)
          as [Hlt|[_ Hlt]]; [cbn [snd] in Hlt; lra|exact Hlt].
      * intros Hlt. destruct (Nat.lt_total i j) as [Hij|[Hij|Hij]]; [exact Hij| |].
        -- subst j. rewrite H1 in H2. inversion H2; subst. exfalso. eapply Hirr; eauto.
        -- destruct (SortFacts.StronglySorted_nth _ _ Hsorted j i _ _ Hij H2 H1)
             as [Hlt'|[_ Hlt']]; [cbn [snd] in Hlt'; lra|].
           exfalso. eapply Hasym; eauto.
Qed.

Lemma search_order_witness :
  GraphRag.search converging_engine (GraphRag.make 7 two_node_graph) "foo" None []
                  false two_row_table = Ok tied_results
  /\ StronglySorted (fun a b => (snd b <= snd a)%Q) tied_results
  /\ StronglySorted (stored_order two_node_graph) tied_results
  /\ forall i j n1 s1 n2 s2,
       nth_error tied_results i = Some (n1, s1) ->
       nth_error tied_results j = Some (n2, s2) ->
       (s1 == s2)%Q -> ((i < j)%nat <-> id_lt n1 n2).
Proof.
  set (out := tied_results).
  assert (Hs : GraphRag.search converging_engine (GraphRag.make 7 two_node_graph)
                 "foo" None [] false two_row_table = Ok out) by reflexivity.
  split; [exact Hs|].
  destruct (search_order converging_engine (GraphRag.make 7 two_node_graph)
              (GraphRag.make 7 two_node_graph) "foo" None [] false two_row_table
              _ out eq_refl Hs) as [H1 [p [Hp H2]]].
  split; [exact H1|].
  assert (Hc : both_converge converging_engine two_node_graph false p).
  { inversion Hp; subst p. do 4 eexists.
    repeat split; try reflexivity. repeat constructor. }
  destruct (H2 Hc) as [H3 H4]. split; [exact H3|]. apply H4.
  intros i n [H|[H|[]]]; inversion H; reflexivity.
Defined.

(** C5, as stated, fails when PageRank does not converge, as for a
    personalization whose values add up to 0: the hit and the seed have
    the same score, and the node with id 1 comes before the node with
    id 0, in the order of the personalization. *)
Lemma search_ties_not_by_id :
  GraphRag.search zero_sum_engine (GraphRag.make 7 two_node_graph) "foo"
                  (Some [file_node]) [] false two_row_table
  = Ok [(foo_node, 0%Q); (file_node, 0%Q)]
  /\ GraphRag.personalization
       [(HybridSearch.from_db_row
           (HybridSearch.mkRow 1 (Some "a.py") (Some "def foo") (Some 1%Z) (Some "7")
                               None), 0%Q)]
       (Some [file_node])
     = Ok [(Some 1%Z, 0%Q); (Some 0%Z, 0%Q)]
  /\ id foo_node = Some 1%Z /\ id file_node = Some 0%Z
  /\ ~ id_lt foo_node file_node.
Proof.
  split; [reflexivity|]. split; [reflexivity|]. split; [reflexivity|].
  split; [reflexivity|]. unfold id_lt, key_lt. simpl. lia.
Qed.

End SearchFacts.

(** ** The hybrid search query *)

Module CodeSearchFacts.
Import CodeSearchDefs.
Import HybridSearch.

Lemma order_limit_spec (top : Z) (l out : list (Row * Q)) :
  order_limit top l = Ok out ->
  (List.length out <= Z.to_nat top)%nat
  /\ StronglySorted (fun a b => (snd b <= snd a)%Q) out.
Proof.
  unfold order_limit. destruct (top <? 0)%Z; [discriminate|].
  intros H; inversion H; subst; clear H. split.
  - rewrite length_firstn. lia.
  - apply SortFacts.StronglySorted_firstn.
    exact (SortFacts.sorted_desc_descending snd l).
Qed.

Lemma search_spec (e : Env) (t : Table) (gid query : string) (top : option Z)
    (bw vw : Q) (hits : list (Code * Q)) :
  search e t gid query top bw vw = Ok hits ->
  (List.length hits
   <= Z.to_nat (match top with Some n => n | None => search_default_top end))%nat
  /\ StronglySorted (fun a b => (snd b <= snd a)%Q) hits.
Proof.
  unfold search. intros H.
  destruct (anext _) as [emb|]; cbn [bind] in H; [|discriminate].
  destruct (order_limit _ _) as [out|] eqn:Ho; cbn [bind] in H; [|discriminate].
  inversion H; subst; clear H.
  apply order_limit_spec in Ho. destruct Ho as [Hlen Hsorted]. split.
  - now rewrite length_map.
  - refine (SortFacts.StronglySorted_Forall2 _ _
              (fun (p : Row * Q) (q : Code * Q) => snd q = snd p) _ _ _ _ Hsorted).
    + intros a a' b b' Hb Hb' Hle. rewrite Hb, Hb'. exact Hle.
    + clear. induction out; constructor; auto.
Qed.

(** [retrieve] hands the engine's [search_top] to [Code.search]. *)
Lemma retrieve_limit (eng : GraphRag.Engine) (self self' : GraphRag.t) (query : string)
    (ov : GraphRag.overlay) (tbl : Table) (hits : list (Code * Q)) :
  GraphRag.retrieve eng self query ov tbl = Ok (self', hits) ->
  (List.length hits <= Z.to_nat (GraphRag.search_top self))%nat.
Proof.
  unfold GraphRag.retrieve. intros H.
  match type of H with
  | bind ?P _ = _ => destruct P as [[self1 tbl1]|] eqn:HP; cbn [bind] in H;
                     [|discriminate]
  end.
  cbn [fst snd] in H.
  destruct (search _ _ _ _ _ _ _) as [hs|] eqn:Hs; cbn [bind] in H; [|discriminate].
  inversion H; subst; clear H.
  apply search_spec in Hs. destruct Hs as [Hlen _].
  assert (Htop : GraphRag.search_top self' = GraphRag.search_top self).
  { destruct (CodeIndexing.nodes _) as [|n0 ns0] in HP.
    - now inversion HP.
    - unfold GraphRag.bulk_insert in HP.
      destruct (GraphRag.add_nodes _ _) as [[g ns']|] in HP.
      + destruct (bulk_action _ _ _ _) as [[tbl' progress] en] in HP.
        destruct (GraphRag.ending_result tt en); cbn [bind] in HP; [|discriminate].
        destruct (mapM _ _) as [oe|] in HP; cbn [bind] in HP; [|discriminate].
        destruct (mapM _ _) as [fw|] in HP; cbn [bind] in HP; [|discriminate].
        destruct (mapM _ _) as [bw|] in HP; cbn [bind] in HP; [|discriminate].
        now inversion HP.
      + discriminate. }
  now rewrite <- Htop.
Qed.

(** C7, as the code has it.  [Code.search] returns at most [top] rows in
    descending order of score; a call that leaves [top] out is a call
    with [top = 20]; the 150 is the default of [GraphRag.search_top],
    which [GraphRag.search] passes as [top]. *)
Theorem search_top_rows (e : Env) (t : Table) (gid query : string) (top : option Z)
    (bw vw : Q) (hits : list (Code * Q)) :
  search e t gid query top bw vw = Ok hits ->
  (List.length hits
   <= Z.to_nat (match top with Some n => n | None => 20%Z end))%nat
  /\ StronglySorted (fun a b => (snd b <= snd a)%Q) hits
  /\ search e t gid query None bw vw = search e t gid query (Some 20%Z) bw vw
  /\ (forall fid g, GraphRag.search_top (GraphRag.make fid g) = 150%Z)
  /\ (forall eng self self' q ov tbl hs,
        GraphRag.retrieve eng self q ov tbl = Ok (self', hs) ->
        (List.length hs <= Z.to_nat (GraphRag.search_top self))%nat).
Proof.
  intros H. destruct (search_spec _ _ _ _ _ _ _ _ H) as [Hlen Hsorted].
  split; [exact Hlen|]. split; [exact Hsorted|]. split; [reflexivity|].
  split; [reflexivity|]. intros. eapply retrieve_limit; eauto.
Qed.

Lemma search_top_rows_witness :
  exists hits,
    search wide_env wide_table "7" "foo" (Some 3%Z) (1 # 2)%Q (1 # 2)%Q = Ok hits
    /\ (List.length hits <= 3)%nat
    /\ StronglySorted (fun a b => (snd b <= snd a)%Q) hits.
Proof.
  eexists. split; [reflexivity|].
  destruct (search_top_rows wide_env wide_table "7" "foo" (Some 3%Z)
              (1 # 2)%Q (1 # 2)%Q _ eq_refl) as [H1 [H2 _]].
  split; [exact H1|exact H2].
Defined.

(** C7, as stated, fails for the default: without [top], [Code.search]
    returns 20 of the 21 matching rows, where [top = 150] returns all
    21. *)
Lemma search_default_top_is_20 :
  (exists hits,
     search wide_env wide_table "7" "foo" None (1 # 2)%Q (1 # 2)%Q = Ok hits
     /\ List.length hits = 20%nat)
  /\ (exists hits,
        search wide_env wide_table "7" "foo" (Some 150%Z) (1 # 2)%Q (1 # 2)%Q = Ok hits
        /\ List.length hits = 21%nat).
Proof.
  split; eexists; (split; [vm_compute; reflexivity|reflexivity]).
Qed.

End CodeSearchFacts.

(** ** The indexer *)

Module IndexingFacts.
Import IndexingDefs.
Import Graph CodeIndexing.

Section Walk.
Variable file_name : string.
Variable file_lines : list string.

Lemma emitted_nil (st : state) : emitted file_name file_lines st st [].
Proof.
  exists [], []. rewrite !app_nil_r. repeat split; constructor.
Qed.

Lemma emitted_app (st st1 st2 : state) (ds1 ds2 : list scope) :
  emitted file_name file_lines st st1 ds1 ->
  emitted file_name file_lines st1 st2 ds2 ->
  emitted file_name file_lines st st2 (ds1 ++ ds2).
Proof.
  intros [ns1 [cs1 [Hn1 [Hc1 [Hl1 HF1]]]]] [ns2 [cs2 [Hn2 [Hc2 [Hl2 HF2]]]]].
  exists (ns1 ++ ns2), (cs1 ++ cs2).
  rewrite Hn2, Hn1, Hc2, Hc1, !app_assoc, !map_app, Hl1, Hl2.
  repeat split. now apply Forall2_app.
Qed.

Lemma emitted_emit (ty : KGNodeType) (edge_type : string) (name : option string)
    (start_line end_line : Z) (parent : string) (st st1 : state) (sym : string)
    (s : scope) :
  emit file_name file_lines ty edge_type name start_line end_line parent st
  = (sym, st1) ->
  start_line = (scope_start s - 1)%Z ->
  emitted file_name file_lines st st1 [s].
Proof.
  unfold emit. intros H Hs.
  destruct (name_or_unknown name st) as [own st0] eqn:Hn.
  assert (Hst0 : nodes st0 = nodes st /\ contents st0 = contents st).
  { unfold name_or_unknown in Hn. destruct name as [[|c n']|]; inversion Hn; auto. }
  destruct Hst0 as [Hn0 Hc0].
  inversion H; subst sym st1; clear H. cbn [nodes contents].
  eexists; eexists. rewrite Hn0, Hc0.
  split; [reflexivity|]. split; [reflexivity|].
  split; [cbn; now rewrite Hs|].
  constructor; [|constructor].
  eexists. split; reflexivity.
Qed.

(** The local loop over the children is [recurse_scope]. *)
Lemma recurse_one_unfold (ty : ScopeType) (name : option string) (sl el ec : Z)
    (children : list scope) (parent : string) (st : state) :
  recurse_one file_name file_lines (Scope ty name sl el ec children) parent st
  = match ty with
    | CLASS_SCOPE =>
        let '(sym, st1) :=
          emit file_name file_lines CLASS "class_def" name (sl - 1)
               (clip_end (scope_end el ec) children) parent st in
        recurse_scope file_name file_lines children sym st1
    | FUNCTION_SCOPE =>
        let '(sym, st1) :=
          emit file_name file_lines FUNCTION "function_def" name (sl - 1)
               (scope_end el ec) parent st in
        recurse_scope file_name file_lines children sym st1
    | _ => recurse_scope file_name file_lines children parent st
    end.
Proof.
  assert (Hgo : forall l p s0,
             (fix go (l : list scope) (p : string) (st : state) : state :=
                match l with
                | [] => st
                | c :: l' => go l' p (recurse_one file_name file_lines c p st)
                end) l p s0
             = recurse_scope file_name file_lines l p s0).
  { induction l as [|c l IH]; intros p s0; [reflexivity|]. cbn. apply IH. }
  cbn [recurse_one].
  destruct ty; try apply Hgo.
  - destruct (emit _ _ _ _ _ _ _ _ _) as [sym st1]. apply Hgo.
  - destruct (emit _ _ _ _ _ _ _ _ _) as [sym st1]. apply Hgo.
Qed.

Lemma recurse_scope_emitted_from (scopes : list scope) :
  Forall (fun s => forall parent st,
            emitted file_name file_lines st
                    (recurse_one file_name file_lines s parent st) (defs_of s))
         scopes ->
  forall parent st,
    emitted file_name file_lines st
            (recurse_scope file_name file_lines scopes parent st)
            (def_scopes scopes).
Proof.
  unfold def_scopes.
  induction 1 as [|s scopes Hs _ IH]; intros parent st; cbn [recurse_scope flat_map].
  - apply emitted_nil.
  - eapply emitted_app; [apply Hs|apply IH].
Qed.

Lemma recurse_one_emitted (s : scope) :
  forall parent st,
    emitted file_name file_lines st
            (recurse_one file_name file_lines s parent st) (defs_of s).
Proof.
  revert s.
  fix IH 1. intros [ty name sl el ec children] parent st.
  assert (Hch : Forall (fun s => forall parent st,
                          emitted file_name file_lines st
                                  (recurse_one file_name file_lines s parent st)
                                  (defs_of s)) children).
  { induction children as [|c cs IHc]; constructor; [apply IH|exact IHc]. }
  rewrite recurse_one_unfold.
  pose proof (recurse_scope_emitted_from children Hch) as Hrec.
  destruct ty; cbn [defs_of]; try apply Hrec.
  - destruct (emit _ _ _ _ _ _ _ _ _) as [sym st1] eqn:He.
    change (Scope CLASS_SCOPE name sl el ec children :: flat_map defs_of children)
      with ([Scope CLASS_SCOPE name sl el ec children] ++ def_scopes children).
    eapply emitted_app; [|apply Hrec].
    eapply emitted_emit; [exact He|reflexivity].
  - destruct (emit _ _ _ _ _ _ _ _ _) as [sym st1] eqn:He.
    change (Scope FUNCTION_SCOPE name sl el ec children :: flat_map defs_of children)
      with ([Scope FUNCTION_SCOPE name sl el ec children] ++ def_scopes children).
    eapply emitted_app; [|apply Hrec].
    eapply emitted_emit; [exact He|reflexivity].
Qed.

End Walk.

(** C8, as the code has it.  [recurse_scope] appends one node and one
    content string per CLASS or FUNCTION scope of the tree, in source
    order; the node's line is the start line that the parser reports for
    the scope itself (0-based), with no step over decorator lines; and
    the content is the two header lines followed by the source lines from
    that line to the node's end line. *)
Theorem recurse_scope_lines (file_name : string) (file_lines : list string)
    (scopes : list scope) (parent : string) (st : state) :
  exists ns cs,
    nodes (recurse_scope file_name file_lines scopes parent st) = nodes st ++ ns
    /\ contents (recurse_scope file_name file_lines scopes parent st)
       = contents st ++ cs
    /\ map line ns = map (fun s => (scope_start s - 1)%Z) (def_scopes scopes)
    /\ Forall2 (content_of file_name file_lines) ns cs.
Proof.
  apply recurse_scope_emitted_from.
  apply Forall_forall. intros s _. apply recurse_one_emitted.
Qed.

(** C8, as stated, fails on the decorated function: the FUNCTION node is
    emitted at line 1, the [def] line, where the decorator-expanded start
    is line 0, and its content begins at [def foo():], without the
    decorator line. *)
Lemma decorators_not_included :
  nodes (ast_parse python_parse [("a.py", decorated_source)])
  = [ mkKGNode FILE "a" "a.py" 0 None None None;
      mkKGNode FUNCTION "a.foo" "a.py" 1 (Some 3%Z) None None ]
  /\ contents (ast_parse python_parse [("a.py", decorated_source)])
     = [ ""; ("# a.py" ++ nl ++ "# a.foo" ++ nl ++ "def foo():" ++ nl ++ "    pass")%string ]
  /\ spec_decorator_start 3 (splitlines decorated_source) 1 = 0%Z
  /\ 1%Z <> spec_decorator_start 3 (splitlines decorated_source) 1.
Proof.
  split; [reflexivity|]. split; [reflexivity|]. split; [reflexivity|].
  vm_compute. discriminate.
Qed.

End IndexingFacts.

(** ** Ordered delivery of concurrently completed tasks *)

Module OrderFacts.
Import OrderDefs.
Import HybridSearch.

Lemma mem_In (i : nat) (l : list nat) : mem i l = true <-> In i l.
Proof.
  unfold mem. rewrite existsb_exists. split.
  - intros [j [Hj He]]. apply Nat.eqb_eq in He. now subst.
  - intros H. exists i. split; [exact H|apply Nat.eqb_refl].
Qed.

Lemma mem_false (i : nat) (l : list nat) : mem i l = false <-> ~ In i l.
Proof.
  rewrite <- mem_In. destruct (mem i l); split; congruence.
Qed.

Lemma advances_refl (c : list nat) (s : list (list nat)) : advances c s c s.
Proof. split; auto. Qed.

Lemma advances_trans (c1 c2 c3 : list nat) (s1 s2 s3 : list (list nat)) :
  advances c1 s1 c2 s2 -> advances c2 s2 c3 s3 -> advances c1 s1 c3 s3.
Proof. intros [H1 H2] [H3 H4]. split; auto. Qed.

Lemma advances_event (ev c : list nat) (s : list (list nat)) :
  advances c (ev :: s) (ev ++ c) s.
Proof.
  split.
  - intros i H. apply in_or_app. now right.
  - intros i [H|H].
    + left. apply in_or_app. now right.
    + cbn [List.concat] in H. apply in_app_or in H. destruct H as [H|H].
      * left. apply in_or_app. now left.
      * now right.
Qed.

Lemma tick_advances (c c' : list nat) (s s' : list (list nat)) :
  tick c s = (c', s') -> advances c s c' s'.
Proof.
  destruct s as [|ev s]; simpl; intros H; inversion H; subst.
  - apply advances_refl.
  - apply advances_event.
Qed.

Lemma filter_partition_length {A} (f : A -> bool) (l : list A) :
  (List.length (filter f l) + List.length (filter (fun x => negb (f x)) l)
   = List.length l)%nat.
Proof.
  induction l as [|x l IH]; simpl; [reflexivity|].
  destruct (f x); simpl; lia.
Qed.

(** What [wait] returns when it returns. *)
Lemma wait_spec (pending : list nat) (s : list (list nat)) :
  forall c done pending' c' s',
    wait pending c s = Some (done, pending', c', s') ->
    done = filter (fun i => mem i c') pending
    /\ pending' = filter (fun i => negb (mem i c')) pending
    /\ (List.length pending' < List.length pending)%nat
    /\ advances c s c' s'.
Proof.
  assert (Hlen : forall c' done,
             filter (fun i => mem i c') pending = done -> done <> [] ->
             (List.length (filter (fun i => negb (mem i c')) pending)
              < List.length pending)%nat).
  { intros c' done Hd Hne.
    pose proof (filter_partition_length (fun i => mem i c') pending) as H.
    rewrite Hd in H. destruct done; [congruence|simpl in H; lia]. }
  induction s as [|ev s IH]; intros c done pending' c' s' H; cbn [wait] in H.
  - destruct (filter (fun i => mem i c) pending) as [|x done0] eqn:Hd; [discriminate|].
    inversion H; subst; clear H.
    refine (conj _ (conj eq_refl (conj _ (advances_refl _ _)))); [now rewrite Hd|].
    eapply Hlen; [exact Hd|discriminate].
  - destruct (filter (fun i => mem i (ev ++ c)) pending) as [|x done0] eqn:Hd.
    + destruct (IH _ _ _ _ _ H) as [H1 [H2 [H3 H4]]].
      refine (conj H1 (conj H2 (conj H3 _))).
      eapply advances_trans; [apply advances_event|exact H4].
    + inversion H; subst; clear H.
      refine (conj _ (conj eq_refl (conj _ (advances_event _ _ _))));
        [now rewrite Hd|].
      eapply Hlen; [exact Hd|discriminate].
Qed.

(** [wait] returns as soon as some pending task has finished or is going
    to. *)
Lemma wait_returns (pending : list nat) (s : list (list nat)) :
  forall c i, In i pending -> In i c \/ In i (List.concat s) ->
              exists r, wait pending c s = Some r.
Proof.
  induction s as [|ev s IH]; intros c i Hp Hi; cbn [wait].
  - destruct Hi as [Hi|[]].
    destruct (filter (fun j => mem j c) pending) as [|x done0] eqn:Hd; [|eauto].
    exfalso. assert (Hin : In i (filter (fun j => mem j c) pending)).
    { apply filter_In. split; [exact Hp|now apply mem_In]. }
    rewrite Hd in Hin. contradiction.
  - destruct (filter (fun j => mem j (ev ++ c)) pending) as [|x done0]; [|eauto].
    apply (IH _ i Hp).
    destruct (proj2 (advances_event ev c s) i Hi); auto.
Qed.

Section Delivery.
Context {T : Type}.
Variable vals : list T.

Local Abbreviation results := (OrderDefs.results vals).
Local Abbreviation value_of := (OrderDefs.value_of vals).

Lemma await_value (f : nat) :
  (f < List.length vals)%nat -> exists v, await results f = Ok v /\ value_of f v.
Proof.
  intros Hf. unfold await, results, value_of.
  destruct (nth_error vals f) as [v|] eqn:E.
  - exists v. split; [|reflexivity].
    rewrite (nth_error_nth (map Ok vals) f (Raise IndexError) (x := Ok v));
      [reflexivity|].
    rewrite nth_error_map, E. reflexivity.
  - apply nth_error_None in E. lia.
Qed.

(** [drain] yields the values of a prefix of the futures, in order, and
    stops in front of a task that has not finished. *)
Lemma drain_spec (futures : list nat) :
  forall c s,
    Forall (fun f => (f < List.length vals)%nat) futures ->
    exists out fs c' s',
      drain results futures c s = Drained out fs c' s'
      /\ (exists ys, futures = ys ++ fs /\ Forall2 value_of ys out)
      /\ (forall f rest, fs = f :: rest -> ~ In f c')
      /\ advances c s c' s'.
Proof.
  induction futures as [|f rest IH]; intros c s Hlt; cbn [drain].
  - exists [], [], c, s. split; [reflexivity|]. split.
    + exists []. split; [reflexivity|constructor].
    + split; [discriminate|apply advances_refl].
  - inversion Hlt as [|? ? Hf Hrest]; subst.
    destruct (mem f c) eqn:Hm.
    + destruct (await_value f Hf) as [v [Hv Hval]]. rewrite Hv.
      destruct (tick c s) as [c1 s1] eqn:Ht.
      destruct (IH c1 s1 Hrest) as [out [fs [c' [s' [Hd [[ys [Hys HF]] [Hhead Hadv]]]]]]].
      rewrite Hd. exists (v :: out), fs, c', s'. split; [reflexivity|]. split.
      * exists (f :: ys). split; [now rewrite Hys|now constructor].
      * split; [exact Hhead|].
        eapply advances_trans; [apply tick_advances; exact Ht|exact Hadv].
    + exists [], (f :: rest), c, s. split; [reflexivity|]. split.
      * exists []. split; [reflexivity|constructor].
      * split; [|apply advances_refl].
        intros f' rest' H. inversion H; subst. now apply mem_false.
Qed.

(** The loop delivers the values of all remaining futures, in order,
    whenever every one of them has finished or is going to. *)
Lemma oac_loop_delivers (fuel : nat) :
  forall futures pending c s,
    Forall (fun f => (f < List.length vals)%nat) futures ->
    (forall i, In i futures -> ~ In i c -> In i pending) ->
    (forall f rest, futures = f :: rest -> ~ In f c) ->
    (forall i, In i futures -> In i c \/ In i (List.concat s)) ->
    (List.length pending < fuel)%nat ->
    exists out,
      oac_loop results fuel futures pending c s = (out, Finished)
      /\ Forall2 value_of futures out.
Proof.
  induction fuel as [|fuel IH]; intros futures pending c s Hlt Hpend Hhead Hcov Hfuel;
    [lia|].
  destruct futures as [|f0 rest]; cbn [oac_loop].
  - exists []. split; [reflexivity|constructor].
  - assert (Hf0 : In f0 pending).
    { apply Hpend; [now left|]. eapply Hhead; reflexivity. }
    destruct pending as [|p0 pending0]; [contradiction|].
    cbv iota. set (pending := p0 :: pending0) in *.
    destruct (wait_returns pending s c f0 Hf0 (Hcov f0 (or_introl eq_refl)))
      as [[[[done pending'] c'] s'] Hw].
    rewrite Hw.
    destruct (wait_spec _ _ _ _ _ _ _ Hw) as [Hdone [Hpend' [Hlen Hadv]]].
    apply Forall_cons_iff in Hlt. destruct Hlt as [Hf0lt Hrest].
    destruct (mem f0 done) eqn:Hm.
    + destruct (await_value f0 Hf0lt) as [v [Hv Hval]]. rewrite Hv.
      destruct (tick c' s') as [c2 s2] eqn:Ht.
      destruct (drain_spec rest c2 s2 Hrest)
        as [out [fs [c3 [s3 [Hd [[ys [Hys HF]] [Hhead3 Hadv3]]]]]]].
      rewrite Hd.
      pose proof (advances_trans _ _ _ _ _ _ Hadv
                    (advances_trans _ _ _ _ _ _ (tick_advances _ _ _ _ Ht) Hadv3))
        as Hall.
      pose proof (advances_trans _ _ _ _ _ _ (tick_advances _ _ _ _ Ht) Hadv3)
        as Hfrom'.
      destruct (IH fs pending' c3 s3) as [out' [Ho' HF']].
      * rewrite Hys in Hrest. apply Forall_app in Hrest. tauto.
      * intros i Hi Hni. rewrite Hpend'. apply filter_In. split.
        -- apply Hpend; [right; rewrite Hys; apply in_or_app; now right|].
           intros Hc. apply Hni. now apply (proj1 Hall).
        -- apply negb_true_iff. apply mem_false. intros Hc. apply Hni.
           now apply (proj1 Hfrom').
      * exact Hhead3.
      * intros i Hi. apply (proj2 Hall). apply Hcov. right. rewrite Hys.
        apply in_or_app. now right.
      * lia.
      * rewrite Ho'. unfold prepend. cbn [fst snd].
        exists ((v :: out) ++ out'). split; [reflexivity|].
        rewrite Hys. cbn [app]. constructor; [exact Hval|].
        now apply Forall2_app.
    + assert (Hnc : ~ In f0 c').
      { intros Hc. apply mem_false in Hm. apply Hm. rewrite Hdone.
        apply filter_In. split; [exact Hf0|now apply mem_In]. }
      apply IH.
      * now constructor.
      * intros i Hi Hni. rewrite Hpend'. apply filter_In. split.
        -- apply Hpend; [exact Hi|]. intros Hc. apply Hni. now apply (proj1 Hadv).
        -- apply negb_true_iff. now apply mem_false.
      * intros f rest' H. inversion H; subst. exact Hnc.
      * intros i Hi. apply (proj2 Hadv). now apply Hcov.
      * lia.
Qed.

Lemma value_of_seq (out : list T) :
  forall k, Forall2 value_of (seq k (List.length vals - k)) out ->
            out = skipn k vals.
Proof.
  intros k.
  remember (List.length vals - k)%nat as n eqn:Hn.
  revert k out Hn. induction n as [|n IH]; intros k out Hn H; cbn [seq] in H.
  - inversion H. symmetry. apply skipn_all2. lia.
  - inversion H as [|? v ? out' Hv HF]; subst.
    rewrite (IH (S k) out') by (auto; lia).
    unfold value_of in Hv. clear -Hv.
    revert k Hv. induction vals as [|x l IHl]; intros k Hv; destruct k; simpl in *;
      try discriminate.
    + now inversion Hv.
    + now apply IHl.
Qed.

(** Whatever the order in which the tasks finish, as long as each of them
    does, [ordered_as_completed] yields their values in the order of the
    tasks. *)
Lemma ordered_as_completed_in_order (sched : list (list nat)) :
  (forall i, (i < List.length vals)%nat -> In i (List.concat sched)) ->
  ordered_as_completed results sched = (vals, Finished).
Proof.
  intros Hall. unfold ordered_as_completed.
  assert (Hlen : List.length results = List.length vals)
    by (unfold results; apply length_map).
  rewrite Hlen.
  destruct (oac_loop_delivers (S (List.length vals)) (seq 0 (List.length vals))
              (seq 0 (List.length vals)) [] sched) as [out [Ho HF]].
  - apply Forall_forall. intros i Hi. apply in_seq in Hi. lia.
  - auto.
  - intros f rest _ [].
  - intros i Hi. right. apply Hall. apply in_seq in Hi. lia.
  - rewrite length_seq. lia.
  - rewrite Ho. f_equal.
    pose proof (value_of_seq out 0) as H. rewrite Nat.sub_0_r in H.
    exact (H HF).
Qed.

End Delivery.

(** *** Whatever the schedule

    Without any assumption on the schedule or on the tasks, what is
    yielded are the values of the first tasks, in order. *)

Section Prefix.
Context {T : Type}.
Variable tasks : list (result T).

Local Abbreviation yields := (OrderDefs.yields tasks).

Lemma drain_prefix (futures : list nat) :
  forall c s,
    match drain tasks futures c s with
    | Drained out fs _ _ => exists ys, futures = ys ++ fs /\ Forall2 yields ys out
    | DrainRaised out _ =>
        exists ys rest, futures = ys ++ rest /\ Forall2 yields ys out
    end.
Proof.
  induction futures as [|f rest IH]; intros c s; cbn [drain].
  - exists []. split; [reflexivity|constructor].
  - destruct (mem f c).
    + destruct (await tasks f) as [v|e] eqn:Hv.
      * destruct (tick c s) as [c1 s1]. specialize (IH c1 s1).
        destruct (drain tasks rest c1 s1) as [out fs c' s'|out e].
        -- destruct IH as [ys [Hys HF]]. exists (f :: ys).
           split; [now rewrite Hys|now constructor].
        -- destruct IH as [ys [rest' [Hys HF]]]. exists (f :: ys), rest'.
           split; [now rewrite Hys|now constructor].
      * exists [], (f :: rest). split; [reflexivity|constructor].
    + exists []. split; [reflexivity|constructor].
Qed.

Lemma oac_loop_prefix (fuel : nat) :
  forall futures pending c s,
    exists ys rest,
      futures = ys ++ rest
      /\ Forall2 yields ys (fst (oac_loop tasks fuel futures pending c s)).
Proof.
  induction fuel as [|fuel IH]; intros futures pending c s;
    destruct futures as [|f0 rest]; cbn [oac_loop];
    try (exists [], []; split; [reflexivity|constructor]);
    try (exists [], (f0 :: rest); split; [reflexivity|constructor]).
  destruct pending as [|p0 pending0];
    [exists [], (f0 :: rest); split; [reflexivity|constructor]|].
  destruct (wait (p0 :: pending0) c s) as [[[[done pending'] c'] s']|];
    [|exists [], (f0 :: rest); split; [reflexivity|constructor]].
  destruct (mem f0 done); [|apply IH].
  destruct (await tasks f0) as [v|e] eqn:Hv;
    [|exists [], (f0 :: rest); split; [reflexivity|constructor]].
  destruct (tick c' s') as [c2 s2].
  pose proof (drain_prefix rest c2 s2) as Hd.
  destruct (drain tasks rest c2 s2) as [out fs c3 s3|out e].
  - destruct Hd as [ys [Hys HF]].
    destruct (IH fs pending' c3 s3) as [ys' [rest' [Hfs HF']]].
    exists (f0 :: ys ++ ys'), rest'. split.
    + rewrite Hys, Hfs. cbn. now rewrite <- app_assoc.
    + unfold prepend. cbn [fst app]. constructor; [exact Hv|].
      now apply Forall2_app.
  - destruct Hd as [ys [rest' [Hys HF]]].
    exists (f0 :: ys), rest'. split; [now rewrite Hys|].
    cbn [fst]. now constructor.
Qed.

Lemma seq_prefix (ys rest : list nat) :
  forall a n, seq a n = ys ++ rest -> ys = seq a (List.length ys).
Proof.
  induction ys as [|y ys IH]; intros a n H; [reflexivity|].
  destruct n as [|n]; [discriminate|]. cbn in H. injection H as <- H.
  cbn. f_equal. eapply IH; eauto.
Qed.

Lemma yields_seq (out : list T) :
  forall l k,
    Forall2 (fun f v => nth f (l ++ tasks) (Raise IndexError) = Ok v)
            (seq (List.length l) k) out ->
    Forall2 (fun r v => r = Ok v) (firstn k tasks) out.
Proof.
  intros l k H. revert l out H.
  generalize tasks as ts.
  induction k as [|k IH]; intros ts l out H; cbn [seq] in H.
  - inversion H. cbn. constructor.
  - inversion H as [|? v ? out' Hv HF]; subst.
    destruct ts as [|r ts].
    + rewrite app_nil_r in Hv. rewrite nth_overflow in Hv by lia. discriminate.
    + cbn [firstn]. constructor.
      * rewrite app_nth2 in Hv by lia. rewrite Nat.sub_diag in Hv. exact Hv.
      * apply (IH ts (l ++ [r])).
        rewrite length_app. cbn [List.length]. rewrite Nat.add_1_r.
        now rewrite <- app_assoc.
Qed.

(** The values yielded are those of the first [k] tasks, for some [k]. *)
Lemma ordered_as_completed_prefix (sched : list (list nat)) :
  exists k,
    Forall2 (fun r v => r = Ok v) (firstn k tasks)
            (fst (ordered_as_completed tasks sched)).
Proof.
  unfold ordered_as_completed.
  destruct (oac_loop_prefix (S (List.length tasks)) (seq 0 (List.length tasks))
              (seq 0 (List.length tasks)) [] sched) as [ys [rest [Hys HF]]].
  exists (List.length ys).
  rewrite (seq_prefix _ _ _ _ Hys) in HF.
  exact (yields_seq _ [] _ HF).
Qed.

End Prefix.

End OrderFacts.

(** ** The embedding adapter *)

Module EmbedFacts.
Import EmbedDefs.
Import HybridSearch.

Lemma pack_concat (texts : list string) :
  forall closed cur,
    List.concat (pack texts closed cur) = List.concat closed ++ cur ++ texts.
Proof.
  induction texts as [|t texts IH]; intros closed cur; cbn [pack].
  - rewrite concat_app. cbn. now rewrite !app_nil_r.
  - destruct (20000 <? total_len (cur ++ [t]))%Z; rewrite IH.
    + rewrite concat_app. cbn. now rewrite app_nil_r, <- !app_assoc.
    + now rewrite <- app_assoc.
Qed.

(** The batches are the texts, cut into consecutive pieces. *)
Lemma batches_concat (texts : list string) : List.concat (batches texts) = texts.
Proof. unfold batches. now rewrite pack_concat. Qed.

Lemma truthy_nonempty (t : string) : Py.truthy t = true <-> t <> "".
Proof. destruct t; simpl; split; congruence. Qed.

(** Only non-empty texts are sent to the service. *)
Lemma request_nonempty (batch : list string) :
  Forall (fun t => t <> "") (request batch).
Proof.
  unfold request, nonempty_idxs. apply Forall_forall. intros t Ht.
  apply in_map_iff in Ht. destruct Ht as [i [<- Hi]].
  apply filter_In in Hi. now apply truthy_nonempty.
Qed.

Lemma mem_nonempty_idxs (batch : list string) (i : nat) :
  (i < List.length batch)%nat ->
  mem i (nonempty_idxs batch) = Py.truthy (nth i batch "").
Proof.
  intros Hi. unfold nonempty_idxs.
  destruct (Py.truthy (nth i batch "")) eqn:E.
  - apply OrderFacts.mem_In. apply filter_In. split; [|exact E].
    apply in_seq. lia.
  - apply OrderFacts.mem_false. intros H. apply filter_In in H. destruct H. congruence.
Qed.

(** Splicing the embeddings of the non-empty texts back in gives each
    position its own value. *)
Lemma splice_expected (model : string -> string -> embedding) (ty : string)
    (batch : list string) (n : nat) :
  forall a, (a + n = List.length batch)%nat ->
    splice (seq a n) (nonempty_idxs batch)
      (map (model ty)
           (map (fun i => nth i batch "")
                (filter (fun i => Py.truthy (nth i batch "")) (seq a n))))
    = Ok (map (fun i => if Py.truthy (nth i batch "")
                        then Some (model ty (nth i batch "")) else None)
              (seq a n)).
Proof.
  induction n as [|n IH]; intros a Ha; cbn [seq splice filter map]; [reflexivity|].
  rewrite mem_nonempty_idxs by lia.
  destruct (Py.truthy (nth a batch "")) eqn:E; cbn [map].
  - rewrite IH by lia. reflexivity.
  - rewrite IH by lia. reflexivity.
Qed.

Lemma map_nth_seq {A B} (f : A -> B) (l : list A) (d : A) :
  map (fun i => f (nth i l d)) (seq 0 (List.length l)) = map f l.
Proof.
  induction l as [|x l IH]; cbn [List.length seq map]; [reflexivity|].
  rewrite <- seq_shift, map_map. cbn [nth]. now rewrite IH.
Qed.

(** One batch: every position gets its value, after at most three
    attempts. *)
Lemma _embed_expected (env : Env) (model : string -> string -> embedding)
    (task : nat) (batch : list string) (ty : string) :
  answers env model ->
  _embed env task batch ty = Ok (expected model ty batch).
Proof.
  intros Hans.
  assert (Hsplice :
            splice (seq 0 (List.length batch)) (nonempty_idxs batch)
                   (map (model ty) (request batch))
            = Ok (expected model ty batch)).
  { etransitivity;
      [exact (splice_expected model ty batch (List.length batch) 0 eq_refl)|].
    unfold expected.
    now rewrite (map_nth_seq
                   (fun t => if Py.truthy t then Some (model ty t) else None)). }
  unfold _embed.
  destruct (nonempty_idxs batch) as [|i0 idxs] eqn:Hidx.
  - f_equal. unfold expected.
    assert (Hall : forall t, In t batch -> Py.truthy t = false).
    { intros t Ht. destruct (Py.truthy t) eqn:E; [|reflexivity].
      apply In_nth with (d := "") in Ht. destruct Ht as [i [Hi Hn]].
      pose proof (mem_nonempty_idxs batch i Hi) as Hm.
      rewrite Hidx, Hn, E in Hm. discriminate. }
    clear -Hall. induction batch as [|t batch IH]; [reflexivity|].
    cbn [List.length repeat map]. rewrite (Hall t (or_introl eq_refl)).
    f_equal. apply IH. intros t' Ht'. apply Hall. now right.
  - cbn [attempts]. rewrite <- Hidx in Hsplice.
    destruct (Hans task ty (request batch)) as [H1|[[T1|T1] [H2|[[T2|T2] H3]]]];
      rewrite ?H1, ?T1, ?H2, ?T2, ?H3; exact Hsplice.
Qed.

Lemma nth_map_in {A B} (f : A -> B) (l : list A) (i : nat) (d : A) (d' : B) :
  (i < List.length l)%nat -> nth i (map f l) d' = f (nth i l d).
Proof.
  intros Hi. rewrite (nth_indep _ d' (f d)) by (now rewrite length_map).
  apply map_nth.
Qed.

Lemma tasks_expected (env : Env) (model : string -> string -> embedding)
    (ty : string) (bs : list (list string)) :
  answers env model ->
  forall k, tasks env k bs ty = OrderDefs.results (map (expected model ty) bs).
Proof.
  intros Hans. unfold OrderDefs.results.
  induction bs as [|b bs IH]; intros k; cbn [tasks map]; [reflexivity|].
  now rewrite (_embed_expected env model k b ty Hans), IH.
Qed.

Lemma expected_concat (model : string -> string -> embedding) (ty : string)
    (bs : list (list string)) :
  List.concat (map (expected model ty) bs) = expected model ty (List.concat bs).
Proof.
  unfold expected. induction bs as [|b bs IH]; cbn [map List.concat]; [reflexivity|].
  now rewrite IH, map_app.
Qed.

(** *** Never more values than texts *)

Lemma splice_length (idxs nonempty : list nat) :
  forall embeddings out,
    splice idxs nonempty embeddings = Ok out -> List.length out = List.length idxs.
Proof.
  induction idxs as [|i idxs IH]; intros embeddings out H; cbn [splice] in H.
  - now inversion H.
  - destruct (mem i nonempty).
    + destruct embeddings as [|e embeddings]; [discriminate|].
      destruct (splice idxs nonempty embeddings) as [o|] eqn:E; cbn [bind] in H;
        [|discriminate].
      inversion H; subst. cbn. f_equal. eauto.
    + destruct (splice idxs nonempty embeddings) as [o|] eqn:E; cbn [bind] in H;
        [|discriminate].
      inversion H; subst. cbn. f_equal. eauto.
Qed.

(** A batch that is embedded at all comes back with one value per text. *)
Lemma _embed_length (env : Env) (task : nat) (batch : list string) (ty : string)
    (out : list (option embedding)) :
  _embed env task batch ty = Ok out -> List.length out = List.length batch.
Proof.
  unfold _embed. destruct (nonempty_idxs batch) as [|i0 idxs].
  - intros H; inversion H. apply repeat_length.
  - generalize (i0 :: idxs) as ne. intros ne.
    generalize [1%nat; 2%nat; 3%nat] as retries.
    induction retries as [|r retries IH]; cbn [attempts]; [discriminate|].
    destruct (get_embeddings env task r ty (request batch)); try exact IH;
      [|discriminate].
    intros H. apply splice_length in H. now rewrite length_seq in H.
Qed.

Lemma tasks_lengths (env : Env) (ty : string) (bs : list (list string)) :
  forall k,
    Forall2 (fun b r => forall o, r = Ok o -> List.length o = List.length b)
            bs (tasks env k bs ty).
Proof.
  induction bs as [|b bs IH]; intros k; cbn [tasks]; constructor; [|apply IH].
  intros o Ho. eapply _embed_length; eauto.
Qed.

Lemma Forall2_firstn {A B} (R : A -> B -> Prop) (k : nat) (la : list A) (lb : list B) :
  Forall2 R la lb -> Forall2 R (firstn k la) (firstn k lb).
Proof.
  intros H. revert k. induction H; intros [|k]; cbn; constructor; auto.
Qed.

Lemma concat_firstn_length {A} (k : nat) (l : list (list A)) :
  (List.length (List.concat (firstn k l)) <= List.length (List.concat l))%nat.
Proof.
  revert k; induction l as [|x l IH]; intros [|k]; cbn; try lia.
  rewrite !length_app. specialize (IH k). lia.
Qed.

Lemma concat_lengths {A B} (la : list (list A)) (lb : list (list B)) :
  Forall2 (fun a b => List.length b = List.length a) la lb ->
  List.length (List.concat lb) = List.length (List.concat la).
Proof.
  induction 1 as [|a b la lb Hab HF IH]; cbn; [reflexivity|].
  rewrite !length_app. lia.
Qed.

(** Whatever the service and the schedule do, [embed] never yields more
    values than there are texts. *)
Lemma embed_at_most (env : Env) (texts : list string) (ty : string) :
  (List.length (fst (embed env texts ty)) <= List.length texts)%nat.
Proof.
  unfold embed. destruct (ENABLE_EMBEDDING env).
  - destruct (OrderFacts.ordered_as_completed_prefix
                (tasks env 0 (batches texts) ty) (completions env)) as [k Hk].
    destruct (ordered_as_completed _ _) as [outs e]. cbn [fst] in *.
    pose proof (Forall2_firstn _ k _ _ (tasks_lengths env ty (batches texts) 0)) as Hl.
    assert (HF : Forall2 (fun b o => List.length o = List.length b)
                         (firstn k (batches texts)) outs).
    { refine (Forall2_compose _ _ _ _ _ _ _ Hl Hk).
      intros b r o Hb Hr. now apply Hb. }
    rewrite (concat_lengths _ _ HF).
    rewrite <- (batches_concat texts) at 2. apply concat_firstn_length.
  - cbn [fst]. now rewrite length_map.
Qed.



End EmbedFacts.

(** ** Progress of an ingest *)

Module ProgressFacts.
Import ProgressDefs.
Import Serving.

Lemma chunk_loop_spec {A} (n : nat) (items : list A) :
  forall buffer cs rest,
    HybridSearch.chunk_loop n buffer items = (cs, rest) ->
    (List.length (List.concat cs) + List.length rest
     = List.length buffer + List.length items)%nat
    /\ Forall (fun c => c <> []) cs.
Proof.
  induction items as [|x items IH]; intros buffer cs rest H;
    cbn [HybridSearch.chunk_loop] in H.
  - inversion H; subst. cbn. split; [lia|constructor].
  - destruct (Nat.eqb (List.length (buffer ++ [x])) n).
    + destruct (HybridSearch.chunk_loop n [] items) as [cs' b] eqn:E.
      inversion H; subst. destruct (IH _ _ _ E) as [Hlen Hne]. split.
      * cbn. rewrite !length_app in *. cbn in *. lia.
      * constructor; [|exact Hne]. now destruct buffer.
    + destruct (IH _ _ _ H) as [Hlen Hne]. split; [|exact Hne].
      rewrite length_app in Hlen. cbn in *. lia.
Qed.

(** The chunks of a stream are non-empty and hold no more than the
    stream yielded. *)
Lemma async_chunk_spec {A} (stream : HybridSearch.run A) (n : nat) :
  (List.length (List.concat (fst (HybridSearch.async_chunk stream n)))
   <= List.length (fst stream))%nat
  /\ Forall (fun c => c <> []) (fst (HybridSearch.async_chunk stream n)).
Proof.
  unfold HybridSearch.async_chunk.
  destruct (HybridSearch.chunk_loop n [] (fst stream)) as [cs buffer] eqn:E.
  destruct (chunk_loop_spec _ _ _ _ _ E) as [Hlen Hne]. cbn in Hlen.
  destruct (snd stream); cbn [fst]; try (split; [lia|exact Hne]).
  destruct buffer as [|b buffer]; [split; [lia|exact Hne]|]. split.
  - rewrite concat_app, length_app. cbn [List.concat]. rewrite app_nil_r. lia.
  - apply Forall_app. split; [exact Hne|]. constructor; [discriminate|constructor].
Qed.

Lemma insert_batches_steps (gid : string) (creates : list HybridSearch.SearchIndexAction)
    (chunks : list (list (option HybridSearch.embedding))) :
  forall i t progress,
    snd (HybridSearch.insert_batches gid creates chunks i t progress)
    = progress ++ steps (Z.of_nat (List.length creates)) i chunks.
Proof.
  induction chunks as [|c chunks IH]; intros i t progress;
    cbn [HybridSearch.insert_batches steps snd].
  - now rewrite app_nil_r.
  - rewrite IH, <- app_assoc. reflexivity.
Qed.

Lemma fraction_of (a total : Z) :
  (0 < a <= total)%Z -> fraction (inject_Z a / inject_Z total).
Proof.
  intros [Ha Hat]. destruct total as [|t|t]; try lia.
  unfold fraction, Qdiv, Qmult, Qinv, Qlt, Qle, inject_Z. cbn. split; nia.
Qed.

Lemma fraction_le (a b total : Z) :
  (0 < total)%Z -> (a <= b)%Z ->
  (inject_Z a / inject_Z total <= inject_Z b / inject_Z total)%Q.
Proof.
  intros Ht Hab. destruct total as [|t|t]; try lia.
  unfold Qdiv, Qmult, Qinv, Qle, inject_Z. cbn. nia.
Qed.

(** The fractions are positive, at most 1 and increasing, as long as the
    chunks are non-empty and the counter stays within the total. *)
Lemma steps_fractions (total : Z) (chunks : list (list (option HybridSearch.embedding))) :
  forall i,
    (0 <= i)%Z -> Forall (fun c => c <> []) chunks ->
    (i + Z.of_nat (List.length (List.concat chunks)) <= total)%Z ->
    Forall fraction (steps total i chunks)
    /\ StronglySorted Qle (steps total i chunks)
    /\ Forall (fun p => (inject_Z i / inject_Z total <= p)%Q) (steps total i chunks).
Proof.
  induction chunks as [|c chunks IH]; intros i Hi Hne Hsum; cbn [steps].
  - repeat split; constructor.
  - inversion Hne as [|? ? Hc Hne']; subst.
    cbn [List.concat] in Hsum. rewrite length_app in Hsum.
    assert (Hpos : (0 < Z.of_nat (List.length c))%Z) by (destruct c; [congruence|cbn; lia]).
    destruct (IH (i + Z.of_nat (List.length c))%Z) as [HF [HS HL]];
      [lia|exact Hne'|lia|].
    assert (Htot : (0 < total)%Z) by lia.
    split; [|split].
    + constructor; [apply fraction_of; lia|exact HF].
    + constructor; [exact HS|exact HL].
    + constructor; [apply fraction_le; lia|].
      refine (Forall_impl _ _ HL). intros p Hp.
      eapply Qle_trans; [|exact Hp]. apply fraction_le; lia.
Qed.

Lemma insert_creates_progress (e : HybridSearch.Env) (gid : string)
    (creates : list HybridSearch.SearchIndexAction) (tbl : HybridSearch.Table) :
  Forall fraction (snd (fst (HybridSearch.insert_creates e gid creates tbl)))
  /\ StronglySorted Qle (snd (fst (HybridSearch.insert_creates e gid creates tbl))).
Proof.
  unfold HybridSearch.insert_creates.
  destruct creates as [|a0 creates0] eqn:Hc; [split; constructor|].
  rewrite <- Hc. clear Hc a0 creates0.
  destruct (mapM HybridSearch.content_of creates) as [texts|] eqn:Ht;
    [|split; constructor].
  destruct (async_chunk_spec (HybridSearch.embed e texts "RETRIEVAL_DOCUMENT") 100)
    as [Hlen Hne].
  destruct (HybridSearch.async_chunk _ _) as [chunks e0]. cbn [fst] in *.
  pose proof (insert_batches_steps gid creates chunks 0 tbl []) as Hs.
  destruct (HybridSearch.insert_batches gid creates chunks 0 tbl []) as [t1' pr].
  cbn [snd app fst] in *. subst pr.
  pose proof (EmbedFacts.embed_at_most e texts "RETRIEVAL_DOCUMENT") as Hmost.
  apply mapM_length in Ht.
  destruct (steps_fractions (Z.of_nat (List.length creates)) chunks 0) as [HF [HS _]];
    [lia|exact Hne|lia|]. auto.
Qed.

(** Every value that [bulk_action] reports is a fraction in (0, 1], and
    the reported values do not decrease. *)
Lemma bulk_action_progress (e : HybridSearch.Env) (gid : string)
    (actions : list HybridSearch.SearchIndexAction) (tbl : HybridSearch.Table) :
  Forall fraction (snd (fst (HybridSearch.bulk_action e gid actions tbl)))
  /\ StronglySorted Qle (snd (fst (HybridSearch.bulk_action e gid actions tbl))).
Proof.
  unfold HybridSearch.bulk_action.
  pose proof (insert_creates_progress e gid
                (HybridSearch.group_actions actions HybridSearch.CREATE) tbl) as H.
  destruct (HybridSearch.insert_creates _ _ _ _) as [[t1 progress] en].
  cbn [fst snd] in H. destruct en; cbn [fst snd]; exact H.
Qed.

(** The IN_PROGRESS events of an ingest carry fractions in (0, 1]. *)
Lemma in_progress_fraction (eng : GraphRag.Engine) (graph : GraphRag.t)
    (repo_files : list (string * string)) (path_matches : string -> bool)
    (tbl : HybridSearch.Table) (s : IngestStep) (p : option Q) :
  In (mkEvent s IN_PROGRESS p)
     (_api_codegraph eng graph repo_files path_matches tbl) ->
  exists q, p = Some q /\ fraction q.
Proof.
  unfold _api_codegraph, GraphRag.bulk_insert.
  destruct (GraphRag.add_nodes _ _) as [[g ns']|x].
  - destruct (bulk_action_progress (GraphRag.env eng) (GraphRag.graphid graph)
                  (map (fun q => HybridSearch.create_action
                                   (Graph.file_name (fst q)) (snd q) (Graph.id (fst q)))
                       (combine ns' (CodeIndexing.contents
                                       (CodeIndexing.ast_parse (GraphRag.parse eng)
                                          (filter (fun f => negb (path_matches (fst f))
                                                     && (Py.len (snd f) <? 1000000)%Z)
                                                  repo_files)))))
                  tbl) as [HF _].
    destruct (HybridSearch.bulk_action _ _ _ _) as [[tbl' reported] e].
    cbn [fst snd] in HF. intros H. apply in_app_or in H. destruct H as [H|H].
    + apply in_map_iff in H. destruct H as [q [Hq Hin]]. inversion Hq; subst.
      exists q. split; [reflexivity|]. rewrite Forall_forall in HF. now apply HF.
    + destruct e; try contradiction. destruct H as [H|[]]. discriminate.
  - cbn. tauto.
Qed.

(** Whatever is ingested, a COMPLETED event carries the progress 100. *)
Lemma completed_progress (eng : GraphRag.Engine) (graph : GraphRag.t)
    (repo_files : list (string * string)) (path_matches : string -> bool)
    (tbl : HybridSearch.Table) (s : IngestStep) (p : option Q) :
  In (mkEvent s COMPLETED p)
     (_api_codegraph eng graph repo_files path_matches tbl) ->
  p = Some 100%Q.
Proof.
  unfold _api_codegraph.
  destruct (GraphRag.bulk_insert _ _ _ _ _) as [[[[g ns] t] reported] e].
  intros H. apply in_app_or in H. destruct H as [H|H].
  - apply in_map_iff in H. destruct H as [q [Hq _]]. discriminate.
  - destruct e; try contradiction. destruct H as [H|[]]. now inversion H.
Qed.

(** C9.  The ingest of the one-function file streams two events: the
    insert batch reports the progress 2/2, and the COMPLETED event that
    follows carries the progress 100, which lies outside [0, 1]. *)
Theorem completed_event_out_of_range :
  ingest_events
  = [ mkEvent BUILD_GRAPH IN_PROGRESS (Some (2 # 2)%Q);
      mkEvent BUILD_GRAPH COMPLETED (Some 100%Q) ]
  /\ ~ (100 <= 1)%Q.
Proof.
  split; [vm_compute; reflexivity|].
  intros H. unfold Qle in H. simpl in H. lia.
Qed.

End ProgressFacts.

(** * Further properties of the code *)

(** ** hybrid_search.py: async_chunk *)

Module ChunkProps.
Import HybridSearch.

Lemma chunk_loop_full {A} (m : nat) (items : list A) :
  forall buffer cs rest,
    (List.length buffer <= m)%nat ->
    chunk_loop (S m) buffer items = (cs, rest) ->
    List.concat cs ++ rest = buffer ++ items
    /\ Forall (fun c => List.length c = S m) cs
    /\ (List.length rest <= m)%nat.
Proof.
  induction items as [|x items IH]; intros buffer cs rest Hb H; cbn [chunk_loop] in H.
  - inversion H; subst. cbn. rewrite app_nil_r. repeat split; [constructor|exact Hb].
  - destruct (Nat.eqb_spec (List.length (buffer ++ [x])) (S m)) as [Hfull|Hnot].
    + destruct (chunk_loop (S m) [] items) as [cs' b] eqn:E.
      inversion H; subst. destruct (IH [] cs' rest (Nat.le_0_l m) E) as [Hc [Hf Hr]].
      cbn [List.concat]. rewrite <- app_assoc, Hc. cbn [app].
      rewrite <- app_assoc. repeat split; [constructor; assumption|exact Hr].
    + rewrite length_app in Hnot. cbn in Hnot.
      destruct (IH (buffer ++ [x]) cs rest) as [Hc [Hf Hr]];
        [rewrite length_app; cbn; lia|exact H|].
      rewrite Hc, <- app_assoc. repeat split; assumption.
Qed.

Lemma chunk_loop_never {A} (items : list A) :
  forall buffer, chunk_loop 0 buffer items = ([], buffer ++ items).
Proof.
  induction items as [|x items IH]; intros buffer; cbn [chunk_loop].
  - now rewrite app_nil_r.
  - rewrite length_app, Nat.add_comm. cbn [List.length Nat.add Nat.eqb].
    rewrite IH, <- app_assoc. reflexivity.
Qed.

(** X1.  Chunking a stream that ends normally loses nothing and invents
    nothing.  For a chunk size [m + 1], that is, of at least 1: the
    chunks put end to end are the items of the stream, no chunk is
    empty, every chunk but the last holds exactly [m + 1] items and the
    last at most [m + 1]; when the stream ends with an exception, only
    full chunks have been passed on, and the at most [m] items after
    them are dropped.  For the chunk size 0 no buffer is ever full: a
    stream that ends normally yields all its items as one chunk (and no
    chunk when it has no item), and a stream that ends with an exception
    yields nothing before the exception. *)
Theorem async_chunk_partition {A} (items : list A) (e : exn) :
  (forall m,
     (let cs := fst (async_chunk (items, Finished) (S m)) in
      List.concat cs = items
      /\ Forall (fun c => c <> []) cs
      /\ Forall (fun c => List.length c = S m) (removelast cs)
      /\ Forall (fun c => (List.length c <= S m)%nat) cs
      /\ snd (async_chunk (items, Finished) (S m)) = Finished)
     /\ (let cs := fst (async_chunk (items, Raised e) (S m)) in
         Forall (fun c => List.length c = S m) cs
         /\ snd (async_chunk (items, Raised e) (S m)) = Raised e
         /\ exists dropped, items = List.concat cs ++ dropped
                            /\ (List.length dropped <= m)%nat))
  /\ async_chunk (items, Finished) 0
     = (match items with [] => [] | _ :: _ => [items] end, Finished)
  /\ async_chunk (items, Raised e) 0 = ([], Raised e).
Proof.
  split; [intros m|].
  - unfold async_chunk. cbn [fst snd].
    destruct (chunk_loop (S m) [] items) as [cs rest] eqn:E.
    destruct (chunk_loop_full m items [] cs rest (Nat.le_0_l m) E) as [Hc [Hf Hr]].
    cbn [app] in Hc. split.
    + cbn [fst snd]. destruct rest as [|r rest].
      * rewrite app_nil_r in Hc. repeat split; auto.
        -- refine (Forall_impl _ _ Hf). intros c Hl Hn. subst c. discriminate.
        -- destruct cs as [|c0 cs0]; [constructor|].
           apply Forall_forall. intros c Hin. rewrite Forall_forall in Hf. apply Hf.
           rewrite (app_removelast_last c0 (l := c0 :: cs0)) by discriminate.
           apply in_or_app. now left.
        -- refine (Forall_impl _ _ Hf). intros c Hl. lia.
      * repeat split.
        -- rewrite concat_app. cbn [List.concat]. now rewrite app_nil_r.
        -- apply Forall_app. split.
           ++ refine (Forall_impl _ _ Hf). intros c Hl Hn. subst c. discriminate.
           ++ constructor; [discriminate|constructor].
        -- now rewrite removelast_last.
        -- apply Forall_app. split.
           ++ refine (Forall_impl _ _ Hf). intros c Hl. lia.
           ++ constructor; [lia|constructor].
    + cbn [fst snd]. repeat split; [exact Hf|]. exists rest.
      split; [now symmetry|exact Hr].
  - unfold async_chunk. cbn [fst snd]. rewrite chunk_loop_never. cbn [app].
    split; [|reflexivity]. now destruct items.
Qed.

End ChunkProps.

(** ** hybrid_search.py: ordered_as_completed *)

Module DeliveryProps.
Import HybridSearch OrderDefs.

Section Outcome.
Context {T : Type}.
Variable tasks : list (result T).

Lemma drain_outcome (futures : list nat) :
  forall c s,
    match drain tasks futures c s with
    | Drained out fs c' _ =>
        (exists ys, futures = ys ++ fs /\ Forall2 (yields tasks) ys out)
        /\ (forall f rest, fs = f :: rest -> ~ In f c')
        /\ (forall i, In i c -> In i c')
    | DrainRaised out e =>
        exists ys f rest,
          futures = ys ++ f :: rest /\ Forall2 (yields tasks) ys out
          /\ await tasks f = Raise e
    end.
Proof.
  induction futures as [|f rest IH]; intros c s; cbn [drain].
  - split; [exists []; split; [reflexivity|constructor]|]. split; [discriminate|auto].
  - destruct (mem f c) eqn:Hm.
    + destruct (await tasks f) as [v|e] eqn:Hv.
      * destruct (tick c s) as [c1 s1] eqn:Ht.
        pose proof (proj1 (OrderFacts.tick_advances _ _ _ _ Ht)) as Hmono.
        specialize (IH c1 s1).
        destruct (drain tasks rest c1 s1) as [out fs c' s'|out e].
        -- destruct IH as [[ys [Hys HF]] [Hhead Hm']]. split; [|split; auto].
           exists (f :: ys). split; [now rewrite Hys|now constructor].
        -- destruct IH as [ys [f' [rest' [Hys [HF He]]]]].
           exists (f :: ys), f', rest'. split; [now rewrite Hys|].
           split; [now constructor|exact He].
      * exists [], f, rest. split; [reflexivity|]. split; [constructor|exact Hv].
    + split; [exists []; split; [reflexivity|constructor]|]. split; [|auto].
      intros f' rest' H. inversion H; subst. now apply OrderFacts.mem_false.
Qed.

(** How the loop can end, for any schedule: with every future delivered,
    with the exception of the first future that was not delivered, or
    blocked in front of such a future. *)
Lemma oac_loop_outcome (fuel : nat) :
  forall futures pending c s,
    (forall i, In i futures -> ~ In i c -> In i pending) ->
    (forall f rest, futures = f :: rest -> ~ In f c) ->
    (List.length pending < fuel)%nat ->
    exists ys rest,
      futures = ys ++ rest
      /\ Forall2 (yields tasks) ys (fst (oac_loop tasks fuel futures pending c s))
      /\ match snd (oac_loop tasks fuel futures pending c s) with
         | Finished => rest = []
         | Raised e => exists f rest', rest = f :: rest' /\ await tasks f = Raise e
         | Blocked => rest <> []
         end.
Proof.
  induction fuel as [|fuel IH]; intros futures pending c s Hpend Hhead Hfuel; [lia|].
  destruct futures as [|f0 rest]; cbn [oac_loop].
  - exists [], []. cbn. repeat split. constructor.
  - assert (Hf0 : In f0 pending).
    { apply Hpend; [now left|]. eapply Hhead; reflexivity. }
    destruct pending as [|p0 pending0]; [contradiction|].
    cbv iota. set (pending := p0 :: pending0) in *.
    destruct (wait pending c s) as [[[[done pending'] c'] s']|] eqn:Hw.
    2:{ exists [], (f0 :: rest). cbn. split; [reflexivity|].
        split; [constructor|discriminate]. }
    destruct (OrderFacts.wait_spec _ _ _ _ _ _ _ Hw) as [Hdone [Hpend' [Hlen [Hmono _]]]].
    destruct (mem f0 done) eqn:Hm.
    + destruct (await tasks f0) as [v|e] eqn:Hv.
      2:{ exists [], (f0 :: rest). cbn. split; [reflexivity|].
          split; [constructor|]. exists f0, rest. auto. }
      destruct (tick c' s') as [c2 s2] eqn:Ht.
      pose proof (proj1 (OrderFacts.tick_advances _ _ _ _ Ht)) as Hmono2.
      pose proof (drain_outcome rest c2 s2) as Hd.
      destruct (drain tasks rest c2 s2) as [out fs c3 s3|out e].
      * destruct Hd as [[ys [Hys HF]] [Hhead3 Hmono3]].
        destruct (IH fs pending' c3 s3) as [ys' [rest' [Hfs [HF' Hend]]]].
        -- intros i Hi Hni. rewrite Hpend'. apply filter_In. split.
           ++ apply Hpend; [right; rewrite Hys; apply in_or_app; now right|].
              intros Hc. apply Hni. auto.
           ++ apply negb_true_iff. apply OrderFacts.mem_false. intros Hc.
              apply Hni. auto.
        -- exact Hhead3.
        -- lia.
        -- exists (f0 :: ys ++ ys'), rest'. unfold prepend. cbn [fst snd].
           split; [rewrite Hys, Hfs; cbn; now rewrite <- app_assoc|].
           split; [|exact Hend].
           cbn [app]. constructor; [exact Hv|]. now apply Forall2_app.
      * destruct Hd as [ys [f [rest' [Hys [HF He]]]]].
        exists (f0 :: ys), (f :: rest'). cbn [fst snd].
        split; [now rewrite Hys|]. split; [now constructor|].
        exists f, rest'. auto.
    + assert (Hnc : ~ In f0 c').
      { intros Hc. apply OrderFacts.mem_false in Hm. apply Hm. rewrite Hdone.
        apply filter_In. split; [exact Hf0|now apply OrderFacts.mem_In]. }
      apply IH.
      * intros i Hi Hni. rewrite Hpend'. apply filter_In. split.
        -- apply Hpend; [exact Hi|]. intros Hc. apply Hni. auto.
        -- apply negb_true_iff. now apply OrderFacts.mem_false.
      * intros f rest' H. inversion H; subst. exact Hnc.
      * lia.
Qed.

Lemma seq_split (ys rest : list nat) (n : nat) :
  seq 0 n = ys ++ rest ->
  ys = seq 0 (List.length ys)
  /\ rest = seq (List.length ys) (n - List.length ys)
  /\ (List.length ys <= n)%nat.
Proof.
  intros H. pose proof (OrderFacts.seq_prefix _ _ _ _ H) as Hys.
  assert (Hlen : (List.length ys <= n)%nat).
  { apply (f_equal (@List.length nat)) in H. rewrite length_seq, length_app in H. lia. }
  split; [exact Hys|]. split; [|exact Hlen].
  replace n with (List.length ys + (n - List.length ys))%nat in H at 1 by lia.
  rewrite seq_app in H. rewrite <- Hys in H. cbn [Nat.add] in H.
  apply app_inv_head in H. now symmetry.
Qed.

Lemma oac_outcome (sched : list (list nat)) :
  exists k,
    Forall2 (fun r v => r = Ok v) (firstn k tasks)
            (fst (ordered_as_completed tasks sched))
    /\ match snd (ordered_as_completed tasks sched) with
       | Finished => k = List.length tasks
       | Raised e => nth_error tasks k = Some (Raise e)
       | Blocked => (k < List.length tasks)%nat
       end.
Proof.
  unfold ordered_as_completed.
  destruct (oac_loop_outcome (S (List.length tasks)) (seq 0 (List.length tasks))
              (seq 0 (List.length tasks)) [] sched) as [ys [rest [Hys [HF Hend]]]].
  - auto.
  - intros f rest _ [].
  - rewrite length_seq. lia.
  - destruct (seq_split _ _ _ Hys) as [Hy [Hr Hk]].
    exists (List.length ys). split.
    + rewrite Hy in HF. exact (OrderFacts.yields_seq tasks _ [] _ HF).
    + destruct (snd (oac_loop _ _ _ _ _ _)) as [|e|].
      * subst rest. destruct (List.length tasks - List.length ys)%nat eqn:E;
          [lia|]. cbn in Hr. discriminate.
      * destruct Hend as [f [rest' [Hrest Hf]]]. rewrite Hrest in Hr.
        destruct (List.length tasks - List.length ys)%nat eqn:E; [discriminate|].
        cbn in Hr. injection Hr as Hf0 _. subst f.
        unfold await in Hf.
        destruct (nth_error tasks (List.length ys)) as [r|] eqn:En.
        -- erewrite nth_error_nth in Hf by exact En. now subst r.
        -- apply nth_error_None in En. lia.
      * destruct (List.length tasks - List.length ys)%nat eqn:E; [|lia].
        cbn in Hr. congruence.
Qed.

End Outcome.

(** X2.  For every list of tasks and every order of completion,
    [ordered_as_completed] yields the values of the first [k] tasks, in
    the order of the tasks, and then ends in one of three ways: normally,
    and then every task was delivered; with the exception of task [k];
    or never, waiting for task [k].  It never fails by itself. *)
Theorem ordered_as_completed_outcome {T} (tasks : list (result T))
    (sched : list (list nat)) :
  exists k,
    Forall2 (fun r v => r = Ok v) (firstn k tasks)
            (fst (ordered_as_completed tasks sched))
    /\ match snd (ordered_as_completed tasks sched) with
       | Finished => k = List.length tasks
       | Raised e => nth_error tasks k = Some (Raise e)
       | Blocked => (k < List.length tasks)%nat
       end.
Proof. exact (oac_outcome tasks sched). Qed.

End DeliveryProps.

(** ** hybrid_search.py: Code._embed and Code.embed, whatever the service does *)

Module EmbedProps.
Import HybridSearch EmbedDefs.

Lemma splice_shape (idxs nonempty : list nat) :
  forall embs out,
    splice idxs nonempty embs = Ok out ->
    Forall2 (fun i o => o = None <-> mem i nonempty = false) idxs out.
Proof.
  induction idxs as [|i idxs IH]; intros embs out H; cbn [splice] in H.
  - inversion H. constructor.
  - destruct (mem i nonempty) eqn:Hm.
    + destruct embs as [|e embs]; [discriminate|].
      destruct (splice idxs nonempty embs) as [o|x] eqn:Hs; cbn in H; [|discriminate].
      inversion H; subst. constructor; [|eauto].
      split; intros Hd; [discriminate Hd|congruence].
    + destruct (splice idxs nonempty embs) as [o|x] eqn:Hs; cbn in H; [|discriminate].
      inversion H; subst. constructor; [|eauto]. split; intros _; [exact Hm|reflexivity].
Qed.

Lemma attempts_Ok (env : Env) (task : nat) (ty : string) (batch : list string)
    (retries : list nat) (out : list (option embedding)) :
  attempts env task ty batch retries = Ok out ->
  exists vs, splice (seq 0 (List.length batch)) (nonempty_idxs batch) vs = Ok out.
Proof.
  induction retries as [|r retries IH]; cbn [attempts]; [discriminate|].
  destruct (get_embeddings env task r ty (request batch)); eauto; discriminate.
Qed.

Lemma Forall2_seq_nth {B} (P : nat -> B -> Prop) (R : string -> B -> Prop)
    (batch : list string) :
  (forall i o, (i < List.length batch)%nat -> P i o -> R (nth i batch "") o) ->
  forall n a out,
    (a + n = List.length batch)%nat ->
    Forall2 P (seq a n) out ->
    Forall2 R (map (fun i => nth i batch "") (seq a n)) out.
Proof.
  intros HPR. induction n as [|n IH]; intros a out Ha H; cbn [seq map] in *.
  - inversion H. constructor.
  - inversion H; subst. constructor.
    + apply HPR; [lia|assumption].
    + apply IH; [lia|assumption].
Qed.

Lemma repeat_shape (nonempty : list nat) :
  forall n a,
    Forall2 (fun (i : nat) (o : option embedding) => o = None <-> mem i [] = false)
            (seq a n) (repeat None n).
Proof.
  induction n as [|n IH]; intros a; cbn [seq repeat]; constructor; [|apply IH].
  split; reflexivity.
Qed.

(** One value per text, and no value exactly at the empty texts. *)
Lemma _embed_Forall2 (env : Env) (task : nat) (batch : list string) (ty : string)
    (out : list (option embedding)) :
  _embed env task batch ty = Ok out ->
  Forall2 (fun t o => o = None <-> t = "") batch out.
Proof.
  intros H.
  assert (Hs : Forall2 (fun i o => o = None <-> mem i (nonempty_idxs batch) = false)
                       (seq 0 (List.length batch)) out).
  { unfold _embed in H. destruct (nonempty_idxs batch) as [|i0 is0] eqn:Hidx.
    - inversion H. apply (repeat_shape []).
    - rewrite <- Hidx. apply attempts_Ok in H. destruct H as [vs Hvs].
      exact (splice_shape _ _ _ _ Hvs). }
  rewrite <- (map_id batch), <- (EmbedFacts.map_nth_seq (fun x => x) batch "").
  refine (Forall2_seq_nth _ _ batch _ _ 0%nat out eq_refl Hs).
  intros i o Hi [H1 H2]. rewrite (EmbedFacts.mem_nonempty_idxs batch i Hi) in H1, H2.
  split.
  - intros Ho. specialize (H1 Ho).
    destruct (nth i batch "") eqn:E; [reflexivity|discriminate].
  - intros Ht. apply H2. now rewrite Ht.
Qed.

(** X3.  Whatever the embedding service answers, a batch that [_embed]
    returns has one entry per text, and the entry is [None] exactly where
    the text is empty. *)
Theorem embed_batch_shape (env : Env) (task : nat) (batch : list string)
    (ty : string) (out : list (option embedding)) :
  _embed env task batch ty = Ok out ->
  List.length out = List.length batch
  /\ Forall2 (fun t o => o = None <-> t = "") batch out.
Proof.
  intros H. pose proof (_embed_Forall2 _ _ _ _ _ H) as HF.
  split; [symmetry; exact (Forall2_length HF)|exact HF].
Qed.

Lemma embed_batch_shape_witness :
  List.length (expected toy_model "q" [""; "c"]) = 2%nat
  /\ Forall2 (fun t o => o = None <-> t = "") [""; "c"]
             (expected toy_model "q" [""; "c"]).
Proof.
  apply (embed_batch_shape busy_env 0 [""; "c"] "q"). vm_compute. reflexivity.
Defined.

Lemma splice_raises (idxs nonempty : list nat) :
  forall embs e, splice idxs nonempty embs = Raise e -> e = IndexError.
Proof.
  induction idxs as [|i idxs IH]; intros embs e H; cbn [splice] in H; [discriminate|].
  destruct (mem i nonempty).
  - destruct embs as [|v embs]; [congruence|].
    destruct (splice idxs nonempty embs) eqn:Hs; cbn in H; [discriminate|].
    inversion H; subst. eauto.
  - destruct (splice idxs nonempty embs) eqn:Hs; cbn in H; [discriminate|].
    inversion H; subst. eauto.
Qed.

Lemma splice_enough (idxs nonempty : list nat) :
  forall embs,
    (List.length (filter (fun i => mem i nonempty) idxs) <= List.length embs)%nat ->
    exists out, splice idxs nonempty embs = Ok out.
Proof.
  induction idxs as [|i idxs IH]; intros embs H; cbn [splice filter] in *; [eauto|].
  destruct (mem i nonempty).
  - destruct embs as [|v embs]; cbn [List.length] in H; [lia|].
    destruct (IH embs) as [out Hout]; [lia|]. rewrite Hout. cbn. eauto.
  - destruct (IH embs H) as [out Hout]. rewrite Hout. cbn. eauto.
Qed.

Lemma splice_short (idxs nonempty : list nat) :
  forall embs,
    (List.length embs < List.length (filter (fun i => mem i nonempty) idxs))%nat ->
    splice idxs nonempty embs = Raise IndexError.
Proof.
  induction idxs as [|i idxs IH]; intros embs H; cbn [splice filter] in *;
    [cbn in H; lia|].
  destruct (mem i nonempty).
  - destruct embs as [|v embs]; [reflexivity|]. cbn [List.length] in H.
    rewrite IH by lia. reflexivity.
  - rewrite IH by exact H. reflexivity.
Qed.

Lemma request_length (batch : list string) :
  List.length (request batch)
  = List.length (filter (fun i => mem i (nonempty_idxs batch))
                        (seq 0 (List.length batch))).
Proof.
  unfold request. rewrite length_map. unfold nonempty_idxs at 1. f_equal.
  apply filter_ext_in. intros i Hi. apply in_seq in Hi.
  symmetry. apply EmbedFacts.mem_nonempty_idxs. lia.
Qed.

Lemma nonempty_idxs_In (batch : list string) (t : string) :
  In t batch -> t <> "" -> nonempty_idxs batch <> [].
Proof.
  intros Hin Ht Hnil. destruct (In_nth _ _ "" Hin) as [i [Hi Hnth]].
  pose proof (EmbedFacts.mem_nonempty_idxs batch i Hi) as Hm.
  rewrite Hnil, Hnth in Hm. cbn in Hm.
  destruct t; [contradiction|discriminate].
Qed.

(** X4.  A batch with a non-empty text goes to the service.  Three
    retried failures in a row end in "retries exceeded"; any other
    failure is passed on at once; an answer is taken as it is, and fails
    with an [IndexError] exactly when it holds fewer embeddings than
    texts were sent. *)
Theorem embed_batch_failures (env : Env) (task : nat) (batch : list string)
    (ty : string) :
  (exists t, In t batch /\ t <> "") ->
  (Forall (fun retry => transient (get_embeddings env task retry ty (request batch)))
          [1; 2; 3]%nat ->
   _embed env task batch ty = Raise RetriesExceeded)
  /\ (get_embeddings env task 1 ty (request batch) = OtherFailure ->
      _embed env task batch ty = Raise BackendError)
  /\ (forall vs, get_embeddings env task 1 ty (request batch) = Embeddings vs ->
        ((List.length vs < List.length (request batch))%nat ->
         _embed env task batch ty = Raise IndexError)
        /\ ((List.length (request batch) <= List.length vs)%nat ->
            exists out, _embed env task batch ty = Ok out)).
Proof.
  intros [t [Hin Ht]]. pose proof (nonempty_idxs_In _ _ Hin Ht) as Hne.
  unfold _embed. destruct (nonempty_idxs batch) as [|i0 is0] eqn:Hidx; [congruence|].
  clear Hne. cbn [attempts]. split; [|split].
  - intros H. inversion H as [|? ? H1 H']; subst. inversion H' as [|? ? H2 H'']; subst.
    inversion H'' as [|? ? H3 _]; subst.
    destruct H1 as [H1|H1], H2 as [H2|H2], H3 as [H3|H3];
      rewrite H1, H2, H3; reflexivity.
  - intros H. rewrite H. reflexivity.
  - intros vs H. rewrite H. rewrite request_length. split; intros Hlen.
    + now apply splice_short.
    + now apply splice_enough.
Qed.

Lemma embed_batch_failures_witness :
  _embed SearchDefs.silent_env 0 ["c"] "q" = Raise RetriesExceeded.
Proof.
  refine (proj1 (embed_batch_failures SearchDefs.silent_env 0 ["c"] "q" _) _).
  - exists "c". split; [now left|discriminate].
  - repeat constructor; left; reflexivity.
Defined.

Lemma _embed_raises (env : Env) (task : nat) (batch : list string) (ty : string)
    (e : exn) :
  _embed env task batch ty = Raise e ->
  e = RetriesExceeded \/ e = BackendError \/ e = IndexError.
Proof.
  unfold _embed. destruct (nonempty_idxs batch) as [|i0 is0]; [discriminate|].
  generalize [1; 2; 3]%nat. intros retries.
  induction retries as [|r retries IH]; cbn [attempts]; intros H.
  - inversion H. auto.
  - destruct (get_embeddings env task r ty (request batch)); auto.
    + apply splice_raises in H. auto.
    + inversion H. auto.
Qed.

Lemma tasks_shape (env : Env) (ty : string) (bs : list (list string)) :
  forall k,
    Forall2 (fun b r => forall o, r = Ok o ->
                        Forall2 (fun t o' => o' = None <-> t = "") b o)
            bs (tasks env k bs ty).
Proof.
  induction bs as [|b bs IH]; intros k; cbn [tasks]; constructor; [|apply IH].
  intros o Ho. exact (_embed_Forall2 _ _ _ _ _ Ho).
Qed.

Lemma tasks_raise (env : Env) (ty : string) (bs : list (list string)) :
  forall k,
    Forall (fun r => forall e, r = Raise e ->
                     e = RetriesExceeded \/ e = BackendError \/ e = IndexError)
           (tasks env k bs ty).
Proof.
  induction bs as [|b bs IH]; intros k; cbn [tasks]; constructor; [|apply IH].
  intros e He. exact (_embed_raises _ _ _ _ _ He).
Qed.

Lemma tasks_length (env : Env) (ty : string) (bs : list (list string)) :
  forall k, List.length (tasks env k bs ty) = List.length bs.
Proof.
  induction bs as [|b bs IH]; intros k; cbn [tasks List.length]; [reflexivity|].
  now rewrite IH.
Qed.

Lemma Forall2_concat {A B} (R : A -> B -> Prop) (la : list (list A))
    (lb : list (list B)) :
  Forall2 (Forall2 R) la lb -> Forall2 R (List.concat la) (List.concat lb).
Proof.
  induction 1 as [|a b la lb Hab _ IH]; cbn [List.concat]; [constructor|].
  now apply Forall2_app.
Qed.

Lemma firstn_prefix {A} (p rest : list A) : firstn (List.length p) (p ++ rest) = p.
Proof.
  induction p as [|x p IH]; cbn; [reflexivity|]. now rewrite IH.
Qed.

Lemma prefix_Forall2 {A B} (R : A -> B -> Prop) (p rest l : list A) (out : list B) :
  l = p ++ rest -> Forall2 R p out ->
  (List.length out <= List.length l)%nat
  /\ Forall2 R (firstn (List.length out) l) out.
Proof.
  intros -> HF. rewrite <- (Forall2_length HF), firstn_prefix, length_app.
  split; [lia|exact HF].
Qed.

(** With embeddings enabled: [embed] delivers the batches up to some
    batch [k], each with the shape of its texts, and ends normally only
    with [k] the last batch. *)
Lemma embed_outcome (env : Env) (texts : list string) (ty : string) :
  ENABLE_EMBEDDING env = true ->
  exists k,
    Forall2 (fun t o => o = None <-> t = "")
            (List.concat (firstn k (batches texts))) (fst (embed env texts ty))
    /\ match snd (embed env texts ty) with
       | Finished => (List.length (batches texts) <= k)%nat
       | Raised e => e = RetriesExceeded \/ e = BackendError \/ e = IndexError
       | Blocked => True
       end.
Proof.
  intros HE. unfold embed. rewrite HE.
  destruct (DeliveryProps.oac_outcome (tasks env 0 (batches texts) ty)
              (completions env)) as [k [HF Hend]].
  destruct (ordered_as_completed (tasks env 0 (batches texts) ty) (completions env))
    as [outs e]. cbn [fst snd] in *.
  exists k. split.
  - apply Forall2_concat.
    pose proof (EmbedFacts.Forall2_firstn _ k _ _ (tasks_shape env ty (batches texts) 0))
      as Hs.
    refine (Forall2_compose _ _ _ _ _ _ _ Hs HF).
    intros b r o Hb Hr. exact (Hb o Hr).
  - destruct e as [|x|].
    + rewrite tasks_length in Hend. lia.
    + apply nth_error_In in Hend.
      pose proof (tasks_raise env ty (batches texts) 0) as Hr.
      rewrite Forall_forall in Hr. exact (Hr _ Hend x eq_refl).
    + exact I.
Qed.

(** A stream of [embed] that ends normally has one value per text. *)
Lemma embed_finished_length (env : Env) (texts : list string) (ty : string) :
  snd (embed env texts ty) = Finished ->
  List.length (fst (embed env texts ty)) = List.length texts.
Proof.
  destruct (ENABLE_EMBEDDING env) eqn:HE.
  - intros Hfin. destruct (embed_outcome env texts ty HE) as [k [HF Hend]].
    rewrite Hfin in Hend. rewrite firstn_all2 in HF by exact Hend.
    rewrite EmbedFacts.batches_concat in HF. symmetry. exact (Forall2_length HF).
  - intros _. unfold embed. rewrite HE. cbn [fst]. apply length_map.
Qed.

(** X5.  Whatever the service answers and in whatever order the batches
    finish, [embed] yields values for a prefix of the texts, in the order
    of the texts: with embeddings enabled the value is [None] exactly for
    an empty text, with embeddings disabled it is always [None].  When
    the stream ends normally every text has its value; when it fails, it
    fails with the error of a batch: retries exceeded, a failure of the
    service, or an answer that was too short. *)
Theorem embed_any_service (env : Env) (texts : list string) (ty : string) :
  (List.length (fst (embed env texts ty)) <= List.length texts)%nat
  /\ Forall2 (fun t o => if ENABLE_EMBEDDING env then o = None <-> t = ""
                         else o = None)
             (firstn (List.length (fst (embed env texts ty))) texts)
             (fst (embed env texts ty))
  /\ (snd (embed env texts ty) = Finished ->
      List.length (fst (embed env texts ty)) = List.length texts)
  /\ (forall e, snd (embed env texts ty) = Raised e ->
        e = RetriesExceeded \/ e = BackendError \/ e = IndexError).
Proof.
  pose proof (embed_finished_length env texts ty) as Hfin.
  destruct (ENABLE_EMBEDDING env) eqn:HE.
  - destruct (embed_outcome env texts ty HE) as [k [HF Hend]].
    assert (Hpre : texts = List.concat (firstn k (batches texts))
                           ++ List.concat (skipn k (batches texts))).
    { rewrite <- concat_app, firstn_skipn. symmetry. apply EmbedFacts.batches_concat. }
    destruct (prefix_Forall2 _ _ _ _ _ Hpre HF) as [Hle HF'].
    split; [exact Hle|]. split; [exact HF'|]. split; [exact Hfin|].
    intros e He. rewrite He in Hend. exact Hend.
  - assert (Hout : embed env texts ty = (map (fun _ => None) texts, Finished)).
    { unfold embed. now rewrite HE. }
    rewrite Hout. cbn [fst snd]. rewrite length_map, firstn_all.
    split; [lia|]. split; [|split; [reflexivity|discriminate]].
    clear. induction texts as [|t texts IH]; cbn [map]; constructor; auto.
Qed.

End EmbedProps.

(** ** postgres/models.py and hybrid_search.py: the rows of the index *)

Module IndexProps.
Import HybridSearch IndexDefs.

Lemma insert_rows_spec (items : list Code) :
  forall serial,
    snd (insert_rows serial items) = (serial + Z.of_nat (List.length items))%Z
    /\ Forall2 (fun c r => r_file r = c_file c /\ r_text r = c_text c
                           /\ r_nodeid r = c_node_id c /\ r_graphid r = c_graph_id c
                           /\ r_embedding r = c_embedding c)
               items (fst (insert_rows serial items))
    /\ (forall k r, nth_error (fst (insert_rows serial items)) k = Some r ->
                    r_id r = (serial + Z.of_nat k)%Z).
Proof.
  induction items as [|c items IH]; intros serial; cbn [insert_rows].
  - cbn. split; [lia|]. split; [constructor|]. intros [|k] r H; discriminate.
  - specialize (IH (serial + 1)%Z).
    destruct (insert_rows (serial + 1) items) as [rs serial'] eqn:E.
    cbn [fst snd] in *. destruct IH as [Hs [HF Hid]].
    split; [cbn [List.length]; lia|]. split.
    + constructor; [cbn; repeat split|exact HF].
    + intros [|k] r H; cbn in H.
      * inversion H; subst. cbn. lia.
      * rewrite (Hid k r H). lia.
Qed.

Lemma insert_many_spec (t : Table) (items : list Code) :
  exists new,
    rows (insert_many t items) = rows t ++ new
    /\ next_serial (insert_many t items)
       = (next_serial t + Z.of_nat (List.length items))%Z
    /\ Forall2 (fun c r => r_file r = c_file c /\ r_text r = c_text c
                           /\ r_nodeid r = c_node_id c /\ r_graphid r = c_graph_id c
                           /\ r_embedding r = c_embedding c)
               items new
    /\ (forall k r, nth_error new k = Some r ->
                    r_id r = (next_serial t + Z.of_nat k)%Z).
Proof.
  destruct items as [|c items].
  - exists []. cbn. rewrite app_nil_r. split; [reflexivity|]. split; [lia|].
    split; [constructor|]. intros [|k] r H; discriminate.
  - unfold insert_many.
    destruct (insert_rows_spec (c :: items) (next_serial t)) as [Hs [HF Hid]].
    destruct (insert_rows (next_serial t) (c :: items)) as [rs serial] eqn:E.
    cbn [fst snd] in *. exists rs. cbn [rows next_serial]. auto.
Qed.

Lemma new_ids (s : Z) (new : list Row) :
  (forall k r, nth_error new k = Some r -> r_id r = (s + Z.of_nat k)%Z) ->
  NoDup (map r_id new)
  /\ Forall (fun r => (s <= r_id r < s + Z.of_nat (List.length new))%Z) new.
Proof.
  revert s. induction new as [|r new IH]; intros s Hid.
  - split; constructor.
  - destruct (IH (s + 1)%Z) as [Hnd Hf].
    { intros k r' H. rewrite (Hid (S k) r' H). lia. }
    pose proof (Hid 0%nat r eq_refl) as Hr.
    split.
    + cbn [map]. constructor; [|exact Hnd]. intros Hin.
      apply in_map_iff in Hin. destruct Hin as [r' [Heq Hin]].
      rewrite Forall_forall in Hf. specialize (Hf r' Hin). lia.
    + constructor; [cbn [List.length]; lia|].
      eapply Forall_impl; [|exact Hf]. cbn [List.length]. intros a Ha. lia.
Qed.

Lemma keyed_app (t : Table) (new : list Row) (n : Z) :
  keyed t ->
  (forall k r, nth_error new k = Some r -> r_id r = (next_serial t + Z.of_nat k)%Z) ->
  n = (next_serial t + Z.of_nat (List.length new))%Z ->
  keyed (mkTable (rows t ++ new) n).
Proof.
  intros [Hnd Hlt] Hid ->. destruct (new_ids _ _ Hid) as [Hnd' Hr].
  rewrite Forall_forall in Hlt, Hr. split; cbn [rows next_serial].
  - rewrite map_app. apply NoDup_app; [exact Hnd|exact Hnd'|].
    intros x Hx Hx'. apply in_map_iff in Hx, Hx'.
    destruct Hx as [r [<- Hin]], Hx' as [r' [Heq Hin']].
    specialize (Hlt r Hin). specialize (Hr r' Hin'). lia.
  - apply Forall_forall. intros r Hin. apply in_app_or in Hin.
    destruct Hin as [Hin|Hin]; [specialize (Hlt r Hin)|specialize (Hr r Hin)]; lia.
Qed.

Lemma insert_many_keyed (t : Table) (items : list Code) :
  keyed t -> keyed (insert_many t items).
Proof.
  intros Hk. destruct (insert_many_spec t items) as [new [Hrows [Hnext [HF Hid]]]].
  pose proof (Forall2_length HF) as Hlen.
  destruct (insert_many t items) as [rs n]. cbn [rows next_serial] in *. subst rs.
  apply keyed_app; [exact Hk|exact Hid|]. rewrite <- Hlen. exact Hnext.
Qed.

Lemma sql_in_Some (x : Z) (l : list Z) : sql_in x (map Some l) = true <-> In x l.
Proof.
  unfold sql_in. rewrite existsb_exists. split.
  - intros [v [Hin Hv]]. apply in_map_iff in Hin. destruct Hin as [y [<- Hy]].
    apply Z.eqb_eq in Hv. now subst.
  - intros Hin. exists (Some x). split; [now apply in_map|apply Z.eqb_refl].
Qed.

Lemma delete_many_keyed (t : Table) (ids : list (option Z)) :
  keyed t -> keyed (delete_many t ids).
Proof.
  intros [Hnd Hlt]. destruct ids as [|i ids]; [split; assumption|].
  unfold delete_many. split; cbn [rows next_serial].
  - clear Hlt. induction (rows t) as [|r rs IH]; cbn [filter map]; [constructor|].
    inversion Hnd as [|? ? Hnot Hnd']; subst.
    destruct (negb (sql_in (r_id r) (i :: ids))); [|now apply IH].
    cbn [map]. constructor; [|now apply IH].
    intros Hin. apply Hnot. apply in_map_iff in Hin. destruct Hin as [r' [Heq Hin]].
    apply filter_In in Hin. apply in_map_iff. exists r'. tauto.
  - apply Forall_forall. intros r Hin. apply filter_In in Hin.
    rewrite Forall_forall in Hlt. apply Hlt. tauto.
Qed.

Lemma filter_none {A} (f : A -> bool) (l : list A) :
  (forall x, In x l -> f x = false) -> filter f l = [].
Proof.
  induction l as [|x l IH]; intros H; cbn [filter]; [reflexivity|].
  rewrite (H x (or_introl eq_refl)). apply IH. intros y Hy. apply H. now right.
Qed.

(** X6.  [insert_many] appends one row per item, in order, numbered by
    the sequence from its next value on, and keeps the primary key;
    deleting the ids that were handed out gives back the rows there were
    before. *)
Theorem insert_delete_roundtrip (t : Table) (items : list Code) :
  keyed t ->
  exists new,
    rows (insert_many t items) = rows t ++ new
    /\ List.length new = List.length items
    /\ (forall k r, nth_error new k = Some r ->
                    r_id r = (next_serial t + Z.of_nat k)%Z)
    /\ keyed (insert_many t items)
    /\ rows (delete_many (insert_many t items) (map (fun r => Some (r_id r)) new))
       = rows t.
Proof.
  intros Hk. pose proof (insert_many_keyed t items Hk) as Hk'.
  destruct (insert_many_spec t items) as [new [Hrows [Hnext [HF Hid]]]].
  exists new. split; [exact Hrows|]. split; [symmetry; exact (Forall2_length HF)|].
  split; [exact Hid|]. split; [exact Hk'|].
  destruct new as [|r0 new0]; [cbn; now rewrite Hrows, app_nil_r|].
  set (new := r0 :: new0) in *.
  unfold delete_many. change (map (fun r => Some (r_id r)) new)
    with (Some (r_id r0) :: map (fun r => Some (r_id r)) new0).
  change (Some (r_id r0) :: map (fun r => Some (r_id r)) new0)
    with (map (fun r => Some (r_id r)) new).
  cbn [rows]. rewrite Hrows, filter_app.
  replace (map (fun r => Some (r_id r)) new) with (map Some (map r_id new))
    by (now rewrite map_map).
  destruct (new_ids _ _ Hid) as [_ Hr]. destruct Hk as [_ Hlt].
  rewrite Forall_forall in Hlt, Hr.
  rewrite (forallb_filter_id _ (rows t)).
  - replace (filter _ new) with (@nil Row); [now rewrite app_nil_r|].
    symmetry. apply filter_none. intros r Hin.
    apply negb_false_iff. apply sql_in_Some. now apply in_map.
  - apply forallb_forall. intros r Hin. apply negb_true_iff.
    destruct (sql_in (r_id r) (map Some (map r_id new))) eqn:E; [|reflexivity].
    apply sql_in_Some in E. apply in_map_iff in E. destruct E as [r' [Heq Hin']].
    specialize (Hlt r Hin). specialize (Hr r' Hin'). lia.
Qed.

Lemma insert_delete_roundtrip_witness :
  keyed small_table
  /\ exists new,
       rows (insert_many small_table [mkCode (Some "7") None None None None None])
       = rows small_table ++ new
       /\ List.length new = 1%nat
       /\ (forall k r, nth_error new k = Some r -> r_id r = (5 + Z.of_nat k)%Z)
       /\ keyed (insert_many small_table [mkCode (Some "7") None None None None None])
       /\ rows (delete_many
                  (insert_many small_table [mkCode (Some "7") None None None None None])
                  (map (fun r => Some (r_id r)) new))
          = rows small_table.
Proof.
  assert (Hk : keyed small_table).
  { split; cbn.
    - repeat constructor; cbn; intuition discriminate.
    - repeat constructor. }
  split; [exact Hk|].
  exact (insert_delete_roundtrip small_table
           [mkCode (Some "7") None None None None None] Hk).
Defined.

Lemma slice_range {A} (l : list A) (a n : nat) :
  (a + n <= List.length l)%nat ->
  Py.slice l (Z.of_nat a) (Z.of_nat a + Z.of_nat n) = firstn n (skipn a l).
Proof.
  intros H. unfold Py.slice, Py.clamp_index.
  replace (Z.of_nat a <? 0)%Z with false by (symmetry; apply Z.ltb_ge; lia).
  replace (Z.of_nat a + Z.of_nat n <? 0)%Z with false
    by (symmetry; apply Z.ltb_ge; lia).
  rewrite !Z.min_l by lia.
  replace (Z.to_nat (Z.of_nat a + Z.of_nat n - Z.of_nat a)) with n by lia.
  now rewrite Nat2Z.id.
Qed.

Lemma firstn_plus {A} (n m : nat) (l : list A) :
  firstn (n + m) l = firstn n l ++ firstn m (skipn n l).
Proof.
  revert l. induction n as [|n IH]; intros l; [reflexivity|].
  destruct l as [|x l]; cbn [Nat.add firstn skipn app].
  - now rewrite firstn_nil.
  - now rewrite IH.
Qed.

Lemma combine_codes (gid : string) (items : list SearchIndexAction) :
  forall embs : list (option embedding),
    List.length items = List.length embs ->
    Forall2 (fun a c => c_file c = a_file a /\ c_text c = a_content a
                        /\ c_node_id c = a_node_id a /\ c_graph_id c = Some gid)
            items
            (map (fun p => mkCode (Some gid) (a_file (fst p)) (a_content (fst p))
                                  None (a_node_id (fst p)) (snd p))
                 (combine items embs)).
Proof.
  induction items as [|a items IH]; intros [|e embs] H; try discriminate;
    cbn [combine map]; constructor.
  - cbn. repeat split.
  - apply IH. now injection H.
Qed.

(** The rows that the insert loop adds: one per delivered embedding, for
    the CREATE actions from position [a] on, in order. *)
Lemma insert_batches_rows (gid : string) (creates : list SearchIndexAction)
    (chunks : list (list (option embedding))) :
  forall a t progress,
    (a + List.length (List.concat chunks) <= List.length creates)%nat ->
    exists new,
      rows (fst (insert_batches gid creates chunks (Z.of_nat a) t progress))
      = rows t ++ new
      /\ next_serial (fst (insert_batches gid creates chunks (Z.of_nat a) t progress))
         = (next_serial t + Z.of_nat (List.length new))%Z
      /\ List.length new = List.length (List.concat chunks)
      /\ Forall2 (stores gid) (firstn (List.length new) (skipn a creates)) new
      /\ (forall k r, nth_error new k = Some r ->
                      r_id r = (next_serial t + Z.of_nat k)%Z).
Proof.
  induction chunks as [|c chunks IH]; intros a t progress Hle; cbn [insert_batches].
  - exists []. cbn. rewrite app_nil_r. split; [reflexivity|]. split; [lia|].
    split; [reflexivity|]. split; [constructor|]. intros [|k] r H; discriminate.
  - cbn [List.concat] in Hle. rewrite length_app in Hle.
    rewrite (slice_range creates a (List.length c)) by lia.
    replace (Z.of_nat a + Z.of_nat (List.length c))%Z
      with (Z.of_nat (a + List.length c)) by lia.
    assert (Hitems : List.length (firstn (List.length c) (skipn a creates))
                     = List.length c).
    { rewrite length_firstn, length_skipn. lia. }
    pose proof (combine_codes gid _ c Hitems) as Hcodes.
    set (codes := map _ (combine _ c)) in *.
    destruct (insert_many_spec t codes) as [rs [Hrows [Hnext [HF Hid]]]].
    assert (Hrs : List.length rs = List.length c).
    { rewrite <- (Forall2_length HF), <- (Forall2_length Hcodes). exact Hitems. }
    match goal with
    | |- context [insert_batches _ _ _ _ _ ?p] =>
        destruct (IH (a + List.length c)%nat (insert_many t codes) p)
          as [new [Hrows' [Hnext' [Hlen' [HF' Hid']]]]]; [lia|]
    end.
    exists (rs ++ new). rewrite Hrows', Hrows, Hnext', Hnext, !length_app.
    rewrite (Forall2_length HF).
    split; [now rewrite app_assoc|]. split; [lia|]. split.
    { cbn [List.concat]. rewrite length_app. lia. }
    split.
    + rewrite firstn_plus. apply Forall2_app.
      * rewrite Hrs. refine (Forall2_compose _ _ _ _ _ _ _ Hcodes HF).
        intros x y z [H1 [H2 [H3 H4]]] [G1 [G2 [G3 [G4 _]]]].
        unfold stores. repeat split; congruence.
      * rewrite skipn_skipn, Hrs, (Nat.add_comm (List.length c) a). exact HF'.
    + intros k r H. destruct (Nat.lt_ge_cases k (List.length rs)) as [Hk|Hk].
      * rewrite nth_error_app1 in H by exact Hk. exact (Hid k r H).
      * rewrite nth_error_app2 in H by exact Hk. rewrite (Hid' _ r H), Hnext.
        rewrite (Forall2_length HF). lia.
Qed.

Lemma async_chunk_finished {A} (s : run A) (m : nat) (chunks : list (list A)) :
  async_chunk s (S m) = (chunks, Finished) ->
  snd s = Finished /\ List.concat chunks = fst s.
Proof.
  destruct s as [items e]. unfold async_chunk. cbn [fst snd].
  destruct (chunk_loop (S m) [] items) as [cs rest] eqn:Hc.
  assert (Hb : (List.length (@nil A) <= m)%nat) by (cbn; lia).
  destruct (ChunkProps.chunk_loop_full m items [] cs rest Hb Hc) as [Hcat _].
  cbn [app] in Hcat.
  destruct e; intros H; try discriminate H. injection H as Hch. subst chunks.
  split; [reflexivity|].
  destruct rest as [|x rest].
  - now rewrite app_nil_r in Hcat.
  - rewrite concat_app. cbn [List.concat]. now rewrite app_nil_r.
Qed.

Lemma insert_creates_rows (env : Env) (gid : string)
    (creates : list SearchIndexAction) (t : Table) :
  exists new,
    rows (fst (fst (insert_creates env gid creates t))) = rows t ++ new
    /\ next_serial (fst (fst (insert_creates env gid creates t)))
       = (next_serial t + Z.of_nat (List.length new))%Z
    /\ Forall2 (stores gid) (firstn (List.length new) creates) new
    /\ (forall k r, nth_error new k = Some r ->
                    r_id r = (next_serial t + Z.of_nat k)%Z)
    /\ (snd (insert_creates env gid creates t) = Finished ->
        List.length new = List.length creates).
Proof.
  assert (Hnone : forall e,
             (e = Finished -> creates = []) ->
             exists new : list Row,
               rows t = rows t ++ new
               /\ next_serial t = (next_serial t + Z.of_nat (List.length new))%Z
               /\ Forall2 (stores gid) (firstn (List.length new) creates) new
               /\ (forall k r, nth_error new k = Some r ->
                               r_id r = (next_serial t + Z.of_nat k)%Z)
               /\ (e = Finished -> List.length new = List.length creates)).
  { intros e He. exists []. cbn. rewrite app_nil_r. split; [reflexivity|].
    split; [lia|]. split; [constructor|]. split.
    - intros [|k] r H; discriminate.
    - intros H. now rewrite (He H). }
  unfold insert_creates. destruct creates as [|a0 cs0] eqn:Hc.
  - cbn [fst snd]. apply Hnone. auto.
  - rewrite <- Hc in *.
    destruct (mapM content_of creates) as [texts|x] eqn:Hm.
    2:{ cbn [fst snd]. apply Hnone. discriminate. }
    pose proof (mapM_length _ _ _ Hm) as Hlen.
    pose proof (ProgressFacts.async_chunk_spec
                  (embed env texts "RETRIEVAL_DOCUMENT") 100) as [Hle _].
    pose proof (EmbedFacts.embed_at_most env texts "RETRIEVAL_DOCUMENT") as Hmost.
    pose proof (async_chunk_finished (embed env texts "RETRIEVAL_DOCUMENT") 99) as Hfin.
    pose proof (EmbedProps.embed_finished_length env texts "RETRIEVAL_DOCUMENT")
      as Hall.
    destruct (async_chunk (embed env texts "RETRIEVAL_DOCUMENT") 100)
      as [chunks e].
    cbn [fst snd] in *.
    assert (Hb : (0 + List.length (List.concat chunks) <= List.length creates)%nat)
      by lia.
    destruct (insert_batches_rows gid creates chunks 0 t [] Hb)
      as [new [Hrows [Hnext [Hn [HF Hid]]]]].
    change (Z.of_nat 0) with 0%Z in *. cbn [skipn] in HF.
    destruct (insert_batches gid creates chunks 0 t []) as [t1 progress].
    cbn [fst snd] in *. exists new.
    split; [exact Hrows|]. split; [exact Hnext|]. split; [exact HF|].
    split; [exact Hid|]. intros ->.
    destruct (Hfin chunks eq_refl) as [Hs Hcat].
    rewrite Hn, Hcat, (Hall Hs). exact Hlen.
Qed.

Lemma all_create_groups (actions : list SearchIndexAction) :
  Forall (fun a => a_type a = CREATE) actions ->
  group_actions actions CREATE = actions /\ group_actions actions DELETE = [].
Proof.
  unfold group_actions.
  induction 1 as [|a actions Ha _ [IH1 IH2]]; cbn [filter]; [auto|].
  unfold is_type. rewrite Ha. fold (is_type CREATE) (is_type DELETE).
  rewrite IH1, IH2. auto.
Qed.

Lemma bulk_action_parts (env : Env) (gid : string)
    (actions : list SearchIndexAction) (t : Table) :
  snd (fst (bulk_action env gid actions t))
  = snd (fst (insert_creates env gid (group_actions actions CREATE) t))
  /\ snd (bulk_action env gid actions t)
     = snd (insert_creates env gid (group_actions actions CREATE) t)
  /\ (fst (fst (bulk_action env gid actions t))
      = fst (fst (insert_creates env gid (group_actions actions CREATE) t))
      \/ fst (fst (bulk_action env gid actions t))
         = delete_many
             (fst (fst (insert_creates env gid (group_actions actions CREATE) t)))
             (map a_id (group_actions actions DELETE))).
Proof.
  unfold bulk_action.
  destruct (insert_creates env gid (group_actions actions CREATE) t) as [[t1 p] e].
  destruct e; cbn [fst snd]; auto.
Qed.

Lemma bulk_action_appends (env : Env) (gid : string)
    (actions : list SearchIndexAction) (t : Table) :
  Forall (fun a => a_type a = CREATE) actions ->
  exists new,
    rows (fst (fst (bulk_action env gid actions t))) = rows t ++ new
    /\ next_serial (fst (fst (bulk_action env gid actions t)))
       = (next_serial t + Z.of_nat (List.length new))%Z
    /\ Forall2 (stores gid) (firstn (List.length new) actions) new
    /\ (forall k r, nth_error new k = Some r ->
                    r_id r = (next_serial t + Z.of_nat k)%Z)
    /\ (snd (bulk_action env gid actions t) = Finished ->
        List.length new = List.length actions).
Proof.
  intros Hall. destruct (all_create_groups actions Hall) as [Hc Hd].
  destruct (bulk_action_parts env gid actions t) as [_ [He Ht]].
  rewrite Hc, Hd in *. cbn [map delete_many] in Ht.
  assert (Ht' : fst (fst (bulk_action env gid actions t))
                = fst (fst (insert_creates env gid actions t))) by tauto.
  rewrite He, Ht'. apply insert_creates_rows.
Qed.

(** X7.  When every action is a CREATE, [bulk_action] only appends rows:
    the k-th new row holds the file, the content and the node id of the
    k-th action and the graph id of the call, and its id is the k-th
    value of the sequence.  Rows are written for a prefix of the actions,
    and for all of them when the call ends normally. *)
Theorem bulk_action_creates (env : Env) (gid : string)
    (actions : list SearchIndexAction) (t : Table) :
  Forall (fun a => a_type a = CREATE) actions ->
  exists new,
    rows (fst (fst (bulk_action env gid actions t))) = rows t ++ new
    /\ next_serial (fst (fst (bulk_action env gid actions t)))
       = (next_serial t + Z.of_nat (List.length new))%Z
    /\ Forall2 (stores gid) (firstn (List.length new) actions) new
    /\ (forall k r, nth_error new k = Some r ->
                    r_id r = (next_serial t + Z.of_nat k)%Z)
    /\ (snd (bulk_action env gid actions t) = Finished ->
        List.length new = List.length actions).
Proof. exact (bulk_action_appends env gid actions t). Qed.

Lemma bulk_action_creates_witness :
  exists new,
    rows (fst (fst (bulk_action SearchDefs.silent_env "7" one_create small_table)))
    = rows small_table ++ new
    /\ next_serial (fst (fst (bulk_action SearchDefs.silent_env "7" one_create
                                          small_table)))
       = (5 + Z.of_nat (List.length new))%Z
    /\ Forall2 (stores "7") (firstn (List.length new) one_create) new
    /\ (forall k r, nth_error new k = Some r -> r_id r = (5 + Z.of_nat k)%Z)
    /\ (snd (bulk_action SearchDefs.silent_env "7" one_create small_table) = Finished ->
        List.length new = 1%nat).
Proof.
  apply (bulk_action_creates SearchDefs.silent_env "7" one_create small_table).
  repeat constructor.
Defined.

Lemma insert_batches_grows (gid : string) (creates : list SearchIndexAction)
    (chunks : list (list (option embedding))) :
  forall i t progress,
    exists new,
      rows (fst (insert_batches gid creates chunks i t progress)) = rows t ++ new
      /\ Forall (fun r => (next_serial t <= r_id r)%Z) new
      /\ (next_serial t
          <= next_serial (fst (insert_batches gid creates chunks i t progress)))%Z
      /\ (keyed t -> keyed (fst (insert_batches gid creates chunks i t progress))).
Proof.
  induction chunks as [|c chunks IH]; intros i t progress; cbn [insert_batches].
  - exists []. cbn. rewrite app_nil_r. split; [reflexivity|].
    split; [constructor|]. split; [lia|auto].
  - set (codes := map _ (combine _ c)).
    destruct (insert_many_spec t codes) as [rs [Hrows [Hnext [_ Hid]]]].
    destruct (new_ids _ _ Hid) as [_ Hge].
    match goal with
    | |- context [insert_batches _ _ _ ?j _ ?p] =>
        destruct (IH j (insert_many t codes) p) as [new [Hrows' [Hge' [Hle' Hk']]]]
    end.
    exists (rs ++ new). rewrite Hrows', Hrows, app_assoc. split; [reflexivity|].
    split; [|split].
    + apply Forall_app. split.
      * eapply Forall_impl; [|exact Hge]. intros r Hr. cbv beta in *. lia.
      * eapply Forall_impl; [|exact Hge']. intros r Hr. cbv beta in *. lia.
    + lia.
    + intros Hk. apply Hk'. now apply insert_many_keyed.
Qed.

Lemma insert_creates_grows (env : Env) (gid : string)
    (creates : list SearchIndexAction) (t : Table) :
  exists new,
    rows (fst (fst (insert_creates env gid creates t))) = rows t ++ new
    /\ Forall (fun r => (next_serial t <= r_id r)%Z) new
    /\ (next_serial t <= next_serial (fst (fst (insert_creates env gid creates t))))%Z
    /\ (keyed t -> keyed (fst (fst (insert_creates env gid creates t)))).
Proof.
  assert (Hnone : exists new : list Row,
             rows t = rows t ++ new
             /\ Forall (fun r => (next_serial t <= r_id r)%Z) new
             /\ (next_serial t <= next_serial t)%Z /\ (keyed t -> keyed t)).
  { exists []. rewrite app_nil_r. split; [reflexivity|]. split; [constructor|].
    split; [lia|auto]. }
  unfold insert_creates. destruct creates as [|a0 cs0]; [exact Hnone|].
  destruct (mapM content_of (a0 :: cs0)) as [texts|x]; [|exact Hnone].
  destruct (async_chunk (embed env texts "RETRIEVAL_DOCUMENT") 100) as [chunks e].
  pose proof (insert_batches_grows gid (a0 :: cs0) chunks 0 t []) as H.
  destruct (insert_batches gid (a0 :: cs0) chunks 0 t []) as [t1 progress].
  exact H.
Qed.

(** X8.  Whatever the actions, the service and the schedule,
    [bulk_action] keeps the primary key of the table: ids stay distinct
    and below the sequence, the sequence never goes back, and a row of
    the result is either a row that was there before or carries an id
    that the sequence handed out during the call. *)
Theorem bulk_action_keyed (env : Env) (gid : string)
    (actions : list SearchIndexAction) (t : Table) :
  keyed t ->
  keyed (fst (fst (bulk_action env gid actions t)))
  /\ (next_serial t <= next_serial (fst (fst (bulk_action env gid actions t))))%Z
  /\ forall r, In r (rows (fst (fst (bulk_action env gid actions t)))) ->
               In r (rows t)
               \/ (next_serial t <= r_id r
                   < next_serial (fst (fst (bulk_action env gid actions t))))%Z.
Proof.
  intros Hk.
  destruct (insert_creates_grows env gid (group_actions actions CREATE) t)
    as [new [Hrows [Hge [Hle Hk1]]]].
  specialize (Hk1 Hk).
  set (t1 := fst (fst (insert_creates env gid (group_actions actions CREATE) t))) in *.
  assert (Hin1 : forall r, In r (rows t1) ->
                           In r (rows t) \/ (next_serial t <= r_id r < next_serial t1)%Z).
  { intros r Hin. destruct Hk1 as [_ Hlt]. rewrite Forall_forall in Hlt, Hge.
    specialize (Hlt r Hin). rewrite Hrows in Hin. apply in_app_or in Hin.
    destruct Hin as [Hin|Hin]; [now left|right]. specialize (Hge r Hin). lia. }
  destruct (bulk_action_parts env gid actions t) as [_ [_ [Ht|Ht]]];
    fold t1 in Ht; rewrite Ht.
  - auto.
  - split; [now apply delete_many_keyed|]. split.
    + destruct (map a_id (group_actions actions DELETE)); exact Hle.
    + intros r Hin.
      assert (Hr : In r (rows t1)).
      { destruct (map a_id (group_actions actions DELETE)); [exact Hin|].
        cbn [delete_many rows] in Hin. apply filter_In in Hin. tauto. }
      destruct (Hin1 r Hr) as [H|H]; [now left|right].
      destruct (map a_id (group_actions actions DELETE)); exact H.
Qed.

Lemma bulk_action_keyed_witness :
  keyed (fst (fst (bulk_action SearchDefs.silent_env "7" one_create small_table)))
  /\ (5 <= next_serial (fst (fst (bulk_action SearchDefs.silent_env "7" one_create
                                               small_table))))%Z.
Proof.
  refine ((fun H => conj (proj1 H) (proj1 (proj2 H)))
            (bulk_action_keyed SearchDefs.silent_env "7" one_create small_table _)).
  split; cbn.
  - repeat constructor; cbn; intuition discriminate.
  - repeat constructor.
Defined.

Lemma last_steps (total : Z) (chunks : list (list (option embedding))) (d : Q) :
  forall i,
    chunks <> [] ->
    last (ProgressDefs.steps total i chunks) d
    = (inject_Z (i + Z.of_nat (List.length (List.concat chunks))) / inject_Z total)%Q.
Proof.
  induction chunks as [|c chunks IH]; intros i Hne; [congruence|].
  cbn [ProgressDefs.steps]. destruct chunks as [|c' chunks].
  - cbn [ProgressDefs.steps last List.concat]. now rewrite app_nil_r.
  - assert (Hl : forall (x : Q) l, l <> [] -> last (x :: l) d = last l d).
    { intros x [|y l] H; [congruence|reflexivity]. }
    rewrite Hl by (cbn [ProgressDefs.steps]; discriminate).
    rewrite IH by discriminate.
    cbn [List.concat]. rewrite (length_app c), Nat2Z.inj_add, Z.add_assoc.
    reflexivity.
Qed.

(** X9.  The values that [bulk_action] passes to the progress callback
    lie in (0, 1] and never decrease; there is none when no action is a
    CREATE; and when there are CREATE actions and the call ends normally,
    the last value reported is 1. *)
Theorem bulk_action_reports (env : Env) (gid : string)
    (actions : list SearchIndexAction) (t : Table) :
  Forall ProgressDefs.fraction (snd (fst (bulk_action env gid actions t)))
  /\ StronglySorted Qle (snd (fst (bulk_action env gid actions t)))
  /\ (group_actions actions CREATE = [] ->
      snd (fst (bulk_action env gid actions t)) = [])
  /\ (group_actions actions CREATE <> [] ->
      snd (bulk_action env gid actions t) = Finished ->
      (last (snd (fst (bulk_action env gid actions t))) 0 == 1)%Q).
Proof.
  destruct (ProgressFacts.bulk_action_progress env gid actions t) as [Hf Hs].
  split; [exact Hf|]. split; [exact Hs|].
  destruct (bulk_action_parts env gid actions t) as [Hp [He _]]. rewrite Hp, He.
  clear. set (creates := group_actions actions CREATE). clearbody creates.
  split.
  - intros ->. reflexivity.
  - intros Hne. unfold insert_creates.
    destruct creates as [|a0 cs0] eqn:Hc; [congruence|]. rewrite <- Hc in *.
    destruct (mapM content_of creates) as [texts|x] eqn:Hm; [|discriminate].
    pose proof (mapM_length _ _ _ Hm) as Hlen.
    pose proof (async_chunk_finished (embed env texts "RETRIEVAL_DOCUMENT") 99) as Hfin.
    pose proof (EmbedProps.embed_finished_length env texts "RETRIEVAL_DOCUMENT")
      as Hall.
    destruct (async_chunk (embed env texts "RETRIEVAL_DOCUMENT") 100)
      as [chunks e].
    pose proof (ProgressFacts.insert_batches_steps gid creates chunks 0 t []) as Hst.
    destruct (insert_batches gid creates chunks 0 t []) as [t1 progress].
    cbn [fst snd app] in *. intros ->. subst progress.
    destruct (Hfin chunks eq_refl) as [Hs Hcat].
    assert (Hn : List.length (List.concat chunks) = List.length creates).
    { rewrite Hcat, (Hall Hs). exact Hlen. }
    assert (Hpos : (0 < List.length creates)%nat) by (rewrite Hc; cbn; lia).
    rewrite last_steps.
    + rewrite Hn, Z.add_0_l. unfold Qdiv. apply Qmult_inv_r.
      unfold Qeq. cbn. lia.
    + intros ->. cbn in Hn. lia.
Qed.

End IndexProps.

(** ** hybrid_search.py: Code.search *)

Module QueryProps.
Import HybridSearch CodeSearchDefs.

Lemma join_scores_In (rs : list Row) (sc : list (Z * Q)) (r : Row) (s : Q) :
  In (r, s) (join_scores rs sc) <-> In r rs /\ In (r_id r, s) sc.
Proof.
  unfold join_scores. rewrite in_flat_map. split.
  - intros [r' [Hr' Hin]]. apply in_map_iff in Hin.
    destruct Hin as [[i q] [Heq Hin]]. cbn [snd] in Heq. inversion Heq; subst.
    apply filter_In in Hin. destruct Hin as [Hin Hid]. cbn [fst] in Hid.
    apply Z.eqb_eq in Hid. subst. auto.
  - intros [Hr Hs]. exists r. split; [exact Hr|]. apply in_map_iff.
    exists (r_id r, s). split; [reflexivity|]. apply filter_In.
    split; [exact Hs|apply Z.eqb_refl].
Qed.

(** X10.  Every hit of [Code.search] is a row of the table that belongs
    to the graph asked for, paired with a score that the index gave to
    that row's id. *)
Theorem code_search_hits (e : Env) (t : Table) (gid query : string) (top : option Z)
    (bw vw : Q) (hits : list (Code * Q)) :
  search e t gid query top bw vw = Ok hits ->
  forall c s, In (c, s) hits ->
    c_graph_id c = Some gid
    /\ exists r emb, In r (rows t) /\ c = from_db_row r
                     /\ In (r_id r, s) (scores e query emb bw vw).
Proof.
  unfold search, order_limit. intros H c s Hin.
  destruct (anext (embed e [query] "RETRIEVAL_QUERY")) as [emb|x]; [|discriminate].
  cbn [bind] in H.
  destruct (_ <? 0)%Z; [discriminate|]. cbn [bind] in H. inversion H; subst; clear H.
  apply in_map_iff in Hin. destruct Hin as [[r q] [Heq Hin]]. cbn [fst snd] in Heq.
  inversion Heq; subst; clear Heq.
  apply SortFacts.firstn_incl in Hin. apply SortFacts.sorted_desc_In in Hin.
  apply filter_In in Hin. destruct Hin as [Hin Hg]. cbn [fst] in Hg.
  apply join_scores_In in Hin. destruct Hin as [Hr Hs]. split.
  - unfold in_graph in Hg. cbn [from_db_row c_graph_id].
    destruct (r_graphid r) as [g|]; [|discriminate].
    apply String.eqb_eq in Hg. now subst.
  - exists r, emb. auto.
Qed.

Lemma code_search_hits_witness :
  exists hits,
    search wide_env wide_table "7" "foo" (Some 3%Z) (1 # 2)%Q (1 # 2)%Q = Ok hits
    /\ forall c s, In (c, s) hits ->
         c_graph_id c = Some "7"
         /\ exists r emb, In r (rows wide_table) /\ c = from_db_row r
                          /\ In (r_id r, s)
                                (scores wide_env "foo" emb (1 # 2)%Q (1 # 2)%Q).
Proof.
  destruct (search wide_env wide_table "7" "foo" (Some 3%Z) (1 # 2)%Q (1 # 2)%Q)
    as [hits|x] eqn:E; [|vm_compute in E; discriminate E].
  exists hits. split; [reflexivity|].
  exact (code_search_hits _ _ _ _ _ _ _ _ E).
Defined.

End QueryProps.

(** ** graph.py: nodes, indices and the free list *)

Module StoreProps.
Import Graph StoreDefs.

Lemma insert_node_fst (i : nat) (n : KGNode) (l : list (nat * KGNode)) (x : nat) :
  In x (map fst (insert_node i n l)) <-> x = i \/ In x (map fst l).
Proof.
  induction l as [|[j m] l IH]; cbn [insert_node].
  - cbn. intuition congruence.
  - destruct (Nat.ltb i j); cbn [map fst In] in *; [|rewrite IH]; intuition congruence.
Qed.

Lemma insert_node_In (i : nat) (n : KGNode) (l : list (nat * KGNode))
    (p : nat * KGNode) :
  In p (insert_node i n l) <-> p = (i, n) \/ In p l.
Proof.
  induction l as [|[j m] l IH]; cbn [insert_node].
  - cbn. intuition congruence.
  - destruct (Nat.ltb i j); cbn [In] in *; [|rewrite IH]; intuition congruence.
Qed.

Lemma insert_node_length (i : nat) (n : KGNode) (l : list (nat * KGNode)) :
  List.length (insert_node i n l) = S (List.length l).
Proof.
  induction l as [|[j m] l IH]; cbn [insert_node]; [reflexivity|].
  destruct (Nat.ltb i j); cbn [List.length]; [reflexivity|now rewrite IH].
Qed.

Lemma insert_node_sorted (i : nat) (n : KGNode) (l : list (nat * KGNode)) :
  StronglySorted lt (map fst l) -> ~ In i (map fst l) ->
  StronglySorted lt (map fst (insert_node i n l)).
Proof.
  induction l as [|[j m] l IH]; intros Hs Hni; cbn [insert_node].
  - cbn. repeat constructor.
  - cbn [map fst] in Hs, Hni. inversion Hs as [|? ? Hs' Hlt]; subst.
    destruct (Nat.ltb i j) eqn:E.
    + apply Nat.ltb_lt in E. cbn [map fst]. constructor; [exact Hs|].
      constructor; [exact E|]. eapply Forall_impl; [|exact Hlt].
      intros a Ha. cbv beta in *. lia.
    + apply Nat.ltb_ge in E. cbn [map fst]. constructor.
      * apply IH; [exact Hs'|]. intros H. apply Hni. now right.
      * apply Forall_forall. intros x Hx. apply insert_node_fst in Hx.
        destruct Hx as [->|Hx].
        -- assert (j <> i) by (intros ->; apply Hni; now left). lia.
        -- rewrite Forall_forall in Hlt. now apply Hlt.
Qed.

Lemma lookup_insert_other (i : nat) (n : KGNode) (l : list (nat * KGNode)) (j : nat) :
  j <> i -> lookup_node (insert_node i n l) j = lookup_node l j.
Proof.
  intros Hji. induction l as [|[k m] l IH]; cbn [insert_node lookup_node].
  - destruct (Nat.eqb_spec i j); [congruence|reflexivity].
  - destruct (Nat.ltb i k); cbn [lookup_node].
    + destruct (Nat.eqb_spec i j); [congruence|reflexivity].
    + now rewrite IH.
Qed.

Lemma lookup_insert_same (i : nat) (n : KGNode) (l : list (nat * KGNode)) :
  ~ In i (map fst l) -> lookup_node (insert_node i n l) i = Some n.
Proof.
  induction l as [|[k m] l IH]; intros Hni; cbn [insert_node lookup_node].
  - now rewrite Nat.eqb_refl.
  - cbn [map fst In] in Hni. destruct (Nat.ltb i k); cbn [lookup_node].
    + now rewrite Nat.eqb_refl.
    + destruct (Nat.eqb_spec k i); [tauto|]. apply IH. tauto.
Qed.

Lemma lookup_None (l : list (nat * KGNode)) (i : nat) :
  lookup_node l i = None <-> ~ In i (map fst l).
Proof.
  induction l as [|[k m] l IH]; cbn [lookup_node map fst In]; [tauto|].
  destruct (Nat.eqb_spec k i).
  - split; [discriminate|tauto].
  - rewrite IH. tauto.
Qed.

Lemma replace_fst (i : nat) (n : KGNode) (l : list (nat * KGNode)) :
  map fst (map (fun p => if Nat.eqb (fst p) i then (i, n) else p) l) = map fst l.
Proof.
  rewrite map_map. apply map_ext. intros [k m]. cbn [fst].
  destruct (Nat.eqb_spec k i); [now subst|reflexivity].
Qed.

Lemma lookup_replace (i : nat) (n : KGNode) (l : list (nat * KGNode)) (j : nat) :
  lookup_node (map (fun p => if Nat.eqb (fst p) i then (i, n) else p) l) j
  = if Nat.eqb j i
    then match lookup_node l i with Some _ => Some n | None => None end
    else lookup_node l j.
Proof.
  induction l as [|[k m] l IH]; cbn [map lookup_node fst].
  - now destruct (Nat.eqb j i).
  - destruct (Nat.eqb_spec k i) as [->|Hki]; cbn [lookup_node].
    + destruct (Nat.eqb_spec i j) as [<-|Hij].
      * now rewrite Nat.eqb_refl.
      * rewrite IH. destruct (Nat.eqb_spec j i); [congruence|reflexivity].
    + destruct (Nat.eqb_spec k j) as [->|Hkj].
      * destruct (Nat.eqb_spec j i); [congruence|reflexivity].
      * exact IH.
Qed.

(** What [rx_add_node] followed by the assignment of the id does to a
    well-formed graph. *)
Lemma add_node_spec (g : PyDiGraph) (ty : KGNodeType) (sym fname : string)
    (ln : Z) (eln dbi : option Z) :
  well_formed g ->
  exists g' i,
    add_node g ty sym fname ln eln dbi None
    = Ok (g', mkKGNode ty sym fname ln eln dbi (Some (Z.of_nat i)))
    /\ ~ In i (node_indices g)
    /\ (free_nodes g = [] -> i = List.length (node_list g))
    /\ (forall fr j, free_nodes g = j :: fr -> i = j)
    /\ (forall p, In p (node_list g')
                  <-> p = (i, mkKGNode ty sym fname ln eln dbi (Some (Z.of_nat i)))
                      \/ In p (node_list g))
    /\ (forall j, lookup_node (node_list g') j
                  = if Nat.eqb j i
                    then Some (mkKGNode ty sym fname ln eln dbi (Some (Z.of_nat i)))
                    else lookup_node (node_list g) j)
    /\ edge_list g' = edge_list g
    /\ well_formed g'.
Proof.
  intros [Hasc [Hnd [Hdis Hbound]]].
  set (node := mkKGNode ty sym fname ln eln dbi None).
  assert (Hrx : exists i fr,
             rx_add_node g node
             = (mkGraph (insert_node i node (node_list g)) fr (edge_list g), i)
             /\ ~ In i (node_indices g)
             /\ (free_nodes g = [] -> i = List.length (node_list g))
             /\ (forall fr' j, free_nodes g = j :: fr' -> i = j)
             /\ NoDup fr /\ ~ In i fr
             /\ (forall j, In j fr -> In j (free_nodes g))
             /\ (S (List.length (node_list g)) + List.length fr
                 >= List.length (node_list g) + List.length (free_nodes g))%nat
             /\ (i < S (List.length (node_list g)) + List.length fr)%nat).
  { unfold rx_add_node. destruct (free_nodes g) as [|i fr] eqn:Hfree.
    - exists (List.length (node_list g)), []. split; [reflexivity|].
      split.
      + intros Hin. specialize (Hbound _ (or_introl Hin)). cbn in Hbound. lia.
      + split; [reflexivity|]. split; [discriminate|]. split; [constructor|].
        split; [tauto|]. split; [tauto|]. cbn. lia.
    - exists i, fr. inversion Hnd; subst. split; [reflexivity|]. split.
      + intros Hin. apply (Hdis i Hin). now left.
      + split; [discriminate|]. split; [intros ? ? H; now inversion H|].
        split; [assumption|]. split; [assumption|].
        split; [intros j Hj; now right|]. cbn [List.length].
        split; [lia|].
        assert (i < List.length (node_list g) + S (List.length fr))%nat
          by (apply Hbound; right; now left).
        lia. }
  destruct Hrx as [i [fr [Hrx [Hfresh [Hnil [Hcons [Hndfr [Hifr [Hsub [Hlen Hi]]]]]]]]]].
  exists (mkGraph (map (fun p => if Nat.eqb (fst p) i
                                 then (i, mkKGNode ty sym fname ln eln dbi
                                                   (Some (Z.of_nat i)))
                                 else p)
                       (insert_node i node (node_list g)))
                  fr (edge_list g)), i.
  unfold add_node. fold node. rewrite Hrx. unfold set_node. cbn [node_list].
  rewrite (lookup_insert_same i node _ Hfresh). cbn [bind free_nodes edge_list].
  split; [reflexivity|]. split; [exact Hfresh|]. split; [exact Hnil|].
  split; [exact Hcons|].
  assert (Hlook : forall j,
             lookup_node
               (map (fun p => if Nat.eqb (fst p) i
                              then (i, mkKGNode ty sym fname ln eln dbi
                                                (Some (Z.of_nat i)))
                              else p)
                    (insert_node i node (node_list g))) j
             = if Nat.eqb j i
               then Some (mkKGNode ty sym fname ln eln dbi (Some (Z.of_nat i)))
               else lookup_node (node_list g) j).
  { intros j. rewrite lookup_replace, (lookup_insert_same i node _ Hfresh).
    destruct (Nat.eqb_spec j i); [reflexivity|]. now apply lookup_insert_other. }
  split; [|split; [exact Hlook|split; [reflexivity|]]].
  - intros [k m]. rewrite in_map_iff. split.
    + intros [[k' m'] [Heq Hin]]. cbn [fst] in Heq.
      apply insert_node_In in Hin.
      destruct (Nat.eqb_spec k' i) as [->|Hk].
      * left. now symmetry.
      * right. inversion Heq; subst. destruct Hin as [Hin|Hin]; [congruence|exact Hin].
    + intros [Heq|Hin].
      * exists (i, node). rewrite Heq. cbn [fst]. rewrite Nat.eqb_refl.
        split; [reflexivity|]. apply insert_node_In. now left.
      * exists (k, m). cbn [fst]. destruct (Nat.eqb_spec k i) as [->|Hk].
        -- exfalso. apply Hfresh. unfold node_indices.
           change i with (fst (i, m)). now apply in_map.
        -- split; [reflexivity|]. apply insert_node_In. now right.
  - unfold well_formed, ascending, node_indices. cbn [node_list free_nodes].
    rewrite replace_fst, length_map, insert_node_length.
    split; [now apply insert_node_sorted|]. split; [exact Hndfr|]. split.
    + intros j Hj Hjfr. apply insert_node_fst in Hj. destruct Hj as [->|Hj].
      * contradiction.
      * apply (Hdis j Hj). now apply Hsub.
    + intros j [Hj|Hj].
      * apply insert_node_fst in Hj. destruct Hj as [->|Hj]; [exact Hi|].
        specialize (Hbound j (or_introl Hj)). lia.
      * specialize (Hbound j (or_intror (Hsub j Hj))). lia.
Qed.

Lemma node_indices_lookup (g : PyDiGraph) (i : nat) :
  In i (node_indices g) <-> lookup_node (node_list g) i <> None.
Proof.
  unfold node_indices. pose proof (lookup_None (node_list g) i) as H.
  destruct (lookup_node (node_list g) i); split; intros; try congruence.
  - destruct (in_dec Nat.eq_dec i (map fst (node_list g))) as [Hin|Hin]; [exact Hin|].
    apply H in Hin. discriminate.
  - exfalso. now apply (proj1 H).
Qed.

Lemma well_formed_sample : well_formed GraphDefs.sample_graph.
Proof.
  unfold well_formed, ascending, node_indices. cbn. split.
  - repeat constructor.
  - split; [repeat constructor; cbn; tauto|]. split; intros i H; lia.
Qed.

(** X11.  On a well-formed graph [add_node] succeeds and returns the node
    with the fields it was given and a fresh id; the node is found under
    that id, by [get_node_data] and by [get_nodes]; every other index
    holds what it held before; the edges are untouched; and the graph
    stays well formed, keeps every node under its own id, and keeps its
    edges between existing nodes. *)
Theorem add_node_lookup (g : PyDiGraph) (ty : KGNodeType) (sym fname : string)
    (ln : Z) (eln dbi : option Z) :
  well_formed g ->
  exists g' n i,
    add_node g ty sym fname ln eln dbi None = Ok (g', n)
    /\ n = mkKGNode ty sym fname ln eln dbi (Some (Z.of_nat i))
    /\ ~ In i (node_indices g)
    /\ get_node_data g' i = Ok n
    /\ get_nodes g' [id n] = Ok [n]
    /\ (forall j, j <> i -> get_node_data g' j = get_node_data g j)
    /\ edge_list g' = edge_list g
    /\ well_formed g'
    /\ (indexed g -> indexed g')
    /\ (closed g -> closed g').
Proof.
  intros Hwf.
  destruct (add_node_spec g ty sym fname ln eln dbi Hwf)
    as [g' [i [Hadd [Hfresh [_ [_ [Hin [Hlook [Hedges Hwf']]]]]]]]].
  exists g', (mkKGNode ty sym fname ln eln dbi (Some (Z.of_nat i))), i.
  assert (Hget : get_node_data g' i
                 = Ok (mkKGNode ty sym fname ln eln dbi (Some (Z.of_nat i)))).
  { unfold get_node_data. now rewrite Hlook, Nat.eqb_refl. }
  split; [exact Hadd|]. split; [reflexivity|]. split; [exact Hfresh|].
  split; [exact Hget|]. split.
  { unfold get_nodes. cbn [mapM id get_node_by_key].
    replace (Z.of_nat i <? 0)%Z with false by (symmetry; apply Z.ltb_ge; lia).
    rewrite Nat2Z.id, Hget. reflexivity. }
  split.
  { intros j Hj. unfold get_node_data. rewrite Hlook.
    destruct (Nat.eqb_spec j i); [congruence|reflexivity]. }
  split; [exact Hedges|]. split; [exact Hwf'|]. split.
  - intros Hidx k m Hkm. apply Hin in Hkm. destruct Hkm as [Heq|Hkm].
    + inversion Heq; subst. reflexivity.
    + exact (Hidx k m Hkm).
  - intros Hcl e He. rewrite Hedges in He. destruct (Hcl e He) as [Hs Ht].
    assert (Hsub : forall j, In j (node_indices g) -> In j (node_indices g')).
    { intros j Hj. apply node_indices_lookup. rewrite Hlook.
      destruct (Nat.eqb j i); [discriminate|]. now apply node_indices_lookup. }
    split; now apply Hsub.
Qed.

Lemma add_node_lookup_witness :
  exists g' n i,
    add_node GraphDefs.sample_graph FUNCTION "a.bar" "a.py" 3 (Some 5%Z) None None
    = Ok (g', n)
    /\ n = mkKGNode FUNCTION "a.bar" "a.py" 3 (Some 5%Z) None (Some (Z.of_nat i))
    /\ ~ In i (node_indices GraphDefs.sample_graph)
    /\ get_node_data g' i = Ok n
    /\ get_nodes g' [id n] = Ok [n]
    /\ (forall j, j <> i -> get_node_data g' j = get_node_data GraphDefs.sample_graph j)
    /\ edge_list g' = edge_list GraphDefs.sample_graph
    /\ well_formed g'
    /\ (indexed GraphDefs.sample_graph -> indexed g')
    /\ (closed GraphDefs.sample_graph -> closed g').
Proof.
  exact (add_node_lookup GraphDefs.sample_graph FUNCTION "a.bar" "a.py" 3 (Some 5%Z)
           None well_formed_sample).
Defined.

Lemma lookup_filter (l : list (nat * KGNode)) (i j : nat) :
  lookup_node (filter (fun p => negb (Nat.eqb (fst p) i)) l) j
  = if Nat.eqb j i then None else lookup_node l j.
Proof.
  induction l as [|[k m] l IH]; cbn [filter lookup_node fst].
  - now destruct (Nat.eqb j i).
  - destruct (Nat.eqb_spec k i) as [->|Hki]; cbn [negb lookup_node].
    + rewrite IH. destruct (Nat.eqb_spec j i) as [Hji|Hji].
      * reflexivity.
      * destruct (Nat.eqb_spec i j); [congruence|reflexivity].
    + destruct (Nat.eqb_spec k j) as [Hkj|Hkj].
      * destruct (Nat.eqb_spec j i); [congruence|reflexivity].
      * exact IH.
Qed.

Lemma filter_fst (l : list (nat * KGNode)) (i : nat) :
  map fst (filter (fun p => negb (Nat.eqb (fst p) i)) l)
  = filter (fun k => negb (Nat.eqb k i)) (map fst l).
Proof.
  induction l as [|[k m] l IH]; cbn [filter map fst]; [reflexivity|].
  destruct (negb (Nat.eqb k i)); cbn [map fst]; now rewrite IH.
Qed.

Lemma filter_one_length (l : list nat) (i : nat) :
  NoDup l -> In i l ->
  S (List.length (filter (fun k => negb (Nat.eqb k i)) l)) = List.length l.
Proof.
  induction l as [|k l IH]; intros Hnd Hin; [contradiction|].
  inversion Hnd as [|? ? Hk Hnd']; subst. cbn [filter List.length].
  destruct (Nat.eqb_spec k i) as [->|Hki]; cbn [negb List.length].
  - f_equal. f_equal. apply forallb_filter_id. apply forallb_forall.
    intros x Hx. apply negb_true_iff. apply Nat.eqb_neq. intros ->. contradiction.
  - f_equal. apply IH; [exact Hnd'|]. destruct Hin; [congruence|assumption].
Qed.

Lemma remove_node_spec (g : PyDiGraph) (i : nat) :
  well_formed g -> In i (node_indices g) ->
  get_node_data (remove_node g i) i = Raise IndexError
  /\ (forall j, j <> i ->
                get_node_data (remove_node g i) j = get_node_data g j)
  /\ (forall e, In e (edge_list (remove_node g i))
                <-> In e (edge_list g) /\ source e <> i /\ target e <> i)
  /\ well_formed (remove_node g i)
  /\ (closed g -> closed (remove_node g i))
  /\ (forall ty sym fname ln eln dbi,
        exists g',
          add_node (remove_node g i) ty sym fname ln eln dbi None
          = Ok (g', mkKGNode ty sym fname ln eln dbi (Some (Z.of_nat i)))).
Proof.
  intros Hwf Hin. pose proof Hwf as [Hasc [Hnd [Hdis Hbound]]].
  assert (Hrm : remove_node g i
                = mkGraph (filter (fun p => negb (Nat.eqb (fst p) i)) (node_list g))
                          (i :: free_nodes g)
                          (filter (fun e => negb (Nat.eqb (source e) i)
                                            && negb (Nat.eqb (target e) i))
                                  (edge_list g))).
  { unfold remove_node. apply node_indices_lookup in Hin.
    destruct (lookup_node (node_list g) i); [reflexivity|congruence]. }
  assert (Hidx : forall j, In j (node_indices (remove_node g i))
                           <-> In j (node_indices g) /\ j <> i).
  { intros j. rewrite Hrm. unfold node_indices. cbn [node_list].
    rewrite filter_fst, filter_In, negb_true_iff, Nat.eqb_neq. tauto. }
  assert (Hwf' : well_formed (remove_node g i)).
  { unfold well_formed. split; [|split; [|split]].
    - unfold ascending, node_indices. rewrite Hrm. cbn [node_list].
      rewrite filter_fst. now apply SortFacts.StronglySorted_filter.
    - rewrite Hrm. cbn [free_nodes]. constructor; [now apply Hdis|exact Hnd].
    - intros j Hj. apply Hidx in Hj. destruct Hj as [Hj Hji]. rewrite Hrm.
      cbn [free_nodes In]. intros [H|H]; [congruence|]. now apply (Hdis j).
    - assert (Hlen : S (List.length (node_list (remove_node g i)))
                     = List.length (node_list g)).
      { rewrite Hrm. cbn [node_list].
        rewrite <- (length_map fst), filter_fst, <- (length_map fst (node_list g)).
        apply filter_one_length; [|exact Hin].
        now apply SearchFacts.StronglySorted_lt_NoDup. }
      intros j Hj.
      assert (Hb : (j < List.length (node_list g) + List.length (free_nodes g))%nat).
      { destruct Hj as [Hj|Hj].
        - apply Hidx in Hj. apply Hbound. tauto.
        - rewrite Hrm in Hj. cbn [free_nodes In] in Hj.
          destruct Hj as [<-|Hj]; apply Hbound; tauto. }
      rewrite Hrm in *. cbn [free_nodes List.length node_list] in *. lia. }
  split.
  { unfold get_node_data. rewrite Hrm. cbn [node_list].
    now rewrite lookup_filter, Nat.eqb_refl. }
  split.
  { intros j Hj. unfold get_node_data. rewrite Hrm. cbn [node_list].
    rewrite lookup_filter. destruct (Nat.eqb_spec j i); [congruence|reflexivity]. }
  assert (Hedges : forall e, In e (edge_list (remove_node g i))
                             <-> In e (edge_list g) /\ source e <> i /\ target e <> i).
  { intros e. rewrite Hrm. cbn [edge_list].
    rewrite filter_In, andb_true_iff, !negb_true_iff, !Nat.eqb_neq. tauto. }
  split; [exact Hedges|]. split; [exact Hwf'|]. split.
  - intros Hcl e He. apply Hedges in He. destruct He as [He [Hs Ht]].
    destruct (Hcl e He) as [Hs' Ht']. split; apply Hidx; tauto.
  - intros ty sym fname ln eln dbi.
    destruct (add_node_spec (remove_node g i) ty sym fname ln eln dbi Hwf')
      as [g' [k [Hadd [_ [_ [Hcons _]]]]]].
    assert (Hk : k = i).
    { apply (Hcons (free_nodes g) i). rewrite Hrm. reflexivity. }
    subst k. exists g'. exact Hadd.
Qed.

(** X12.  Removing a node that is there: its index no longer answers,
    every other index holds what it held, exactly the edges that touched
    the node are gone, the graph stays well formed and closed, and the
    next [add_node] hands the freed index out again as the id of the new
    node. *)
Theorem remove_node_frees (g : PyDiGraph) (i : nat) :
  well_formed g -> In i (node_indices g) ->
  get_node_data (remove_node g i) i = Raise IndexError
  /\ (forall j, j <> i ->
                get_node_data (remove_node g i) j = get_node_data g j)
  /\ (forall e, In e (edge_list (remove_node g i))
                <-> In e (edge_list g) /\ source e <> i /\ target e <> i)
  /\ well_formed (remove_node g i)
  /\ (closed g -> closed (remove_node g i))
  /\ (forall ty sym fname ln eln dbi,
        exists g',
          add_node (remove_node g i) ty sym fname ln eln dbi None
          = Ok (g', mkKGNode ty sym fname ln eln dbi (Some (Z.of_nat i)))).
Proof. exact (remove_node_spec g i). Qed.

Lemma remove_node_frees_witness :
  get_node_data (remove_node GraphDefs.sample_graph 2) 2 = Raise IndexError
  /\ well_formed (remove_node GraphDefs.sample_graph 2)
  /\ exists g',
       add_node (remove_node GraphDefs.sample_graph 2) FILE "b" "b.py" 0 None None None
       = Ok (g', mkKGNode FILE "b" "b.py" 0 None None (Some 2%Z)).
Proof.
  assert (Hin : In 2%nat (node_indices GraphDefs.sample_graph)) by (cbn; tauto).
  destruct (remove_node_frees GraphDefs.sample_graph 2 well_formed_sample Hin)
    as [H1 [_ [_ [H4 [_ H6]]]]].
  split; [exact H1|]. split; [exact H4|]. exact (H6 FILE "b" "b.py" 0%Z None None).
Defined.

(** The first loop of [bulk_insert] on a well-formed graph. *)
Lemma add_nodes_spec (ns : list KGNode) :
  forall g,
    well_formed g ->
    exists g' ns',
      GraphRag.add_nodes g ns = Ok (g', ns')
      /\ Forall2 stored_as ns ns'
      /\ (forall n', In n' ns' ->
            exists i, id n' = Some (Z.of_nat i) /\ ~ In i (node_indices g)
                      /\ lookup_node (node_list g') i = Some n')
      /\ NoDup (map id ns')
      /\ (forall j, In j (node_indices g) ->
                    lookup_node (node_list g') j = lookup_node (node_list g) j)
      /\ (forall p, In p (node_list g') ->
                    In p (node_list g) \/ id (snd p) = Some (Z.of_nat (fst p)))
      /\ edge_list g' = edge_list g
      /\ well_formed g'.
Proof.
  induction ns as [|n ns IH]; intros g Hwf; cbn [GraphRag.add_nodes].
  - exists g, []. split; [reflexivity|]. split; [constructor|].
    split; [intros n' []|]. split; [constructor|]. auto.
  - destruct (add_node_spec g (type n) (symbol n) (file_name n) (line n) (end_line n)
                None Hwf)
      as [g1 [i [Hadd [Hfresh [_ [_ [Hin [Hlook [Hedges Hwf1]]]]]]]]].
    rewrite Hadd. cbn [bind fst snd].
    destruct (IH g1 Hwf1)
      as [g' [ns' [Hrec [HF [Hids [Hnd [Hkeep [Hold [Hedges' Hwf']]]]]]]]].
    rewrite Hrec. cbn [bind fst snd].
    set (n1 := mkKGNode (type n) (symbol n) (file_name n) (line n) (end_line n) None
                        (Some (Z.of_nat i))) in *.
    exists g', (n1 :: ns'). split; [reflexivity|].
    assert (Hi1 : In i (node_indices g1)).
    { apply node_indices_lookup. rewrite Hlook, Nat.eqb_refl. discriminate. }
    assert (Hsub : forall j, In j (node_indices g) -> In j (node_indices g1)).
    { intros j Hj. apply node_indices_lookup. rewrite Hlook.
      destruct (Nat.eqb j i); [discriminate|]. now apply node_indices_lookup. }
    split; [constructor; [unfold stored_as; cbn; repeat split|exact HF]|].
    split.
    { intros n' [<-|Hn'].
      - exists i. split; [reflexivity|]. split; [exact Hfresh|].
        now rewrite (Hkeep i Hi1), Hlook, Nat.eqb_refl.
      - destruct (Hids n' Hn') as [k [Hk [Hnk Hlk]]]. exists k.
        split; [exact Hk|]. split; [|exact Hlk]. intros H. apply Hnk. now apply Hsub. }
    split.
    { cbn [map]. constructor; [|exact Hnd]. intros Hin'.
      apply in_map_iff in Hin'. destruct Hin' as [n' [Heq Hn']].
      destruct (Hids n' Hn') as [k [Hk [Hnk _]]]. rewrite Hk in Heq.
      cbn [id n1] in Heq. injection Heq as Heq. apply Nat2Z.inj in Heq. subst k.
      contradiction. }
    split.
    { intros j Hj. rewrite (Hkeep j (Hsub j Hj)), Hlook.
      destruct (Nat.eqb_spec j i); [subst; contradiction|reflexivity]. }
    split.
    { intros p Hp. destruct (Hold p Hp) as [H|H]; [|now right].
      apply Hin in H. destruct H as [->|H]; [now right|now left]. }
    split; [congruence|exact Hwf'].
Qed.

Lemma get_nodes_ids (g : PyDiGraph) (ns : list KGNode) :
  (forall n, In n ns -> get_node_by_key g (id n) = Ok n) ->
  get_nodes g (map id ns) = Ok ns.
Proof.
  unfold get_nodes. induction ns as [|n ns IH]; intros H; cbn [map mapM]; [reflexivity|].
  rewrite (H n (or_introl eq_refl)). cbn [bind].
  rewrite IH; [reflexivity|]. intros m Hm. apply H. now right.
Qed.

Lemma get_node_by_key_nat (g : PyDiGraph) (i : nat) :
  get_node_by_key g (Some (Z.of_nat i)) = get_node_data g i.
Proof.
  unfold get_node_by_key.
  replace (Z.of_nat i <? 0)%Z with false by (symmetry; apply Z.ltb_ge; lia).
  now rewrite Nat2Z.id.
Qed.

(** What [bulk_insert] returns, in parts. *)
Lemma bulk_insert_parts (eng : GraphRag.Engine) (self : GraphRag.t)
    (ns : list KGNode) (cs : list string) (tbl : HybridSearch.Table)
    (g' : PyDiGraph) (ns' : list KGNode) :
  GraphRag.add_nodes (GraphRag._graph self) ns = Ok (g', ns') ->
  GraphRag.bulk_insert eng self ns cs tbl
  = (GraphRag.with_graph self g', ns',
     fst (fst (HybridSearch.bulk_action (GraphRag.env eng) (GraphRag.graphid self)
                 (map (fun p => HybridSearch.create_action (file_name (fst p)) (snd p)
                                                           (id (fst p)))
                      (combine ns' cs)) tbl)),
     snd (fst (HybridSearch.bulk_action (GraphRag.env eng) (GraphRag.graphid self)
                 (map (fun p => HybridSearch.create_action (file_name (fst p)) (snd p)
                                                           (id (fst p)))
                      (combine ns' cs)) tbl)),
     snd (HybridSearch.bulk_action (GraphRag.env eng) (GraphRag.graphid self)
            (map (fun p => HybridSearch.create_action (file_name (fst p)) (snd p)
                                                      (id (fst p)))
                 (combine ns' cs)) tbl)).
Proof.
  intros H. unfold GraphRag.bulk_insert. rewrite H.
  destruct (HybridSearch.bulk_action _ _ _ _) as [[tbl' progress] e]. reflexivity.
Qed.

(** X13.  On a well-formed graph, [bulk_insert] stores every node it is
    given, whatever happens to the index afterwards: the nodes come back
    in order with the same type, symbol, file and lines, without database
    id, and with pairwise distinct ids that were not in use; [get_nodes]
    on those ids returns exactly these nodes; the nodes that were there
    stay where they were; the edges are untouched; and the graph stays
    well formed. *)
Theorem bulk_insert_nodes (eng : GraphRag.Engine) (self : GraphRag.t)
    (ns : list KGNode) (cs : list string) (tbl : HybridSearch.Table) :
  well_formed (GraphRag._graph self) ->
  exists g' ns' tbl' progress e,
    GraphRag.bulk_insert eng self ns cs tbl
    = (GraphRag.with_graph self g', ns', tbl', progress, e)
    /\ Forall2 stored_as ns ns'
    /\ NoDup (map id ns')
    /\ get_nodes g' (map id ns') = Ok ns'
    /\ (forall n' i, In n' ns' -> id n' = Some (Z.of_nat i) ->
                     ~ In i (node_indices (GraphRag._graph self)))
    /\ (forall j, In j (node_indices (GraphRag._graph self)) ->
                  get_node_data g' j = get_node_data (GraphRag._graph self) j)
    /\ edge_list g' = edge_list (GraphRag._graph self)
    /\ well_formed g'
    /\ (indexed (GraphRag._graph self) -> indexed g').
Proof.
  intros Hwf.
  destruct (add_nodes_spec ns (GraphRag._graph self) Hwf)
    as [g' [ns' [Hadd [HF [Hids [Hnd [Hkeep [Hold [Hedges Hwf']]]]]]]]].
  rewrite (bulk_insert_parts eng self ns cs tbl g' ns' Hadd).
  do 5 eexists. split; [reflexivity|]. split; [exact HF|]. split; [exact Hnd|].
  split.
  { apply get_nodes_ids. intros n Hn. destruct (Hids n Hn) as [i [Hi [_ Hl]]].
    rewrite Hi, get_node_by_key_nat. unfold get_node_data. now rewrite Hl. }
  split.
  { intros n' i Hn Hi. destruct (Hids n' Hn) as [k [Hk [Hnk _]]].
    rewrite Hi in Hk. injection Hk as Hk. apply Nat2Z.inj in Hk. now subst k. }
  split.
  { intros j Hj. unfold get_node_data. now rewrite (Hkeep j Hj). }
  split; [exact Hedges|]. split; [exact Hwf'|].
  intros Hidx k m Hkm. destruct (Hold (k, m) Hkm) as [H|H]; [|exact H].
  exact (Hidx k m H).
Qed.

Lemma bulk_insert_nodes_witness :
  exists g' ns' tbl' progress e,
    GraphRag.bulk_insert SearchDefs.silent_engine
      (GraphRag.make 7 GraphDefs.sample_graph) [SearchDefs.seed] ["x"]
      SearchDefs.empty_table
    = (GraphRag.with_graph (GraphRag.make 7 GraphDefs.sample_graph) g', ns', tbl',
       progress, e)
    /\ Forall2 stored_as [SearchDefs.seed] ns'
    /\ NoDup (map id ns')
    /\ get_nodes g' (map id ns') = Ok ns'.
Proof.
  destruct (bulk_insert_nodes SearchDefs.silent_engine
              (GraphRag.make 7 GraphDefs.sample_graph) [SearchDefs.seed] ["x"]
              SearchDefs.empty_table well_formed_sample)
    as [g' [ns' [tbl' [progress [e [H1 [H2 [H3 [H4 _]]]]]]]]].
  exists g', ns', tbl', progress, e. auto.
Defined.

(** X14.  The rows that [bulk_insert] writes into the index of a
    well-formed graph refer to the nodes it stored: the k-th new row
    carries the id and the file of the k-th returned node, the k-th
    content and the graph id of the engine, and [get_nodes] finds that
    very node under the row's node id.  When the call ends normally there
    is one row for every node that has a content. *)
Theorem bulk_insert_rows (eng : GraphRag.Engine) (self : GraphRag.t)
    (ns : list KGNode) (cs : list string) (tbl : HybridSearch.Table) :
  well_formed (GraphRag._graph self) ->
  exists self' ns' tbl' progress e new,
    GraphRag.bulk_insert eng self ns cs tbl = (self', ns', tbl', progress, e)
    /\ HybridSearch.rows tbl' = HybridSearch.rows tbl ++ new
    /\ Forall2 (fun p r =>
                  HybridSearch.r_nodeid r = id (fst p)
                  /\ HybridSearch.r_file r = Some (file_name (fst p))
                  /\ HybridSearch.r_text r = Some (snd p)
                  /\ HybridSearch.r_graphid r = Some (GraphRag.graphid self)
                  /\ get_nodes (GraphRag._graph self') [HybridSearch.r_nodeid r]
                     = Ok [fst p])
               (firstn (List.length new) (combine ns' cs)) new
    /\ (e = HybridSearch.Finished ->
        List.length new = Nat.min (List.length ns) (List.length cs)).
Proof.
  intros Hwf.
  destruct (add_nodes_spec ns (GraphRag._graph self) Hwf)
    as [g' [ns' [Hadd [HF [Hids _]]]]].
  rewrite (bulk_insert_parts eng self ns cs tbl g' ns' Hadd).
  set (actions := map (fun p => HybridSearch.create_action (file_name (fst p)) (snd p)
                                                           (id (fst p)))
                      (combine ns' cs)).
  assert (Hall : Forall (fun a => HybridSearch.a_type a = HybridSearch.CREATE) actions).
  { apply Forall_forall. intros a Ha. apply in_map_iff in Ha.
    destruct Ha as [p [<- _]]. reflexivity. }
  destruct (IndexProps.bulk_action_appends (GraphRag.env eng) (GraphRag.graphid self)
              actions tbl Hall) as [new [Hrows [_ [Hst [_ Hfin]]]]].
  do 5 eexists. exists new. split; [reflexivity|]. split; [exact Hrows|].
  split.
  - unfold actions in Hst. rewrite firstn_map in Hst.
    apply Forall2_flip in Hst. apply Forall2_flip.
    remember (firstn (List.length new) (combine ns' cs)) as ps eqn:Hps.
    assert (Hsub : forall p, In p ps -> In (fst p) ns').
    { intros [n c] Hp. rewrite Hps in Hp. apply SortFacts.firstn_incl in Hp.
      now apply in_combine_l in Hp. }
    clear Hps. revert Hst Hsub. generalize new. 
    induction ps as [|p ps IH]; intros new0 Hst Hsub; cbn [map] in Hst;
      inversion Hst; subst; constructor.
    + match goal with H : IndexDefs.stores _ _ _ |- _ =>
        destruct H as [G1 [G2 [G3 G4]]] end.
      cbn in G1, G2, G3. repeat split; try assumption.
      cbn [GraphRag.with_graph GraphRag._graph]. rewrite G3.
      destruct (Hids (fst p) (Hsub p (or_introl eq_refl))) as [i [Hi [_ Hl]]].
      unfold get_nodes. cbn [mapM]. rewrite Hi, get_node_by_key_nat.
      unfold get_node_data. rewrite Hl. reflexivity.
    + apply IH; [assumption|]. intros q Hq. apply Hsub. now right.
  - intros He. rewrite (Hfin He). unfold actions.
    rewrite length_map, length_combine, <- (Forall2_length HF). reflexivity.
Qed.

Lemma bulk_insert_rows_witness :
  exists self' ns' tbl' progress e new,
    GraphRag.bulk_insert SearchDefs.silent_engine
      (GraphRag.make 7 GraphDefs.sample_graph) [SearchDefs.seed] ["x"]
      SearchDefs.empty_table
    = (self', ns', tbl', progress, e)
    /\ HybridSearch.rows tbl' = HybridSearch.rows SearchDefs.empty_table ++ new
    /\ (e = HybridSearch.Finished -> List.length new = 1%nat).
Proof.
  destruct (bulk_insert_rows SearchDefs.silent_engine
              (GraphRag.make 7 GraphDefs.sample_graph) [SearchDefs.seed] ["x"]
              SearchDefs.empty_table well_formed_sample)
    as [self' [ns' [tbl' [progress [e [new [H1 [H2 [_ H4]]]]]]]]].
  exists self', ns', tbl', progress, e, new. auto.
Defined.

End StoreProps.

(** ** graph_rag/__init__.py: invalidate and delete *)

Module InvalidateProps.
Import Graph StoreDefs.

Lemma remove_node_absent (g : PyDiGraph) (i : nat) :
  ~ In i (node_indices g) -> remove_node g i = g.
Proof.
  intros H. unfold remove_node.
  destruct (lookup_node (node_list g) i) eqn:E; [|reflexivity].
  exfalso. apply H. apply StoreProps.node_indices_lookup. congruence.
Qed.

Lemma remove_node_keeps (g : PyDiGraph) (i : nat) :
  well_formed g ->
  well_formed (remove_node g i) /\ (closed g -> closed (remove_node g i)).
Proof.
  intros Hwf. destruct (in_dec Nat.eq_dec i (node_indices g)) as [Hin|Hin].
  - destruct (StoreProps.remove_node_spec g i Hwf Hin) as [_ [_ [_ [H1 [H2 _]]]]].
    auto.
  - rewrite (remove_node_absent g i Hin). auto.
Qed.

Lemma remove_node_ids_total (ids : list (option Z)) :
  Forall (fun k => exists i, k = Some (Z.of_nat i)) ids ->
  forall g, well_formed g ->
    exists g', GraphRag.remove_node_ids g ids = Ok g'
               /\ well_formed g' /\ (closed g -> closed g').
Proof.
  induction 1 as [|k ids [i ->] _ IH]; intros g Hwf; cbn [GraphRag.remove_node_ids].
  - exists g. auto.
  - unfold GraphRag.remove_node_id.
    replace (Z.of_nat i <? 0)%Z with false by (symmetry; apply Z.ltb_ge; lia).
    cbn [bind]. rewrite Nat2Z.id.
    destruct (remove_node_keeps g i Hwf) as [Hwf1 Hcl1].
    destruct (IH _ Hwf1) as [g' [Hrm [Hwf' Hcl']]].
    exists g'. auto.
Qed.

Lemma NoDup_fst_inj (l : list (nat * KGNode)) (k : nat) (a b : KGNode) :
  NoDup (map fst l) -> In (k, a) l -> In (k, b) l -> a = b.
Proof.
  induction l as [|[j m] l IH]; intros Hnd Ha Hb; [contradiction|].
  cbn [map fst] in Hnd. inversion Hnd as [|? ? Hj Hnd']; subst.
  destruct Ha as [Ha|Ha], Hb as [Hb|Hb].
  - congruence.
  - inversion Ha; subst. exfalso. apply Hj.
    change k with (fst (k, b)). now apply in_map.
  - inversion Hb; subst. exfalso. apply Hj.
    change k with (fst (k, a)). now apply in_map.
  - now apply IH.
Qed.

Lemma ids_by_file_In (g0 : PyDiGraph) (f : string) (p : nat * KGNode) :
  well_formed g0 -> indexed g0 -> In p (node_list g0) ->
  (In (Some (Z.of_nat (fst p))) (GraphRag.ids_by_file (nodes g0) f)
   <-> file_name (snd p) = f).
Proof.
  intros [Hasc _] Hidx Hp. unfold GraphRag.ids_by_file, nodes.
  rewrite in_map_iff. split.
  - intros [n [Hid Hn]]. apply filter_In in Hn. destruct Hn as [Hn Hf].
    apply String.eqb_eq in Hf. apply in_map_iff in Hn.
    destruct Hn as [[k m] [Hm Hq]]. cbn [snd] in Hm. subst m.
    rewrite (Hidx k n Hq) in Hid. injection Hid as Hid. apply Nat2Z.inj in Hid.
    destruct p as [j m]. cbn [fst snd] in *. subst k.
    assert (n = m); [|congruence].
    apply (NoDup_fst_inj (node_list g0) j); try assumption.
    now apply SearchFacts.StronglySorted_lt_NoDup.
  - intros Hf. destruct p as [j m]. cbn [fst snd] in *. exists m.
    split; [exact (Hidx j m Hp)|]. apply filter_In. split.
    + change m with (snd (j, m)). now apply in_map.
    + now apply String.eqb_eq.
Qed.

Lemma ids_by_file_nat (g0 : PyDiGraph) (f : string) :
  indexed g0 ->
  Forall (fun k => exists i, k = Some (Z.of_nat i))
         (GraphRag.ids_by_file (nodes g0) f).
Proof.
  intros Hidx. apply Forall_forall. intros k Hk. unfold GraphRag.ids_by_file in Hk.
  apply in_map_iff in Hk. destruct Hk as [n [<- Hn]]. apply filter_In in Hn.
  destruct Hn as [Hn _]. unfold nodes in Hn. apply in_map_iff in Hn.
  destruct Hn as [[j m] [Hm Hq]]. cbn [snd] in Hm. subst m.
  exists j. exact (Hidx j n Hq).
Qed.

Lemma invalidate_loop_spec (eng : GraphRag.Engine) (gid : string) (g0 : PyDiGraph)
    (fs : list string) :
  well_formed g0 -> indexed g0 ->
  forall g tbl,
    well_formed g ->
    (forall p, In p (node_list g) -> In p (node_list g0)) ->
    exists g',
      GraphRag.invalidate_loop eng gid (nodes g0) fs g tbl = Ok (g', tbl)
      /\ (forall p, In p (node_list g')
                    <-> In p (node_list g) /\ ~ In (file_name (snd p)) fs)
      /\ well_formed g'
      /\ (closed g -> closed g').
Proof.
  intros Hwf0 Hidx. induction fs as [|f fs IH]; intros g tbl Hwf Hsub;
    cbn [GraphRag.invalidate_loop].
  - exists g. split; [reflexivity|]. split; [cbn; tauto|auto].
  - destruct (remove_node_ids_total _ (ids_by_file_nat g0 f Hidx) g Hwf)
      as [g1 [Hrm [Hwf1 Hcl1]]].
    rewrite Hrm. cbn [bind].
    rewrite InvalidateFacts.bulk_action_deletes_nothing.
    cbn [GraphRag.ending_result bind].
    pose proof (InvalidateFacts.remove_node_ids_list _ _ _ Hrm) as Hg1.
    destruct (IH g1 tbl Hwf1) as [g' [Hloop [Hnodes [Hwf' Hcl']]]].
    { intros p Hp. apply Hsub. now apply Hg1. }
    exists g'. split; [exact Hloop|]. split; [|auto].
    intros p. rewrite Hnodes, Hg1. cbn [In]. split.
    + intros [[Hp Hni] Hfs]. split; [exact Hp|]. intros [Hf|Hf]; [|tauto].
      apply Hni. apply (ids_by_file_In g0 f p Hwf0 Hidx (Hsub p Hp)). now symmetry.
    + intros [Hp Hni]. split; [split; [exact Hp|]|tauto].
      intros Hid. apply Hni. left. symmetry.
      now apply (ids_by_file_In g0 f p Hwf0 Hidx (Hsub p Hp)).
Qed.

(** X15.  On a well-formed graph whose nodes carry their own index as
    id, [invalidate] always succeeds; afterwards the graph holds exactly
    the nodes whose file was not named, each under its old index; it is
    still well formed, and closed if it was; and the search index is
    what it was before the call. *)
Theorem invalidate_graph (eng : GraphRag.Engine) (self : GraphRag.t)
    (file_names : list string) (tbl : HybridSearch.Table) :
  well_formed (GraphRag._graph self) -> indexed (GraphRag._graph self) ->
  exists g',
    GraphRag.invalidate eng self file_names tbl
    = Ok (GraphRag.with_graph self g', tbl)
    /\ (forall p, In p (node_list g')
                  <-> In p (node_list (GraphRag._graph self))
                      /\ ~ In (file_name (snd p)) file_names)
    /\ well_formed g'
    /\ indexed g'
    /\ (closed (GraphRag._graph self) -> closed g').
Proof.
  intros Hwf Hidx.
  destruct (invalidate_loop_spec eng (GraphRag.graphid self) (GraphRag._graph self)
              file_names Hwf Hidx (GraphRag._graph self) tbl Hwf (fun p H => H))
    as [g' [Hloop [Hnodes [Hwf' Hcl]]]].
  exists g'. unfold GraphRag.invalidate. rewrite Hloop. cbn [bind fst snd].
  split; [reflexivity|]. split; [exact Hnodes|]. split; [exact Hwf'|].
  split; [|exact Hcl].
  intros k m Hkm. apply Hnodes in Hkm. exact (Hidx k m (proj1 Hkm)).
Qed.

Lemma invalidate_graph_witness :
  exists g',
    GraphRag.invalidate SearchDefs.silent_engine
      (GraphRag.make 7 SearchDefs.two_node_graph) ["a.py"] SearchDefs.two_row_table
    = Ok (GraphRag.with_graph (GraphRag.make 7 SearchDefs.two_node_graph) g',
          SearchDefs.two_row_table)
    /\ (forall p, In p (node_list g')
                  <-> In p (node_list SearchDefs.two_node_graph)
                      /\ ~ In (file_name (snd p)) ["a.py"]).
Proof.
  assert (Hwf : well_formed SearchDefs.two_node_graph).
  { unfold well_formed, ascending, node_indices. cbn. split; [repeat constructor|].
    split; [constructor|]. split; intros i H; [tauto|lia]. }
  assert (Hidx : indexed SearchDefs.two_node_graph).
  { intros k m H. cbn in H. destruct H as [H|[H|[]]]; inversion H; reflexivity. }
  destruct (invalidate_graph SearchDefs.silent_engine
              (GraphRag.make 7 SearchDefs.two_node_graph) ["a.py"]
              SearchDefs.two_row_table Hwf Hidx) as [g' [H1 [H2 _]]].
  exists g'. auto.
Defined.

(** X16.  [delete] takes the graph file away and ends normally, but all
    its DELETE actions carry a node id and no row id, so the search
    index keeps every row; a [GraphRag] that is opened for the feature
    afterwards starts from the empty graph. *)
Theorem delete_keeps_rows (eng : GraphRag.Engine) (self : GraphRag.t)
    (default_path : string) (tbl : HybridSearch.Table) (fs : files) :
  exists fs',
    GraphRag.delete eng self default_path tbl fs = (tbl, fs', HybridSearch.Finished)
    /\ fs' (GraphRag.graph_path default_path (GraphRag.feature_id self)) = None
    /\ (forall p, p <> GraphRag.graph_path default_path (GraphRag.feature_id self) ->
                  fs' p = fs p)
    /\ GraphRag.initialize_graph default_path (GraphRag.feature_id self) fs'
       = Ok init_graph.
Proof.
  unfold GraphRag.delete. rewrite InvalidateFacts.bulk_action_deletes_nothing.
  set (path := GraphRag.graph_path default_path (GraphRag.feature_id self)).
  eexists. split; [reflexivity|].
  assert (Hnone : match fs path with
                  | Some _ => GraphRag.remove_file path fs
                  | None => fs
                  end path = None).
  { destruct (fs path) eqn:E; [|exact E]. unfold GraphRag.remove_file.
    now rewrite String.eqb_refl. }
  split; [exact Hnone|]. split.
  - intros p Hp. destruct (fs path); [|reflexivity]. unfold GraphRag.remove_file.
    destruct (String.eqb_spec p path); [contradiction|reflexivity].
  - unfold GraphRag.initialize_graph. fold path. now rewrite Hnone.
Qed.

End InvalidateProps.

(** ** graph_rag/__init__.py: what search returns *)

Module ResultProps.
Import Graph SearchDefs.

Lemma slice_top {A} (l : list A) (top : Z) :
  (0 <= top)%Z -> Py.slice l 0 top = firstn (Z.to_nat top) l.
Proof.
  intros H. unfold Py.slice, Py.clamp_index. cbn [Z.ltb Z.compare].
  replace (top <? 0)%Z with false by (symmetry; apply Z.ltb_ge; lia).
  rewrite (Z.min_l 0) by lia. cbn [Z.to_nat skipn]. rewrite Z.sub_0_r.
  destruct (Z.le_gt_cases top (Z.of_nat (List.length l))) as [Hle|Hgt].
  - now rewrite Z.min_l by lia.
  - rewrite Z.min_r by lia. rewrite Nat2Z.id.
    rewrite firstn_all, firstn_all2 by lia. reflexivity.
Qed.

Lemma retrieve_graph_top (eng : GraphRag.Engine) (self self' : GraphRag.t)
    (query : string) (ov : GraphRag.overlay) (tbl : HybridSearch.Table)
    (hits : list (HybridSearch.Code * Q)) :
  GraphRag.retrieve eng self query ov tbl = Ok (self', hits) ->
  GraphRag.graph_top self' = GraphRag.graph_top self.
Proof.
  unfold GraphRag.retrieve.
  set (parsed := CodeIndexing.ast_parse _ _).
  assert (Hr : forall r,
             match CodeIndexing.nodes parsed with
             | [] => Ok (self, tbl)
             | _ :: _ =>
                 let '(self1, ns, tbl1, _, e) :=
                   GraphRag.bulk_insert eng self (CodeIndexing.nodes parsed)
                                        (CodeIndexing.contents parsed) tbl in
                 _ <- GraphRag.ending_result tt e ;;
                 overlay_edges <- mapM (GraphRag.overlay_edge ns)
                                       (CodeIndexing.edges parsed) ;;
                 fwd <- mapM GraphRag.to_edge overlay_edges ;;
                 bwd <- mapM GraphRag.to_edge (map GraphRag.reverse_edge overlay_edges) ;;
                 Ok (GraphRag.with_graph self1
                       (add_edges (add_edges (GraphRag._graph self1) fwd) bwd), tbl1)
             end = Ok r ->
             GraphRag.graph_top (fst r) = GraphRag.graph_top self).
  { intros r. destruct (CodeIndexing.nodes parsed) as [|n0 ns0].
    - intros H. inversion H. reflexivity.
    - unfold GraphRag.bulk_insert.
      destruct (GraphRag.add_nodes _ _) as [[g ns']|x].
      + destruct (HybridSearch.bulk_action _ _ _ _) as [[tbl1 progress] e].
        destruct (GraphRag.ending_result tt e); cbn [bind]; [|discriminate].
        destruct (mapM _ _) as [oe|]; cbn [bind]; [|discriminate].
        destruct (mapM GraphRag.to_edge oe); cbn [bind]; [|discriminate].
        destruct (mapM GraphRag.to_edge _); cbn [bind]; [|discriminate].
        intros H. inversion H. reflexivity.
      + cbn [GraphRag.ending_result bind]. discriminate. }
  match goal with
  | |- bind ?m _ = _ -> _ => destruct m as [r|x] eqn:Em; cbn [bind]; [|discriminate]
  end.
  destruct (HybridSearch.search _ _ _ _ _ _ _) as [hs|x]; cbn [bind]; [|discriminate].
  intros H. inversion H; subst. exact (Hr r eq_refl).
Qed.

Lemma combine_In_scores {K} (T : K -> KGNode -> Prop) (ids : list (K * Q))
    (ns : list KGNode) (n : KGNode) (w : Q) :
  Forall2 T (map fst ids) ns -> In (n, w) (combine ns (map snd ids)) ->
  exists k, In (k, w) ids /\ T k n.
Proof.
  intros HF Hin. apply SearchFacts.combine_scores in HF.
  destruct (SortFacts.Forall2_In_r _ _ _ _ HF Hin) as [[k v] [Hk [HT Hv]]].
  cbn [fst snd] in *. subst w. eauto.
Qed.

(** X17.  What [search] returns when it returns: at most [graph_top]
    results; no node of a file that the overlay marks as deleted; and
    every result comes out of the ranking: the merged scores that [rank]
    computes from the personalization of the hits and the seeds hold the
    result's score under a key, and the result's node is the node that
    the graph, as it is after the overlay files were added, stores under
    that key. *)
Theorem search_results (eng : GraphRag.Engine) (self : GraphRag.t) (query : string)
    (seeds : option (list KGNode)) (ov : GraphRag.overlay) (only_tests : bool)
    (tbl : HybridSearch.Table) (out : list (KGNode * Q)) :
  GraphRag.search eng self query seeds ov only_tests tbl = Ok out ->
  ((0 <= GraphRag.graph_top self)%Z ->
   (List.length out <= Z.to_nat (GraphRag.graph_top self))%nat)
  /\ (forall n s, In (n, s) out ->
        GraphRag.overlay_get ov (file_name n) <> Some None)
  /\ exists self' hits p merged,
       GraphRag.retrieve eng self query ov tbl = Ok (self', hits)
       /\ GraphRag.personalization hits seeds = Ok p
       /\ GraphRag.rank eng (GraphRag._graph self') only_tests p = Ok merged
       /\ forall n s, In (n, s) out ->
            exists k, In (k, s) merged
                      /\ get_node_by_key (GraphRag._graph self') k = Ok n
                      /\ In n (nodes (GraphRag._graph self')).
Proof.
  unfold GraphRag.search.
  destruct (GraphRag.retrieve eng self query ov tbl) as [[self' hits]|x] eqn:Hret;
    cbn [bind fst snd]; [|discriminate].
  pose proof (retrieve_graph_top _ _ _ _ _ _ _ Hret) as Htop.
  unfold GraphRag.select. fold (GraphRag.personalization hits seeds).
  destruct (GraphRag.personalization hits seeds) as [pers|x] eqn:Hpers;
    cbn [bind]; [|discriminate].
  destruct (GraphRag.rank eng (GraphRag._graph self') only_tests pers)
    as [merged|x] eqn:Hrank; cbn [bind]; [|discriminate].
  set (ids := Py.slice (Dict.sorted_desc snd merged) 0 (GraphRag.graph_top self')).
  destruct (get_nodes (GraphRag._graph self') (map fst ids)) as [ns|x] eqn:Hns;
    cbn [bind]; [|discriminate].
  intros H. inversion H; subst out; clear H.
  split; [|split].
  - intros H0. rewrite <- Htop in *.
    etransitivity; [apply filter_length_le|].
    rewrite length_combine, length_map. unfold ids. rewrite slice_top by exact H0.
    rewrite length_firstn. lia.
  - intros n s Hin. apply filter_In in Hin. destruct Hin as [_ Hdel].
    cbn [fst] in Hdel. apply negb_true_iff in Hdel.
    unfold GraphRag.deleted_in_overlay in Hdel.
    destruct (GraphRag.overlay_get ov (file_name n)) as [[c|]|];
      congruence.
  - exists self', hits, pers, merged.
    split; [reflexivity|]. split; [exact Hpers|]. split; [exact Hrank|].
    intros n s Hin. apply filter_In in Hin. destruct Hin as [Hin _].
    pose proof (mapM_Forall2 _ _ _ Hns) as HF.
    destruct (combine_In_scores _ _ _ _ _ HF Hin) as [k [Hk Hget]].
    exists k. split; [|split; [exact Hget|]].
    + unfold ids in Hk.
      destruct (SortFacts.slice_prefix (Dict.sorted_desc snd merged)
                  (GraphRag.graph_top self')) as [m Hm].
      rewrite Hm in Hk. apply SortFacts.firstn_incl in Hk.
      now apply SortFacts.sorted_desc_In in Hk.
    + unfold get_node_by_key in Hget. destruct k as [z|]; [|discriminate].
      destruct (z <? 0)%Z; [discriminate|]. unfold get_node_data in Hget.
      destruct (lookup_node _ _) as [m|] eqn:El; [|discriminate].
      inversion Hget; subst m. apply SearchFacts.lookup_node_Some_In in El.
      unfold nodes. change n with (snd (Z.to_nat z, n)). now apply in_map.
Qed.

Lemma search_results_witness :
  (List.length tied_results <= 50)%nat
  /\ (forall n s, In (n, s) tied_results ->
        GraphRag.overlay_get [] (file_name n) <> Some None)
  /\ forall n s, In (n, s) tied_results ->
       exists k, get_node_by_key two_node_graph k = Ok n.
Proof.
  assert (H : GraphRag.search converging_engine (GraphRag.make 7 two_node_graph) "foo"
                None [] false two_row_table = Ok tied_results)
    by (vm_compute; reflexivity).
  destruct (search_results _ _ _ _ _ _ _ _ H)
    as [H1 [H2 [self' [hits [p [merged [Hret [_ [_ H3]]]]]]]]].
  split; [apply H1; cbn; lia|]. split; [exact H2|].
  assert (Hself : self' = GraphRag.make 7 two_node_graph).
  { vm_compute in Hret. now inversion Hret. }
  subst self'. intros n s Hin. destruct (H3 n s Hin) as [k [_ [Hk _]]]. eauto.
Defined.

End ResultProps.

(** ** graph.py: what a loaded graph looks like *)

Module LoadProps.
Import Graph StoreDefs.

Lemma restore_edge_attrs (g : PyDiGraph) (k : nat) (e e' : Edge) :
  restore_edge g k e = Ok e' ->
  source e' = source e /\ target e' = target e
  /\ e_type (attrs e') = e_type (attrs e)
  /\ e_reverse (attrs e') = e_reverse (attrs e)
  /\ (exists s, get_node_data g (source e) = Ok s
                /\ e_src_file (attrs e') = Some (file_name s))
  /\ (exists t, get_node_data g (target e) = Ok t
                /\ e_target_file (attrs e') = Some (file_name t)).
Proof.
  unfold restore_edge. intros H.
  destruct (get_node_data g (source e)) as [s|x]; cbn [bind] in H; [|discriminate].
  destruct (get_node_data g (target e)) as [t|x]; cbn [bind] in H; [|discriminate].
  inversion H. cbn. repeat split; eauto.
Qed.

Lemma parse_link_reverse (m : list (nat * nat)) (l : JsonLink) (e : Edge) :
  parse_link m l = Ok e -> exists r, e_reverse (attrs e) = Some r.
Proof.
  unfold parse_link, load_edge_attrs. intros H.
  destruct (Py.item (jl_data l) "type"); cbn [bind] in H; [|discriminate].
  destruct (Py.item (jl_data l) "reverse"); cbn [bind] in H; [|discriminate].
  destruct (id_lookup m (jl_source l)); cbn [bind] in H; [|discriminate].
  destruct (id_lookup m (jl_target l)); cbn [bind] in H; [|discriminate].
  inversion H. cbn. eauto.
Qed.

Lemma get_node_data_In (g : PyDiGraph) (i : nat) (n : KGNode) :
  get_node_data g i = Ok n -> In i (node_indices g).
Proof.
  unfold get_node_data. intros H. apply StoreProps.node_indices_lookup.
  destruct (lookup_node (node_list g) i); [discriminate|discriminate].
Qed.

Lemma weight_fn_total (only_tests reverse : bool) (a : EdgeAttrs) :
  (exists t, e_target_file a = Some t) -> (exists r, e_reverse a = Some r) ->
  exists w, GraphRag.weight_fn only_tests reverse a = Ok w
            /\ (w = 1%Q \/ w = (1 # 10)%Q \/ w = (1 # 100)%Q).
Proof.
  intros [t Ht] [r Hr]. unfold GraphRag.weight_fn. rewrite Ht, Hr.
  destruct (GraphRag.test_target t), only_tests; eauto.
  destruct (xorb reverse r && GraphRag.propagating (e_type a)); eauto.
Qed.

Lemma restore_edge_idx (g : PyDiGraph) (k : nat) (e e' : Edge) :
  restore_edge g k e = Ok e' -> e_idx (attrs e') = Some k.
Proof.
  unfold restore_edge. intros H.
  destruct (get_node_data g (source e)) as [s|x]; cbn [bind] in H; [|discriminate].
  destruct (get_node_data g (target e)) as [t|x]; cbn [bind] in H; [|discriminate].
  inversion H. reflexivity.
Qed.

(** X18.  A graph that [load] returns is closed: every edge joins two
    nodes of the graph.  Every edge carries the file name of its source
    node as source file, the file name of its target node as target
    file, a reverse flag and an index; so the weight function is defined
    on every edge, with one of the weights 1, 1/10 and 1/100, and the
    ranking step of [search] cannot fail on such a graph. *)
Theorem loaded_graph_ranks (path : string) (fs : files) (g : PyDiGraph) :
  load path fs = Ok g ->
  closed g
  /\ Forall (fun e => exists s t r i,
                 get_node_data g (source e) = Ok s
                 /\ get_node_data g (target e) = Ok t
                 /\ e_src_file (attrs e) = Some (file_name s)
                 /\ e_target_file (attrs e) = Some (file_name t)
                 /\ e_reverse (attrs e) = Some r
                 /\ e_idx (attrs e) = Some i)
            (edge_list g)
  /\ (forall only_tests reverse,
        exists ws,
          mapM (GraphRag.weight_fn only_tests reverse) (map attrs (edge_list g)) = Ok ws
          /\ Forall (fun w => w = 1%Q \/ w = (1 # 10)%Q \/ w = (1 # 100)%Q) ws)
  /\ (forall eng only_tests p, exists merged,
        GraphRag.rank eng g only_tests p = Ok merged).
Proof.
  unfold load. destruct (fs path) as [doc|]; [|discriminate].
  destruct (from_node_link_json doc) as [g0|x] eqn:Hdoc; cbn [bind]; [|discriminate].
  destruct (restore_edges g0 0 (edge_list g0)) as [es'|x] eqn:Hres;
    cbn [bind]; [|discriminate].
  intros H. inversion H; subst g; clear H.
  pose proof (GraphFacts.restore_edges_Forall2 _ _ _ _ Hres) as HF.
  assert (Hparsed : forall e, In e (edge_list g0) -> exists r, e_reverse (attrs e) = Some r).
  { unfold from_node_link_json in Hdoc.
    destruct (parse_nodes 0 (nl_nodes doc)) as [ns|x]; cbn [bind] in Hdoc;
      [|discriminate].
    destruct (mapM (parse_link (snd ns)) (nl_links doc)) as [es|x] eqn:Hes;
      cbn [bind] in Hdoc; [|discriminate].
    inversion Hdoc; subst g0. cbn [edge_list]. intros e He.
    destruct (SortFacts.Forall2_In_r _ _ _ _ (mapM_Forall2 _ _ _ Hes) He)
      as [l [_ Hl]].
    exact (parse_link_reverse _ _ _ Hl). }
  assert (Hedges : Forall (fun e' =>
                     exists s t r i,
                       get_node_data g0 (source e') = Ok s
                       /\ get_node_data g0 (target e') = Ok t
                       /\ e_src_file (attrs e') = Some (file_name s)
                       /\ e_target_file (attrs e') = Some (file_name t)
                       /\ e_reverse (attrs e') = Some r
                       /\ e_idx (attrs e') = Some i) es').
  { apply Forall_forall. intros e' He'.
    destruct (SortFacts.Forall2_In_r _ _ _ _ HF He') as [e [He [k Hk]]].
    destruct (Hparsed e He) as [r Hr].
    destruct (restore_edge_attrs _ _ _ _ Hk)
      as [Hs [Ht [_ [Hrev [[s [Hgs Hsf]] [t [Hgt Htf]]]]]]].
    exists s, t, r, k. rewrite Hs, Ht, Hrev.
    repeat split; try assumption. exact (restore_edge_idx _ _ _ _ Hk). }
  rewrite Forall_forall in Hedges.
  assert (Hw : forall only_tests reverse,
             exists ws,
               mapM (GraphRag.weight_fn only_tests reverse) (map attrs es') = Ok ws
               /\ Forall (fun w => w = 1%Q \/ w = (1 # 10)%Q \/ w = (1 # 100)%Q) ws).
  { intros only_tests reverse.
    destruct (mapM_ex (GraphRag.weight_fn only_tests reverse)
                (fun _ w => w = 1%Q \/ w = (1 # 10)%Q \/ w = (1 # 100)%Q)
                (map attrs es')) as [ws [Hws HFw]].
    - intros a Ha. apply in_map_iff in Ha. destruct Ha as [e' [<- He']].
      destruct (Hedges e' He') as [s [t [r [i [_ [_ [_ [Ht [Hr _]]]]]]]]].
      apply weight_fn_total; eauto.
    - exists ws. split; [exact Hws|]. clear -HFw.
      induction HFw; constructor; auto. }
  split; [|split; [|split]].
  - intros e' He'. cbn [edge_list] in He'. unfold node_indices. cbn [node_list].
    destruct (Hedges e' He') as [s [t [_ [_ [Hgs [Hgt _]]]]]].
    split; [exact (get_node_data_In _ _ _ Hgs)|exact (get_node_data_In _ _ _ Hgt)].
  - cbn [edge_list]. apply Forall_forall. intros e' He'. exact (Hedges e' He').
  - exact Hw.
  - intros eng only_tests p. unfold GraphRag.rank. cbn [edge_list].
    destruct (Hw only_tests false) as [w1 [Hw1 _]]. rewrite Hw1. cbn [bind].
    destruct (GraphRag.pagerank eng _ w1 p); [|eauto].
    destruct (Hw only_tests true) as [w2 [Hw2 _]]. rewrite Hw2. cbn [bind].
    destruct (GraphRag.pagerank eng _ w2 p); eauto.
Qed.

Lemma loaded_graph_ranks_witness :
  exists g,
    load "graph.json" (save GraphDefs.sample_graph "graph.json" (fun _ => None)) = Ok g
    /\ closed g
    /\ forall eng only_tests p, exists merged,
         GraphRag.rank eng g only_tests p = Ok merged.
Proof.
  destruct (load "graph.json" (save GraphDefs.sample_graph "graph.json" (fun _ => None)))
    as [g|x] eqn:E; [|vm_compute in E; discriminate E].
  exists g. split; [reflexivity|].
  destruct (loaded_graph_ranks _ _ _ E) as [H1 [_ [_ H4]]]. auto.
Defined.

Lemma sorted_bounded_seq (l : list nat) :
  forall a,
    StronglySorted lt l ->
    (forall x, In x l -> (a <= x < a + List.length l)%nat) ->
    l = seq a (List.length l).
Proof.
  induction l as [|x l IH]; intros a Hs Hb; [reflexivity|].
  inversion Hs as [|? ? Hs' Hlt]; subst. rewrite Forall_forall in Hlt.
  cbn [List.length seq].
  assert (Hl : l = seq (S a) (List.length l)).
  { apply IH; [exact Hs'|]. intros y Hy.
    pose proof (Hlt y Hy). pose proof (Hb x (or_introl eq_refl)).
    pose proof (Hb y (or_intror Hy)) as Hy'. cbn [List.length] in *. lia. }
  f_equal; [|exact Hl].
  pose proof (Hb x (or_introl eq_refl)) as Hx. cbn [List.length] in Hx.
  destruct l as [|y l'].
  - cbn in Hx. lia.
  - cbn [List.length seq] in Hl. injection Hl as Hy _.
    pose proof (Hlt y (or_introl eq_refl)). lia.
Qed.

Lemma combine_fst_snd {A B} (l : list (A * B)) : combine (map fst l) (map snd l) = l.
Proof.
  induction l as [|[a b] l IH]; cbn; [reflexivity|]. now rewrite IH.
Qed.

Lemma id_lookup_diag (a : list nat) (i v : nat) :
  id_lookup (combine a a) i = Ok v -> v = i.
Proof.
  induction a as [|k a IH]; cbn [combine id_lookup]; [discriminate|].
  destruct (Nat.eqb_spec k i); [|exact IH]. intros H. inversion H. congruence.
Qed.

Lemma Forall2_map_left {A B C} (R : B -> C -> Prop) (f : A -> B) (l : list A)
    (l' : list C) :
  Forall2 R (map f l) l' -> Forall2 (fun a c => R (f a) c) l l'.
Proof.
  revert l'. induction l as [|a l IH]; intros l' H; cbn [map] in H;
    inversion H; subst; constructor; auto.
Qed.

(** X19.  For a well-formed graph from which no node was ever removed,
    saving and loading gives back the very same nodes at the very same
    indices, and every edge between the same two indices: the ids that
    the nodes and the index rows carry stay valid. *)
Theorem save_load_ids (g : PyDiGraph) (path : string) (fs : files) (g' : PyDiGraph) :
  well_formed g -> free_nodes g = [] ->
  load path (save g path fs) = Ok g' ->
  node_list g' = node_list g
  /\ Forall2 (fun e e' => source e' = source e /\ target e' = target e)
             (edge_list g) (edge_list g')
  /\ (indexed g -> indexed g').
Proof.
  intros [Hasc [_ [_ Hbound]]] Hfree.
  assert (Hidx : map fst (node_list g) = seq 0 (List.length (node_list g))).
  { rewrite <- (length_map fst (node_list g)).
    apply sorted_bounded_seq; [exact Hasc|]. intros x Hx.
    specialize (Hbound x (or_introl Hx)). rewrite Hfree in Hbound.
    rewrite length_map. cbn [List.length] in Hbound. lia. }
  unfold load, save. rewrite String.eqb_refl.
  unfold from_node_link_json, node_link_json. cbn [nl_nodes nl_links].
  rewrite GraphFacts.parse_nodes_saved. cbn [bind fst snd].
  assert (Hre : GraphDefs.reloaded 0 (node_list g) = node_list g).
  { unfold GraphDefs.reloaded. rewrite <- Hidx. apply combine_fst_snd. }
  assert (Hmap : GraphDefs.id_mapping 0 (node_list g)
                 = combine (map fst (node_list g)) (map fst (node_list g))).
  { unfold GraphDefs.id_mapping. now rewrite <- Hidx. }
  rewrite Hre, Hmap.
  destruct (mapM _ _) as [es|x] eqn:Hes; cbn [bind]; [|discriminate].
  cbn [edge_list node_list free_nodes].
  destruct (restore_edges _ 0 es) as [es'|x] eqn:Hres; cbn [bind]; [|discriminate].
  intros H. inversion H; subst g'; clear H. cbn [node_list edge_list].
  split; [reflexivity|]. split; [|auto].
  pose proof (Forall2_map_left _ _ _ _ (mapM_Forall2 _ _ _ Hes)) as HP.
  pose proof (GraphFacts.restore_edges_Forall2 _ _ _ _ Hres) as HF.
  refine (Forall2_compose _ _ _ _ _ _ _ HP HF).
  intros e e1 e' H1 [k Hk].
  destruct (restore_edge_attrs _ _ _ _ Hk) as [Hs [Ht _]]. rewrite Hs, Ht.
  unfold parse_link in H1. cbn [jl_data jl_source jl_target] in H1.
  destruct (load_edge_attrs _); cbn [bind] in H1; [|discriminate].
  destruct (id_lookup _ (source e)) as [s|] eqn:Es; cbn [bind] in H1; [|discriminate].
  destruct (id_lookup _ (target e)) as [t|] eqn:Et; cbn [bind] in H1; [|discriminate].
  inversion H1. cbn [source target].
  apply id_lookup_diag in Es, Et. auto.
Qed.

Lemma save_load_ids_witness :
  exists g',
    load "graph.json" (save SearchDefs.two_node_graph "graph.json" (fun _ => None))
    = Ok g'
    /\ node_list g' = node_list SearchDefs.two_node_graph.
Proof.
  destruct (load "graph.json"
              (save SearchDefs.two_node_graph "graph.json" (fun _ => None)))
    as [g'|x] eqn:E; [|vm_compute in E; discriminate E].
  exists g'. split; [reflexivity|].
  refine (proj1 (save_load_ids SearchDefs.two_node_graph "graph.json" (fun _ => None)
                   g' _ eq_refl E)).
  unfold well_formed, ascending, node_indices. cbn. split; [repeat constructor|].
  split; [constructor|]. split; intros i Hi; [tauto|lia].
Defined.

End LoadProps.

(** ** code_indexing.py: nodes, contents and deferred edges *)

Module LinkProps.
Import Graph CodeIndexing LinkDefs.

Lemma emit_parts (file_name : string) (file_lines : list string) (ty : KGNodeType)
    (edge_type : string) (name : option string) (start_line end_line : Z)
    (parent sym : string) (st st1 : state) :
  emit file_name file_lines ty edge_type name start_line end_line parent st
  = (sym, st1) ->
  exists n c,
    nodes st1 = nodes st ++ [n] /\ contents st1 = contents st ++ [c]
    /\ edges st1 = edges st ++ [(sym, parent, edge_type)]
    /\ symbol n = sym /\ type n = ty /\ file_name = Graph.file_name n.
Proof.
  unfold emit, name_or_unknown. intros H.
  destruct name as [[|c s]|]; inversion H; subst; clear H;
    cbn [nodes contents edges]; do 2 eexists; repeat split.
Qed.

Lemma emit_linked (file_name : string) (file_lines : list string) (ty : KGNodeType)
    (edge_type : string) (name : option string) (start_line end_line : Z)
    (parent sym : string) (st st1 : state) :
  ty <> FILE -> edge_type = "class_def" \/ edge_type = "function_def" ->
  linked st -> has_symbol (nodes st) parent ->
  emit file_name file_lines ty edge_type name start_line end_line parent st
  = (sym, st1) ->
  linked st1 /\ incl (nodes st) (nodes st1) /\ has_symbol (nodes st1) sym.
Proof.
  intros Hty Het [Hc [He Hedges]] Hpar Hemit.
  destruct (emit_parts _ _ _ _ _ _ _ _ _ _ _ Hemit)
    as [n [c [Hn [Hcs [Hes [Hsym [Htype _]]]]]]].
  assert (Hdef : is_def n = true).
  { unfold is_def. rewrite Htype. destruct ty; [congruence|reflexivity|reflexivity]. }
  assert (Hincl : incl (nodes st) (nodes st1)).
  { intros m Hm. rewrite Hn. apply in_or_app. now left. }
  assert (Hnew : In n (nodes st1)).
  { rewrite Hn. apply in_or_app. right. now left. }
  split; [|split; [exact Hincl|exists n; auto]].
  unfold linked. rewrite Hn, Hcs, Hes, filter_app, !length_app. cbn [filter].
  rewrite Hdef. cbn [List.length]. split; [lia|]. split; [lia|].
  intros c0 p ty0 Hin. rewrite <- Hn. apply in_app_or in Hin.
  destruct Hin as [Hin|[Hin|[]]].
  - destruct (Hedges c0 p ty0 Hin) as [[m [Hm [Hs Hd]]] [[q [Hq Hqs]] Ht]].
    split; [exists m; auto|]. split; [exists q; auto|exact Ht].
  - inversion Hin; subst c0 p ty0. split; [exists n; auto|].
    split; [|exact Het]. destruct Hpar as [q [Hq Hqs]]. exists q. auto.
Qed.

Section Walk.
Variable file_name : string.
Variable file_lines : list string.

Lemma recurse_scope_linked_from (scopes : list scope) :
  Forall (fun s => forall parent st,
            linked st -> has_symbol (nodes st) parent ->
            linked (recurse_one file_name file_lines s parent st)
            /\ incl (nodes st) (nodes (recurse_one file_name file_lines s parent st)))
         scopes ->
  forall parent st,
    linked st -> has_symbol (nodes st) parent ->
    linked (recurse_scope file_name file_lines scopes parent st)
    /\ incl (nodes st) (nodes (recurse_scope file_name file_lines scopes parent st)).
Proof.
  induction 1 as [|s scopes Hs _ IH]; intros parent st Hl Hp; cbn [recurse_scope].
  - split; [exact Hl|apply incl_refl].
  - destruct (Hs parent st Hl Hp) as [Hl1 Hi1].
    destruct (IH parent _ Hl1) as [Hl2 Hi2].
    + destruct Hp as [n [Hn Hsym]]. exists n. auto.
    + split; [exact Hl2|]. eapply incl_tran; eassumption.
Qed.

Lemma recurse_one_linked (s : scope) :
  forall parent st,
    linked st -> has_symbol (nodes st) parent ->
    linked (recurse_one file_name file_lines s parent st)
    /\ incl (nodes st) (nodes (recurse_one file_name file_lines s parent st)).
Proof.
  revert s. fix IH 1. intros [ty name sl el ec children] parent st Hl Hp.
  assert (Hch : Forall (fun s => forall parent st,
                          linked st -> has_symbol (nodes st) parent ->
                          linked (recurse_one file_name file_lines s parent st)
                          /\ incl (nodes st)
                                  (nodes (recurse_one file_name file_lines s parent st)))
                       children).
  { induction children as [|c cs IHc]; constructor; [apply IH|exact IHc]. }
  rewrite IndexingFacts.recurse_one_unfold.
  pose proof (recurse_scope_linked_from children Hch) as Hrec.
  destruct ty; try (apply Hrec; assumption).
  - destruct (emit _ _ _ _ _ _ _ _ _) as [sym st1] eqn:He.
    assert (Hty : CLASS <> FILE) by discriminate.
    destruct (emit_linked _ _ _ _ _ _ _ _ _ _ _ Hty
                (or_introl eq_refl) Hl Hp He) as [Hl1 [Hi1 Hs1]].
    destruct (Hrec sym st1 Hl1 Hs1) as [Hl2 Hi2].
    split; [exact Hl2|]. eapply incl_tran; eassumption.
  - destruct (emit _ _ _ _ _ _ _ _ _) as [sym st1] eqn:He.
    assert (Hty : FUNCTION <> FILE) by discriminate.
    destruct (emit_linked _ _ _ _ _ _ _ _ _ _ _ Hty
                (or_intror eq_refl) Hl Hp He) as [Hl1 [Hi1 Hs1]].
    destruct (Hrec sym st1 Hl1 Hs1) as [Hl2 Hi2].
    split; [exact Hl2|]. eapply incl_tran; eassumption.
Qed.

End Walk.

Lemma file_node_linked (st : state) (n : KGNode) (c : string) :
  type n = FILE -> linked st ->
  linked (mkState (nodes st ++ [n]) (contents st ++ [c]) (edges st) (unknown_ctr st)).
Proof.
  intros Hty [Hc [He Hedges]]. unfold linked. cbn [nodes contents edges].
  rewrite filter_app, !length_app. cbn [filter]. unfold is_def at 2. rewrite Hty.
  cbn [List.length]. split; [lia|]. split; [lia|].
  intros c0 p ty0 Hin.
  destruct (Hedges c0 p ty0 Hin) as [[m [Hm [Hs Hd]]] [[q [Hq Hqs]] Ht]].
  split; [exists m; split; [apply in_or_app; now left|auto]|].
  split; [exists q; split; [apply in_or_app; now left|auto]|exact Ht].
Qed.

Lemma chunk_file_linked (fuel : nat) (file_name : string) (file_lines : list string) :
  forall i st, linked st -> linked (chunk_file fuel file_name file_lines i st).
Proof.
  induction fuel as [|fuel IH]; intros i st Hl; cbn [chunk_file]; [exact Hl|].
  destruct (i <? _)%Z; [|exact Hl].
  apply IH. now apply file_node_linked.
Qed.

Lemma parse_file_linked (parse : string -> string -> parsed)
    (file_name file_content : string) (st : state) :
  linked st -> linked (parse_file parse file_name file_content st).
Proof.
  intros Hl. unfold parse_file.
  destruct (parse file_name file_content) as [|children]; [exact Hl|].
  destruct children as [|c cs]; [now apply chunk_file_linked|].
  apply recurse_scope_linked_from.
  - apply Forall_forall. intros s _. apply recurse_one_linked.
  - now apply file_node_linked.
  - cbn [nodes symbol]. eexists. split; [apply in_or_app; right; now left|reflexivity].
Qed.

Lemma fold_parse_linked (parse : string -> string -> parsed)
    (files : list (string * string)) :
  forall st,
    linked st ->
    linked (fold_left (fun st f => parse_file parse (fst f) (snd f) st) files st).
Proof.
  induction files as [|f files IH]; intros st Hl; cbn [fold_left]; [exact Hl|].
  apply IH. now apply parse_file_linked.
Qed.

(** X20.  Whatever the parser makes of the files, [ast_parse] returns
    lists that belong together: one content per node, one deferred edge
    per class or function node, and every deferred edge leads from the
    symbol of a class or function node to the symbol of a node that was
    returned as well, with the type "class_def" or "function_def". *)
Theorem ast_parse_linked (parse : string -> string -> parsed)
    (files : list (string * string)) :
  linked (ast_parse parse files).
Proof.
  unfold ast_parse. apply fold_parse_linked.
  unfold linked. cbn [nodes contents edges filter List.length].
  split; [reflexivity|]. split; [reflexivity|]. intros c p ty [].
Qed.

Lemma node_by_sym_Ok (ns : list KGNode) (sym : string) (n : KGNode) :
  GraphRag.node_by_sym ns sym = Ok n -> In n ns /\ symbol n = sym.
Proof.
  induction ns as [|m ns IH]; cbn [GraphRag.node_by_sym]; [discriminate|].
  destruct (GraphRag.node_by_sym ns sym) as [k|x].
  - intros H. inversion H; subst k. destruct (IH eq_refl). split; [now right|assumption].
  - destruct (String.eqb_spec (symbol m) sym); [|discriminate].
    intros H. inversion H; subst m. split; [now left|assumption].
Qed.

Lemma node_by_sym_total (ns : list KGNode) (sym : string) :
  has_symbol ns sym -> exists n, GraphRag.node_by_sym ns sym = Ok n.
Proof.
  intros [m [Hm Hsym]]. induction ns as [|k ns IH]; [contradiction|].
  cbn [GraphRag.node_by_sym].
  destruct (GraphRag.node_by_sym ns sym) as [q|x] eqn:E; [eauto|].
  destruct Hm as [->|Hm].
  - rewrite Hsym, String.eqb_refl. eauto.
  - destruct (IH Hm) as [q Hq]. discriminate.
Qed.

Lemma has_symbol_stored (ns ns' : list KGNode) (sym : string) :
  Forall2 StoreDefs.stored_as ns ns' -> has_symbol ns sym -> has_symbol ns' sym.
Proof.
  intros HF [n [Hn Hsym]]. induction HF as [|a b ns ns' Hab _ IH]; [contradiction|].
  destruct Hn as [->|Hn].
  - exists b. split; [now left|]. destruct Hab as [_ [Hs _]]. congruence.
  - destruct (IH Hn) as [m [Hm Hms]]. exists m. split; [now right|assumption].
Qed.

(** X21.  The deferred edges of [ast_parse] always resolve against the
    nodes as [bulk_insert] returns them: looking up both symbols never
    raises; every resulting edge joins two of these nodes and names
    their files; and the weight function is defined on the edge and on
    its reverse, whatever the mode. *)
Theorem overlay_edges_resolve (parse : string -> string -> parsed)
    (files : list (string * string)) (ns' : list KGNode) :
  Forall2 StoreDefs.stored_as (nodes (ast_parse parse files)) ns' ->
  exists oes,
    mapM (GraphRag.overlay_edge ns') (edges (ast_parse parse files)) = Ok oes
    /\ List.length oes = List.length (edges (ast_parse parse files))
    /\ Forall (fun e =>
                 (exists a b,
                    In a ns' /\ In b ns'
                    /\ fst (fst e) = id a /\ snd (fst e) = id b
                    /\ e_src_file (snd e) = Some (Graph.file_name a)
                    /\ e_target_file (snd e) = Some (Graph.file_name b))
                 /\ forall only_tests reverse,
                      (exists w, GraphRag.weight_fn only_tests reverse (snd e) = Ok w)
                      /\ (exists w, GraphRag.weight_fn only_tests reverse
                                      (snd (GraphRag.reverse_edge e)) = Ok w))
              oes.
Proof.
  intros HF. assert (Hl : linked (ast_parse parse files)).
  { unfold ast_parse. apply fold_parse_linked.
    unfold linked. cbn [nodes contents edges filter List.length].
    split; [reflexivity|]. split; [reflexivity|]. intros c p ty []. }
  destruct Hl as [_ [_ Hedges]].
  destruct (mapM_ex (GraphRag.overlay_edge ns')
              (fun _ e =>
                 (exists a b,
                    In a ns' /\ In b ns'
                    /\ fst (fst e) = id a /\ snd (fst e) = id b
                    /\ e_src_file (snd e) = Some (Graph.file_name a)
                    /\ e_target_file (snd e) = Some (Graph.file_name b))
                 /\ forall only_tests reverse,
                      (exists w, GraphRag.weight_fn only_tests reverse (snd e) = Ok w)
                      /\ (exists w, GraphRag.weight_fn only_tests reverse
                                      (snd (GraphRag.reverse_edge e)) = Ok w))
              (edges (ast_parse parse files))) as [oes [Hoes HR]].
  - intros [[c p] ty] Hin.
    destruct (Hedges c p ty Hin) as [[n [Hn [Hs _]]] [Hp _]].
    assert (Hc : has_symbol (nodes (ast_parse parse files)) c) by (exists n; auto).
    destruct (node_by_sym_total ns' c (has_symbol_stored _ _ _ HF Hc)) as [a Ha].
    destruct (node_by_sym_total ns' p (has_symbol_stored _ _ _ HF Hp)) as [b Hb].
    unfold GraphRag.overlay_edge. rewrite Ha, Hb. cbn [bind]. eexists.
    split; [reflexivity|]. cbn [fst snd e_src_file e_target_file].
    destruct (node_by_sym_Ok _ _ _ Ha) as [Hina _].
    destruct (node_by_sym_Ok _ _ _ Hb) as [Hinb _].
    split; [exists a, b; repeat split; assumption|].
    intros only_tests reverse. split.
    + destruct (LoadProps.weight_fn_total only_tests reverse
                  (mkEdgeAttrs ty (Some false) (Some (Graph.file_name a))
                               (Some (Graph.file_name b)) None)) as [w [Hw _]];
        cbn; eauto.
    + cbn [GraphRag.reverse_edge snd e_type e_src_file e_target_file].
      destruct (LoadProps.weight_fn_total only_tests reverse
                  (mkEdgeAttrs ty (Some true) (Some (Graph.file_name b))
                               (Some (Graph.file_name a)) None)) as [w [Hw _]];
        cbn; eauto.
  - exists oes. split; [exact Hoes|]. split; [exact (mapM_length _ _ _ Hoes)|].
    clear -HR. induction HR; constructor; auto.
Qed.

Lemma overlay_edges_resolve_witness :
  exists oes,
    mapM (GraphRag.overlay_edge
            (nodes (ast_parse IndexingDefs.python_parse
                              [("a.py", IndexingDefs.decorated_source)])))
         (edges (ast_parse IndexingDefs.python_parse
                           [("a.py", IndexingDefs.decorated_source)])) = Ok oes
    /\ List.length oes
       = List.length (edges (ast_parse IndexingDefs.python_parse
                                       [("a.py", IndexingDefs.decorated_source)])).
Proof.
  destruct (overlay_edges_resolve IndexingDefs.python_parse
              [("a.py", IndexingDefs.decorated_source)]
              (nodes (ast_parse IndexingDefs.python_parse
                                [("a.py", IndexingDefs.decorated_source)])))
    as [oes [H1 [H2 _]]].
  - vm_compute. repeat constructor.
  - exists oes. auto.
Defined.

Lemma chunk_count (n a : nat) :
  ((50 * Z.of_nat a <? Z.of_nat n)%Z = true <-> (a < (n + 49) / 50)%nat).
Proof.
  rewrite Z.ltb_lt.
  pose proof (Nat.div_mod_eq (n + 49) 50) as Hd.
  pose proof (Nat.mod_upper_bound (n + 49) 50 ltac:(discriminate)) as Hm.
  split; intros H; nia.
Qed.

(** The fallback loop from line [50 * a] on, with fuel for the chunks
    that are left. *)
Lemma chunk_file_spec (file_name : string) (file_lines : list string) (fuel : nat) :
  forall a st,
    ((List.length file_lines + 49) / 50 - a <= fuel)%nat ->
    nodes (chunk_file fuel file_name file_lines (50 * Z.of_nat a) st)
    = nodes st
      ++ map (fun k =>
                mkKGNode FILE (file_symbol file_name) file_name (50 * Z.of_nat k)
                         (Some (Z.min (50 * Z.of_nat k + 50)
                                      (Z.of_nat (List.length file_lines))))
                         None None)
             (seq a ((List.length file_lines + 49) / 50 - a))
    /\ contents (chunk_file fuel file_name file_lines (50 * Z.of_nat a) st)
       = contents st
         ++ map (fun k =>
                   (("# " ++ file_name ++ nl)
                    ++ strip (Py.join nl (Py.slice file_lines (50 * Z.of_nat k)
                                                   (50 * Z.of_nat k + 50))))%string)
                (seq a ((List.length file_lines + 49) / 50 - a))
    /\ edges (chunk_file fuel file_name file_lines (50 * Z.of_nat a) st) = edges st.
Proof.
  induction fuel as [|fuel IH]; intros a st Hfuel; cbn [chunk_file].
  - replace ((List.length file_lines + 49) / 50 - a)%nat with 0%nat by lia.
    cbn [seq map]. now rewrite !app_nil_r.
  - destruct (50 * Z.of_nat a <? Z.of_nat (List.length file_lines))%Z eqn:E.
    + apply chunk_count in E.
      replace ((List.length file_lines + 49) / 50 - a)%nat
        with (S ((List.length file_lines + 49) / 50 - S a)) by lia.
      cbn [seq map].
      replace (50 * Z.of_nat a + 50)%Z with (50 * Z.of_nat (S a))%Z by lia.
      destruct (IH (S a)
                  (mkState
                     (nodes st
                      ++ [mkKGNode FILE (file_symbol file_name) file_name
                                   (50 * Z.of_nat a)
                                   (Some (Z.min (50 * Z.of_nat (S a))
                                                (Z.of_nat (List.length file_lines))))
                                   None None])
                     (contents st
                      ++ [(("# " ++ file_name ++ nl)
                           ++ strip (Py.join nl
                                       (Py.slice file_lines (50 * Z.of_nat a)
                                                 (50 * Z.of_nat (S a)))))%string])
                     (edges st) (unknown_ctr st))) as [Hn [Hc He]]; [lia|].
      rewrite Hn, Hc, He. cbn [nodes contents edges]. rewrite <- !app_assoc.
      cbn [app]. auto.
    + assert (Hn : ~ (a < (List.length file_lines + 49) / 50)%nat).
      { intros H. apply chunk_count in H. congruence. }
      replace ((List.length file_lines + 49) / 50 - a)%nat with 0%nat by lia.
      cbn [seq map]. now rewrite !app_nil_r.
Qed.

(** X22.  A file in which the parser finds no scope is indexed in chunks
    of 50 lines, the lines being those of [str.splitlines] (which also
    ends a line at U+0085): with [n] lines it adds ceil(n / 50) FILE
    nodes, the k-th for the lines from 50k up to min(50k + 50, n), each
    with the file name as header of its content, followed by these lines
    joined and stripped of surrounding whitespace, and no deferred edge;
    an empty file adds nothing. *)
Theorem chunk_fallback (parse : string -> string -> parsed)
    (file_name file_content : string) (st : state) :
  parse file_name file_content = Parsed [] ->
  nodes (parse_file parse file_name file_content st)
  = nodes st
    ++ map (fun k =>
              mkKGNode FILE (file_symbol file_name) file_name (50 * Z.of_nat k)
                       (Some (Z.min (50 * Z.of_nat k + 50)
                                    (Z.of_nat (List.length (splitlines file_content)))))
                       None None)
           (seq 0 ((List.length (splitlines file_content) + 49) / 50))
  /\ contents (parse_file parse file_name file_content st)
     = contents st
       ++ map (fun k =>
                 (("# " ++ file_name ++ nl)
                  ++ strip (Py.join nl (Py.slice (splitlines file_content)
                                                 (50 * Z.of_nat k)
                                                 (50 * Z.of_nat k + 50))))%string)
              (seq 0 ((List.length (splitlines file_content) + 49) / 50))
  /\ edges (parse_file parse file_name file_content st) = edges st.
Proof.
  intros Hp. unfold parse_file. rewrite Hp.
  pose proof (chunk_file_spec file_name (splitlines file_content)
                (List.length (splitlines file_content)) 0 st) as H.
  rewrite Nat.sub_0_r in H. change (50 * Z.of_nat 0)%Z with 0%Z in H.
  apply H.
  pose proof (Nat.div_mod_eq (List.length (splitlines file_content) + 49) 50).
  pose proof (Nat.mod_upper_bound (List.length (splitlines file_content) + 49) 50
                ltac:(discriminate)).
  nia.
Qed.

Lemma chunk_fallback_witness :
  List.length (nodes (parse_file plain_parse "a.txt" long_text (mkState [] [] [] 0)))
  = 3%nat
  /\ nodes (parse_file plain_parse "a.txt" nel_text (mkState [] [] [] 0))
     = [mkKGNode FILE "a" "a.txt" 0 (Some 2%Z) None None].
Proof.
  split.
  - rewrite (proj1 (chunk_fallback plain_parse "a.txt" long_text (mkState [] [] [] 0)
                      eq_refl)).
    vm_compute. reflexivity.
  - rewrite (proj1 (chunk_fallback plain_parse "a.txt" nel_text (mkState [] [] [] 0)
                      eq_refl)).
    vm_compute. reflexivity.
Defined.

End LinkProps.

(** ** utils/glob_match.py: what a block pattern blocks *)

Module GlobProps.
Import GlobMatch GlobDefs.

Section Match.
Variable fnmatch : string -> string -> bool.

Lemma match_segments_cons (p : string) (ps : list string) (seg : string)
    (rest : list string) :
  match_segments fnmatch (p :: ps) (seg :: rest)
  = if String.eqb p "**"
    then any_suffix (match_segments fnmatch ps) (seg :: rest)
    else if fnmatch seg p then match_segments fnmatch ps rest else false.
Proof. reflexivity. Qed.

Lemma star_matches_all (path : list string) : match_segments fnmatch ["**"] path = true.
Proof.
  destruct path as [|seg rest]; [reflexivity|].
  cbn [match_segments]. rewrite String.eqb_refl.
  generalize (seg :: rest). intros l. induction l as [|x l IH]; cbn [any_suffix].
  - reflexivity.
  - rewrite IH. apply orb_true_r.
Qed.

Lemma dir_star (d : string) (path : list string) :
  d <> "**" ->
  match_segments fnmatch [d; "**"] path
  = match path with
    | [] => false
    | seg :: _ => fnmatch seg d
    end.
Proof.
  intros Hd. apply String.eqb_neq in Hd.
  destruct path as [|seg rest].
  - cbn [match_segments forallb]. rewrite Hd. reflexivity.
  - rewrite match_segments_cons, Hd.
    destruct (fnmatch seg d); [apply star_matches_all|reflexivity].
Qed.

Lemma star_dir_star (d : string) (path : list string) :
  d <> "**" ->
  match_segments fnmatch ["**"; d; "**"] path = existsb (fun seg => fnmatch seg d) path.
Proof.
  intros Hd. destruct path as [|seg rest].
  - cbn [match_segments forallb existsb]. apply String.eqb_neq in Hd.
    rewrite Hd. cbn. reflexivity.
  - rewrite match_segments_cons, String.eqb_refl.
    pose proof (fun l => dir_star d l Hd) as Hf.
    set (f := match_segments fnmatch [d; "**"]) in *. clearbody f.
    generalize (seg :: rest). intros l.
    induction l as [|x l IH]; cbn [any_suffix existsb]; rewrite Hf.
    + reflexivity.
    + now rewrite IH.
Qed.

Lemma split_slash_plain (d : string) :
  plain d = true ->
  forall cur rest,
    split_slash cur (normalize (d ++ rest))
    = split_slash (cur ++ d)%string (normalize rest).
Proof.
  induction d as [|c d IH]; intros Hp cur rest; cbn [plain] in Hp.
  - cbn [String.append]. f_equal. clear. induction cur as [|a cur IH]; cbn; congruence.
  - apply andb_true_iff in Hp. destruct Hp as [Hc Hp].
    apply andb_true_iff in Hc. destruct Hc as [Hs Hb].
    apply negb_true_iff in Hs, Hb.
    cbn [String.append normalize split_slash]. rewrite Hb, Hs, (IH Hp).
    f_equal. clear. induction cur as [|a cur IH]; cbn; congruence.
Qed.

Lemma parts_star_dir_star (d : string) :
  plain d = true -> d <> "" ->
  parts ("**/" ++ d ++ "/**") = ["**"; d; "**"].
Proof.
  intros Hp Hd. unfold parts.
  change (normalize ("**/" ++ d ++ "/**"))
    with (String "*" (String "*" (String "/" (normalize (d ++ "/**"))))).
  cbn [split_slash Ascii.eqb Bool.eqb String.append].
  rewrite (split_slash_plain d Hp "" "/**"). cbn [String.append normalize].
  change (Ascii.eqb "/" backslash) with false. cbv iota.
  cbn [split_slash Ascii.eqb Bool.eqb].
  destruct d as [|c d]; [congruence|]. reflexivity.
Qed.

(** X23.  A block pattern of the form [**/d/**] blocks a path exactly
    when one of its segments matches [d]: at any depth, and also when the
    matching segment is the last one, the file itself.  Backslashes count
    as separators and empty segments do not count. *)
Theorem dir_pattern_blocks (d path : string) :
  plain d = true -> d <> "" -> d <> "**" ->
  path_matches fnmatch path [("**/" ++ d ++ "/**")%string]
  = existsb (fun seg => fnmatch seg d) (parts path).
Proof.
  intros Hp Hne Hd. unfold path_matches, match_pattern. cbn [existsb].
  rewrite (parts_star_dir_star d Hp Hne), orb_false_r. now apply star_dir_star.
Qed.

Lemma no_star_segments (pattern : list string) :
  Forall (fun p => p <> "**") pattern ->
  forall path,
    match_segments fnmatch pattern path = true
    <-> Forall2 (fun seg p => fnmatch seg p = true) path pattern.
Proof.
  induction 1 as [|p pattern Hp _ IH]; intros path.
  - destruct path; cbn [match_segments]; split; intros H;
      [constructor|reflexivity|discriminate|inversion H].
  - apply String.eqb_neq in Hp. destruct path as [|seg rest];
      cbn [match_segments forallb].
    + rewrite Hp. cbn [andb]. split; intros H; [discriminate|inversion H].
    + rewrite Hp. destruct (fnmatch seg p) eqn:E.
      * rewrite IH. split; intros H; [now constructor|now inversion H].
      * split; intros H; [discriminate|]. inversion H; congruence.
Qed.

(** X24.  A pattern without a [**] segment pins the depth: it matches a
    path exactly when both have the same number of segments and every
    segment of the path matches the pattern segment at its position.  So
    a one-segment pattern such as [*.pyc] matches files at the top level
    only. *)
Theorem plain_pattern_depth (pattern path : string) :
  Forall (fun p => p <> "**") (parts pattern) ->
  (path_matches fnmatch path [pattern] = true
   <-> Forall2 (fun seg p => fnmatch seg p = true) (parts path) (parts pattern))
  /\ (path_matches fnmatch path [pattern] = true ->
      List.length (parts path) = List.length (parts pattern)).
Proof.
  intros H. unfold path_matches, match_pattern. cbn [existsb]. rewrite orb_false_r.
  pose proof (no_star_segments (parts pattern) H (parts path)) as Hiff.
  split; [exact Hiff|]. intros Hm. apply Hiff in Hm. exact (Forall2_length Hm).
Qed.

End Match.

Lemma dir_pattern_blocks_witness :
  path_matches toy_fnmatch "src/node_modules" ["**/node_modules/**"] = true.
Proof.
  refine (eq_trans
            (dir_pattern_blocks toy_fnmatch "node_modules" "src/node_modules" _ _ _) _).
  - reflexivity.
  - discriminate.
  - discriminate.
  - vm_compute. reflexivity.
Defined.

Lemma plain_pattern_depth_witness :
  path_matches toy_fnmatch "a/b.pyc" ["*"] = false.
Proof.
  destruct (path_matches toy_fnmatch "a/b.pyc" ["*"]) eqn:E; [|reflexivity].
  assert (H : Forall (fun p => p <> "**") (parts "*"))
    by (vm_compute; repeat constructor; discriminate).
  pose proof (proj2 (plain_pattern_depth toy_fnmatch "*" "a/b.pyc" H) E) as Hl.
  vm_compute in Hl. discriminate Hl.
Defined.

End GlobProps.

(** ** location.py: ranges and whole lines *)

Module LocProps.
Import Loc.

(** X25.  For a range that starts at a column that is not negative,
    [line_align] gives a range of whole lines around it: it covers the
    range, starts on the same line, has both columns 0, ends where
    [Location.line_align] puts the end, and aligning again changes
    nothing.  The dictionary form is 1-indexed in the line, and
    [from_dict] reads it as it is: a location that goes through
    [to_dict] and [from_dict] comes back one line further down. *)
Theorem line_align_covers (r : Range) :
  (0 <= col (start r))%Z ->
  is_subset r (range_line_align r) = true
  /\ range_line_align (range_line_align r) = range_line_align r
  /\ stop (range_line_align r) = line_align (stop r)
  /\ start (range_line_align r) = mkLocation (line (start r)) 0
  /\ col (stop (range_line_align r)) = 0%Z
  /\ from_dict (to_dict (start r)) = mkLocation (line (start r) + 1) (col (start r)).
Proof.
  destruct r as [[sl sc] [el ec]]. cbn [start stop line col]. intros Hsc.
  unfold range_line_align, line_align, is_subset, le, ge, lt, eq, to_dict, from_dict.
  cbn [start stop line col d_line d_col].
  destruct (Z.eqb_spec ec 0) as [->|Hec]; cbn [start stop line col];
    rewrite ?Z.eqb_refl, ?Z.ltb_irrefl; cbn [andb orb negb].
  - split; [|repeat split].
    destruct (Z.ltb_spec 0 sc); [reflexivity|].
    replace sc with 0%Z by lia. reflexivity.
  - split; [|repeat split].
    replace (el + 1 <? el)%Z with false by (symmetry; apply Z.ltb_ge; lia).
    replace (el + 1 =? el)%Z with false by (symmetry; apply Z.eqb_neq; lia).
    cbn [andb orb negb].
    destruct (Z.ltb_spec 0 sc); [reflexivity|].
    replace sc with 0%Z by lia. reflexivity.
Qed.

Lemma line_align_covers_witness :
  is_subset (mkRange (mkLocation 1 4) (mkLocation 2 8))
            (range_line_align (mkRange (mkLocation 1 4) (mkLocation 2 8))) = true
  /\ range_line_align (mkRange (mkLocation 1 4) (mkLocation 2 8))
     = mkRange (mkLocation 1 0) (mkLocation 3 0).
Proof.
  assert (H : (0 <= col (start (mkRange (mkLocation 1 4) (mkLocation 2 8))))%Z)
    by (cbn; lia).
  split;
    [exact (proj1 (line_align_covers (mkRange (mkLocation 1 4) (mkLocation 2 8)) H))
    |reflexivity].
Defined.

End LocProps.

(** ** scopes.py and code_indexing.py: from the syntax tree to the nodes *)

Module ScopeProps.
Import CodeIndexing Scopes ScopeDefs.

Lemma flat_map_singleton {A} (l : list A) : flat_map (fun x => [x]) l = l.
Proof.
  induction l as [|x l IH]; cbn [flat_map app]; [reflexivity|]. now rewrite IH.
Qed.

Lemma filter_scope_true (s : scope) : filter_scope (fun _ => true) s = [s].
Proof.
  revert s. fix IH 1. intros [ty name sl el ec children]. cbn [filter_scope].
  assert (Hch : flat_map (filter_scope (fun _ => true)) children = children).
  { induction children as [|c cs IHc]; cbn [flat_map]; [reflexivity|].
    now rewrite IH, IHc. }
  now rewrite Hch.
Qed.

Lemma filter_scope_preorder (cb : scope -> bool)
    (p : ScopeType * option string * Z * Z * Z -> bool) :
  (forall s, cb s = p (header s)) ->
  forall s, flat_map preorder (filter_scope cb s) = filter p (preorder s).
Proof.
  intros Hcb. fix IH 1. intros [ty name sl el ec children].
  cbn [filter_scope preorder].
  assert (Hch : flat_map preorder (flat_map (filter_scope cb) children)
                = filter p (flat_map preorder children)).
  { induction children as [|c cs IHc]; cbn [flat_map]; [reflexivity|].
    now rewrite flat_map_app, filter_app, IH, IHc. }
  rewrite Hcb. cbn [header filter].
  destruct (p (ty, name, sl, el, ec)).
  - cbn [flat_map preorder header]. rewrite app_nil_r. now rewrite Hch.
  - exact Hch.
Qed.

(** X26.  [filter_children_types] keeps exactly the scopes that pass the
    callback, at every depth and in source order, when the callback
    looks at the scope and not at its children: the children of a scope
    that is dropped move up into its place.  With the callback that
    accepts everything, which is the default of [nested_scopes], the
    scopes come back unchanged. *)
Theorem filter_children_preorder (cb : scope -> bool)
    (p : ScopeType * option string * Z * Z * Z -> bool) (children : list scope) :
  (forall s, cb s = p (header s)) ->
  flat_map preorder (filter_children_types children cb)
  = filter p (flat_map preorder children)
  /\ filter_children_types children (fun _ => true) = children.
Proof.
  intros Hcb. unfold filter_children_types. split.
  - induction children as [|c cs IH]; cbn [flat_map]; [reflexivity|].
    now rewrite flat_map_app, filter_app, (filter_scope_preorder cb p Hcb), IH.
  - induction children as [|c cs IH]; cbn [flat_map]; [reflexivity|].
    now rewrite filter_scope_true, IH.
Qed.

Lemma filter_children_preorder_witness :
  flat_map preorder
           (filter_children_types IndexingDefs.decorated_scopes defs_only)
  = [(FUNCTION_SCOPE, Some "foo", 2%Z, 3%Z, 8%Z)].
Proof.
  refine (eq_trans
            (proj1 (filter_children_preorder defs_only is_def_header
                      IndexingDefs.decorated_scopes _)) _).
  - intros [ty name sl el ec children]. reflexivity.
  - reflexivity.
Defined.

Lemma emit_node (file_name : string) (file_lines : list string)
    (ty : Graph.KGNodeType) (edge_type : string) (name : option string)
    (start_line end_line : Z) (parent sym : string) (st st1 : state) :
  emit file_name file_lines ty edge_type name start_line end_line parent st
  = (sym, st1) ->
  nodes st1
  = nodes st ++ [Graph.mkKGNode ty sym file_name start_line (Some end_line) None None]
  /\ contents st1
     = contents st
       ++ [(("# " ++ file_name ++ nl) ++ ("# " ++ sym ++ nl)
            ++ Py.join nl (Py.slice file_lines start_line end_line))%string].
Proof.
  unfold emit, name_or_unknown. intros H.
  destruct name as [[|c s]|]; inversion H; subst; clear H;
    cbn [nodes contents]; split; reflexivity.
Qed.

(** X27.  A syntax node that the grammar takes for a function becomes
    one scope, and the indexer turns that scope into a FUNCTION node
    that covers the line-aligned range of the syntax node: it starts on
    the node's first line (0-indexed), ends where [Range.line_align]
    puts the end, and its content is the two header lines followed by
    exactly these lines of the file. *)
Theorem function_scope_lines (scope_type : ts_node -> option ScopeType)
    (scope_name : ts_node -> option string) (node : ts_node)
    (file_name : string) (file_lines : list string) (parent : string) (st : state) :
  scope_type node = Some FUNCTION_SCOPE ->
  exists s n c more_nodes more_contents,
    _nested_scopes scope_type scope_name node = [s]
    /\ nodes (recurse_one file_name file_lines s parent st)
       = nodes st ++ n :: more_nodes
    /\ contents (recurse_one file_name file_lines s parent st)
       = contents st ++ c :: more_contents
    /\ Graph.type n = Graph.FUNCTION
    /\ Graph.file_name n = file_name
    /\ Graph.line n
       = Loc.line (Loc.start (Loc.range_line_align (node_range node)))
    /\ Graph.end_line n
       = Some (Loc.line (Loc.stop (Loc.range_line_align (node_range node))))
    /\ c = (("# " ++ file_name ++ nl) ++ ("# " ++ Graph.symbol n ++ nl)
            ++ Py.join nl
                 (Py.slice file_lines
                    (Loc.line (Loc.start (Loc.range_line_align (node_range node))))
                    (Loc.line (Loc.stop (Loc.range_line_align (node_range node))))))%string.
Proof.
  intros Hty. destruct node as [kind [[sl sc] [el ec]] children].
  cbn [_nested_scopes]. rewrite Hty.
  set (below := flat_map (_nested_scopes scope_type scope_name) children).
  unfold to_dict. cbn [node_range Loc.start Loc.stop Loc.to_dict Loc.d_line Loc.d_col
                       Loc.line Loc.col].
  exists (Scope FUNCTION_SCOPE
                (scope_name (TsNode kind (Loc.mkRange (Loc.mkLocation sl sc)
                                                      (Loc.mkLocation el ec))
                                    children))
                (sl + 1) (el + 1) ec below).
  rewrite IndexingFacts.recurse_one_unfold.
  destruct (emit _ _ _ _ _ _ _ _ _) as [sym st1] eqn:He.
  destruct (emit_node _ _ _ _ _ _ _ _ _ _ _ He) as [Hn Hc].
  destruct (IndexingFacts.recurse_scope_emitted_from file_name file_lines below
              (proj2 (Forall_forall _ _)
                     (fun s _ => IndexingFacts.recurse_one_emitted file_name file_lines s))
              sym st1) as [ns [cs [Hns [Hcs _]]]].
  do 4 eexists. split; [reflexivity|].
  rewrite Hns, Hcs, Hn, Hc, <- !app_assoc. cbn [app].
  split; [reflexivity|]. split; [reflexivity|].
  cbn [Graph.type Graph.file_name Graph.line Graph.end_line Graph.symbol].
  assert (Hs : (sl + 1 - 1)%Z = sl) by lia.
  assert (He' : scope_end (el + 1) ec
                = Loc.line (Loc.stop (Loc.range_line_align
                                        (Loc.mkRange (Loc.mkLocation sl sc)
                                                     (Loc.mkLocation el ec))))).
  { unfold scope_end, Loc.range_line_align. cbn [Loc.stop Loc.col Loc.line].
    destruct (ec =? 0)%Z; cbn [Loc.stop Loc.line]; lia. }
  assert (Hl : Loc.line (Loc.start (Loc.range_line_align
                                      (Loc.mkRange (Loc.mkLocation sl sc)
                                                   (Loc.mkLocation el ec)))) = sl).
  { unfold Loc.range_line_align. cbn [Loc.stop Loc.col Loc.start Loc.line].
    destruct (ec =? 0)%Z; reflexivity. }
  rewrite Hs, He', Hl. repeat split.
Qed.

Lemma function_scope_lines_witness :
  exists s n c more_nodes more_contents,
    _nested_scopes toy_scope_type toy_scope_name
      (TsNode "function_definition"
              (Loc.mkRange (Loc.mkLocation 1 0) (Loc.mkLocation 2 8)) []) = [s]
    /\ nodes (recurse_one "a.py" (splitlines IndexingDefs.decorated_source) s "a"
                          (mkState [] [] [] 0))
       = [] ++ n :: more_nodes
    /\ contents (recurse_one "a.py" (splitlines IndexingDefs.decorated_source) s "a"
                             (mkState [] [] [] 0))
       = [] ++ c :: more_contents
    /\ Graph.type n = Graph.FUNCTION
    /\ Graph.file_name n = "a.py"
    /\ Graph.line n = 1%Z
    /\ Graph.end_line n = Some 3%Z.
Proof.
  destruct (function_scope_lines toy_scope_type toy_scope_name
              (TsNode "function_definition"
                      (Loc.mkRange (Loc.mkLocation 1 0) (Loc.mkLocation 2 8)) [])
              "a.py" (splitlines IndexingDefs.decorated_source) "a"
              (mkState [] [] [] 0) eq_refl)
    as [s [n [c [mn [mc [H1 [H2 [H3 [H4 [H5 [H6 [H7 _]]]]]]]]]]]].
  exists s, n, c, mn, mc. repeat split; assumption.
Defined.

End ScopeProps.

(** ** hybrid_search.py: the terms that reach the text query *)

Module TermProps.
Import QueryTerms TermDefs.

Lemma no_separator_app (a b : string) :
  no_separator (a ++ b) = no_separator a && no_separator b.
Proof.
  induction a as [|c a IH]; cbn [String.append no_separator]; [reflexivity|].
  now rewrite IH, andb_assoc.
Qed.

Lemma re_split_clean (s : string) :
  forall cur in_run,
    no_separator cur = true ->
    Forall (fun t => no_separator t = true) (re_split cur in_run s).
Proof.
  induction s as [|c s IH]; intros cur in_run Hcur; cbn [re_split].
  - now constructor.
  - destruct (is_separator c) eqn:Hc.
    + destruct in_run; [|constructor; [exact Hcur|]]; now apply IH.
    + apply IH. rewrite no_separator_app, Hcur. cbn [no_separator]. now rewrite Hc.
Qed.

Lemma lstrip_clean (s : string) :
  no_separator s = true -> no_separator (CodeIndexing.lstrip s) = true.
Proof.
  induction s as [|c s IH]; intros H; cbn [CodeIndexing.lstrip]; [reflexivity|].
  destruct (CodeIndexing.is_space c); [|exact H].
  cbn [no_separator] in H. apply andb_true_iff in H. now apply IH.
Qed.

Lemma rstrip_clean (s : string) :
  no_separator s = true -> no_separator (CodeIndexing.rstrip s) = true.
Proof.
  induction s as [|c s IH]; intros H; cbn [CodeIndexing.rstrip]; [reflexivity|].
  cbn [no_separator] in H. apply andb_true_iff in H. destruct H as [Hc Hs].
  specialize (IH Hs). destruct (CodeIndexing.rstrip s) as [|c' r].
  - destruct (CodeIndexing.is_space c); [reflexivity|].
    cbn [no_separator]. now rewrite Hc.
  - cbn [no_separator] in *. now rewrite Hc, IH.
Qed.

Lemma escape_clean (s : string) :
  no_separator s = true -> no_separator (escape s) = true.
Proof.
  induction s as [|c s IH]; intros H; cbn [escape]; [reflexivity|].
  cbn [no_separator] in H. apply andb_true_iff in H. destruct H as [Hc Hs].
  destruct (Ascii.eqb c GlobMatch.backslash).
  - cbn [no_separator]. rewrite (IH Hs). reflexivity.
  - cbn [no_separator]. now rewrite Hc, IH.
Qed.

Lemma escape_nonempty (s : string) : s <> "" -> escape s <> "".
Proof.
  destruct s as [|c s]; [congruence|]. intros _. cbn [escape].
  destruct (Ascii.eqb c GlobMatch.backslash); discriminate.
Qed.

Lemma separator_quotes (c : ascii) :
  is_separator c = false ->
  Nat.eqb (nat_of_ascii c) 39 = false /\ Nat.eqb (nat_of_ascii c) 34 = false.
Proof.
  unfold is_separator. intros H.
  repeat (apply orb_false_iff in H; destruct H as [H ?]). auto.
Qed.

Lemma no_separator_no_quote (s : string) :
  no_separator s = true -> no_quote s = true.
Proof.
  induction s as [|c s IH]; intros H; cbn [no_quote]; [reflexivity|].
  cbn [no_separator] in H. apply andb_true_iff in H. destruct H as [Hc Hs].
  apply negb_true_iff in Hc. destruct (separator_quotes c Hc) as [H1 H2].
  now rewrite H1, H2, IH.
Qed.

(** X28.  Whatever the query, the terms that [Code.search] hands to the
    text index are never empty and hold none of the characters the query
    is split at: no blank, no newline, no dot, no bracket, no slash, no
    hyphen, and in particular no single or double quote, so a term
    cannot close the quotes it is put in. *)
Theorem query_terms_clean (query : string) :
  Forall (fun t => t <> "" /\ no_separator t = true /\ no_quote t = true)
         (query_terms query).
Proof.
  unfold query_terms. apply Forall_forall. intros t Ht.
  apply in_map_iff in Ht. destruct Ht as [term [<- Hterm]].
  apply filter_In in Hterm. destruct Hterm as [Hin Htruthy].
  assert (Hclean : no_separator term = true).
  { pose proof (re_split_clean query "" false eq_refl) as HF.
    rewrite Forall_forall in HF. now apply HF. }
  assert (Hstrip : no_separator (CodeIndexing.strip term) = true).
  { unfold CodeIndexing.strip. now apply rstrip_clean, lstrip_clean. }
  split.
  - apply escape_nonempty. now apply EmbedFacts.truthy_nonempty.
  - split; [now apply escape_clean|].
    now apply no_separator_no_quote, escape_clean.
Qed.

End TermProps.

(** ** graph_rag/__init__.py: no node twice *)

Module DistinctProps.
Import Graph SearchDefs.

Lemma set_keys (m : Dict.t) (k : Dict.key) (v : Q) :
  map fst (Dict.set m k v)
  = if has_key m k then map fst m else map fst m ++ [k].
Proof.
  unfold has_key. induction m as [|[k' v'] m IH]; cbn [Dict.set map fst existsb];
    [reflexivity|].
  destruct (Dict.key_eqb k' k); cbn [map fst orb]; [reflexivity|].
  rewrite IH. now destruct (existsb _ (map fst m)).
Qed.

Lemma NoDup_snoc {A} (l : list A) (x : A) : NoDup l -> ~ In x l -> NoDup (l ++ [x]).
Proof.
  intros Hl Hx. apply NoDup_app; [exact Hl|repeat constructor; intros []|].
  intros a Ha [<-|[]]. contradiction.
Qed.

Lemma keys_grow (m : Dict.t) (k : Dict.key) :
  NoDup (map fst m) ->
  NoDup (if has_key m k then map fst m else map fst m ++ [k]).
Proof.
  intros H. destruct (has_key m k) eqn:E; [exact H|].
  apply NoDup_snoc; [exact H|]. intros Hin. apply SearchFacts.has_key_In in Hin.
  congruence.
Qed.

Lemma update_NoDup (pairs : list (Dict.key * Q)) :
  forall d, NoDup (map fst d) -> NoDup (map fst (Dict.update d pairs)).
Proof.
  unfold Dict.update. induction pairs as [|p pairs IH]; intros d H; cbn [fold_left];
    [exact H|].
  apply IH. rewrite set_keys. now apply keys_grow.
Qed.

Lemma accumulate_NoDup (pr : list (nat * Q)) :
  forall m, NoDup (map fst m) -> NoDup (map fst (GraphRag.accumulate m pr)).
Proof.
  unfold GraphRag.accumulate. induction pr as [|p pr IH]; intros m H; cbn [fold_left];
    [exact H|].
  apply IH. rewrite SearchFacts.add_keys. now apply keys_grow.
Qed.

Lemma rank_NoDup (eng : GraphRag.Engine) (g : PyDiGraph) (only_tests : bool)
    (p merged : Dict.t) :
  NoDup (map fst p) -> GraphRag.rank eng g only_tests p = Ok merged ->
  NoDup (map fst merged).
Proof.
  intros Hp. unfold GraphRag.rank.
  destruct (mapM _ _) as [w1|]; cbn [bind]; [|discriminate].
  destruct (GraphRag.pagerank eng g w1 p) as [pr1|].
  - destruct (mapM _ _) as [w2|]; cbn [bind]; [|discriminate].
    destruct (GraphRag.pagerank eng g w2 p) as [pr2|]; intros H; inversion H; subst.
    + apply accumulate_NoDup, accumulate_NoDup. constructor.
    + exact Hp.
  - intros H. inversion H; subst. exact Hp.
Qed.

Lemma insert_desc_NoDup {A B} (f : A -> B) (score : A -> Q) (x : A) (l : list A) :
  NoDup (map f (x :: l)) -> NoDup (map f (Dict.insert_desc score x l)).
Proof.
  induction l as [|y l IH]; intros H; cbn [Dict.insert_desc]; [exact H|].
  destruct (Qlt_le_dec (score x) (score y)); [|exact H].
  cbn [map] in *. inversion H as [|? ? Hx Hyl]; subst.
  inversion Hyl as [|? ? Hy Hl]; subst. constructor.
  - intros Hin. apply in_map_iff in Hin. destruct Hin as [z [Hz Hin]].
    apply SortFacts.insert_desc_In in Hin. destruct Hin as [->|Hin].
    + apply Hx. left. now symmetry.
    + apply Hy. rewrite <- Hz. now apply in_map.
  - apply IH. constructor; [|exact Hl]. intros Hin. apply Hx. now right.
Qed.

Lemma sorted_desc_NoDup {A B} (f : A -> B) (score : A -> Q) (l : list A) :
  NoDup (map f l) -> NoDup (map f (Dict.sorted_desc score l)).
Proof.
  unfold Dict.sorted_desc. induction l as [|x l IH]; intros H; cbn [fold_right];
    [exact H|].
  cbn [map] in H. inversion H as [|? ? Hx Hl]; subst.
  apply insert_desc_NoDup. cbn [map]. constructor; [|now apply IH].
  intros Hin. apply Hx. apply in_map_iff in Hin. destruct Hin as [z [Hz Hin]].
  apply SortFacts.sorted_desc_In in Hin. rewrite <- Hz. now apply in_map.
Qed.

Lemma firstn_NoDup {A} (n : nat) (l : list A) : NoDup l -> NoDup (firstn n l).
Proof.
  revert l. induction n as [|n IH]; intros l H; [constructor|].
  destruct l as [|x l]; [constructor|]. inversion H; subst. cbn [firstn].
  constructor; [|now apply IH]. intros Hin. apply SortFacts.firstn_incl in Hin.
  contradiction.
Qed.

Lemma keys_of_nodes (g : PyDiGraph) (keys : list Dict.key) (ns : list KGNode) :
  indexed g -> get_nodes g keys = Ok ns -> map id ns = keys.
Proof.
  intros Hidx H. pose proof (mapM_Forall2 _ _ _ H) as HF. clear H.
  induction HF as [|k n keys ns Hk _ IH]; [reflexivity|].
  cbn [map]. now rewrite IH, (SearchFacts.get_node_by_key_id g k n Hidx Hk).
Qed.

Lemma combine_filter_NoDup {A B} (f : A * B -> bool) (la : list A) :
  NoDup la -> forall lb, NoDup (map fst (filter f (combine la lb))).
Proof.
  induction 1 as [|a la Ha _ IH]; intros lb; [constructor|].
  destruct lb as [|b lb]; [constructor|]. cbn [combine filter].
  destruct (f (a, b)); [|apply IH]. cbn [map fst]. constructor; [|apply IH].
  intros Hin. apply Ha. apply in_map_iff in Hin. destruct Hin as [[a' b'] [Heq Hin]].
  cbn [fst] in Heq. subst a'. apply filter_In in Hin. destruct Hin as [Hin _].
  now apply in_combine_l in Hin.
Qed.

(** X29.  [search] never returns a node twice: when every node of the
    graph that is searched carries its own index as id, the nodes of the
    result are pairwise distinct, and so are their ids. *)
Theorem search_distinct (eng : GraphRag.Engine) (self self' : GraphRag.t)
    (query : string) (seeds : option (list KGNode)) (ov : GraphRag.overlay)
    (only_tests : bool) (tbl : HybridSearch.Table)
    (hits : list (HybridSearch.Code * Q)) (out : list (KGNode * Q)) :
  GraphRag.retrieve eng self query ov tbl = Ok (self', hits) ->
  GraphRag.search eng self query seeds ov only_tests tbl = Ok out ->
  indexed (GraphRag._graph self') ->
  NoDup (map fst out) /\ NoDup (map (fun p => id (fst p)) out).
Proof.
  intros Hret Hsearch Hidx. unfold GraphRag.search in Hsearch.
  rewrite Hret in Hsearch. cbn [bind fst snd] in Hsearch.
  unfold GraphRag.select in Hsearch.
  set (pers0 := Dict.of_pairs _) in Hsearch.
  assert (Hp0 : NoDup (map fst pers0)).
  { unfold pers0, Dict.of_pairs. apply update_NoDup. constructor. }
  match type of Hsearch with
  | bind ?m _ = _ => destruct m as [pers|x] eqn:Hpers; cbn [bind] in Hsearch;
                     [|discriminate]
  end.
  assert (Hp : NoDup (map fst pers)).
  { destruct seeds as [[|s0 ss]|]; try (inversion Hpers; subst; exact Hp0).
    destruct (mapM _ (s0 :: ss)) as [pairs|]; cbn [bind] in Hpers; [|discriminate].
    inversion Hpers; subst. now apply update_NoDup. }
  destruct (GraphRag.rank eng (GraphRag._graph self') only_tests pers)
    as [merged|x] eqn:Hrank; cbn [bind] in Hsearch; [|discriminate].
  pose proof (rank_NoDup _ _ _ _ _ Hp Hrank) as Hm.
  destruct (SortFacts.slice_prefix (Dict.sorted_desc snd merged)
              (GraphRag.graph_top self')) as [n Hn].
  rewrite Hn in Hsearch.
  destruct (get_nodes _ _) as [ns|x] eqn:Hns; cbn [bind] in Hsearch; [|discriminate].
  inversion Hsearch; subst out; clear Hsearch.
  pose proof (keys_of_nodes _ _ _ Hidx Hns) as Hkeys.
  assert (Hids : NoDup (map id ns)).
  { rewrite Hkeys, <- firstn_map. apply firstn_NoDup. now apply sorted_desc_NoDup. }
  assert (Hnodes : NoDup ns) by exact (NoDup_map_inv id ns Hids).
  split; [now apply combine_filter_NoDup|].
  rewrite <- (map_map (@fst KGNode Q) id).
  assert (Hincl : forall l : list (KGNode * Q),
             NoDup (map fst l) -> (forall p, In p l -> In (fst p) ns) ->
             NoDup (map id (map fst l))).
  { intros l. induction l as [|p l IH]; intros Hl Hsub; [constructor|].
    cbn [map] in *. inversion Hl as [|? ? Hx Hl']; subst. constructor.
    - intros Hin. apply in_map_iff in Hin. destruct Hin as [m [Hm' Hin]].
      assert (Hmn : In m ns).
      { apply in_map_iff in Hin. destruct Hin as [q [<- Hq]]. apply Hsub. now right. }
      assert (Hpn : In (fst p) ns) by (apply Hsub; now left).
      assert (m = fst p); [|subst m; contradiction].
      clear -Hids Hm' Hmn Hpn. induction ns as [|a ns IHn]; [contradiction|].
      cbn [map] in Hids. inversion Hids as [|? ? Ha Hids']; subst.
      destruct Hmn as [Hmn|Hmn], Hpn as [Hpn|Hpn].
      + congruence.
      + exfalso. apply Ha. rewrite Hmn, Hm'. now apply in_map.
      + exfalso. apply Ha. rewrite Hpn, <- Hm'. now apply in_map.
      + now apply IHn.
    - apply IH; [exact Hl'|]. intros q Hq. apply Hsub. now right. }
  apply Hincl; [now apply combine_filter_NoDup|].
  intros p Hp'. apply filter_In in Hp'. destruct Hp' as [Hp' _].
  destruct p as [a b]. now apply in_combine_l in Hp'.
Qed.

Lemma search_distinct_witness :
  NoDup (map fst tied_results) /\ NoDup (map (fun p => id (fst p)) tied_results).
Proof.
  refine (search_distinct converging_engine (GraphRag.make 7 two_node_graph)
            (GraphRag.make 7 two_node_graph) "foo" None [] false two_row_table
            (map (fun r => (HybridSearch.from_db_row r, 1%Q))
                 (HybridSearch.rows two_row_table))
            tied_results _ _ _).
  - vm_compute. reflexivity.
  - vm_compute. reflexivity.
  - intros k m H. cbn in H. destruct H as [H|[H|[]]]; inversion H; reflexivity.
Defined.

End DistinctProps.

(** ** graph.py: reading a node dictionary *)

Module NodeDictProps.
Import Graph NodeDictDefs.

Lemma item_get (d : Py.sdict) (k v : string) : Py.item d k = Ok v -> Py.get d k = Some v.
Proof.
  unfold Py.item. destruct (Py.get d k); intros H; inversion H; reflexivity.
Qed.

Lemma type_of_name_inv (s : string) (ty : KGNodeType) :
  type_of_name s = Ok ty -> s = type_name ty.
Proof.
  unfold type_of_name.
  destruct (String.eqb_spec s "FILE"); [intros H; inversion H; now subst|].
  destruct (String.eqb_spec s "CLASS"); [intros H; inversion H; now subst|].
  destruct (String.eqb_spec s "FUNCTION"); [intros H; inversion H; now subst|].
  discriminate.
Qed.

(** X30.  When [from_str_dict] accepts a dictionary, the dictionary has
    the keys ["type"], ["symbol"], ["file_name"], ["db_id"] and ["id"],
    and the node has the type, symbol and file name found there; a
    missing ["line"] gives line 0 and a missing ["end_line"] gives no end
    line. *)
Theorem from_str_dict_defaults (d : Py.sdict) (n : KGNode) :
  from_str_dict d = Ok n ->
  Py.get d "type" = Some (type_name (type n))
  /\ Py.get d "symbol" = Some (symbol n)
  /\ Py.get d "file_name" = Some (file_name n)
  /\ Py.get d "db_id" <> None
  /\ Py.get d "id" <> None
  /\ (Py.get d "line" = None -> line n = 0%Z)
  /\ (Py.get d "end_line" = None -> end_line n = None).
Proof.
  unfold from_str_dict. intros H.
  destruct (Py.item d "type") as [ty_s|] eqn:Ety; cbn [bind] in H; [|discriminate].
  destruct (type_of_name ty_s) as [ty|] eqn:Ety'; cbn [bind] in H; [|discriminate].
  destruct (Py.item d "symbol") as [sym|] eqn:Esym; cbn [bind] in H; [|discriminate].
  destruct (Py.item d "file_name") as [fname|] eqn:Ef; cbn [bind] in H; [|discriminate].
  destruct (Py.int_of_str (Py.get_default d "line" "0")) as [ln|] eqn:Eln;
    cbn [bind] in H; [|discriminate].
  destruct (opt_int_of_str (Py.get_default d "end_line" "None")) as [eln|] eqn:Eeln;
    cbn [bind] in H; [|discriminate].
  destruct (Py.item d "db_id") as [dbs|] eqn:Edb; cbn [bind] in H; [|discriminate].
  destruct (opt_int_of_str dbs) as [dbi|]; cbn [bind] in H; [|discriminate].
  destruct (Py.item d "id") as [ids|] eqn:Eid; cbn [bind] in H; [|discriminate].
  destruct (opt_int_of_str ids) as [i|]; cbn [bind] in H; [|discriminate].
  inversion H; subst n; clear H. cbn [type symbol file_name line end_line].
  apply type_of_name_inv in Ety'. subst ty_s.
  split; [exact (item_get _ _ _ Ety)|]. split; [exact (item_get _ _ _ Esym)|].
  split; [exact (item_get _ _ _ Ef)|].
  split; [rewrite (item_get _ _ _ Edb); discriminate|].
  split; [rewrite (item_get _ _ _ Eid); discriminate|].
  split.
  - intros Hnone. unfold Py.get_default in Eln. rewrite Hnone in Eln.
    vm_compute in Eln. now inversion Eln.
  - intros Hnone. unfold Py.get_default in Eeln. rewrite Hnone in Eeln.
    vm_compute in Eeln. now inversion Eeln.
Qed.

Lemma from_str_dict_defaults_witness :
  from_str_dict old_node_dict = Ok (mkKGNode FILE "a" "a.py" 0 None None (Some 3%Z))
  /\ Py.get old_node_dict "db_id" <> None.
Proof.
  assert (H : from_str_dict old_node_dict
              = Ok (mkKGNode FILE "a" "a.py" 0 None None (Some 3%Z)))
    by (vm_compute; reflexivity).
  split; [exact H|].
  exact (proj1 (proj2 (proj2 (proj2 (from_str_dict_defaults _ _ H))))).
Defined.

End NodeDictProps.
